(** * OptDePng: a shallow embedding of the PNG reverse-filter kernels

    The development follows the layout of the C++ sources:
    - the scalar helpers ([Sum], [UDiv3], [Abs], [Avg], [PaethRef], [PaethOpt]),
    - the reference kernel [OptDePngFilterRef],
    - the template kernel [OptDePngFilterOpt_T] and its dispatcher,
    - the SSE2 kernel [OptDePngFilterSSE2_T] and its dispatcher,
    - the test harness ([OptDePngRandomImage], [OptDePngCompare]).

    Integers of the program are modelled as [Z] with the wrap-around
    written out; the image buffer is a [list Z] of bytes addressed by
    offsets; a memory access outside the buffer, or through the null
    pointer, is a fault ([None]). *)

From Stdlib Require Import ZArith List Lia Bool.
Import ListNotations.
Local Open Scope Z_scope.

(** ** Machine integers *)

Definition u32 (x : Z) : Z := x mod 4294967296.
Definition u8 (x : Z) : Z := x mod 256.
Definition i32 (x : Z) : Z := (x + 2147483648) mod 4294967296 - 2147483648.

(** ** The error monad of memory accesses *)

Definition bind {A B : Type} (x : option A) (f : A -> option B) : option B :=
  match x with
  | Some a => f a
  | None => None
  end.

Notation "x <- e ;; k" := (bind e (fun x => k))
  (at level 61, e at next level, right associativity).
Notation "' pat <- e ;; k" := (bind e (fun x => match x with pat => k end))
  (at level 61, pat pattern, e at next level, right associativity).

(** [iter n f s] runs the loop body [f] exactly [n] times, stopping at the
    first fault. *)
Fixpoint iter {S : Type} (n : nat) (f : S -> option S) (s : S) : option S :=
  match n with
  | O => Some s
  | S n' => s' <- f s ;; iter n' f s'
  end.

(** ** Memory: one buffer of bytes, addressed by offset *)

Definition mem := list Z.

Definition len (m : mem) : Z := Z.of_nat (length m).

Definition in_bounds (m : mem) (a n : Z) : bool :=
  (0 <=? a) && (a + n <=? len m).

(** [loadn m a n]: the [n] bytes at offsets [a .. a+n-1]. *)
Definition loadn (m : mem) (a : Z) (n : nat) : option (list Z) :=
  if in_bounds m a (Z.of_nat n)
  then Some (firstn n (skipn (Z.to_nat a) m))
  else None.

(** [upd m a l]: the buffer [m] with the bytes at offsets [a .. a+|l|-1]
    overwritten by [l]. *)
Definition upd (m : mem) (a : Z) (l : list Z) : mem :=
  firstn (Z.to_nat a) m ++ l ++ skipn (Z.to_nat a + length l) m.

(** [storen m a l]: the store of [l] at offset [a]; it faults out of bounds. *)
Definition storen (m : mem) (a : Z) (l : list Z) : option mem :=
  if in_bounds m a (len l) then Some (upd m a l) else None.

Definition ld (m : mem) (a : Z) : option Z :=
  if in_bounds m a 1 then nth_error m (Z.to_nat a) else None.

Definition st (m : mem) (a v : Z) : option mem := storen m a [v].

(** The previous-row cursor [u] starts as the null pointer. *)
Definition ptr := option Z.

Definition NULL : ptr := None.

Definition padd (u : ptr) (k : Z) : ptr :=
  match u with
  | Some a => Some (a + k)
  | None => None
  end.

(** [u[k]]: a read through the null pointer faults. *)
Definition ldu (m : mem) (u : ptr) (k : Z) : option Z :=
  match u with
  | Some a => ld m (a + k)
  | None => None
  end.

(** ** optdepng.h *)

Definition kPngFilterNone : Z := 0.
Definition kPngFilterSub : Z := 1.
Definition kPngFilterUp : Z := 2.
Definition kPngFilterAvg : Z := 3.
Definition kPngFilterPaeth : Z := 4.
Definition kPngFilterCount : Z := 5.

(** ** Helpers *)

Definition Min (a b : Z) : Z := if a <? b then a else b.
Definition Max (a b : Z) : Z := if a >? b then a else b.

(** [Sum]: [(uint8_t)((a + b) & 0xFF)] on [uint32_t]. *)
Definition Sum (a b : Z) : Z := u8 (Z.land (u32 (a + b)) 255).

(** [UDiv3]: [(x * 0xAB) >> 9] on [int32_t]. *)
Definition UDiv3 (x : Z) : Z := Z.shiftr (i32 (x * 171)) 9.

Definition Abs (x : Z) : Z := if x >=? 0 then x else i32 (- x).

(** [Avg]: [(a + b) >> 1] on [uint32_t]. *)
Definition Avg (a b : Z) : Z := Z.shiftr (u32 (a + b)) 1.

Definition PaethRef (b a c : Z) : Z :=
  let pa := i32 (i32 b - i32 c) in
  let pb := i32 (i32 a - i32 c) in
  let pc := i32 (pa + pb) in
  let pa := Abs pa in
  let pb := Abs pb in
  let pc := Abs pc in
  if (pa <=? pb) && (pa <=? pc) then a else if pb <=? pc then b else c.

Definition PaethOpt (a b c : Z) : Z :=
  let minAB := i32 (Min a b) in
  let maxAB := i32 (Max a b) in
  let divAB := UDiv3 (i32 (maxAB - minAB)) in
  let minAB := i32 (minAB - i32 c) in
  let maxAB := i32 (maxAB - i32 c) in
  u32 (c + Z.land maxAB (Z.lnot (Z.shiftr (i32 (divAB + minAB)) 31))
         + Z.land minAB (Z.lnot (Z.shiftr (i32 (divAB - maxAB)) 31))).

(** ** The scalar loops shared by the three kernels

    Each [*_step] is one iteration of the corresponding [for] loop; the
    state holds the buffer and the cursors the loop advances. *)

(** [for (i = ...; i != 0; i--, p++) p[bpp] = Sum(p[bpp], p[0]);] *)
Definition sub_step (bpp : Z) (s : mem * Z) : option (mem * Z) :=
  let '(m, p) := s in
  x <- ld m (p + bpp) ;;
  y <- ld m p ;;
  m' <- st m (p + bpp) (Sum x y) ;;
  Some (m', p + 1).

(** [for (i = ...; i != 0; i--, p++, u++) p[0] = Sum(p[0], u[0]);] *)
Definition up_step (s : mem * Z * ptr) : option (mem * Z * ptr) :=
  let '(m, p, u) := s in
  x <- ld m p ;;
  y <- ldu m u 0 ;;
  m' <- st m p (Sum x y) ;;
  Some (m', p + 1, padd u 1).

(** [for (i = 0; i < bpp; i++) p[i] = Sum(p[i], u[i] >> 1);] *)
Definition avg_head_step (p : Z) (u : ptr) (s : mem * Z) : option (mem * Z) :=
  let '(m, i) := s in
  x <- ld m (p + i) ;;
  y <- ldu m u i ;;
  m' <- st m (p + i) (Sum x (Z.shiftr y 1)) ;;
  Some (m', i + 1).

(** [for (i = ...; i != 0; i--, p++, u++) p[bpp] = Sum(p[bpp], Avg(p[0], u[0]));] *)
Definition avg_step (bpp : Z) (s : mem * Z * ptr) : option (mem * Z * ptr) :=
  let '(m, p, u) := s in
  x <- ld m (p + bpp) ;;
  a <- ld m p ;;
  b <- ldu m u 0 ;;
  m' <- st m (p + bpp) (Sum x (Avg a b)) ;;
  Some (m', p + 1, padd u 1).

(** [for (i = 0; i < bpp; i++) p[i] = Sum(p[i], u[i]);] *)
Definition paeth_head_step (p : Z) (u : ptr) (s : mem * Z) : option (mem * Z) :=
  let '(m, i) := s in
  x <- ld m (p + i) ;;
  y <- ldu m u i ;;
  m' <- st m (p + i) (Sum x y) ;;
  Some (m', i + 1).

(** [for (i = ...; i != 0; i--, p++, u++)
      p[bpp] = Sum(p[bpp], Paeth(p[0], u[bpp], u[0]));]
    with [Paeth] either [PaethRef] or [PaethOpt]. *)
Definition paeth_step (Paeth : Z -> Z -> Z -> Z) (bpp : Z)
    (s : mem * Z * ptr) : option (mem * Z * ptr) :=
  let '(m, p, u) := s in
  x <- ld m (p + bpp) ;;
  a <- ld m p ;;
  b <- ldu m u bpp ;;
  c <- ldu m u 0 ;;
  m' <- st m (p + bpp) (Sum x (Paeth a b c)) ;;
  Some (m', p + 1, padd u 1).

(** The number of iterations of [do { ... } while (--y != 0)] started with
    [y = h]: a zero [h] wraps around. *)
Definition do_while_count (h : Z) : nat :=
  Z.to_nat (if h =? 0 then 4294967296 else h).

(** ** Implementation - Reference *)

(** One iteration of the row loop: [p] points at the filter byte on entry,
    [bpl] is already decremented. *)
Definition ref_row (bpp bpl : Z) (s : mem * Z * ptr) : option (mem * Z * ptr) :=
  let '(m, p, u) := s in
  filter <- ld m p ;;
  let p := p + 1 in
  '(m, p, u) <-
    (if filter =? kPngFilterNone then
       Some (m, p + bpl, u)
     else if filter =? kPngFilterSub then
       '(m, p) <- iter (Z.to_nat (u32 (bpl - bpp))) (sub_step bpp) (m, p) ;;
       Some (m, p + bpp, u)
     else if filter =? kPngFilterUp then
       iter (Z.to_nat bpl) up_step (m, p, u)
     else if filter =? kPngFilterAvg then
       '(m, _) <- iter (Z.to_nat bpp) (avg_head_step p u) (m, 0) ;;
       let u := padd u bpp in
       '(m, p, u) <- iter (Z.to_nat (u32 (bpl - bpp))) (avg_step bpp) (m, p, u) ;;
       Some (m, p + bpp, u)
     else if filter =? kPngFilterPaeth then
       '(m, _) <- iter (Z.to_nat bpp) (paeth_head_step p u) (m, 0) ;;
       '(m, p, u) <- iter (Z.to_nat (u32 (bpl - bpp))) (paeth_step PaethRef bpp) (m, p, u) ;;
       Some (m, p + bpp, u)
     else Some (m, p, u)) ;;
  Some (m, p, Some (p - bpl)).

Definition OptDePngFilterRef (m : mem) (h bpp bpl : Z) : option mem :=
  let bpl := u32 (bpl - 1) in
  '(m, _, _) <- iter (do_while_count h) (ref_row bpp bpl) (m, 0, NULL) ;;
  Some m.

(** ** Implementation - Template *)

Definition opt_row (bpp bpl : Z) (s : mem * Z * ptr) : option (mem * Z * ptr) :=
  let '(m, p, u) := s in
  filter <- ld m p ;;
  let p := p + 1 in
  '(m, p, u) <-
    (if filter =? kPngFilterNone then
       Some (m, p + bpl, u)
     else if filter =? kPngFilterSub then
       '(m, p) <- iter (Z.to_nat (u32 (bpl - bpp))) (sub_step bpp) (m, p) ;;
       Some (m, p + bpp, u)
     else if filter =? kPngFilterUp then
       iter (Z.to_nat bpl) up_step (m, p, u)
     else if filter =? kPngFilterAvg then
       '(m, _) <- iter (Z.to_nat bpp) (avg_head_step p u) (m, 0) ;;
       let u := padd u bpp in
       '(m, p, u) <- iter (Z.to_nat (u32 (bpl - bpp))) (avg_step bpp) (m, p, u) ;;
       Some (m, p + bpp, u)
     else if filter =? kPngFilterPaeth then
       '(m, _) <- iter (Z.to_nat bpp) (paeth_head_step p u) (m, 0) ;;
       '(m, p, u) <- iter (Z.to_nat (u32 (bpl - bpp))) (paeth_step PaethRef bpp) (m, p, u) ;;
       Some (m, p + bpp, u)
     else Some (m, p, u)) ;;
  Some (m, p, Some (p - bpl)).

Definition OptDePngFilterOpt_T (bpp : Z) (m : mem) (h bpl : Z) : option mem :=
  let bpl := u32 (bpl - 1) in
  '(m, _, _) <- iter (do_while_count h) (opt_row bpp bpl) (m, 0, NULL) ;;
  Some m.

(** The dispatch [switch (bpp)] has no [default] case. *)
Definition OptDePngFilterOpt (m : mem) (h bpp bpl : Z) : option mem :=
  if bpp =? 1 then OptDePngFilterOpt_T 1 m h bpl
  else if bpp =? 2 then OptDePngFilterOpt_T 2 m h bpl
  else if bpp =? 3 then OptDePngFilterOpt_T 3 m h bpl
  else if bpp =? 4 then OptDePngFilterOpt_T 4 m h bpl
  else if bpp =? 6 then OptDePngFilterOpt_T 6 m h bpl
  else if bpp =? 8 then OptDePngFilterOpt_T 8 m h bpl
  else Some m.


(** ** optglobals.h *)

(** [OptAlignDiff(p, alignment)] on the address [addr] of [p]. *)
Definition OptAlignDiff (addr alignment : Z) : Z :=
  let mask := u32 (alignment - 1) in
  Z.land (u32 (alignment - u32 (Z.land addr mask))) mask.

(** ** The SSE2 vector unit

    A [__m128i] register is the list of its 16 bytes, lowest address (lane 0)
    first.  The intrinsics of [emmintrin.h] are not part of the sources of
    the library; they are written here after the instruction set reference:
    byte moves are list operations, lane arithmetic goes through the
    little-endian value of each lane. *)

Definition m128i := list Z.

Fixpoint zipWith {A B C : Type} (f : A -> B -> C) (a : list A) (b : list B) : list C :=
  match a, b with
  | x :: a', y :: b' => f x y :: zipWith f a' b'
  | _, _ => []
  end.

Definition zeros (n : nat) : list Z := repeat 0 n.

(** Little-endian bytes of the low [8 * n] bits of [x], and back. *)
Fixpoint bytes_le (n : nat) (x : Z) : list Z :=
  match n with
  | O => []
  | S n' => x mod 256 :: bytes_le n' (x / 256)
  end.

Fixpoint le_val (l : list Z) : Z :=
  match l with
  | [] => 0
  | b :: t => b + 256 * le_val t
  end.

Fixpoint chunks (k n : nat) (l : list Z) : list (list Z) :=
  match n with
  | O => []
  | S n' => firstn k l :: chunks k n' (skipn k l)
  end.

(** The [16 / k] lanes of [k] bytes of a register, as unsigned integers. *)
Definition lanes (k : nat) (v : m128i) : list Z :=
  map le_val (chunks k (16 / k) v).

(** A register from lane values; each value is truncated to its lane. *)
Definition of_lanes (k : nat) (l : list Z) : m128i :=
  flat_map (bytes_le k) l.

Definition lane_map (k : nat) (f : Z -> Z) (a : m128i) : m128i :=
  of_lanes k (map f (lanes k a)).

Definition lane_map2 (k : nat) (f : Z -> Z -> Z) (a b : m128i) : m128i :=
  of_lanes k (zipWith f (lanes k a) (lanes k b)).

Definition signed16 (x : Z) : Z := if x <? 32768 then x else x - 65536.

Definition satu8 (x : Z) : Z := if x <? 0 then 0 else if 255 <? x then 255 else x.

Fixpoint interleave (k : nat) (a b : list Z) (n : nat) : list Z :=
  match n with
  | O => []
  | S n' => firstn k a ++ firstn k b ++ interleave k (skipn k a) (skipn k b) n'
  end.

(** [_MM_SHUFFLE(z, y, x, w)]: the four lane selectors of a shuffle, kept
    apart instead of packed into one immediate byte. *)
Definition _MM_SHUFFLE (z y x w : nat) : nat * nat * nat * nat := (z, y, x, w).

Definition shuffle4 (k : nat) (l : list Z) (s : nat * nat * nat * nat) : list Z :=
  let '(z, y, x, w) := s in
  let c := chunks k 4 l in
  nth w c [] ++ nth x c [] ++ nth y c [] ++ nth z c [].

Definition _mm_setzero_si128 : m128i := zeros 16.
Definition _mm_set1_epi16 (x : Z) : m128i := of_lanes 2 (repeat x 8).
Definition _mm_set1_epi32 (x : Z) : m128i := of_lanes 4 (repeat x 4).
Definition _mm_setr_epi32 (e0 e1 e2 e3 : Z) : m128i := of_lanes 4 [e0; e1; e2; e3].

Definition _mm_cvtsi32_si128 (x : Z) : m128i := bytes_le 4 x ++ zeros 12.
Definition _mm_cvtsi128_si32 (a : m128i) : Z := le_val (firstn 4 a).

Definition _mm_add_epi8 (a b : m128i) : m128i :=
  zipWith (fun x y => (x + y) mod 256) a b.
Definition _mm_add_epi16 (a b : m128i) : m128i := lane_map2 2 Z.add a b.
Definition _mm_sub_epi16 (a b : m128i) : m128i := lane_map2 2 Z.sub a b.

Definition _mm_and_si128 (a b : m128i) : m128i := zipWith Z.land a b.
Definition _mm_or_si128 (a b : m128i) : m128i := zipWith Z.lor a b.
(** [(~a) & b] *)
Definition _mm_andnot_si128 (a b : m128i) : m128i :=
  zipWith (fun x y => Z.land (255 - x) y) a b.

(** Whole-register byte shifts. *)
Definition _mm_slli_si128 (a : m128i) (n : nat) : m128i :=
  zeros n ++ firstn (16 - n) a.
Definition _mm_srli_si128 (a : m128i) (n : nat) : m128i :=
  skipn n a ++ zeros n.

(** Lane shifts. *)
Definition _mm_slli_epi16 (a : m128i) (k : Z) : m128i :=
  lane_map 2 (fun x => Z.shiftl x k) a.
Definition _mm_srli_epi16 (a : m128i) (k : Z) : m128i :=
  lane_map 2 (fun x => Z.shiftr x k) a.
Definition _mm_srai_epi16 (a : m128i) (k : Z) : m128i :=
  lane_map 2 (fun x => Z.shiftr (signed16 x) k) a.
Definition _mm_srli_epi32 (a : m128i) (k : Z) : m128i :=
  lane_map 4 (fun x => Z.shiftr x k) a.
Definition _mm_slli_epi64 (a : m128i) (k : Z) : m128i :=
  lane_map 8 (fun x => Z.shiftl x k) a.
Definition _mm_srli_epi64 (a : m128i) (k : Z) : m128i :=
  lane_map 8 (fun x => Z.shiftr x k) a.

Definition _mm_min_epi16 (a b : m128i) : m128i :=
  lane_map2 2 (fun x y => Z.min (signed16 x) (signed16 y)) a b.
Definition _mm_max_epi16 (a b : m128i) : m128i :=
  lane_map2 2 (fun x y => Z.max (signed16 x) (signed16 y)) a b.
Definition _mm_mulhi_epu16 (a b : m128i) : m128i :=
  lane_map2 2 (fun x y => Z.shiftr (x * y) 16) a b.
(** The low 32 bits of each 64-bit lane are multiplied into 64 bits. *)
Definition _mm_mul_epu32 (a b : m128i) : m128i :=
  lane_map2 8 (fun x y => (x mod 4294967296) * (y mod 4294967296)) a b.

Definition _mm_packus_epi16 (a b : m128i) : m128i :=
  map (fun x => satu8 (signed16 x)) (lanes 2 a ++ lanes 2 b).

Definition _mm_unpacklo_epi8 (a b : m128i) : m128i := interleave 1 a b 8.
Definition _mm_unpackhi_epi8 (a b : m128i) : m128i :=
  interleave 1 (skipn 8 a) (skipn 8 b) 8.
Definition _mm_unpackhi_epi16 (a b : m128i) : m128i :=
  interleave 2 (skipn 8 a) (skipn 8 b) 4.
Definition _mm_unpackhi_epi32 (a b : m128i) : m128i :=
  interleave 4 (skipn 8 a) (skipn 8 b) 2.

Definition _mm_shuffle_epi32 (a : m128i) (s : nat * nat * nat * nat) : m128i :=
  shuffle4 4 a s.
Definition _mm_shufflelo_epi16 (a : m128i) (s : nat * nat * nat * nat) : m128i :=
  shuffle4 2 (firstn 8 a) s ++ skipn 8 a.
Definition _mm_shufflehi_epi16 (a : m128i) (s : nat * nat * nat * nat) : m128i :=
  firstn 8 a ++ shuffle4 2 (skipn 8 a) s.

(** Memory accesses.  [base] is the address of the first byte of the buffer;
    an aligned access to an address that is not a multiple of 16 faults. *)
Definition aligned16 (addr : Z) : bool := addr mod 16 =? 0.

Definition _mm_load_si128 (base : Z) (m : mem) (a : Z) : option m128i :=
  if aligned16 (base + a) then loadn m a 16 else None.
Definition _mm_loadu_si128 (m : mem) (a : Z) : option m128i := loadn m a 16.
Definition _mm_loadl_epi64 (m : mem) (a : Z) : option m128i :=
  l <- loadn m a 8 ;; Some (l ++ zeros 8).
Definition _mm_store_si128 (base : Z) (m : mem) (a : Z) (v : m128i) : option mem :=
  if aligned16 (base + a) then storen m a v else None.
Definition _mm_storel_epi64 (m : mem) (a : Z) (v : m128i) : option mem :=
  storen m a (firstn 8 v).

(** [reinterpret_cast<uint16_t*>(p)[0]] and [reinterpret_cast<uint32_t*>(p)[0]]
    on a little-endian machine. *)
Definition load_u16 (m : mem) (a : Z) : option Z :=
  l <- loadn m a 2 ;; Some (le_val l).
Definition load_u32 (m : mem) (a : Z) : option Z :=
  l <- loadn m a 4 ;; Some (le_val l).

(** [while (i >= k) { body; i -= k; }]; the fuel [Z.to_nat i] is never
    exhausted when [k >= 1]. *)
Fixpoint while_ge {S : Type} (fuel : nat) (k : Z) (body : S -> option S)
    (i : Z) (s : S) : option (Z * S) :=
  if i <? k then Some (i, s)
  else match fuel with
       | O => None
       | S fuel' => s' <- body s ;; while_ge fuel' k body (u32 (i - k)) s'
       end.

(** ** The macros of the SSE2 kernel *)

Definition PNG_SSE_SLL_ADDB_1X (P0 : m128i) (Shift : nat) : m128i * m128i :=
  let T0 := _mm_slli_si128 P0 Shift in
  let P0 := _mm_add_epi8 P0 T0 in
  (P0, T0).

Definition PNG_SSE_SLL_ADDB_2X (P0 P1 : m128i) (Shift : nat)
    : m128i * m128i * m128i * m128i :=
  let T0 := _mm_slli_si128 P0 Shift in
  let T1 := _mm_slli_si128 P1 Shift in
  let P0 := _mm_add_epi8 P0 T0 in
  let P1 := _mm_add_epi8 P1 T1 in
  (P0, T0, P1, T1).

Definition PNG_SSE_PAETH (rcp3 A B C : m128i) : m128i :=
  let MinAB := _mm_min_epi16 A B in
  let MaxAB := _mm_max_epi16 A B in
  let DivAB := _mm_mulhi_epu16 (_mm_sub_epi16 MaxAB MinAB) rcp3 in
  let MinAB := _mm_sub_epi16 MinAB C in
  let MaxAB := _mm_sub_epi16 MaxAB C in
  let Dst := _mm_add_epi16 C
      (_mm_andnot_si128 (_mm_srai_epi16 (_mm_add_epi16 DivAB MinAB) 15) MaxAB) in
  let Dst := _mm_add_epi16 Dst
      (_mm_andnot_si128 (_mm_srai_epi16 (_mm_sub_epi16 DivAB MaxAB) 15) MinAB) in
  Dst.


(** ** Implementation - SSE2 Optimized: the Sub filter

    The state of a vector loop is the buffer, the cursor [p] and the
    register [p0] that carries the last pixel into the next iteration.
    [base] is the address of the buffer. *)

Definition vstate : Type := mem * Z * m128i.

(** *** bpp = 1 *)

Definition sse2_sub64_bpp1 (base : Z) (s : vstate) : option vstate :=
  let '(m, p, p0) := s in
  x <- _mm_load_si128 base m (p + 1) ;;
  let p0 := _mm_add_epi8 p0 x in
  p1 <- _mm_load_si128 base m (p + 17) ;;
  p2 <- _mm_load_si128 base m (p + 33) ;;
  p3 <- _mm_load_si128 base m (p + 49) ;;
  let '(p0, t0, p2, t2) := PNG_SSE_SLL_ADDB_2X p0 p2 1 in
  let '(p0, t0, p2, t2) := PNG_SSE_SLL_ADDB_2X p0 p2 2 in
  let '(p0, t0, p2, t2) := PNG_SSE_SLL_ADDB_2X p0 p2 4 in
  let '(p0, t0, p2, t2) := PNG_SSE_SLL_ADDB_2X p0 p2 8 in
  m <- _mm_store_si128 base m (p + 1) p0 ;;
  let p0 := _mm_srli_si128 p0 15 in
  let t2 := _mm_srli_si128 p2 15 in
  let p1 := _mm_add_epi8 p1 p0 in
  let p3 := _mm_add_epi8 p3 t2 in
  let '(p1, t0, p3, t2) := PNG_SSE_SLL_ADDB_2X p1 p3 1 in
  let '(p1, t0, p3, t2) := PNG_SSE_SLL_ADDB_2X p1 p3 2 in
  let '(p1, t0, p3, t2) := PNG_SSE_SLL_ADDB_2X p1 p3 4 in
  let '(p1, t0, p3, t2) := PNG_SSE_SLL_ADDB_2X p1 p3 8 in
  m <- _mm_store_si128 base m (p + 17) p1 ;;
  let p1 := _mm_unpackhi_epi8 p1 p1 in
  let p1 := _mm_unpackhi_epi16 p1 p1 in
  let p1 := _mm_shuffle_epi32 p1 (_MM_SHUFFLE 3 3 3 3) in
  let p2 := _mm_add_epi8 p2 p1 in
  let p3 := _mm_add_epi8 p3 p1 in
  m <- _mm_store_si128 base m (p + 33) p2 ;;
  m <- _mm_store_si128 base m (p + 49) p3 ;;
  let p0 := _mm_srli_si128 p3 15 in
  Some (m, p + 64, p0).

Definition sse2_sub16_bpp1 (base : Z) (s : vstate) : option vstate :=
  let '(m, p, p0) := s in
  x <- _mm_load_si128 base m (p + 1) ;;
  let p0 := _mm_add_epi8 p0 x in
  let '(p0, t0) := PNG_SSE_SLL_ADDB_1X p0 1 in
  let '(p0, t0) := PNG_SSE_SLL_ADDB_1X p0 2 in
  let '(p0, t0) := PNG_SSE_SLL_ADDB_1X p0 4 in
  let '(p0, t0) := PNG_SSE_SLL_ADDB_1X p0 8 in
  m <- _mm_store_si128 base m (p + 1) p0 ;;
  let p0 := _mm_srli_si128 p0 15 in
  Some (m, p + 16, p0).

(** *** bpp = 2 *)

Definition sse2_sub64_bpp2 (base : Z) (s : vstate) : option vstate :=
  let '(m, p, p0) := s in
  x <- _mm_load_si128 base m (p + 2) ;;
  let p0 := _mm_add_epi8 p0 x in
  p1 <- _mm_load_si128 base m (p + 18) ;;
  p2 <- _mm_load_si128 base m (p + 34) ;;
  p3 <- _mm_load_si128 base m (p + 50) ;;
  let '(p0, t0, p2, t2) := PNG_SSE_SLL_ADDB_2X p0 p2 2 in
  let '(p0, t0, p2, t2) := PNG_SSE_SLL_ADDB_2X p0 p2 4 in
  let '(p0, t0, p2, t2) := PNG_SSE_SLL_ADDB_2X p0 p2 8 in
  m <- _mm_store_si128 base m (p + 2) p0 ;;
  let p0 := _mm_srli_si128 p0 14 in
  let t2 := _mm_srli_si128 p2 14 in
  let p1 := _mm_add_epi8 p1 p0 in
  let p3 := _mm_add_epi8 p3 t2 in
  let '(p1, t0, p3, t2) := PNG_SSE_SLL_ADDB_2X p1 p3 2 in
  let '(p1, t0, p3, t2) := PNG_SSE_SLL_ADDB_2X p1 p3 4 in
  let '(p1, t0, p3, t2) := PNG_SSE_SLL_ADDB_2X p1 p3 8 in
  m <- _mm_store_si128 base m (p + 18) p1 ;;
  let p1 := _mm_unpackhi_epi16 p1 p1 in
  let p1 := _mm_shuffle_epi32 p1 (_MM_SHUFFLE 3 3 3 3) in
  let p2 := _mm_add_epi8 p2 p1 in
  let p3 := _mm_add_epi8 p3 p1 in
  m <- _mm_store_si128 base m (p + 34) p2 ;;
  m <- _mm_store_si128 base m (p + 50) p3 ;;
  let p0 := _mm_srli_si128 p3 14 in
  Some (m, p + 64, p0).

Definition sse2_sub16_bpp2 (base : Z) (s : vstate) : option vstate :=
  let '(m, p, p0) := s in
  x <- _mm_load_si128 base m (p + 2) ;;
  let p0 := _mm_add_epi8 p0 x in
  let '(p0, t0) := PNG_SSE_SLL_ADDB_1X p0 2 in
  let '(p0, t0) := PNG_SSE_SLL_ADDB_1X p0 4 in
  let '(p0, t0) := PNG_SSE_SLL_ADDB_1X p0 8 in
  m <- _mm_store_si128 base m (p + 2) p0 ;;
  let p0 := _mm_srli_si128 p0 14 in
  Some (m, p + 16, p0).

(** *** bpp = 3 *)

Definition sse2_sub64_bpp3 (base : Z) (s : vstate) : option vstate :=
  let '(m, p, p0) := s in
  let ext3b := _mm_set1_epi32 16777217 in
  x <- _mm_load_si128 base m (p + 3) ;;
  let p0 := _mm_add_epi8 p0 x in
  p1 <- _mm_load_si128 base m (p + 19) ;;
  p2 <- _mm_load_si128 base m (p + 35) ;;
  let '(p0, t0, p2, t2) := PNG_SSE_SLL_ADDB_2X p0 p2 3 in
  let '(p0, t0, p2, t2) := PNG_SSE_SLL_ADDB_2X p0 p2 6 in
  let '(p0, t0, p2, t2) := PNG_SSE_SLL_ADDB_2X p0 p2 12 in
  p3 <- _mm_load_si128 base m (p + 51) ;;
  let t0 := _mm_srli_si128 p0 13 in
  let t2 := _mm_srli_si128 p2 13 in
  let p1 := _mm_add_epi8 p1 t0 in
  let p3 := _mm_add_epi8 p3 t2 in
  let '(p1, t0, p3, t2) := PNG_SSE_SLL_ADDB_2X p1 p3 3 in
  let '(p1, t0, p3, t2) := PNG_SSE_SLL_ADDB_2X p1 p3 6 in
  let '(p1, t0, p3, t2) := PNG_SSE_SLL_ADDB_2X p1 p3 12 in
  m <- _mm_store_si128 base m (p + 3) p0 ;;
  let p0 := _mm_shuffle_epi32 p1 (_MM_SHUFFLE 3 3 3 3) in
  let p0 := _mm_srli_epi32 p0 8 in
  let p0 := _mm_mul_epu32 p0 ext3b in
  let p0 := _mm_shufflelo_epi16 p0 (_MM_SHUFFLE 0 2 1 0) in
  let p0 := _mm_shufflehi_epi16 p0 (_MM_SHUFFLE 1 0 2 1) in
  m <- _mm_store_si128 base m (p + 19) p1 ;;
  let p2 := _mm_add_epi8 p2 p0 in
  let p0 := _mm_shuffle_epi32 p0 (_MM_SHUFFLE 1 3 2 1) in
  m <- _mm_store_si128 base m (p + 35) p2 ;;
  let p0 := _mm_add_epi8 p0 p3 in
  m <- _mm_store_si128 base m (p + 51) p0 ;;
  let p0 := _mm_srli_si128 p0 13 in
  Some (m, p + 64, p0).

Definition sse2_sub16_bpp3 (base : Z) (s : vstate) : option vstate :=
  let '(m, p, p0) := s in
  x <- _mm_load_si128 base m (p + 3) ;;
  let p0 := _mm_add_epi8 p0 x in
  let '(p0, t0) := PNG_SSE_SLL_ADDB_1X p0 3 in
  let '(p0, t0) := PNG_SSE_SLL_ADDB_1X p0 6 in
  let '(p0, t0) := PNG_SSE_SLL_ADDB_1X p0 12 in
  m <- _mm_store_si128 base m (p + 3) p0 ;;
  let p0 := _mm_srli_si128 p0 13 in
  Some (m, p + 16, p0).

(** *** bpp = 4 *)

Definition sse2_sub64_bpp4 (base : Z) (s : vstate) : option vstate :=
  let '(m, p, p0) := s in
  x <- _mm_load_si128 base m (p + 4) ;;
  let p0 := _mm_add_epi8 p0 x in
  p1 <- _mm_load_si128 base m (p + 20) ;;
  p2 <- _mm_load_si128 base m (p + 36) ;;
  p3 <- _mm_load_si128 base m (p + 52) ;;
  let '(p0, t0, p2, t1) := PNG_SSE_SLL_ADDB_2X p0 p2 4 in
  let '(p0, t0, p2, t1) := PNG_SSE_SLL_ADDB_2X p0 p2 8 in
  m <- _mm_store_si128 base m (p + 4) p0 ;;
  let p0 := _mm_srli_si128 p0 12 in
  let t2 := _mm_srli_si128 p2 12 in
  let p1 := _mm_add_epi8 p1 p0 in
  let p3 := _mm_add_epi8 p3 t2 in
  let '(p1, t0, p3, t1) := PNG_SSE_SLL_ADDB_2X p1 p3 4 in
  let '(p1, t0, p3, t1) := PNG_SSE_SLL_ADDB_2X p1 p3 8 in
  let p0 := _mm_shuffle_epi32 p1 (_MM_SHUFFLE 3 3 3 3) in
  m <- _mm_store_si128 base m (p + 20) p1 ;;
  let p2 := _mm_add_epi8 p2 p0 in
  let p0 := _mm_add_epi8 p0 p3 in
  m <- _mm_store_si128 base m (p + 36) p2 ;;
  m <- _mm_store_si128 base m (p + 52) p0 ;;
  let p0 := _mm_srli_si128 p0 12 in
  Some (m, p + 64, p0).

Definition sse2_sub16_bpp4 (base : Z) (s : vstate) : option vstate :=
  let '(m, p, p0) := s in
  x <- _mm_load_si128 base m (p + 4) ;;
  let p0 := _mm_add_epi8 p0 x in
  let '(p0, t0) := PNG_SSE_SLL_ADDB_1X p0 4 in
  let '(p0, t0) := PNG_SSE_SLL_ADDB_1X p0 8 in
  m <- _mm_store_si128 base m (p + 4) p0 ;;
  let p0 := _mm_srli_si128 p0 12 in
  Some (m, p + 16, p0).

(** *** bpp = 6 *)

Definition sse2_sub64_bpp6 (base : Z) (s : vstate) : option vstate :=
  let '(m, p, p0) := s in
  x <- _mm_load_si128 base m (p + 6) ;;
  let p0 := _mm_add_epi8 p0 x in
  p1 <- _mm_load_si128 base m (p + 22) ;;
  p2 <- _mm_load_si128 base m (p + 38) ;;
  let '(p0, t0, p2, t1) := PNG_SSE_SLL_ADDB_2X p0 p2 6 in
  let '(p0, t0, p2, t1) := PNG_SSE_SLL_ADDB_2X p0 p2 12 in
  p3 <- _mm_load_si128 base m (p + 54) ;;
  m <- _mm_store_si128 base m (p + 6) p0 ;;
  let p0 := _mm_srli_si128 p0 10 in
  let t1 := _mm_srli_si128 p2 10 in
  let p1 := _mm_add_epi8 p1 p0 in
  let p3 := _mm_add_epi8 p3 t1 in
  let '(p1, t0, p3, t1) := PNG_SSE_SLL_ADDB_2X p1 p3 6 in
  let '(p1, t0, p3, t1) := PNG_SSE_SLL_ADDB_2X p1 p3 12 in
  let p0 := _mm_shuffle_epi32 p1 (_MM_SHUFFLE 3 2 3 2) in
  let p0 := _mm_shufflelo_epi16 p0 (_MM_SHUFFLE 1 3 2 1) in
  let p0 := _mm_shufflehi_epi16 p0 (_MM_SHUFFLE 2 1 3 2) in
  m <- _mm_store_si128 base m (p + 22) p1 ;;
  let p2 := _mm_add_epi8 p2 p0 in
  let p0 := _mm_shuffle_epi32 p0 (_MM_SHUFFLE 1 3 2 1) in
  m <- _mm_store_si128 base m (p + 38) p2 ;;
  let p0 := _mm_add_epi8 p0 p3 in
  m <- _mm_store_si128 base m (p + 54) p0 ;;
  let p0 := _mm_srli_si128 p0 10 in
  Some (m, p + 64, p0).

Definition sse2_sub16_bpp6 (base : Z) (s : vstate) : option vstate :=
  let '(m, p, p0) := s in
  x <- _mm_load_si128 base m (p + 6) ;;
  let p0 := _mm_add_epi8 p0 x in
  let '(p0, t0) := PNG_SSE_SLL_ADDB_1X p0 6 in
  let '(p0, t0) := PNG_SSE_SLL_ADDB_1X p0 12 in
  m <- _mm_store_si128 base m (p + 6) p0 ;;
  let p0 := _mm_srli_si128 p0 10 in
  Some (m, p + 16, p0).

(** *** bpp = 8 *)

Definition sse2_sub64_bpp8 (base : Z) (s : vstate) : option vstate :=
  let '(m, p, p0) := s in
  x <- _mm_load_si128 base m (p + 8) ;;
  let p0 := _mm_add_epi8 p0 x in
  p1 <- _mm_load_si128 base m (p + 24) ;;
  p2 <- _mm_load_si128 base m (p + 40) ;;
  p3 <- _mm_load_si128 base m (p + 56) ;;
  let '(p0, t0, p2, t1) := PNG_SSE_SLL_ADDB_2X p0 p2 8 in
  m <- _mm_store_si128 base m (p + 8) p0 ;;
  let p0 := _mm_srli_si128 p0 8 in
  let t2 := _mm_shuffle_epi32 p2 (_MM_SHUFFLE 3 2 3 2) in
  let p1 := _mm_add_epi8 p1 p0 in
  let '(p1, t0, p3, t1) := PNG_SSE_SLL_ADDB_2X p1 p3 8 in
  let p0 := _mm_shuffle_epi32 p1 (_MM_SHUFFLE 3 2 3 2) in
  let p3 := _mm_add_epi8 p3 t2 in
  m <- _mm_store_si128 base m (p + 24) p1 ;;
  let p2 := _mm_add_epi8 p2 p0 in
  let p0 := _mm_add_epi8 p0 p3 in
  m <- _mm_store_si128 base m (p + 40) p2 ;;
  m <- _mm_store_si128 base m (p + 56) p0 ;;
  let p0 := _mm_srli_si128 p0 8 in
  Some (m, p + 64, p0).

Definition sse2_sub16_bpp8 (base : Z) (s : vstate) : option vstate :=
  let '(m, p, p0) := s in
  x <- _mm_load_si128 base m (p + 8) ;;
  let p0 := _mm_add_epi8 p0 x in
  let '(p0, t0) := PNG_SSE_SLL_ADDB_1X p0 8 in
  m <- _mm_store_si128 base m (p + 8) p0 ;;
  let p0 := _mm_srli_si128 p0 8 in
  Some (m, p + 16, p0).

(** The two vector loops of one bpp: 64 bytes at a time, then 16. *)
Definition sse2_sub_loops (b64 b16 : vstate -> option vstate)
    (m : mem) (p i : Z) (p0 : m128i) : option (mem * Z * Z) :=
  '(i, s) <- while_ge (Z.to_nat i) 64 b64 i (m, p, p0) ;;
  '(i, (m, p, _)) <- while_ge (Z.to_nat i) 16 b16 i s ;;
  Some (m, p, i).

(** The [if (bpp == ...)] chain after the alignment loop. *)
Definition sse2_sub_vec (bpp base : Z) (m : mem) (p i : Z) : option (mem * Z * Z) :=
  if bpp =? 1 then
    x <- ld m p ;;
    sse2_sub_loops (sse2_sub64_bpp1 base) (sse2_sub16_bpp1 base) m p i
      (_mm_cvtsi32_si128 x)
  else if bpp =? 2 then
    x <- load_u16 m p ;;
    sse2_sub_loops (sse2_sub64_bpp2 base) (sse2_sub16_bpp2 base) m p i
      (_mm_cvtsi32_si128 x)
  else if bpp =? 3 then
    x <- load_u32 m p ;;
    sse2_sub_loops (sse2_sub64_bpp3 base) (sse2_sub16_bpp3 base) m p i
      (_mm_cvtsi32_si128 (Z.land x 16777215))
  else if bpp =? 4 then
    x <- load_u32 m p ;;
    sse2_sub_loops (sse2_sub64_bpp4 base) (sse2_sub16_bpp4 base) m p i
      (_mm_cvtsi32_si128 x)
  else if bpp =? 6 then
    p0 <- _mm_loadl_epi64 m p ;;
    let p0 := _mm_slli_epi64 p0 16 in
    let p0 := _mm_srli_epi64 p0 16 in
    sse2_sub_loops (sse2_sub64_bpp6 base) (sse2_sub16_bpp6 base) m p i p0
  else if bpp =? 8 then
    p0 <- _mm_loadl_epi64 m p ;;
    sse2_sub_loops (sse2_sub64_bpp8 base) (sse2_sub16_bpp8 base) m p i p0
  else Some (m, p, i).

(** [case kPngFilterSub] of the SSE2 kernel, up to [p += bpp]. *)
Definition sse2_sub (bpp base bpl : Z) (m : mem) (p : Z) : option (mem * Z) :=
  let i := u32 (bpl - bpp) in
  '(m, p, i) <-
    (if 32 <=? i then
       let j := OptAlignDiff (base + (p + bpp)) 16 in
       let i := u32 (i - j) in
       '(m, p) <- iter (Z.to_nat j) (sub_step bpp) (m, p) ;;
       sse2_sub_vec bpp base m p i
     else Some (m, p, i)) ;;
  '(m, p) <- iter (Z.to_nat i) (sub_step bpp) (m, p) ;;
  Some (m, p + bpp).

(** ** The Up filter *)

Definition lduv (n : nat) (m : mem) (u : ptr) (k : Z) : option (list Z) :=
  match u with
  | Some a => loadn m (a + k) n
  | None => None
  end.

Definition sse2_up64 (base : Z) (s : mem * Z * ptr) : option (mem * Z * ptr) :=
  let '(m, p, u) := s in
  u0 <- lduv 16 m u 0 ;;
  u1 <- lduv 16 m u 16 ;;
  p0 <- _mm_load_si128 base m p ;;
  p1 <- _mm_load_si128 base m (p + 16) ;;
  u2 <- lduv 16 m u 32 ;;
  u3 <- lduv 16 m u 48 ;;
  let p0 := _mm_add_epi8 p0 u0 in
  let p1 := _mm_add_epi8 p1 u1 in
  p2 <- _mm_load_si128 base m (p + 32) ;;
  p3 <- _mm_load_si128 base m (p + 48) ;;
  let p2 := _mm_add_epi8 p2 u2 in
  let p3 := _mm_add_epi8 p3 u3 in
  m <- _mm_store_si128 base m p p0 ;;
  m <- _mm_store_si128 base m (p + 16) p1 ;;
  m <- _mm_store_si128 base m (p + 32) p2 ;;
  m <- _mm_store_si128 base m (p + 48) p3 ;;
  Some (m, p + 64, padd u 64).

Definition sse2_up8 (s : mem * Z * ptr) : option (mem * Z * ptr) :=
  let '(m, p, u) := s in
  u0 <- lduv 8 m u 0 ;;
  let u0 := u0 ++ zeros 8 in
  p0 <- _mm_loadl_epi64 m p ;;
  let p0 := _mm_add_epi8 p0 u0 in
  m <- _mm_storel_epi64 m p p0 ;;
  Some (m, p + 8, padd u 8).

(** [case kPngFilterUp] of the SSE2 kernel. *)
Definition sse2_up (base bpl : Z) (s : mem * Z * ptr) : option (mem * Z * ptr) :=
  let '(m, p, u) := s in
  let i := bpl in
  '(i, s) <-
    (if 24 <=? i then
       let j := OptAlignDiff (base + p) 16 in
       let i := u32 (i - j) in
       s <- iter (Z.to_nat j) up_step (m, p, u) ;;
       '(i, s) <- while_ge (Z.to_nat i) 64 (sse2_up64 base) i s ;;
       while_ge (Z.to_nat i) 8 sse2_up8 i s
     else Some (i, (m, p, u))) ;;
  iter (Z.to_nat i) up_step s.


(** ** The Avg filter *)

(** [t0 = ((t0 + t1) >> 1) & 0xFF] on [uint32_t]. *)
Definition avg1_next (t0 t1 : Z) : Z := Z.land (Z.shiftr (u32 (t0 + t1)) 1) 255.

(** bpp = 1: the carried value is the scalar [t0]. *)
Definition sse2_avg8_bpp1 (s : mem * Z * ptr * Z) : option (mem * Z * ptr * Z) :=
  let '(m, p, u, t0) := s in
  let zero := _mm_setzero_si128 in
  p0 <- _mm_loadl_epi64 m (p + 1) ;;
  u0 <- lduv 8 m u 0 ;;
  let u0 := u0 ++ zeros 8 in
  let p0 := _mm_unpacklo_epi8 p0 zero in
  let u0 := _mm_unpacklo_epi8 u0 zero in
  let p0 := _mm_slli_epi16 p0 1 in
  let p0 := _mm_add_epi16 p0 u0 in
  let t1 := _mm_cvtsi128_si32 p0 in
  let p0 := _mm_srli_si128 p0 4 in
  let t0 := avg1_next t0 t1 in
  let t1 := Z.shiftr t1 16 in
  m <- st m (p + 1) (u8 t0) ;;
  let t0 := avg1_next t0 t1 in
  let t1 := _mm_cvtsi128_si32 p0 in
  let p0 := _mm_srli_si128 p0 4 in
  m <- st m (p + 2) (u8 t0) ;;
  let t0 := avg1_next t0 t1 in
  let t1 := Z.shiftr t1 16 in
  m <- st m (p + 3) (u8 t0) ;;
  let t0 := avg1_next t0 t1 in
  let t1 := _mm_cvtsi128_si32 p0 in
  let p0 := _mm_srli_si128 p0 4 in
  m <- st m (p + 4) (u8 t0) ;;
  let t0 := avg1_next t0 t1 in
  let t1 := Z.shiftr t1 16 in
  m <- st m (p + 5) (u8 t0) ;;
  let t0 := avg1_next t0 t1 in
  let t1 := _mm_cvtsi128_si32 p0 in
  m <- st m (p + 6) (u8 t0) ;;
  let t0 := avg1_next t0 t1 in
  let t1 := Z.shiftr t1 16 in
  m <- st m (p + 7) (u8 t0) ;;
  let t0 := avg1_next t0 t1 in
  m <- st m (p + 8) (u8 t0) ;;
  Some (m, p + 8, padd u 8, t0).

Definition ustate : Type := mem * Z * ptr * m128i.

Definition sse2_avg16_bpp4 (base : Z) (s : ustate) : option ustate :=
  let '(m, p, u, t1) := s in
  let zero := _mm_setzero_si128 in
  let m00FF := _mm_set1_epi16 255 in
  let m01FF := _mm_set1_epi16 511 in
  p0 <- _mm_load_si128 base m (p + 4) ;;
  u0 <- lduv 16 m u 0 ;;
  let p1 := p0 in
  let p0 := _mm_unpacklo_epi8 p0 zero in
  let u1 := u0 in
  let p0 := _mm_slli_epi16 p0 1 in
  let u0 := _mm_unpacklo_epi8 u0 zero in
  let p0 := _mm_add_epi16 p0 t1 in
  let p1 := _mm_unpackhi_epi8 p1 zero in
  let p0 := _mm_add_epi16 p0 u0 in
  let p0 := _mm_and_si128 p0 m01FF in
  let u1 := _mm_unpackhi_epi8 u1 zero in
  let t1 := _mm_slli_si128 p0 8 in
  let p0 := _mm_slli_epi16 p0 1 in
  let p1 := _mm_slli_epi16 p1 1 in
  let p0 := _mm_add_epi16 p0 t1 in
  let p0 := _mm_srli_epi16 p0 2 in
  let p1 := _mm_add_epi16 p1 u1 in
  let p0 := _mm_and_si128 p0 m00FF in
  let t1 := _mm_srli_si128 p0 8 in
  let p1 := _mm_add_epi16 p1 t1 in
  let p1 := _mm_and_si128 p1 m01FF in
  let t1 := _mm_slli_si128 p1 8 in
  let p1 := _mm_slli_epi16 p1 1 in
  let t1 := _mm_add_epi16 t1 p1 in
  let t1 := _mm_srli_epi16 t1 2 in
  let t1 := _mm_and_si128 t1 m00FF in
  let p0 := _mm_packus_epi16 p0 t1 in
  let t1 := _mm_srli_si128 t1 8 in
  m <- _mm_store_si128 base m (p + 4) p0 ;;
  Some (m, p + 16, padd u 16, t1).

Definition sse2_avg16_bpp6 (base : Z) (s : ustate) : option ustate :=
  let '(m, p, u, t1) := s in
  let zero := _mm_setzero_si128 in
  u0 <- lduv 16 m u 0 ;;
  let t1 := _mm_unpacklo_epi8 t1 zero in
  p0 <- _mm_load_si128 base m (p + 6) ;;
  let p1 := _mm_srli_si128 p0 6 in
  let u1 := _mm_srli_si128 u0 6 in
  let p2 := _mm_srli_si128 p0 12 in
  let u2 := _mm_srli_si128 u0 12 in
  let p0 := _mm_unpacklo_epi8 p0 zero in
  let u0 := _mm_unpacklo_epi8 u0 zero in
  let p1 := _mm_unpacklo_epi8 p1 zero in
  let u1 := _mm_unpacklo_epi8 u1 zero in
  let p2 := _mm_unpacklo_epi8 p2 zero in
  let u2 := _mm_unpacklo_epi8 u2 zero in
  let u0 := _mm_add_epi16 u0 t1 in
  let u0 := _mm_srli_epi16 u0 1 in
  let p0 := _mm_add_epi8 p0 u0 in
  let u1 := _mm_add_epi16 u1 p0 in
  let u1 := _mm_srli_epi16 u1 1 in
  let p1 := _mm_add_epi8 p1 u1 in
  let u2 := _mm_add_epi16 u2 p1 in
  let u2 := _mm_srli_epi16 u2 1 in
  let p2 := _mm_add_epi8 p2 u2 in
  let p0 := _mm_slli_si128 p0 4 in
  let p0 := _mm_packus_epi16 p0 p1 in
  let p0 := _mm_slli_si128 p0 2 in
  let p0 := _mm_srli_si128 p0 4 in
  let p2 := _mm_packus_epi16 p2 p2 in
  let p2 := _mm_slli_si128 p2 12 in
  let p0 := _mm_or_si128 p0 p2 in
  m <- _mm_store_si128 base m (p + 6) p0 ;;
  let t1 := _mm_srli_si128 p0 10 in
  Some (m, p + 16, padd u 16, t1).

Definition sse2_avg16_bpp8 (base : Z) (s : ustate) : option ustate :=
  let '(m, p, u, t1) := s in
  let zero := _mm_setzero_si128 in
  u0 <- lduv 16 m u 0 ;;
  p0 <- _mm_load_si128 base m (p + 8) ;;
  let u1 := u0 in
  let p1 := p0 in
  let u0 := _mm_unpacklo_epi8 u0 zero in
  let p0 := _mm_unpacklo_epi8 p0 zero in
  let u0 := _mm_add_epi16 u0 t1 in
  let p1 := _mm_unpackhi_epi8 p1 zero in
  let u0 := _mm_srli_epi16 u0 1 in
  let u1 := _mm_unpackhi_epi8 u1 zero in
  let p0 := _mm_add_epi8 p0 u0 in
  let u1 := _mm_add_epi16 u1 p0 in
  let u1 := _mm_srli_epi16 u1 1 in
  let p1 := _mm_add_epi8 p1 u1 in
  let p0 := _mm_packus_epi16 p0 p1 in
  let t1 := p1 in
  m <- _mm_store_si128 base m (p + 8) p0 ;;
  Some (m, p + 16, padd u 16, t1).

(** The [if (bpp == ...)] chain of the Avg case after the alignment loop. *)
Definition sse2_avg_vec (bpp base : Z) (m : mem) (p : Z) (u : ptr) (i : Z)
    : option (Z * (mem * Z * ptr)) :=
  let zero := _mm_setzero_si128 in
  if bpp =? 1 then
    t0 <- ld m p ;;
    '(i, (m, p, u, _)) <- while_ge (Z.to_nat i) 8 sse2_avg8_bpp1 i (m, p, u, t0) ;;
    Some (i, (m, p, u))
  else if bpp =? 4 then
    x <- load_u32 m p ;;
    let t1 := _mm_unpacklo_epi8 (_mm_cvtsi32_si128 x) zero in
    '(i, (m, p, u, _)) <- while_ge (Z.to_nat i) 16 (sse2_avg16_bpp4 base) i (m, p, u, t1) ;;
    Some (i, (m, p, u))
  else if bpp =? 6 then
    t1 <- _mm_loadl_epi64 m p ;;
    '(i, (m, p, u, _)) <- while_ge (Z.to_nat i) 16 (sse2_avg16_bpp6 base) i (m, p, u, t1) ;;
    Some (i, (m, p, u))
  else if bpp =? 8 then
    x <- _mm_loadl_epi64 m p ;;
    let t1 := _mm_unpacklo_epi8 x zero in
    '(i, (m, p, u, _)) <- while_ge (Z.to_nat i) 16 (sse2_avg16_bpp8 base) i (m, p, u, t1) ;;
    Some (i, (m, p, u))
  else Some (i, (m, p, u)).

(** [case kPngFilterAvg] of the SSE2 kernel, up to [p += bpp]. *)
Definition sse2_avg (bpp base bpl : Z) (s : mem * Z * ptr) : option (mem * Z * ptr) :=
  let '(m, p, u) := s in
  '(m, _) <- iter (Z.to_nat bpp) (avg_head_step p u) (m, 0) ;;
  let i := u32 (bpl - bpp) in
  let u := padd u bpp in
  '(i, s) <-
    (if 32 <=? i then
       let j := OptAlignDiff (base + (p + bpp)) 16 in
       let i := u32 (i - j) in
       '(m, p, u) <- iter (Z.to_nat j) (avg_step bpp) (m, p, u) ;;
       sse2_avg_vec bpp base m p u i
     else Some (i, (m, p, u))) ;;
  '(m, p, u) <- iter (Z.to_nat i) (avg_step bpp) s ;;
  Some (m, p + bpp, u).

(** ** The Paeth filter *)

(** bpp = 1: [for (i = 0; i < bpl; i++)] with the rolling [pz], [uz]. *)
Definition sse2_paeth1_step (p : Z) (u : ptr) (s : mem * Z * Z * Z)
    : option (mem * Z * Z * Z) :=
  let '(m, i, pz, uz) := s in
  u0 <- ldu m u i ;;
  x <- ld m (p + i) ;;
  let pz := Z.land (u32 (x + PaethOpt pz u0 uz)) 255 in
  m <- st m (p + i) (u8 pz) ;;
  Some (m, i + 1, pz, u0).

Definition pstate : Type := mem * Z * ptr * m128i * m128i.

Definition sse2_paeth8_bpp3 (s : pstate) : option pstate :=
  let '(m, p, u, pz, uz) := s in
  let zero := _mm_setzero_si128 in
  let rcp3 := _mm_set1_epi16 (Z.shiftl 171 7) in
  let mask := _mm_setr_epi32 4294967295 65535 0 0 in
  u0 <- lduv 8 m u 3 ;;
  let u0 := u0 ++ zeros 8 in
  p0 <- _mm_loadl_epi64 m (p + 3) ;;
  let u0 := _mm_unpacklo_epi8 u0 zero in
  let p0 := _mm_unpacklo_epi8 p0 zero in
  let u1 := _mm_srli_si128 u0 6 in
  let uz := PNG_SSE_PAETH rcp3 pz u0 uz in
  let uz := _mm_and_si128 uz mask in
  let p0 := _mm_add_epi8 p0 uz in
  let uz := PNG_SSE_PAETH rcp3 p0 u1 u0 in
  let uz := _mm_and_si128 uz mask in
  let uz := _mm_slli_si128 uz 6 in
  let p0 := _mm_add_epi8 p0 uz in
  let p1 := _mm_srli_si128 p0 6 in
  let u0 := _mm_srli_si128 u1 6 in
  let u0 := PNG_SSE_PAETH rcp3 p1 u0 u1 in
  let u0 := _mm_slli_si128 u0 12 in
  let p0 := _mm_add_epi8 p0 u0 in
  let pz := _mm_srli_si128 p0 10 in
  let uz := _mm_srli_si128 u1 4 in
  let p0 := _mm_packus_epi16 p0 p0 in
  m <- _mm_storel_epi64 m (p + 3) p0 ;;
  Some (m, p + 8, padd u 8, pz, uz).

Definition sse2_paeth16_bpp4 (base : Z) (s : pstate) : option pstate :=
  let '(m, p, u, pz, uz) := s in
  let zero := _mm_setzero_si128 in
  let rcp3 := _mm_set1_epi16 (Z.shiftl 171 7) in
  let mask := _mm_setr_epi32 4294967295 4294967295 0 0 in
  p0 <- _mm_load_si128 base m (p + 4) ;;
  u0 <- lduv 16 m u 4 ;;
  let p1 := _mm_unpackhi_epi8 p0 zero in
  let p0 := _mm_unpacklo_epi8 p0 zero in
  let u1 := _mm_unpackhi_epi8 u0 zero in
  let u0 := _mm_unpacklo_epi8 u0 zero in
  let uz := PNG_SSE_PAETH rcp3 pz u0 uz in
  let uz := _mm_and_si128 uz mask in
  let p0 := _mm_add_epi8 p0 uz in
  let uz := _mm_shuffle_epi32 u0 (_MM_SHUFFLE 1 0 3 2) in
  let u0 := PNG_SSE_PAETH rcp3 p0 uz u0 in
  let u0 := _mm_slli_si128 u0 8 in
  let p0 := _mm_add_epi8 p0 u0 in
  let pz := _mm_srli_si128 p0 8 in
  let uz := PNG_SSE_PAETH rcp3 pz u1 uz in
  let uz := _mm_and_si128 uz mask in
  let p1 := _mm_add_epi8 p1 uz in
  let uz := _mm_shuffle_epi32 u1 (_MM_SHUFFLE 1 0 3 2) in
  let u1 := PNG_SSE_PAETH rcp3 p1 uz u1 in
  let u1 := _mm_slli_si128 u1 8 in
  let p1 := _mm_add_epi8 p1 u1 in
  let pz := _mm_srli_si128 p1 8 in
  let p0 := _mm_packus_epi16 p0 p1 in
  m <- _mm_store_si128 base m (p + 4) p0 ;;
  Some (m, p + 16, padd u 16, pz, uz).

Definition sse2_paeth16_bpp6 (base : Z) (s : pstate) : option pstate :=
  let '(m, p, u, pz, uz) := s in
  let zero := _mm_setzero_si128 in
  let rcp3 := _mm_set1_epi16 (Z.shiftl 171 7) in
  p0 <- _mm_load_si128 base m (p + 6) ;;
  u0 <- lduv 16 m u 6 ;;
  let p1 := _mm_srli_si128 p0 6 in
  let p0 := _mm_unpacklo_epi8 p0 zero in
  let u1 := _mm_srli_si128 u0 6 in
  let u0 := _mm_unpacklo_epi8 u0 zero in
  let uz := PNG_SSE_PAETH rcp3 pz u0 uz in
  let p0 := _mm_add_epi8 p0 uz in
  let p2 := _mm_srli_si128 p1 6 in
  let u2 := _mm_srli_si128 u1 6 in
  let p1 := _mm_unpacklo_epi8 p1 zero in
  let u1 := _mm_unpacklo_epi8 u1 zero in
  let u0 := PNG_SSE_PAETH rcp3 p0 u1 u0 in
  let p1 := _mm_add_epi8 p1 u0 in
  let p2 := _mm_unpacklo_epi8 p2 zero in
  let u2 := _mm_unpacklo_epi8 u2 zero in
  let u0 := PNG_SSE_PAETH rcp3 p1 u2 u1 in
  let p2 := _mm_add_epi8 p2 u0 in
  let p0 := _mm_slli_si128 p0 4 in
  let p0 := _mm_packus_epi16 p0 p1 in
  let p0 := _mm_slli_si128 p0 2 in
  let p0 := _mm_srli_si128 p0 4 in
  let p2 := _mm_shuffle_epi32 p2 (_MM_SHUFFLE 1 0 1 0) in
  let u2 := _mm_shuffle_epi32 u2 (_MM_SHUFFLE 1 0 1 0) in
  let pz := _mm_shuffle_epi32 (_mm_unpackhi_epi32 p1 p2) (_MM_SHUFFLE 3 3 1 0) in
  let uz := _mm_shuffle_epi32 (_mm_unpackhi_epi32 u1 u2) (_MM_SHUFFLE 3 3 1 0) in
  let p2 := _mm_packus_epi16 p2 p2 in
  let p2 := _mm_slli_si128 p2 12 in
  let p0 := _mm_or_si128 p0 p2 in
  m <- _mm_store_si128 base m (p + 6) p0 ;;
  Some (m, p + 16, padd u 16, pz, uz).

Definition sse2_paeth16_bpp8 (base : Z) (s : pstate) : option pstate :=
  let '(m, p, u, pz, uz) := s in
  let zero := _mm_setzero_si128 in
  let rcp3 := _mm_set1_epi16 (Z.shiftl 171 7) in
  p0 <- _mm_load_si128 base m (p + 8) ;;
  u0 <- lduv 16 m u 8 ;;
  let p1 := _mm_unpackhi_epi8 p0 zero in
  let p0 := _mm_unpacklo_epi8 p0 zero in
  let u1 := _mm_unpackhi_epi8 u0 zero in
  let u0 := _mm_unpacklo_epi8 u0 zero in
  let uz := PNG_SSE_PAETH rcp3 pz u0 uz in
  let p0 := _mm_add_epi8 p0 uz in
  let pz := PNG_SSE_PAETH rcp3 p0 u1 u0 in
  let pz := _mm_add_epi8 pz p1 in
  let uz := u1 in
  let p0 := _mm_packus_epi16 p0 pz in
  m <- _mm_store_si128 base m (p + 8) p0 ;;
  Some (m, p + 16, padd u 16, pz, uz).

Definition ldu_u32 (m : mem) (u : ptr) : option Z :=
  l <- lduv 4 m u 0 ;; Some (le_val l).

(** The [if (bpp == ...)] chain of the Paeth case after the alignment loop. *)
Definition sse2_paeth_vec (bpp base : Z) (m : mem) (p : Z) (u : ptr) (i : Z)
    : option (Z * (mem * Z * ptr)) :=
  let zero := _mm_setzero_si128 in
  if bpp =? 3 then
    x <- load_u32 m p ;;
    y <- ldu_u32 m u ;;
    let pz := _mm_unpacklo_epi8 (_mm_cvtsi32_si128 (Z.land x 16777215)) zero in
    let uz := _mm_unpacklo_epi8 (_mm_cvtsi32_si128 (Z.land y 16777215)) zero in
    '(i, (m, p, u, _, _)) <- while_ge (Z.to_nat i) 8 sse2_paeth8_bpp3 i (m, p, u, pz, uz) ;;
    Some (i, (m, p, u))
  else if bpp =? 4 then
    x <- load_u32 m p ;;
    y <- ldu_u32 m u ;;
    let pz := _mm_unpacklo_epi8 (_mm_cvtsi32_si128 x) zero in
    let uz := _mm_unpacklo_epi8 (_mm_cvtsi32_si128 y) zero in
    '(i, (m, p, u, _, _)) <-
       while_ge (Z.to_nat i) 16 (sse2_paeth16_bpp4 base) i (m, p, u, pz, uz) ;;
    Some (i, (m, p, u))
  else if bpp =? 6 then
    x <- _mm_loadl_epi64 m p ;;
    y <- lduv 8 m u 0 ;;
    let pz := _mm_unpacklo_epi8 x zero in
    let uz := _mm_unpacklo_epi8 (y ++ zeros 8) zero in
    '(i, (m, p, u, _, _)) <-
       while_ge (Z.to_nat i) 16 (sse2_paeth16_bpp6 base) i (m, p, u, pz, uz) ;;
    Some (i, (m, p, u))
  else if bpp =? 8 then
    x <- _mm_loadl_epi64 m p ;;
    y <- lduv 8 m u 0 ;;
    let pz := _mm_unpacklo_epi8 x zero in
    let uz := _mm_unpacklo_epi8 (y ++ zeros 8) zero in
    '(i, (m, p, u, _, _)) <-
       while_ge (Z.to_nat i) 16 (sse2_paeth16_bpp8 base) i (m, p, u, pz, uz) ;;
    Some (i, (m, p, u))
  else Some (i, (m, p, u)).

(** [case kPngFilterPaeth] of the SSE2 kernel. *)
Definition sse2_paeth (bpp base bpl : Z) (s : mem * Z * ptr) : option (mem * Z * ptr) :=
  let '(m, p, u) := s in
  if bpp =? 1 then
    '(m, _, _, _) <- iter (Z.to_nat bpl) (sse2_paeth1_step p u) (m, 0, 0, 0) ;;
    Some (m, p + bpl, u)
  else
    '(m, _) <- iter (Z.to_nat bpp) (paeth_head_step p u) (m, 0) ;;
    let i := u32 (bpl - bpp) in
    '(i, s) <-
      (if 32 <=? i then
         let j := OptAlignDiff (base + (p + bpp)) 16 in
         let i := u32 (i - j) in
         '(m, p, u) <- iter (Z.to_nat j) (paeth_step PaethOpt bpp) (m, p, u) ;;
         sse2_paeth_vec bpp base m p u i
       else Some (i, (m, p, u))) ;;
    '(m, p, u) <- iter (Z.to_nat i) (paeth_step PaethOpt bpp) s ;;
    Some (m, p + bpp, u).

(** ** The row loop and the entry points *)

Definition sse2_row (bpp base bpl : Z) (s : mem * Z * ptr) : option (mem * Z * ptr) :=
  let '(m, p, u) := s in
  filter <- ld m p ;;
  let p := p + 1 in
  '(m, p, u) <-
    (if filter =? kPngFilterNone then
       Some (m, p + bpl, u)
     else if filter =? kPngFilterSub then
       '(m, p) <- sse2_sub bpp base bpl m p ;;
       Some (m, p, u)
     else if filter =? kPngFilterUp then
       sse2_up base bpl (m, p, u)
     else if filter =? kPngFilterAvg then
       sse2_avg bpp base bpl (m, p, u)
     else if filter =? kPngFilterPaeth then
       sse2_paeth bpp base bpl (m, p, u)
     else Some (m, p, u)) ;;
  Some (m, p, Some (p - bpl)).

Definition OptDePngFilterSSE2_T (bpp base : Z) (m : mem) (h bpl : Z) : option mem :=
  let bpl := u32 (bpl - 1) in
  '(m, _, _) <- iter (do_while_count h) (sse2_row bpp base bpl) (m, 0, NULL) ;;
  Some m.

(** [base] is the address [p] of the buffer handed to the kernel. *)
Definition OptDePngFilterSSE2 (base : Z) (m : mem) (h bpp bpl : Z) : option mem :=
  if bpp =? 1 then OptDePngFilterSSE2_T 1 base m h bpl
  else if bpp =? 2 then OptDePngFilterSSE2_T 2 base m h bpl
  else if bpp =? 3 then OptDePngFilterSSE2_T 3 base m h bpl
  else if bpp =? 4 then OptDePngFilterSSE2_T 4 base m h bpl
  else if bpp =? 6 then OptDePngFilterSSE2_T 6 base m h bpl
  else if bpp =? 8 then OptDePngFilterSSE2_T 8 base m h bpl
  else Some m.


(** ** The test harness *)

Definition OptDePngBppData : list Z := [1; 2; 3; 4; 6; 8].

Definition OptDePngRandomData : list Z := [
  217; 250; 167; 32; 107; 211; 65; 201; 26; 39; 47; 100; 89;
  133; 71; 28; 252; 62; 163; 91; 60; 210; 181; 182; 128; 187;
  132; 60; 212; 148; 58; 109; 194; 27; 61; 95; 130; 217; 26;
  127; 198; 141; 57; 221; 7; 173; 122; 64; 141; 55; 86; 18;
  139; 81; 175; 157; 23; 189; 208; 97; 88; 200; 5; 68; 155;
  202; 212; 208; 208; 185; 131; 117; 49; 75; 9; 236; 82; 235;
  229; 232; 170; 246; 221; 121; 54; 97; 23; 177; 138; 72; 0;
  26; 157; 220; 81; 159; 52; 122; 72; 86; 201; 243; 106; 129;
  155; 71; 86; 100; 0; 48; 96; 4; 144; 75; 194; 72; 227;
  237; 98; 223; 70; 239; 255; 255; 255; 255; 255; 255; 255; 255;
  254; 148; 238; 0; 169; 59; 134; 155; 216; 238; 61; 158; 50;
  0; 0; 0; 0; 146; 97; 159; 59; 34; 176; 185; 179; 176;
  1; 1; 1; 1; 244; 131; 252; 73; 169; 210; 137; 224; 23;
  116; 62; 189; 40; 116; 94; 248; 109; 210; 67; 183; 90; 181;
  230; 164; 199; 164; 70; 211; 0; 26; 38; 12; 101; 36; 173;
  167; 234; 244; 189; 246; 99; 43; 236; 30; 223; 12; 189; 80;
  235; 113; 217; 134; 49; 98; 94; 231; 77; 139; 209; 17; 91;
  38; 72; 159; 142; 230; 123; 225; 12; 248; 205; 248; 144; 30;
  78; 36; 254; 144; 211; 162; 45; 252; 79; 58; 47; 27; 226;
  184; 191; 17; 104; 128; 203; 38; 173; 28; 88; 78; 87; 48;
  0; 0; 0; 134; 74; 80; 54; 144; 92; 64; 167; 56; 146;
  3; 240; 57; 130; 64; 237; 57; 34; 130; 144; 103; 223; 149;
  52; 21; 138; 15; 37; 148; 86; 253; 56; 133; 155; 6; 34
].

Definition OptDePngRandomWrap (x advance count : Z) : Z :=
  let x := u32 (x + advance) in
  if x <? count then x else u32 (x - count).

(** [malloc(size)]: a fresh block whose bytes are not initialised; [junk]
    gives the byte found at each offset of the block. *)
Definition malloc (junk : Z -> Z) (size : Z) : mem :=
  map (fun k => junk (Z.of_nat k)) (seq 0 (Z.to_nat size)).

(** The inner [for (;;)] loop of the generator: one pass writes a byte
    taken at [rIndex0], then a byte taken at [rIndex1], and leaves as soon
    as [--x == 0]. *)
Fixpoint random_fill (fuel : nat) (rCount : Z) (m : mem) (p rIndex0 rIndex1 x : Z)
    : option (mem * Z * Z * Z) :=
  match fuel with
  | O => None
  | S fuel' =>
      d <- nth_error OptDePngRandomData (Z.to_nat rIndex0) ;;
      m <- st m p d ;;
      let p := p + 1 in
      let rIndex0 := OptDePngRandomWrap rIndex0 1 rCount in
      let x := u32 (x - 1) in
      if x =? 0 then Some (m, p, rIndex0, rIndex1)
      else
        d <- nth_error OptDePngRandomData (Z.to_nat rIndex1) ;;
        m <- st m p d ;;
        let p := p + 1 in
        let rIndex1 := OptDePngRandomWrap rIndex1 2 rCount in
        let x := u32 (x - 1) in
        if x =? 0 then Some (m, p, rIndex0, rIndex1)
        else random_fill fuel' rCount m p rIndex0 rIndex1 x
  end.

(** The number of bytes written by the inner loop started with [x]. *)
Definition fill_count (x : Z) : Z := if x =? 0 then 4294967296 else x.

(** One iteration of [for (y = 0; y < h; y++)]; the state holds the
    block, [p], [f], the two indices and [y]. *)
Definition random_row (rCount w filter : Z) (s : mem * Z * (Z * Z * Z * Z))
    : option (mem * Z * (Z * Z * Z * Z)) :=
  let '(m, p, (f, rIndex0, rIndex1, y)) := s in
  '(m, f) <-
    (if y =? 0 then
       m <- st m p kPngFilterNone ;; Some (m, f)
     else if filter <? kPngFilterCount then
       m <- st m p (u8 filter) ;; Some (m, f)
     else
       let f := u32 (f + 1) in
       let f := if f >=? kPngFilterCount then 0 else f in
       m <- st m p (u8 f) ;; Some (m, f)) ;;
  let p := p + 1 in
  '(m, p, rIndex0, rIndex1) <-
    random_fill (Z.to_nat (fill_count w)) rCount m p rIndex0 rIndex1 w ;;
  Some (m, p, (f, rIndex0, rIndex1, u32 (y + 1))).

Definition OptDePngRandomImage (junk : Z -> Z) (w h bpp filter seed : Z) : option mem :=
  let rCount := Z.of_nat (length OptDePngRandomData) in
  let rIndex0 := seed mod rCount in
  let rIndex1 := u32 (seed * 33) mod rCount in
  let w := u32 (w * bpp) in
  let size := u32 (u32 (w + 1) * h) in
  let pImage := malloc junk size in
  '(m, _, _) <-
    iter (Z.to_nat h) (random_row rCount w filter)
         (pImage, 0, (filter, rIndex0, rIndex1, 0)) ;;
  Some m.

(** ** Compare

    The result is the [bool] returned; the diagnostics printed before
    [return false] are left out. *)

(** [for (i = 0; i < bpp; i++)]: [Some true] when the loop runs to its end,
    [Some false] when it returns [false]. *)
Fixpoint compare_bytes (n : nat) (A B : mem) (pA pB i : Z) : option bool :=
  match n with
  | O => Some true
  | S n' =>
      aVal <- ld A (pA + i) ;;
      bVal <- ld B (pB + i) ;;
      if negb (aVal =? bVal) then Some false
      else compare_bytes n' A B pA pB (i + 1)
  end.

(** [for (x = 0; x < w; x++)]: the cursors after the row, or [None] inside
    the option when the function returns [false]. *)
Fixpoint compare_pixels (n : nat) (A B : mem) (bpp pA pB : Z) : option (option (Z * Z)) :=
  match n with
  | O => Some (Some (pA, pB))
  | S n' =>
      ok <- compare_bytes (Z.to_nat bpp) A B pA pB 0 ;;
      if ok then compare_pixels n' A B bpp (pA + bpp) (pB + bpp)
      else Some None
  end.

(** [for (y = 0; y < h; y++)]. *)
Fixpoint compare_rows (n : nat) (A B : mem) (w bpp pA pB : Z) : option bool :=
  match n with
  | O => Some true
  | S n' =>
      aFilter <- ld A pA ;;
      bFilter <- ld B pB ;;
      if negb (aFilter =? bFilter) then Some false
      else if aFilter >=? kPngFilterCount then Some false
      else
        let pA := pA + 1 in
        let pB := pB + 1 in
        r <- compare_pixels (Z.to_nat w) A B bpp pA pB ;;
        match r with
        | Some (pA, pB) => compare_rows n' A B w bpp pA pB
        | None => Some false
        end
  end.

Definition OptDePngCompare (pA pB : mem) (w h bpp bpl : Z) : option bool :=
  if negb (bpl =? u32 (u32 (w * bpp) + 1)) then Some false
  else compare_rows (Z.to_nat h) pA pB w bpp 0 0.


(** ** The bytes written by the generator

    The same loops as [random_fill] and [random_row], collecting the bytes
    they write instead of storing them; used to state what the stores of
    [OptDePngRandomImage] amount to. *)

Fixpoint fill_bytes (fuel : nat) (rCount rIndex0 rIndex1 x : Z)
    : option (list Z * Z * Z) :=
  match fuel with
  | O => None
  | S fuel' =>
      let d0 := nth (Z.to_nat rIndex0) OptDePngRandomData 0 in
      let rIndex0 := OptDePngRandomWrap rIndex0 1 rCount in
      let x := u32 (x - 1) in
      if x =? 0 then Some ([d0], rIndex0, rIndex1)
      else
        let d1 := nth (Z.to_nat rIndex1) OptDePngRandomData 0 in
        let rIndex1 := OptDePngRandomWrap rIndex1 2 rCount in
        let x := u32 (x - 1) in
        if x =? 0 then Some ([d0; d1], rIndex0, rIndex1)
        else
          '(l, rIndex0, rIndex1) <- fill_bytes fuel' rCount rIndex0 rIndex1 x ;;
          Some (d0 :: d1 :: l, rIndex0, rIndex1)
  end.

(** The filter byte of row [y] and the value of [f] after it. *)
Definition row_filter (filter f y : Z) : Z * Z :=
  if y =? 0 then (kPngFilterNone, f)
  else if filter <? kPngFilterCount then (u8 filter, f)
  else
    let f := u32 (f + 1) in
    let f := if f >=? kPngFilterCount then 0 else f in
    (u8 f, f).

Definition row_bytes (rCount w filter : Z) (s : Z * Z * Z * Z)
    : option (list Z * (Z * Z * Z * Z)) :=
  let '(f, rIndex0, rIndex1, y) := s in
  let '(b, f) := row_filter filter f y in
  '(l, rIndex0, rIndex1) <-
    fill_bytes (Z.to_nat (fill_count w)) rCount rIndex0 rIndex1 w ;;
  Some (b :: l, (f, rIndex0, rIndex1, u32 (y + 1))).

Fixpoint image_bytes (n : nat) (rCount w filter : Z) (s : Z * Z * Z * Z)
    : option (list Z * (Z * Z * Z * Z)) :=
  match n with
  | O => Some ([], s)
  | S n' =>
      '(r, s) <- row_bytes rCount w filter s ;;
      '(l, s) <- image_bytes n' rCount w filter s ;;
      Some (r ++ l, s)
  end.

(** The filter byte the generator gives row [y]. *)
Definition expected_filter (filter y : Z) : Z :=
  if y =? 0 then kPngFilterNone
  else if filter <? kPngFilterCount then filter
  else (y - 1) mod 5.

(** A byte value. *)
Definition byte (b : Z) : Prop := 0 <= b < 256.

(** The indices of the generator stay inside the table. *)
Definition gen_ok (s : Z * Z * Z * Z) : Prop :=
  let '(f, r0, r1, y) := s in 0 <= r0 < 299 /\ 0 <= r1 < 299.

(** ** A kernel run on a buffer that starts with an all-zero row

    The row loop of the reference kernel is run on the buffer preceded by
    [bpl] zero bytes, with [u] on the pixel bytes of that row: what the
    specification calls an implicit all-zero previous row for row 0. *)
Definition ref_with_zero_row (m : mem) (h bpp bpl : Z) : option mem :=
  let n := Z.to_nat bpl in
  let bpl := u32 (bpl - 1) in
  '(m, _, _) <-
    iter (do_while_count h) (ref_row bpp bpl)
         (repeat 0 n ++ m, Z.of_nat n, Some 1) ;;
  Some (skipn n m).


(** ** The scalar loops on a window of the buffer

    A window is the list of the bytes at [p, p + 1, ...]; each function
    below is the effect of [n] iterations of one scalar loop on the window
    that starts at the cursor [p] (and, for the filters that read the
    previous row, on the window [U] that starts at [u]). *)

Fixpoint upd_nth (k : nat) (l : list Z) (f : Z -> Z) : list Z :=
  match l with
  | [] => []
  | x :: t =>
      match k with
      | O => f x :: t
      | S k' => x :: upd_nth k' t f
      end
  end.

(** [p[bpp] = Sum(p[bpp], p[0])], [n] times. *)
Fixpoint sub_win (bpp n : nat) (W : list Z) : list Z :=
  match n, W with
  | S n', x :: rest =>
      x :: sub_win bpp n' (upd_nth (Nat.pred bpp) rest (fun y => Sum y x))
  | _, _ => W
  end.

(** [p[0] = Sum(p[0], u[0])], over the whole window. *)
Definition up_win (U W : list Z) : list Z := zipWith Sum W U.

(** [p[bpp] = Sum(p[bpp], Avg(p[0], u[0]))], [n] times. *)
Fixpoint avg_win (bpp n : nat) (U W : list Z) : list Z :=
  match n, U, W with
  | S n', b :: U', x :: rest =>
      x :: avg_win bpp n' U' (upd_nth (Nat.pred bpp) rest (fun y => Sum y (Avg x b)))
  | _, _, _ => W
  end.

(** [p[bpp] = Sum(p[bpp], Paeth(p[0], u[bpp], u[0]))], [n] times. *)
Fixpoint paeth_win (Paeth : Z -> Z -> Z -> Z) (bpp n : nat) (U W : list Z) : list Z :=
  match n, U, W with
  | S n', c :: U', x :: rest =>
      x :: paeth_win Paeth bpp n' U'
             (upd_nth (Nat.pred bpp) rest
                      (fun y => Sum y (Paeth x (nth (Nat.pred bpp) U' 0) c)))
  | _, _, _ => W
  end.

(** [p[i] = Sum(p[i], g(u[i]))] for the first bytes of a row. *)
Definition head_win (g : Z -> Z) (U W : list Z) : list Z :=
  zipWith (fun x y => Sum x (g y)) W U.

(** A register of eight 16-bit lanes. *)
Definition W16 (l : list Z) : m128i := of_lanes 2 l.

(** The buffer as a window [W] between the bytes before and after it. *)
Definition frame (pre W post : list Z) : mem := pre ++ W ++ post.

(** What a vector block of the Sub filter must do: on the window of
    [K + B] bytes at [p], with the last pixel in the carried register, it
    does the work of [K] scalar iterations and carries the new last pixel. *)
Definition sub_block_spec (base : Z) (B K : nat) (body : vstate -> option vstate) : Prop :=
  forall pre W post,
    length W = (K + B)%nat ->
    aligned16 (base + (len pre + Z.of_nat B)) = true ->
    body (frame pre W post, len pre, firstn B W ++ zeros (16 - B))
    = Some (frame pre (sub_win B K W) post, len pre + Z.of_nat K,
            firstn B (skipn K (sub_win B K W)) ++ zeros (16 - B)).

(** The buffer with the window [U] of the previous row and the window [W]
    of the current row. *)
Definition frame2 (pre U mid W post : list Z) : mem := pre ++ U ++ mid ++ W ++ post.

(** One 16-bit lane of [PNG_SSE_PAETH]. *)
Definition paeth16 (a b c : Z) : Z :=
  let lo := Z.min (signed16 (a mod 65536)) (signed16 (b mod 65536)) in
  let hi := Z.max (signed16 (a mod 65536)) (signed16 (b mod 65536)) in
  let d := Z.shiftr (((hi - lo) mod 65536) * (Z.shiftl 171 7 mod 65536)) 16 in
  c + Z.land (Z.lnot (Z.shiftr (signed16 ((d + (lo - c)) mod 65536)) 15)) (hi - c)
    + Z.land (Z.lnot (Z.shiftr (signed16 ((d - (hi - c)) mod 65536)) 15)) (lo - c).

Fixpoint zipWith3 (f : Z -> Z -> Z -> Z) (a b c : list Z) : list Z :=
  match a, b, c with
  | x :: a', y :: b', z :: c' => f x y z :: zipWith3 f a' b' c'
  | _, _, _ => []
  end.

(** What the vector part of a row leaves to the scalar tail. *)
Definition vec_result (step : mem * Z * ptr -> option (mem * Z * ptr))
    (m : mem) (p u i : Z) (res : option (Z * (mem * Z * ptr))) : Prop :=
  exists m' r,
    res = Some (r, (m', p + (i - r), Some (u + (i - r)))) /\
    0 <= r <= i /\
    iter (Z.to_nat (i - r)) step (m, p, Some u)
    = Some (m', p + (i - r), Some (u + (i - r))) /\
    len m' = len m /\ Forall byte m'.

(** The 1-bpp Paeth loop of the SSE2 kernel on the two windows: [pz] is the
    byte just written, [uz] the byte above it. *)
Fixpoint paeth1_win (pz uz : Z) (U W : list Z) : list Z :=
  match U, W with
  | c :: U', x :: W' =>
      let v := Sum x (PaethOpt pz c uz) in
      v :: paeth1_win v c U' W'
  | _, _ => []
  end.


(** ** optglobals.h: [OptIsAligned] *)

(** [OptIsAligned(p, alignment)] on the address [addr] of [p]. *)
Definition OptIsAligned (addr alignment : Z) : bool :=
  let mask := u32 (alignment - 1) in
  Z.land addr mask =? 0.

(** ** The earlier Paeth of the sources

    The comment above [PaethOpt] quotes the implementation it replaces:
    the minimum, the maximum and a third of their distance, and two
    comparisons against [c]. *)
Definition Paeth (a b c : Z) : Z :=
  let minAB := Min a b in
  let maxAB := Max a b in
  let divAB := u32 (UDiv3 (i32 (u32 (maxAB - minAB)))) in
  if c <=? u32 (minAB + divAB) then maxAB
  else if c >=? u32 (maxAB - divAB) then minAB
  else c.

(** The four [PNG_SSE_SLL_ADDB_1X] steps of the 16-byte Sub loop (1 byte
    per pixel), on one register. *)
Definition sll_addb_scan (P0 : m128i) : m128i :=
  let '(P0, _) := PNG_SSE_SLL_ADDB_1X P0 1 in
  let '(P0, _) := PNG_SSE_SLL_ADDB_1X P0 2 in
  let '(P0, _) := PNG_SSE_SLL_ADDB_1X P0 4 in
  let '(P0, _) := PNG_SSE_SLL_ADDB_1X P0 8 in
  P0.

(** The byte of the buffer at an offset. *)
Definition byte_at (m : mem) (a : Z) : Z := nth (Z.to_nat a) m 0.

(** ** What a kernel leaves in a row

    [row_done bpp bpl m out q]: the row whose filter byte is at offset [q]
    holds in [out] the bytes the loops of its filter compute from its bytes
    in [m] and from the bytes of [out] to the left and above ([bpl] is the
    number of bytes of a row without its filter byte). *)
Definition row_done (bpp bpl : Z) (m out : mem) (q : Z) : Prop :=
  forall x, 0 <= x < bpl ->
    let raw := byte_at m (q + 1 + x) in
    let cur := byte_at out (q + 1 + x) in
    let left := byte_at out (q + 1 + x - bpp) in
    let above := byte_at out (q - bpl + x) in
    let upleft := byte_at out (q - bpl + x - bpp) in
    (byte_at m q = kPngFilterNone -> cur = raw) /\
    (byte_at m q = kPngFilterSub ->
       cur = if x <? bpp then raw else Sum raw left) /\
    (byte_at m q = kPngFilterUp -> cur = Sum raw above) /\
    (byte_at m q = kPngFilterAvg ->
       cur = if x <? bpp then Sum raw (Z.shiftr above 1) else Sum raw (Avg left above)) /\
    (byte_at m q = kPngFilterPaeth ->
       cur = if x <? bpp then Sum raw above else Sum raw (PaethRef left above upleft)).

(** ** The bytes of the generator

    [stream_byte r0 r1 j]: the [j]-th byte written by the inner loop of
    [OptDePngRandomImage] when it starts with the table indices [r0] and
    [r1] (taken modulo the size of the table): the bytes at even positions
    walk the table from [r0] in steps of 1, those at odd positions from [r1]
    in steps of 2. *)
Definition stream_byte (r0 r1 j : Z) : Z :=
  nth (Z.to_nat (if Z.even j then (r0 + j / 2) mod 299 else (r1 + 2 * (j / 2)) mod 299))
      OptDePngRandomData 0.


(** ** Check, Bench and main

    What the test program prints and the readings of [OptTimer] (which only
    reach [printf]) are left out: [OptDePngCheck] is the [bool] it returns,
    [OptDePngBench] the calls it makes, [main] its exit status.

    [malloc] is modelled by a heap [Z -> Z * (Z -> Z)]: the address and the
    initial contents of the block that the [k]-th allocation of a call
    returns (allocation never fails). *)

(** [OptDePngFilterFunc]: a kernel, called on a buffer and its address. *)
Definition OptDePngFilterFunc : Type := Z -> mem -> Z -> Z -> Z -> option mem.

Definition FilterRef : OptDePngFilterFunc := fun _ => OptDePngFilterRef.
Definition FilterOpt : OptDePngFilterFunc := fun _ => OptDePngFilterOpt.
Definition FilterSSE2 : OptDePngFilterFunc := OptDePngFilterSSE2.

(** [for (i = lo; cond(i); i++) body] on 32-bit counters; the body answers
    [None] (inside the option) when it leaves the function with
    [return false]. *)
Fixpoint for_loop {S : Type} (fuel : nat) (cond : Z -> bool) (i : Z)
    (body : Z -> S -> option (option S)) (s : S) : option (option S) :=
  if cond i then
    match fuel with
    | O => None
    | Datatypes.S fuel' =>
        r <- body i s ;;
        match r with
        | Some s' => for_loop fuel' cond (u32 (i + 1)) body s'
        | None => Some None
        end
    end
  else Some (Some s).

(** The body of the innermost loop of [OptDePngCheck]; the state is
    [seed], which also counts the pairs of blocks allocated so far. *)
Definition check_image (heap : Z -> Z * (Z -> Z)) (ref opt : OptDePngFilterFunc)
    (filter h w bppIndex seed : Z) : option (option Z) :=
  let bpp := nth (Z.to_nat bppIndex) OptDePngBppData 0 in
  let bpl := u32 (w * bpp + 1) in
  let blockRef := heap (2 * seed) in
  let blockOpt := heap (2 * seed + 1) in
  pRef <- OptDePngRandomImage (snd blockRef) w h bpp filter seed ;;
  pOpt <- OptDePngRandomImage (snd blockOpt) w h bpp filter seed ;;
  pRef <- ref (fst blockRef) pRef h bpp bpl ;;
  pOpt <- opt (fst blockOpt) pOpt h bpp bpl ;;
  ok <- OptDePngCompare pRef pOpt w h bpp bpl ;;
  if negb ok then Some None else Some (Some (u32 (seed + 1))).

Definition OptDePngCheck (heap : Z -> Z * (Z -> Z)) (ref opt : OptDePngFilterFunc)
    : option bool :=
  r <- for_loop 6 (fun filter => filter <=? kPngFilterCount) 0
         (fun filter =>
            for_loop 19 (fun h => h <? 20) 1
              (fun h =>
                 for_loop 99 (fun w => w <? 100) 1
                   (fun w =>
                      for_loop 6 (fun bppIndex => bppIndex <? 6) 0
                        (check_image heap ref opt filter h w))))
         0 ;;
  match r with
  | Some _ => Some true
  | None => Some false
  end.

(** The body of the inner loop of [OptDePngBench]: one image, filtered in
    place [quantity = 1000] times. *)
Definition bench_image (heap : Z -> Z * (Z -> Z)) (func : OptDePngFilterFunc)
    (w h quantity filter bppIndex : Z) (s : unit) : option (option unit) :=
  let bpp := nth (Z.to_nat bppIndex) OptDePngBppData 0 in
  let bpl := u32 (w * bpp + 1) in
  let block := heap ((filter - 1) * 6 + bppIndex) in
  pImage <- OptDePngRandomImage (snd block) w h bpp filter 0 ;;
  _ <- iter (Z.to_nat quantity) (fun m => func (fst block) m h bpp bpl) pImage ;;
  Some (Some s).

Definition OptDePngBench (heap : Z -> Z * (Z -> Z)) (func : OptDePngFilterFunc)
    : option unit :=
  let w := 256 in
  let h := 256 in
  let quantity := 1000 in
  r <- for_loop 5 (fun filter => filter <=? kPngFilterCount) 1
         (fun filter =>
            for_loop 6 (fun bppIndex => bppIndex <? 6) 0
              (bench_image heap func w h quantity filter))
         tt ;;
  Some tt.

(** [main]: the exit status; [heap k] is the heap of the [k]-th call of
    [OptDePngCheck] or [OptDePngBench]. *)
Definition main (heap : Z -> Z -> Z * (Z -> Z)) : option Z :=
  ok <- OptDePngCheck (heap 0) FilterRef FilterOpt ;;
  if negb ok then Some 1
  else
    ok <- OptDePngCheck (heap 1) FilterRef FilterSSE2 ;;
    if negb ok then Some 1
    else
      _ <- OptDePngBench (heap 2) FilterRef ;;
      _ <- OptDePngBench (heap 3) FilterOpt ;;
      _ <- OptDePngBench (heap 4) FilterSSE2 ;;
      Some 0.

(** What one iteration of the check has established when it goes on to the
    next image: the two kernels returned, and their results hold the same
    [h * bpl] bytes. *)
Definition check_agrees (heap : Z -> Z * (Z -> Z)) (ref opt : OptDePngFilterFunc)
    (filter h w bppIndex seed : Z) : Prop :=
  let bpp := nth (Z.to_nat bppIndex) OptDePngBppData 0 in
  let bpl := w * bpp + 1 in
  exists img outRef outOpt,
    OptDePngRandomImage (snd (heap (2 * seed))) w h bpp filter seed = Some img /\
    ref (fst (heap (2 * seed))) img h bpp bpl = Some outRef /\
    opt (fst (heap (2 * seed + 1))) img h bpp bpl = Some outOpt /\
    forall a, 0 <= a < h * bpl ->
      exists v, ld outRef a = Some v /\ ld outOpt a = Some v.


(** * Basic facts: machine integers, loops, memory *)

Lemma u32_small x : 0 <= x < 4294967296 -> u32 x = x.
Proof. intros H. unfold u32. apply Z.mod_small. exact H. Qed.

Lemma u32_range x : 0 <= u32 x < 4294967296.
Proof. unfold u32. apply Z.mod_pos_bound. lia. Qed.

Lemma u8_small x : 0 <= x < 256 -> u8 x = x.
Proof. intros H. unfold u8. apply Z.mod_small. exact H. Qed.

Lemma i32_small x : -2147483648 <= x < 2147483648 -> i32 x = x.
Proof. intros H. unfold i32. rewrite Z.mod_small by lia. lia. Qed.

Lemma Sum_mod a b : Sum a b = (a + b) mod 256.
Proof.
  unfold Sum, u8, u32.
  change 255 with (Z.ones 8). rewrite Z.land_ones by lia.
  change (2 ^ 8) with 256.
  rewrite Z.mod_mod by lia.
  change 4294967296 with (16777216 * 256).
  rewrite Z.mul_comm, Z.rem_mul_r by lia.
  rewrite Z.mul_comm, Z.mod_add by lia. apply Z.mod_mod. lia.
Qed.

Lemma Sum_range a b : 0 <= Sum a b < 256.
Proof. rewrite Sum_mod. apply Z.mod_pos_bound. lia. Qed.

Lemma Avg_div2 a b : 0 <= a + b < 4294967296 -> Avg a b = (a + b) / 2.
Proof.
  intros H. unfold Avg. rewrite u32_small by exact H.
  rewrite Z.shiftr_div_pow2 by lia. reflexivity.
Qed.

(** ** The loop combinator *)

Lemma iter_S {S : Type} n (f : S -> option S) s :
  iter (Datatypes.S n) f s = (s' <- f s ;; iter n f s').
Proof. reflexivity. Qed.

Lemma iter_add {S : Type} (a b : nat) (f : S -> option S) s :
  iter (a + b) f s = (s' <- iter a f s ;; iter b f s').
Proof.
  revert s. induction a as [|a IH]; intros s; simpl.
  - reflexivity.
  - destruct (f s) as [s'|]; simpl; [apply IH | reflexivity].
Qed.

Lemma iter_fault {S : Type} n (f : S -> option S) s :
  f s = None -> iter (Datatypes.S n) f s = None.
Proof. intros H. simpl. rewrite H. reflexivity. Qed.

Lemma iter_ext {S : Type} n (f g : S -> option S) s :
  (forall x, f x = g x) -> iter n f s = iter n g s.
Proof.
  intros E. revert s. induction n as [|n IH]; intros s; simpl.
  - reflexivity.
  - rewrite E. destruct (g s); simpl; [apply IH | reflexivity].
Qed.

Lemma do_while_count_pos h : 0 <= h -> exists n, do_while_count h = Datatypes.S n.
Proof.
  intros H. unfold do_while_count.
  destruct (Z.eqb_spec h 0) as [->|Hn].
  - exists (Nat.pred (Z.to_nat 4294967296)). lia.
  - exists (Nat.pred (Z.to_nat h)). lia.
Qed.

Lemma do_while_count_nat h : 1 <= h -> do_while_count h = Z.to_nat h.
Proof.
  intros H. unfold do_while_count.
  destruct (Z.eqb_spec h 0); [lia | reflexivity].
Qed.

(** ** Memory *)

Lemma len_nonneg (m : mem) : 0 <= len m.
Proof. unfold len. lia. Qed.

Lemma len_app (a b : mem) : len (a ++ b) = len a + len b.
Proof. unfold len. rewrite length_app. lia. Qed.

Lemma in_bounds_true m a n :
  in_bounds m a n = true <-> 0 <= a /\ a + n <= len m.
Proof.
  unfold in_bounds. rewrite andb_true_iff, Z.leb_le, Z.leb_le. reflexivity.
Qed.

Lemma in_bounds_false m a n :
  in_bounds m a n = false <-> a < 0 \/ len m < a + n.
Proof.
  unfold in_bounds. rewrite andb_false_iff, !Z.leb_gt. reflexivity.
Qed.

Lemma storen_ok m a l :
  0 <= a -> a + len l <= len m -> storen m a l = Some (upd m a l).
Proof.
  intros H1 H2. unfold storen.
  replace (in_bounds m a (len l)) with true; [reflexivity|].
  symmetry. apply in_bounds_true. lia.
Qed.

Lemma storen_inv m a l m' :
  storen m a l = Some m' -> 0 <= a /\ a + len l <= len m /\ m' = upd m a l.
Proof.
  unfold storen. destruct (in_bounds m a (len l)) eqn:E; [|discriminate].
  apply in_bounds_true in E. intros [= <-]. repeat split; lia.
Qed.

Lemma length_upd m a l :
  0 <= a -> a + len l <= len m -> length (upd m a l) = length m.
Proof.
  unfold upd, len. intros H1 H2.
  rewrite !length_app, length_firstn, length_skipn. lia.
Qed.

Lemma len_upd m a l :
  0 <= a -> a + len l <= len m -> len (upd m a l) = len m.
Proof. intros H1 H2. unfold len at 1. rewrite length_upd by assumption. reflexivity. Qed.

Lemma storen_len m a l m' : storen m a l = Some m' -> len m' = len m.
Proof. intros H. apply storen_inv in H as (H1 & H2 & ->). apply len_upd; assumption. Qed.

Lemma st_len m a v m' : st m a v = Some m' -> len m' = len m.
Proof. apply storen_len. Qed.

Lemma ld_ok m a : 0 <= a < len m -> ld m a = Some (nth (Z.to_nat a) m 0).
Proof.
  intros H. unfold ld.
  replace (in_bounds m a 1) with true by (symmetry; apply in_bounds_true; lia).
  apply nth_error_nth'. unfold len in H. lia.
Qed.

Lemma ld_inv m a x : ld m a = Some x -> 0 <= a < len m /\ x = nth (Z.to_nat a) m 0.
Proof.
  unfold ld. destruct (in_bounds m a 1) eqn:E; [|discriminate].
  apply in_bounds_true in E. intros H. split; [lia|].
  symmetry. apply nth_error_nth. exact H.
Qed.

Lemma nth_upd_other m a l k :
  0 <= a -> a + len l <= len m ->
  (k < Z.to_nat a \/ Z.to_nat a + length l <= k)%nat ->
  nth k (upd m a l) 0 = nth k m 0.
Proof.
  intros H1 H2 Hk. unfold upd. unfold len in H2.
  destruct Hk as [Hk|Hk].
  - rewrite app_nth1 by (rewrite length_firstn; lia).
    rewrite nth_firstn.
    destruct (Nat.ltb_spec k (Z.to_nat a)); [reflexivity | lia].
  - rewrite app_nth2 by (rewrite length_firstn; lia).
    rewrite length_firstn.
    rewrite app_nth2 by lia.
    rewrite nth_skipn. f_equal. lia.
Qed.

Lemma nth_upd_same m a l k :
  0 <= a -> a + len l <= len m -> (k < length l)%nat ->
  nth (Z.to_nat a + k) (upd m a l) 0 = nth k l 0.
Proof.
  intros H1 H2 Hk. unfold upd. unfold len in H2.
  rewrite app_nth2 by (rewrite length_firstn; lia).
  rewrite length_firstn.
  rewrite app_nth1 by lia. f_equal. lia.
Qed.

Lemma ld_st_other m a v m' b :
  st m a v = Some m' -> b <> a -> ld m' b = ld m b.
Proof.
  intros H Hb. pose proof (st_len _ _ _ _ H) as Hl.
  apply storen_inv in H as (H1 & H2 & ->).
  unfold ld, in_bounds. rewrite Hl.
  destruct ((0 <=? b) && (b + 1 <=? len m)) eqn:E; [|reflexivity].
  apply andb_true_iff in E as [E1 E2]. apply Z.leb_le in E1, E2.
  rewrite !nth_error_nth' with (d := 0).
  - f_equal. apply nth_upd_other; try assumption. simpl. lia.
  - unfold len in E2. lia.
  - rewrite length_upd by assumption. unfold len in E2. lia.
Qed.

Lemma ld_st_same m a v m' : st m a v = Some m' -> ld m' a = Some v.
Proof.
  intros H. pose proof (st_len _ _ _ _ H) as Hl.
  apply storen_inv in H as (H1 & H2 & ->).
  change (len [v]) with 1 in H2.
  rewrite ld_ok by (rewrite len_upd; [lia | lia | exact H2]).
  f_equal. replace (Z.to_nat a) with (Z.to_nat a + 0)%nat by lia.
  rewrite nth_upd_same; [reflexivity | lia | exact H2 | simpl; lia].
Qed.

Lemma st_ok m a v : 0 <= a < len m -> st m a v = Some (upd m a [v]).
Proof. intros H. apply storen_ok; [lia | change (len [v]) with 1; lia]. Qed.

Lemma bind_None {A B : Type} (x : option A) : (y <- x ;; (None : option B)) = None.
Proof. destruct x; reflexivity. Qed.

(** ** Windows: the buffer seen as [pre ++ w ++ post] *)

Lemma mem_split (m : mem) a (n : nat) :
  0 <= a -> a + Z.of_nat n <= len m ->
  exists pre w post, m = pre ++ w ++ post /\ len pre = a /\ length w = n.
Proof.
  intros H1 H2. unfold len in *.
  exists (firstn (Z.to_nat a) m), (firstn n (skipn (Z.to_nat a) m)),
         (skipn n (skipn (Z.to_nat a) m)).
  split; [|split].
  - rewrite firstn_skipn. rewrite firstn_skipn. reflexivity.
  - rewrite length_firstn. lia.
  - rewrite length_firstn, length_skipn. lia.
Qed.

Lemma firstn_len_app (pre rest : list Z) :
  firstn (Z.to_nat (len pre)) (pre ++ rest) = pre.
Proof.
  unfold len. rewrite Nat2Z.id.
  rewrite firstn_app, Nat.sub_diag, firstn_all. simpl. apply app_nil_r.
Qed.

Lemma skipn_len_app (pre rest : list Z) :
  skipn (Z.to_nat (len pre)) (pre ++ rest) = rest.
Proof.
  unfold len. rewrite Nat2Z.id.
  rewrite skipn_app, Nat.sub_diag, skipn_all. reflexivity.
Qed.

Lemma skipn_len_app_plus (pre w post : list Z) n :
  n = length w ->
  skipn (Z.to_nat (len pre) + n) (pre ++ w ++ post) = post.
Proof.
  intros ->. unfold len. rewrite Nat2Z.id.
  rewrite <- (length_app pre w), app_assoc.
  rewrite skipn_app, Nat.sub_diag, skipn_all. reflexivity.
Qed.

Lemma upd_at (pre w post l : list Z) :
  length l = length w -> upd (pre ++ w ++ post) (len pre) l = pre ++ l ++ post.
Proof.
  intros H. unfold upd.
  rewrite firstn_len_app, skipn_len_app_plus by exact H. reflexivity.
Qed.

Lemma storen_at (pre w post l : list Z) :
  length l = length w -> storen (pre ++ w ++ post) (len pre) l = Some (pre ++ l ++ post).
Proof.
  intros H. rewrite storen_ok.
  - rewrite upd_at by exact H. reflexivity.
  - apply len_nonneg.
  - rewrite !len_app. unfold len. pose proof (len_nonneg post). unfold len in *. lia.
Qed.

Lemma loadn_ok (m : mem) a (n : nat) :
  0 <= a -> a + Z.of_nat n <= len m ->
  loadn m a n = Some (firstn n (skipn (Z.to_nat a) m)).
Proof.
  intros H1 H2. unfold loadn.
  replace (in_bounds m a (Z.of_nat n)) with true; [reflexivity|].
  symmetry. apply in_bounds_true. lia.
Qed.

Lemma loadn_at (pre w post : list Z) :
  loadn (pre ++ w ++ post) (len pre) (length w) = Some w.
Proof.
  rewrite loadn_ok.
  - rewrite skipn_len_app. rewrite firstn_app, Nat.sub_diag, firstn_all.
    simpl. rewrite app_nil_r. reflexivity.
  - apply len_nonneg.
  - rewrite !len_app. pose proof (len_nonneg post). unfold len in *. lia.
Qed.

Lemma loadn_length m a n l : loadn m a n = Some l -> length l = n.
Proof.
  unfold loadn. destruct (in_bounds m a (Z.of_nat n)) eqn:E; [|discriminate].
  apply in_bounds_true in E. intros [= <-].
  rewrite length_firstn, length_skipn. unfold len in E. lia.
Qed.

Lemma loadn_inv m a n l :
  loadn m a n = Some l ->
  exists pre post, m = pre ++ l ++ post /\ len pre = a.
Proof.
  intros H. pose proof (loadn_length _ _ _ _ H) as Hl.
  unfold loadn in H. destruct (in_bounds m a (Z.of_nat n)) eqn:E; [|discriminate].
  apply in_bounds_true in E. injection H as H.
  destruct (mem_split m a n) as (pre & w & post & Hm & Hp & Hw); [lia | lia |].
  exists pre, post. split; [|exact Hp].
  rewrite <- H. rewrite Hm at 1. f_equal. f_equal.
  rewrite Hm, <- Hp, skipn_len_app.
  rewrite firstn_app, Hw, Nat.sub_diag, <- Hw, firstn_all. simpl.
  rewrite app_nil_r. reflexivity.
Qed.

(** A store of [l1 ++ l2] is the store of [l1] followed by the store of [l2]. *)
Lemma storen_app m a l1 l2 :
  storen m a (l1 ++ l2) = (m' <- storen m a l1 ;; storen m' (a + len l1) l2).
Proof.
  destruct (Z.ltb_spec a 0) as [Ha|Ha].
  { unfold storen at 1 2. unfold in_bounds.
    replace (0 <=? a) with false by (symmetry; apply Z.leb_gt; exact Ha).
    reflexivity. }
  destruct (Z.leb_spec (a + len l1) (len m)) as [H1|H1].
  2:{ unfold storen at 1 2.
      replace (in_bounds m a (len (l1 ++ l2))) with false.
      2:{ symmetry. apply in_bounds_false. rewrite len_app.
          pose proof (len_nonneg l2). lia. }
      replace (in_bounds m a (len l1)) with false; [reflexivity|].
      symmetry. apply in_bounds_false. lia. }
  rewrite (storen_ok m a l1) by assumption. simpl.
  destruct (Z.leb_spec (a + len l1 + len l2) (len m)) as [H2|H2].
  2:{ unfold storen.
      replace (in_bounds m a (len (l1 ++ l2))) with false.
      2:{ symmetry. apply in_bounds_false. rewrite len_app. lia. }
      replace (in_bounds (upd m a l1) (a + len l1) (len l2)) with false; [reflexivity|].
      symmetry. apply in_bounds_false. rewrite len_upd by assumption. lia. }
  rewrite storen_ok by (rewrite ?len_app; lia).
  rewrite storen_ok by (rewrite ?len_upd by assumption; pose proof (len_nonneg l1); lia).
  f_equal.
  destruct (mem_split m a (length l1 + length l2)) as (pre & w & post & Hm & Hp & Hw);
    [lia | unfold len in *; lia |].
  assert (Hw' : w = firstn (length l1) w ++ skipn (length l1) w)
    by (symmetry; apply firstn_skipn).
  set (w1 := firstn (length l1) w) in *. set (w2 := skipn (length l1) w) in *.
  assert (L1 : length w1 = length l1) by (unfold w1; rewrite length_firstn; lia).
  assert (L2 : length w2 = length l2) by (unfold w2; rewrite length_skipn; lia).
  subst m a. rewrite Hw'.
  rewrite <- (app_assoc w1 w2 post).
  rewrite (upd_at pre w1 (w2 ++ post) l1) by (symmetry; exact L1).
  rewrite (app_assoc w1 w2 post).
  rewrite (upd_at pre (w1 ++ w2) post (l1 ++ l2)) by (rewrite !length_app; lia).
  replace (len pre + len l1) with (len (pre ++ l1)) by apply len_app.
  rewrite (app_assoc pre l1 (w2 ++ post)).
  rewrite (upd_at (pre ++ l1) w2 post l2) by (symmetry; exact L2).
  rewrite <- !app_assoc. reflexivity.
Qed.

Lemma storen_nil m a : 0 <= a <= len m -> storen m a [] = Some m.
Proof.
  intros H. rewrite storen_ok by (change (len []) with 0; lia).
  f_equal. unfold upd. simpl. rewrite Nat.add_0_r. apply firstn_skipn.
Qed.

Lemma storen_cons m a v l :
  storen m a (v :: l) = (m' <- st m a v ;; storen m' (a + 1) l).
Proof. apply (storen_app m a [v] l). Qed.

Lemma storen_snoc m a l v :
  storen m a (l ++ [v]) = (m' <- storen m a l ;; st m' (a + len l) v).
Proof. apply storen_app. Qed.

(** A store over the whole buffer replaces it. *)
Lemma storen_all m l : len l = len m -> storen m 0 l = Some l.
Proof.
  intros H. rewrite storen_ok by lia. f_equal.
  unfold upd. simpl. rewrite skipn_all2 by (unfold len in H; lia).
  apply app_nil_r.
Qed.


(** * The scalar helpers *)

Lemma UDiv3_div x : 0 <= x <= 255 -> UDiv3 x = x / 3.
Proof.
  intros H. unfold UDiv3. rewrite i32_small by lia.
  rewrite Z.shiftr_div_pow2 by lia. change (2 ^ 9) with 512.
  Z.div_mod_to_equations. lia.
Qed.

(** C4: for every x in [0, 255], UDiv3(x) = (x * 0xAB) >> 9 is the floor
    division x / 3. *)
Theorem UDiv3_is_division_by_3 :
  forall x, 0 <= x <= 255 ->
            UDiv3 x = Z.shiftr (x * 171) 9 /\ UDiv3 x = x / 3.
Proof.
  intros x H. split.
  - unfold UDiv3. rewrite i32_small by lia. reflexivity.
  - apply UDiv3_div. exact H.
Qed.

Lemma UDiv3_is_division_by_3_witness :
  UDiv3 200 = Z.shiftr (200 * 171) 9 /\ UDiv3 200 = 200 / 3.
Proof. apply (UDiv3_is_division_by_3 200). lia. Defined.

(** The sign mask [~(s >> 31)] keeps [x] when [s] is not negative. *)
Lemma sign_mask x s :
  -2147483648 <= s < 2147483648 ->
  Z.land x (Z.lnot (Z.shiftr s 31)) = if s <? 0 then 0 else x.
Proof.
  intros H. rewrite Z.shiftr_div_pow2 by lia. change (2 ^ 31) with 2147483648.
  destruct (Z.ltb_spec s 0) as [Hs|Hs].
  - replace (s / 2147483648) with (-1) by (Z.div_mod_to_equations; lia).
    apply Z.land_0_r.
  - replace (s / 2147483648) with 0 by (Z.div_mod_to_equations; lia).
    apply Z.land_m1_r.
Qed.

Lemma PaethOpt_cases a b c :
  0 <= a <= 255 -> 0 <= b <= 255 -> 0 <= c <= 255 ->
  PaethOpt a b c =
    let lo := Z.min a b in
    let hi := Z.max a b in
    let d := (hi - lo) / 3 in
    if d + (lo - c) <? 0 then (if d - (hi - c) <? 0 then c else lo)
    else (if d - (hi - c) <? 0 then hi else lo + hi - c).
Proof.
  intros Ha Hb Hc. unfold PaethOpt.
  assert (Hmin : Min a b = Z.min a b) by (unfold Min; destruct (Z.ltb_spec a b); lia).
  assert (Hmax : Max a b = Z.max a b)
    by (unfold Max; rewrite Z.gtb_ltb; destruct (Z.ltb_spec b a); lia).
  rewrite Hmin, Hmax. cbv zeta.
  set (lo := Z.min a b). set (hi := Z.max a b).
  assert (Hlo : 0 <= lo <= 255) by (unfold lo; lia).
  assert (Hhi : 0 <= hi <= 255) by (unfold hi; lia).
  assert (Hlh : lo <= hi) by (unfold lo, hi; lia).
  rewrite (i32_small lo), (i32_small hi), (i32_small c) by lia.
  rewrite (i32_small (hi - lo)) by lia.
  rewrite UDiv3_div by lia.
  set (d := (hi - lo) / 3).
  assert (Hd : 0 <= d <= 85) by (unfold d; Z.div_mod_to_equations; lia).
  rewrite (i32_small (lo - c)), (i32_small (hi - c)) by lia.
  rewrite (i32_small (d + (lo - c))), (i32_small (d - (hi - c))) by lia.
  rewrite !sign_mask by lia.
  assert (Hd3 : 3 * d <= hi - lo < 3 * d + 3) by (unfold d; Z.div_mod_to_equations; lia).
  destruct (Z.ltb_spec (d + (lo - c)) 0), (Z.ltb_spec (d - (hi - c)) 0);
    rewrite u32_small by lia; lia.
Qed.

Lemma PaethRef_cases b a c :
  0 <= a <= 255 -> 0 <= b <= 255 -> 0 <= c <= 255 ->
  PaethRef b a c =
    if (Z.abs (b - c) <=? Z.abs (a - c)) && (Z.abs (b - c) <=? Z.abs (a + b - 2 * c))
    then a
    else if Z.abs (a - c) <=? Z.abs (a + b - 2 * c) then b else c.
Proof.
  intros Ha Hb Hc. unfold PaethRef. cbv zeta.
  rewrite (i32_small a), (i32_small b), (i32_small c) by lia.
  rewrite (i32_small (b - c)), (i32_small (a - c)) by lia.
  rewrite (i32_small (b - c + (a - c))) by lia.
  assert (HA : forall x, -1000 <= x <= 1000 -> Abs x = Z.abs x).
  { intros x Hx. unfold Abs. rewrite Z.geb_leb.
    destruct (Z.leb_spec 0 x); [lia | rewrite i32_small; lia]. }
  rewrite !HA by lia.
  replace (b - c + (a - c)) with (a + b - 2 * c) by lia.
  reflexivity.
Qed.

Lemma PaethOpt_PaethRef a b c :
  0 <= a <= 255 -> 0 <= b <= 255 -> 0 <= c <= 255 ->
  PaethOpt a b c = PaethRef b a c.
Proof.
  intros Ha Hb Hc.
  rewrite PaethOpt_cases, PaethRef_cases by assumption. cbv zeta.
  assert (Hd3 : 3 * ((Z.max a b - Z.min a b) / 3) <= Z.max a b - Z.min a b
                < 3 * ((Z.max a b - Z.min a b) / 3) + 3)
    by (Z.div_mod_to_equations; lia).
  set (d := (Z.max a b - Z.min a b) / 3) in *.
  destruct (Z.ltb_spec (d + (Z.min a b - c)) 0),
           (Z.ltb_spec (d - (Z.max a b - c)) 0),
           (Z.leb_spec (Z.abs (b - c)) (Z.abs (a - c))),
           (Z.leb_spec (Z.abs (b - c)) (Z.abs (a + b - 2 * c))),
           (Z.leb_spec (Z.abs (a - c)) (Z.abs (a + b - 2 * c)));
    simpl; lia.
Qed.

Lemma PaethOpt_sym a b c :
  0 <= a <= 255 -> 0 <= b <= 255 -> 0 <= c <= 255 ->
  PaethOpt a b c = PaethOpt b a c.
Proof.
  intros Ha Hb Hc. rewrite !PaethOpt_cases by assumption.
  rewrite (Z.min_comm b a), (Z.max_comm b a). reflexivity.
Qed.

Lemma PaethRef_range b a c :
  0 <= a <= 255 -> 0 <= b <= 255 -> 0 <= c <= 255 -> 0 <= PaethRef b a c <= 255.
Proof.
  intros Ha Hb Hc. rewrite PaethRef_cases by assumption.
  repeat match goal with |- context [if ?x then _ else _] => destruct x end; lia.
Qed.

(** C2: on every triple of bytes the two Paeth predictors agree, with the
    stated swap of the first two arguments. *)
Theorem PaethOpt_agrees_with_PaethRef :
  forall a b c,
    0 <= a <= 255 -> 0 <= b <= 255 -> 0 <= c <= 255 ->
    PaethOpt a b c = PaethRef b a c.
Proof. exact PaethOpt_PaethRef. Qed.

Lemma PaethOpt_agrees_with_PaethRef_witness :
  PaethOpt 10 200 90 = PaethRef 200 10 90.
Proof. apply (PaethOpt_agrees_with_PaethRef 10 200 90); lia. Defined.


(** * The random image generator *)

Lemma rCount_299 : Z.of_nat (length OptDePngRandomData) = 299.
Proof. reflexivity. Qed.

Lemma table_bytes : Forall byte OptDePngRandomData.
Proof.
  apply Forall_forall. intros b Hb.
  assert (H : forallb (fun b => (0 <=? b) && (b <? 256)) OptDePngRandomData = true)
    by reflexivity.
  rewrite forallb_forall in H. specialize (H b Hb).
  apply andb_true_iff in H as [H1 H2]. unfold byte. lia.
Qed.

Lemma table_nth_byte r : byte (nth r OptDePngRandomData 0).
Proof.
  destruct (Nat.lt_ge_cases r (length OptDePngRandomData)) as [H|H].
  - pose proof table_bytes as T. rewrite Forall_forall in T.
    apply T. apply nth_In. exact H.
  - rewrite nth_overflow by exact H. unfold byte. lia.
Qed.

Lemma table_nth_error r :
  0 <= r < 299 ->
  nth_error OptDePngRandomData (Z.to_nat r) = Some (nth (Z.to_nat r) OptDePngRandomData 0).
Proof.
  intros H. apply nth_error_nth'.
  apply Nat2Z.inj_lt. rewrite rCount_299. lia.
Qed.

Lemma wrap_range x adv :
  0 <= x < 299 -> 0 <= adv <= 2 -> 0 <= OptDePngRandomWrap x adv 299 < 299.
Proof.
  intros Hx Ha. unfold OptDePngRandomWrap.
  rewrite (u32_small (x + adv)) by lia.
  destruct (Z.ltb_spec (x + adv) 299); [lia|].
  rewrite u32_small by lia. lia.
Qed.

(** The stores of the inner loop amount to one store of [fill_bytes]. *)
Lemma fill_refine fuel : forall m p r0 r1 x,
  0 <= r0 < 299 -> 0 <= r1 < 299 ->
  random_fill fuel 299 m p r0 r1 x =
  match fill_bytes fuel 299 r0 r1 x with
  | Some (l, a, b) => m' <- storen m p l ;; Some (m', p + len l, a, b)
  | None => None
  end.
Proof.
  induction fuel as [|fuel IH]; intros m p r0 r1 x H0 H1.
  - reflexivity.
  - cbn [random_fill fill_bytes]. rewrite !table_nth_error by assumption.
    cbn [bind].
    set (d0 := nth (Z.to_nat r0) OptDePngRandomData 0).
    set (d1 := nth (Z.to_nat r1) OptDePngRandomData 0).
    destruct (u32 (x - 1) =? 0) eqn:E1.
    { unfold st. destruct (storen m p [d0]); reflexivity. }
    destruct (u32 (u32 (x - 1) - 1) =? 0) eqn:E2.
    { rewrite (storen_cons m p d0 [d1]).
      destruct (st m p d0) as [m1|]; cbn [bind]; [|reflexivity].
      unfold st. destruct (storen m1 (p + 1) [d1]); cbn [bind]; [|reflexivity].
      change (len [d0; d1]) with 2.
      replace (p + 1 + 1) with (p + 2) by lia. reflexivity. }
    destruct (st m p d0) as [m1|] eqn:S1; cbn [bind].
    2:{ destruct (fill_bytes fuel 299 _ _ _) as [[[l a] b]|]; cbn [bind]; [|reflexivity].
        rewrite storen_cons, S1. reflexivity. }
    destruct (st m1 (p + 1) d1) as [m2|] eqn:S2; cbn [bind].
    2:{ destruct (fill_bytes fuel 299 _ _ _) as [[[l a] b]|]; cbn [bind]; [|reflexivity].
        rewrite storen_cons, S1. cbn [bind]. rewrite storen_cons, S2. reflexivity. }
    rewrite IH by (apply wrap_range; lia).
    destruct (fill_bytes fuel 299 _ _ _) as [[[l a] b]|]; cbn [bind]; [|reflexivity].
    rewrite storen_cons, S1. cbn [bind]. rewrite storen_cons, S2. cbn [bind].
    replace (p + 1 + 1) with (p + 2) by lia.
    destruct (storen m2 (p + 2) l); cbn [bind]; [|reflexivity].
    replace (len (d0 :: d1 :: l)) with (2 + len l)
      by (unfold len; simpl length; lia).
    replace (p + 2 + len l) with (p + (2 + len l)) by lia. reflexivity.
Qed.

(** What the inner loop writes: [fill_count x] bytes, each a table entry. *)
Lemma fill_bytes_spec fuel : forall r0 r1 x l a b,
  0 <= r0 < 299 -> 0 <= r1 < 299 -> 0 <= x < 4294967296 ->
  fill_bytes fuel 299 r0 r1 x = Some (l, a, b) ->
  len l = fill_count x /\ Forall byte l /\ 0 <= a < 299 /\ 0 <= b < 299.
Proof.
  induction fuel as [|fuel IH]; intros r0 r1 x l a b H0 H1 Hx; cbn [fill_bytes].
  - discriminate.
  - pose proof (wrap_range r0 1 H0 ltac:(lia)) as W0.
    pose proof (wrap_range r1 2 H1 ltac:(lia)) as W1.
    destruct (Z.eqb_spec (u32 (x - 1)) 0) as [E1|E1].
    { intros [= <- <- <-].
      assert (x = 1).
      { unfold u32 in E1. destruct (Z.eq_dec x 0) as [->|]; [discriminate|].
        rewrite Z.mod_small in E1 by lia. lia. }
      subst x. repeat split; try lia.
      constructor; [apply table_nth_byte | constructor]. }
    destruct (Z.eqb_spec (u32 (u32 (x - 1) - 1)) 0) as [E2|E2].
    { intros [= <- <- <-].
      assert (x = 2).
      { destruct (Z.eq_dec x 0) as [->|]; [discriminate|].
        rewrite (u32_small (x - 1)) in E2 by lia.
        rewrite u32_small in E2 by (rewrite u32_small in E1 by lia; lia). lia. }
      subst x. repeat split; try lia.
      repeat constructor; apply table_nth_byte. }
    destruct (fill_bytes fuel 299 _ _ _) as [[[l' a'] b']|] eqn:F; cbn [bind];
      [|discriminate].
    intros [= <- <- <-].
    assert (Hx2 : 0 <= u32 (u32 (x - 1) - 1) < 4294967296) by apply u32_range.
    destruct (IH _ _ _ _ _ _ W0 W1 Hx2 F) as (L & B & A1 & B1).
    repeat split; try lia.
    + unfold len in *. simpl length. rewrite !Nat2Z.inj_succ, L.
      unfold fill_count.
      destruct (Z.eqb_spec x 0) as [->|Hx0].
      * reflexivity.
      * rewrite (u32_small (x - 1)) in * by lia.
        rewrite (u32_small (x - 1 - 1)) in * by lia.
        destruct (Z.eqb_spec (x - 1 - 1) 0); lia.
    + repeat constructor; try apply table_nth_byte. exact B.
Qed.

(** With enough fuel the inner loop runs to its end. *)
Lemma fill_bytes_total fuel : forall r0 r1 x,
  1 <= x < 4294967296 -> (Z.to_nat x <= 2 * fuel)%nat ->
  fill_bytes fuel 299 r0 r1 x <> None.
Proof.
  induction fuel as [|fuel IH]; intros r0 r1 x Hx Hf; cbn [fill_bytes].
  - lia.
  - rewrite (u32_small (x - 1)) by lia.
    destruct (Z.eqb_spec (x - 1) 0); [discriminate|].
    rewrite (u32_small (x - 1 - 1)) by lia.
    destruct (Z.eqb_spec (x - 1 - 1) 0); [discriminate|].
    specialize (IH (OptDePngRandomWrap r0 1 299) (OptDePngRandomWrap r1 2 299)
                   (x - 1 - 1) ltac:(lia) ltac:(lia)).
    destruct (fill_bytes fuel 299 _ _ _) as [[[l a] b]|]; [discriminate | contradiction].
Qed.

Lemma row_refine w filter m p s :
  gen_ok s ->
  random_row 299 w filter (m, p, s) =
  match row_bytes 299 w filter s with
  | Some (l, s') => m' <- storen m p l ;; Some (m', p + len l, s')
  | None => None
  end.
Proof.
  destruct s as [[[f r0] r1] y]. intros [H0 H1].
  unfold random_row, row_bytes, row_filter.
  destruct (y =? 0); [|destruct (filter <? kPngFilterCount)]; cbv beta iota.
  all: match goal with |- context [st ?mm ?pp ?v] =>
         destruct (st mm pp v) as [m0|] eqn:S0; cbn [bind];
         [ rewrite fill_refine by assumption;
           destruct (fill_bytes _ 299 _ _ _) as [[[l a] b]|]; cbn [bind];
           [|reflexivity];
           rewrite storen_cons, S0; cbn [bind];
           destruct (storen m0 (pp + 1) l); cbn [bind]; [|reflexivity];
           replace (len (v :: l)) with (1 + len l) by (unfold len; simpl length; lia);
           replace (pp + 1 + len l) with (pp + (1 + len l)) by lia; reflexivity
         | destruct (fill_bytes _ 299 _ _ _) as [[[l a] b]|]; cbn [bind];
           [|reflexivity];
           rewrite storen_cons, S0; reflexivity ]
       end.
Qed.

Lemma row_bytes_ok w filter s l s' :
  gen_ok s -> 0 <= w < 4294967296 ->
  row_bytes 299 w filter s = Some (l, s') ->
  gen_ok s' /\ len l = 1 + fill_count w.
Proof.
  destruct s as [[[f r0] r1] y]. intros [H0 H1] Hw. unfold row_bytes.
  destruct (row_filter filter f y) as [b f'].
  destruct (fill_bytes _ 299 r0 r1 w) as [[[l0 a] c]|] eqn:F; cbn [bind]; [|discriminate].
  intros [= <- <-].
  destruct (fill_bytes_spec _ _ _ _ _ _ _ H0 H1 Hw F) as (L & _ & A & C).
  split; [split; assumption|].
  unfold len in *. simpl length. lia.
Qed.

(** The stores of [n] rows amount to one store of [image_bytes]. *)
Lemma image_refine n : forall w filter m p s,
  gen_ok s -> 0 <= w < 4294967296 -> 0 <= p <= len m ->
  iter n (random_row 299 w filter) (m, p, s) =
  match image_bytes n 299 w filter s with
  | Some (l, s') => m' <- storen m p l ;; Some (m', p + len l, s')
  | None => None
  end.
Proof.
  induction n as [|n IH]; intros w filter m p s Hs Hw Hp.
  - cbn [iter image_bytes]. rewrite storen_nil by exact Hp. cbn [bind].
    change (len []) with 0. rewrite Z.add_0_r. reflexivity.
  - cbn [iter image_bytes]. rewrite row_refine by assumption.
    destruct (row_bytes 299 w filter s) as [[r s1]|] eqn:R; cbn [bind];
      [|reflexivity].
    destruct (row_bytes_ok _ _ _ _ _ Hs Hw R) as [Hs1 Lr].
    destruct (storen m p r) as [m1|] eqn:S1; cbn [bind].
    + pose proof (storen_len _ _ _ _ S1) as L1.
      pose proof (storen_inv _ _ _ _ S1) as (_ & B1 & _).
      rewrite (IH w filter m1 (p + len r) s1 Hs1 Hw)
        by (pose proof (len_nonneg r); lia).
      destruct (image_bytes n 299 w filter s1) as [[l s2]|]; cbn [bind]; [|reflexivity].
      rewrite storen_app, S1. cbn [bind].
      destruct (storen m1 (p + len r) l); cbn [bind]; [|reflexivity].
      rewrite len_app, Z.add_assoc. reflexivity.
    + destruct (image_bytes n 299 w filter s1) as [[l s2]|]; cbn [bind]; [|reflexivity].
      rewrite storen_app, S1. reflexivity.
Qed.

Lemma image_bytes_len n : forall w filter s l s',
  gen_ok s -> 0 <= w < 4294967296 ->
  image_bytes n 299 w filter s = Some (l, s') ->
  len l = Z.of_nat n * (1 + fill_count w).
Proof.
  induction n as [|n IH]; intros w filter s l s' Hs Hw; cbn [image_bytes].
  - intros [= <- <-]. reflexivity.
  - destruct (row_bytes 299 w filter s) as [[r s1]|] eqn:R; cbn [bind]; [|discriminate].
    destruct (row_bytes_ok _ _ _ _ _ Hs Hw R) as [Hs1 Lr].
    destruct (image_bytes n 299 w filter s1) as [[l1 s2]|] eqn:I; cbn [bind];
      [|discriminate].
    intros [= <- <-]. rewrite len_app, Lr, (IH _ _ _ _ _ Hs1 Hw I). lia.
Qed.

Lemma row_bytes_bytes w filter s l s' :
  gen_ok s -> 0 <= w < 4294967296 ->
  row_bytes 299 w filter s = Some (l, s') -> Forall byte l.
Proof.
  destruct s as [[[f r0] r1] y]. intros [H0 H1] Hw. unfold row_bytes, row_filter.
  assert (U : forall v, byte (u8 v)) by (intros v; unfold byte, u8; apply Z.mod_pos_bound; lia).
  assert (Z0 : byte kPngFilterNone) by (unfold byte, kPngFilterNone; lia).
  destruct (y =? 0); [|destruct (filter <? kPngFilterCount)]; cbv beta iota.
  all: destruct (fill_bytes _ 299 _ _ _) as [[[l0 a] c]|] eqn:F; cbn [bind];
       [|discriminate];
       intros [= <- <-];
       match goal with
       | F : fill_bytes _ _ ?r0 ?r1 _ = _, A : 0 <= ?r0 < 299, B : 0 <= ?r1 < 299,
         W : 0 <= _ < 4294967296 |- _ =>
           destruct (fill_bytes_spec _ _ _ _ _ _ _ A B W F) as (_ & HB & _)
       end;
       constructor; [|assumption];
       first [assumption | unfold byte, u8; apply Z.mod_pos_bound; lia].
Qed.

Lemma image_bytes_bytes n : forall w filter s l s',
  gen_ok s -> 0 <= w < 4294967296 ->
  image_bytes n 299 w filter s = Some (l, s') -> Forall byte l.
Proof.
  induction n as [|n IH]; intros w filter s l s' Hs Hw; cbn [image_bytes].
  - intros [= <- <-]. constructor.
  - destruct (row_bytes 299 w filter s) as [[r s1]|] eqn:R; cbn [bind]; [|discriminate].
    destruct (row_bytes_ok _ _ _ _ _ Hs Hw R) as [Hs1 Lr].
    destruct (image_bytes n 299 w filter s1) as [[l1 s2]|] eqn:I; cbn [bind];
      [|discriminate].
    intros [= <- <-]. apply Forall_app. split.
    + exact (row_bytes_bytes w filter s r s1 Hs Hw R).
    + exact (IH w filter s1 l1 s2 Hs1 Hw I).
Qed.

Lemma image_bytes_total n : forall w filter s,
  gen_ok s -> 1 <= w < 4294967296 ->
  image_bytes n 299 w filter s <> None.
Proof.
  induction n as [|n IH]; intros w filter s Hs Hw; cbn [image_bytes].
  - discriminate.
  - destruct (row_bytes 299 w filter s) as [[r s1]|] eqn:R; cbn [bind].
    + assert (Hw0 : 0 <= w < 4294967296) by lia.
      destruct (row_bytes_ok _ _ _ _ _ Hs Hw0 R) as [Hs1 Lr].
      specialize (IH w filter s1 Hs1 Hw).
      destruct (image_bytes n 299 w filter s1) as [[l1 s2]|]; cbn [bind];
        [discriminate | contradiction].
    + exfalso. destruct s as [[[f r0] r1] y]. unfold row_bytes in R.
      destruct (row_filter filter f y) as [b f'].
      pose proof (fill_bytes_total (Z.to_nat (fill_count w)) r0 r1 w Hw) as T.
      destruct (fill_bytes _ 299 r0 r1 w) as [[[l0 a] c]|]; cbn [bind] in R;
        [discriminate|].
      apply T; [|reflexivity]. unfold fill_count.
      destruct (Z.eqb_spec w 0); lia.
Qed.


(** * What [OptDePngRandomImage] returns *)

Lemma len_malloc junk size : 0 <= size -> len (malloc junk size) = size.
Proof.
  intros H. unfold len, malloc. rewrite length_map, length_seq. lia.
Qed.

Lemma u32_le x : 0 <= x -> u32 x <= x.
Proof. intros H. unfold u32. apply Z.mod_le; lia. Qed.

(** The block returned is the list of the bytes written, whatever the
    block held before; the call faults when they do not fill it exactly. *)
Lemma gen_char junk w h bpp filter seed :
  0 <= h < 4294967296 ->
  OptDePngRandomImage junk w h bpp filter seed =
  match image_bytes (Z.to_nat h) 299 (u32 (w * bpp)) filter
          (filter, seed mod 299, u32 (seed * 33) mod 299, 0) with
  | Some (l, _) =>
      if len l =? u32 (u32 (u32 (w * bpp) + 1) * h) then Some l else None
  | None => None
  end.
Proof.
  intros Hh. unfold OptDePngRandomImage. rewrite rCount_299. cbv zeta.
  set (w' := u32 (w * bpp)). set (size := u32 (u32 (w' + 1) * h)).
  assert (Hw : 0 <= w' < 4294967296) by apply u32_range.
  assert (Hsz : 0 <= size < 4294967296) by apply u32_range.
  assert (Hs : gen_ok (filter, seed mod 299, u32 (seed * 33) mod 299, 0)).
  { split; apply Z.mod_pos_bound; lia. }
  rewrite image_refine; try assumption.
  2:{ rewrite len_malloc; lia. }
  destruct (image_bytes _ 299 w' filter _) as [[l s']|] eqn:I; [|reflexivity].
  pose proof (image_bytes_len _ _ _ _ _ _ Hs Hw I) as L.
  rewrite Z2Nat.id in L by lia.
  assert (Hge : size <= len l).
  { rewrite L. unfold size.
    pose proof (u32_range (w' + 1)) as R1.
    pose proof (u32_le (w' + 1) ltac:(lia)) as R2.
    pose proof (u32_le (u32 (w' + 1) * h) ltac:(nia)) as R3.
    assert (w' <= fill_count w') by (unfold fill_count; destruct (Z.eqb_spec w' 0); lia).
    nia. }
  destruct (Z.eqb_spec (len l) size) as [E|E].
  - rewrite storen_all by (rewrite len_malloc; lia). reflexivity.
  - unfold storen.
    replace (in_bounds (malloc junk size) 0 (len l)) with false; [reflexivity|].
    symmetry. apply in_bounds_false. rewrite len_malloc by lia. lia.
Qed.

(** The filter byte of a row and the value of [f] it leaves: [f] is the
    given [filter] until the first cycled row, then follows the cycle. *)
Lemma row_filter_spec filter f y :
  0 <= filter < 4294967296 -> 0 <= y ->
  (5 <= filter -> (y <= 1 -> f = filter) /\ (2 <= y -> f = (y - 2) mod 5)) ->
  fst (row_filter filter f y) = expected_filter filter y /\
  (5 <= filter ->
   (y + 1 <= 1 -> snd (row_filter filter f y) = filter) /\
   (2 <= y + 1 -> snd (row_filter filter f y) = (y + 1 - 2) mod 5)).
Proof.
  intros Hf Hy Inv. unfold row_filter, expected_filter, kPngFilterCount.
  destruct (Z.eqb_spec y 0) as [->|Hy0]; simpl.
  { split; [reflexivity|]. intros H5. destruct (Inv H5) as [I1 I2]. split; lia. }
  destruct (Z.ltb_spec filter 5) as [H5|H5]; simpl.
  { split; [apply u8_small; lia | lia]. }
  destruct (Inv H5) as [I1 I2].
  assert (E : (if u32 (f + 1) >=? 5 then 0 else u32 (f + 1)) = (y - 1) mod 5).
  { destruct (Z.le_gt_cases y 1) as [Y|Y].
    - assert (y = 1) by lia. subst y. rewrite (I1 ltac:(lia)).
      change ((1 - 1) mod 5) with 0.
      destruct (Z.eq_dec (filter + 1) 4294967296) as [->|N].
      + reflexivity.
      + rewrite u32_small by lia. rewrite Z.geb_leb.
        destruct (Z.leb_spec 5 (filter + 1)); [reflexivity | lia].
    - rewrite (I2 ltac:(lia)).
      assert (0 <= (y - 2) mod 5 < 5) by (apply Z.mod_pos_bound; lia).
      rewrite u32_small by lia. rewrite Z.geb_leb.
      destruct (Z.leb_spec 5 ((y - 2) mod 5 + 1)); Z.div_mod_to_equations; lia. }
  rewrite E.
  assert (0 <= (y - 1) mod 5 < 5) by (apply Z.mod_pos_bound; lia).
  split; [apply u8_small; lia|].
  intros _. split; [lia|]. intros _. f_equal. lia.
Qed.

Lemma row_bytes_head w filter f r0 r1 y l s' :
  row_bytes 299 w filter (f, r0, r1, y) = Some (l, s') ->
  exists t a b,
    l = fst (row_filter filter f y) :: t /\
    s' = (snd (row_filter filter f y), a, b, u32 (y + 1)).
Proof.
  unfold row_bytes. destruct (row_filter filter f y) as [b0 f0].
  destruct (fill_bytes _ 299 r0 r1 w) as [[[t a] b]|]; cbn [bind]; [|discriminate].
  intros [= <- <-]. exists t, a, b. split; reflexivity.
Qed.

(** Row [y + j] of [n] generated rows starts with its expected filter byte. *)
Lemma image_bytes_filter n : forall w filter f r0 r1 y l s',
  gen_ok (f, r0, r1, y) -> 1 <= w < 4294967296 ->
  0 <= filter < 4294967296 -> 0 <= y -> y + Z.of_nat n <= 4294967296 ->
  (5 <= filter -> (y <= 1 -> f = filter) /\ (2 <= y -> f = (y - 2) mod 5)) ->
  image_bytes n 299 w filter (f, r0, r1, y) = Some (l, s') ->
  forall j, (j < n)%nat ->
    nth (j * Z.to_nat (1 + w)) l 0 = expected_filter filter (y + Z.of_nat j).
Proof.
  induction n as [|n IH]; intros w filter f r0 r1 y l s' Hs Hw Hf Hy Hn Inv;
    cbn [image_bytes]; intros H j Hj.
  - lia.
  - destruct (row_bytes 299 w filter (f, r0, r1, y)) as [[r s1]|] eqn:R; cbn [bind] in H;
      [|discriminate].
    assert (Hw0 : 0 <= w < 4294967296) by lia.
    destruct (row_bytes_ok _ _ _ _ _ Hs Hw0 R) as [Hs1 Lr].
    destruct (row_bytes_head _ _ _ _ _ _ _ _ R) as (t & a & b & -> & ->).
    destruct (image_bytes n 299 w filter _) as [[l1 s2]|] eqn:I; cbn [bind] in H;
      [|discriminate].
    injection H as <- <-.
    destruct (row_filter_spec filter f y Hf Hy Inv) as [E1 E2].
    assert (Lr' : length (fst (row_filter filter f y) :: t) = Z.to_nat (1 + w)).
    { unfold len in Lr. unfold fill_count in Lr.
      destruct (Z.eqb_spec w 0); lia. }
    destruct j as [|j].
    + simpl. rewrite Z.add_0_r. exact E1.
    + change (fst (row_filter filter f y) :: t ++ l1)
        with ((fst (row_filter filter f y) :: t) ++ l1).
      rewrite app_nth2 by (rewrite Lr'; lia).
      rewrite Lr'.
      replace (Datatypes.S j * Z.to_nat (1 + w) - Z.to_nat (1 + w))%nat
        with (j * Z.to_nat (1 + w))%nat by lia.
      assert (Hy1 : y + 1 < 4294967296) by lia.
      rewrite (u32_small (y + 1)) in I by lia.
      rewrite (u32_small (y + 1)) in Hs1 by lia.
      rewrite (IH w filter (snd (row_filter filter f y)) a b (y + 1) l1 s2);
        try assumption; try lia.
      f_equal. lia.
Qed.

(** The facts about a generated image used by the kernels. *)
Lemma gen_image_facts junk w h bpp filter seed img :
  0 <= h < 4294967296 -> 0 <= filter < 4294967296 -> 1 <= h ->
  OptDePngRandomImage junk w h bpp filter seed = Some img ->
  1 <= u32 (w * bpp) /\
  (u32 (w * bpp) + 1) * h < 4294967296 /\
  len img = (u32 (w * bpp) + 1) * h /\
  Forall byte img /\
  forall y, 0 <= y < h ->
    nth (Z.to_nat (y * (u32 (w * bpp) + 1))) img 0 = expected_filter filter y.
Proof.
  intros Hh Hf H1 G. rewrite gen_char in G by exact Hh.
  set (w' := u32 (w * bpp)) in *.
  assert (Hw : 0 <= w' < 4294967296) by apply u32_range.
  assert (Hs : gen_ok (filter, seed mod 299, u32 (seed * 33) mod 299, 0)).
  { split; apply Z.mod_pos_bound; lia. }
  destruct (image_bytes _ 299 w' filter _) as [[l s']|] eqn:I; [|discriminate].
  pose proof (image_bytes_len _ _ _ _ _ _ Hs Hw I) as L.
  rewrite Z2Nat.id in L by lia.
  destruct (Z.eqb_spec (len l) (u32 (u32 (w' + 1) * h))) as [E|E]; [|discriminate].
  injection G as <-.
  pose proof (u32_range (u32 (w' + 1) * h)) as R.
  assert (W1 : 1 <= w').
  { destruct (Z.eq_dec w' 0) as [W0|W0]; [|lia].
    exfalso. rewrite W0 in L. unfold fill_count in L. simpl in L. lia. }
  assert (FC : fill_count w' = w') by (unfold fill_count; destruct (Z.eqb_spec w' 0); lia).
  rewrite FC in L.
  assert (Hb : (w' + 1) * h < 4294967296) by lia.
  split; [exact W1|]. split; [exact Hb|]. split; [lia|].
  split; [exact (image_bytes_bytes _ _ _ _ _ _ Hs Hw I)|].
  intros y Hy.
  assert (A1 : 1 <= w' < 4294967296) by lia.
  assert (A2 : 0 <= 0) by lia.
  assert (A3 : 0 + Z.of_nat (Z.to_nat h) <= 4294967296) by lia.
  assert (A4 : 5 <= filter ->
               (0 <= 1 -> filter = filter) /\ (2 <= 0 -> filter = (0 - 2) mod 5))
    by (intros; split; intros; lia).
  assert (A5 : (Z.to_nat y < Z.to_nat h)%nat) by lia.
  pose proof (image_bytes_filter (Z.to_nat h) w' filter filter _ _ 0 l s' Hs
                A1 Hf A2 A3 A4 I (Z.to_nat y) A5) as F.
  rewrite Z2Nat.id in F by lia. rewrite Z.add_0_l in F. rewrite <- F.
  rewrite Z2Nat.inj_mul by lia.
  replace (w' + 1) with (1 + w') by lia. reflexivity.
Qed.

Lemma gen_total junk w h bpp filter seed :
  1 <= h < 4294967296 -> 1 <= w * bpp -> (w * bpp + 1) * h < 4294967296 ->
  OptDePngRandomImage junk w h bpp filter seed <> None.
Proof.
  intros Hh Hw Hsz. rewrite gen_char by lia.
  assert (Hwb : w * bpp < 4294967296) by nia.
  rewrite (u32_small (w * bpp)) by lia.
  assert (Hs : gen_ok (filter, seed mod 299, u32 (seed * 33) mod 299, 0)).
  { split; apply Z.mod_pos_bound; lia. }
  pose proof (image_bytes_total (Z.to_nat h) (w * bpp) filter _ Hs ltac:(lia)) as T.
  destruct (image_bytes _ 299 (w * bpp) filter _) as [[l s']|] eqn:I; [|contradiction].
  assert (Hw0 : 0 <= w * bpp < 4294967296) by lia.
  pose proof (image_bytes_len _ _ _ _ _ _ Hs Hw0 I) as L.
  rewrite Z2Nat.id in L by lia.
  assert (FC : fill_count (w * bpp) = w * bpp)
    by (unfold fill_count; destruct (Z.eqb_spec (w * bpp) 0); lia).
  rewrite FC in L.
  rewrite (u32_small (w * bpp + 1)) by lia.
  rewrite (u32_small ((w * bpp + 1) * h)) by nia.
  destruct (Z.eqb_spec (len l) ((w * bpp + 1) * h)); [discriminate | lia].
Qed.

(** C8: the generator is deterministic: the image returned depends on the
    arguments only, not on what the allocated block held before. *)
Theorem OptDePngRandomImage_deterministic :
  forall junk1 junk2 w h bpp filter seed,
    0 <= h < 4294967296 ->
    OptDePngRandomImage junk1 w h bpp filter seed =
    OptDePngRandomImage junk2 w h bpp filter seed.
Proof.
  intros junk1 junk2 w h bpp filter seed Hh.
  rewrite !gen_char by exact Hh. reflexivity.
Qed.

Lemma OptDePngRandomImage_deterministic_witness :
  OptDePngRandomImage (fun _ => 0) 3 2 2 5 7 =
  OptDePngRandomImage (fun k => k mod 256) 3 2 2 5 7.
Proof. apply OptDePngRandomImage_deterministic. lia. Defined.

(** C9: in a generated image row 0 carries the filter None; a later row
    carries the given filter when it is below 5 and the cycling value
    (y - 1) mod 5, which lies in {0,..,4}, otherwise.  The call returns an
    image whenever the sizes fit in 32 bits. *)
Theorem OptDePngRandomImage_filter_bytes :
  forall junk w h bpp filter seed,
    1 <= w < 4294967296 -> 1 <= h < 4294967296 -> 0 <= bpp < 4294967296 ->
    0 <= filter < 4294967296 ->
    (1 <= w * bpp -> (w * bpp + 1) * h < 4294967296 ->
     exists img, OptDePngRandomImage junk w h bpp filter seed = Some img) /\
    forall img,
      OptDePngRandomImage junk w h bpp filter seed = Some img ->
      let bpl := u32 (w * bpp) + 1 in
      len img = bpl * h /\
      nth 0 img 0 = kPngFilterNone /\
      forall y, 1 <= y < h ->
        (filter < kPngFilterCount -> nth (Z.to_nat (y * bpl)) img 0 = filter) /\
        (kPngFilterCount <= filter ->
         nth (Z.to_nat (y * bpl)) img 0 = (y - 1) mod 5 /\
         0 <= nth (Z.to_nat (y * bpl)) img 0 <= 4).
Proof.
  intros junk w h bpp filter seed Hw Hh Hb Hf. split.
  - intros H1 H2.
    pose proof (gen_total junk w h bpp filter seed Hh H1 H2) as T.
    destruct (OptDePngRandomImage junk w h bpp filter seed) as [img|];
      [exists img; reflexivity | contradiction].
  - intros img G bpl.
    assert (Hh0 : 0 <= h < 4294967296) by lia.
    assert (Hh1 : 1 <= h) by lia.
    destruct (gen_image_facts _ _ _ _ _ _ _ Hh0 Hf Hh1 G)
      as (W1 & Hsz & L & B & F).
    split; [exact L|]. split.
    + specialize (F 0 ltac:(lia)). simpl in F. exact F.
    + intros y Hy. specialize (F y ltac:(lia)). fold bpl in F.
      unfold expected_filter, kPngFilterCount in *.
      destruct (Z.eqb_spec y 0); [lia|].
      destruct (Z.ltb_spec filter 5).
      * split; [intros _; exact F | lia].
      * split; [lia|]. intros _. rewrite F.
        split; [reflexivity|].
        pose proof (Z.mod_pos_bound (y - 1) 5 ltac:(lia)). lia.
Qed.

Lemma OptDePngRandomImage_filter_bytes_witness :
  (1 <= 3 * 2 -> (3 * 2 + 1) * 4 < 4294967296 ->
   exists img, OptDePngRandomImage (fun _ => 0) 3 4 2 5 7 = Some img) /\
  forall img,
    OptDePngRandomImage (fun _ => 0) 3 4 2 5 7 = Some img ->
    let bpl := u32 (3 * 2) + 1 in
    len img = bpl * 4 /\
    nth 0 img 0 = kPngFilterNone /\
    forall y, 1 <= y < 4 ->
      (5 < kPngFilterCount -> nth (Z.to_nat (y * bpl)) img 0 = 5) /\
      (kPngFilterCount <= 5 ->
       nth (Z.to_nat (y * bpl)) img 0 = (y - 1) mod 5 /\
       0 <= nth (Z.to_nat (y * bpl)) img 0 <= 4).
Proof. apply (OptDePngRandomImage_filter_bytes (fun _ => 0) 3 4 2 5 7); lia. Defined.


(** * [OptDePngCompare] on two copies of one buffer *)

Lemma compare_bytes_same n : forall (A : mem) p i,
  0 <= p + i -> p + i + Z.of_nat n <= len A ->
  compare_bytes n A A p p i = Some true.
Proof.
  induction n as [|n IH]; intros A p i H1 H2; cbn [compare_bytes].
  - reflexivity.
  - rewrite ld_ok by lia. cbn [bind].
    rewrite Z.eqb_refl. cbn [negb].
    apply IH; lia.
Qed.

Lemma compare_pixels_same n : forall (A : mem) bpp p,
  0 <= bpp -> 0 <= p -> p + Z.of_nat n * bpp <= len A ->
  compare_pixels n A A bpp p p = Some (Some (p + Z.of_nat n * bpp, p + Z.of_nat n * bpp)).
Proof.
  induction n as [|n IH]; intros A bpp p Hb Hp Hl; cbn [compare_pixels].
  - rewrite Z.mul_0_l, Z.add_0_r. reflexivity.
  - rewrite compare_bytes_same by (rewrite ?Z2Nat.id by lia; nia). cbn [bind].
    rewrite IH by nia.
    replace (p + bpp + Z.of_nat n * bpp) with (p + Z.of_nat (S n) * bpp) by nia.
    reflexivity.
Qed.

(** A row with a filter byte of 5 or more makes the row loop answer [false]. *)
Lemma compare_rows_bad n : forall (A : mem) w bpp p k,
  0 <= w -> 0 <= bpp -> 0 <= p ->
  p + Z.of_nat n * (w * bpp + 1) <= len A ->
  (k < n)%nat ->
  5 <= nth (Z.to_nat (p + Z.of_nat k * (w * bpp + 1))) A 0 ->
  compare_rows n A A w bpp p p = Some false.
Proof.
  induction n as [|n IH]; intros A w bpp p k Hw Hb Hp Hl Hk Hbad; cbn [compare_rows].
  - lia.
  - assert (0 <= w * bpp) by nia.
    rewrite ld_ok by nia. cbn [bind].
    rewrite Z.eqb_refl. cbn [negb]. unfold kPngFilterCount.
    rewrite Z.geb_leb.
    destruct (Z.leb_spec 5 (nth (Z.to_nat p) A 0)) as [H5|H5]; [reflexivity|].
    destruct k as [|k].
    { exfalso. rewrite Z.mul_0_l, Z.add_0_r in Hbad. lia. }
    rewrite compare_pixels_same by (rewrite ?Z2Nat.id by lia; nia).
    cbn [bind]. rewrite Z2Nat.id by lia.
    apply (IH A w bpp (p + 1 + w * bpp) k); try lia; try nia.
    replace (p + 1 + w * bpp + Z.of_nat k * (w * bpp + 1))
      with (p + Z.of_nat (S k) * (w * bpp + 1)) by nia.
    exact Hbad.
Qed.

(** C7: comparing a buffer of consistent dimensions with an identical
    copy answers [false] as soon as some row has a filter byte of 5 or
    more. *)
Theorem OptDePngCompare_rejects_invalid_filter :
  forall (buf : mem) w h bpp bpl y,
    0 <= w < 4294967296 -> 0 <= h < 4294967296 -> 0 <= bpp < 4294967296 ->
    bpl = w * bpp + 1 -> bpl < 4294967296 ->
    h * bpl <= len buf ->
    0 <= y < h ->
    kPngFilterCount <= nth (Z.to_nat (y * bpl)) buf 0 ->
    OptDePngCompare buf buf w h bpp bpl = Some false.
Proof.
  intros buf w h bpp bpl y Hw Hh Hb -> Hbpl Hlen Hy Hbad.
  unfold OptDePngCompare.
  assert (0 <= w * bpp) by nia.
  rewrite (u32_small (w * bpp)) by lia.
  rewrite (u32_small (w * bpp + 1)) by lia.
  rewrite Z.eqb_refl. cbn [negb].
  apply (compare_rows_bad (Z.to_nat h) buf w bpp 0 (Z.to_nat y)); try lia.
  rewrite Z2Nat.id, Z.add_0_l by lia. exact Hbad.
Qed.

Lemma OptDePngCompare_rejects_invalid_filter_witness :
  OptDePngCompare [0; 1; 2; 7; 3; 4] [0; 1; 2; 7; 3; 4] 2 2 1 3 = Some false.
Proof.
  apply (OptDePngCompare_rejects_invalid_filter [0; 1; 2; 7; 3; 4] 2 2 1 3 1);
    unfold kPngFilterCount, len; simpl; lia.
Defined.


(** * First properties of the three kernels *)

(** C5: the reference kernel on scenario S3 (Avg, bpp = 1, w = 4, h = 2):
    row 0 is unchanged and row 1 becomes 7, 17, 29, 42; the averages used
    are the floor averages 13, 23, 34 (rounding up would give 14, 24, 35). *)
Theorem reference_avg_scenario :
  OptDePngFilterRef [0; 10; 20; 30; 40; 3; 2; 4; 6; 8] 2 1 5
    = Some [0; 10; 20; 30; 40; 3; 7; 17; 29; 42]
  /\ Avg 7 20 = 13 /\ Avg 17 30 = 23 /\ Avg 29 40 = 34
  /\ (forall a b, Avg a b = Z.shiftr (u32 (a + b)) 1).
Proof. repeat split. Qed.

(** C10: for a bpp outside {1,2,3,4,6,8} the dispatchers of the template
    kernel and of the SSE2 kernel return with the buffer unchanged. *)
Theorem dispatch_unsupported_bpp :
  forall base (m : mem) h bpp bpl,
    bpp <> 1 -> bpp <> 2 -> bpp <> 3 -> bpp <> 4 -> bpp <> 6 -> bpp <> 8 ->
    OptDePngFilterOpt m h bpp bpl = Some m /\
    OptDePngFilterSSE2 base m h bpp bpl = Some m.
Proof.
  intros base m h bpp bpl H1 H2 H3 H4 H6 H8.
  unfold OptDePngFilterOpt, OptDePngFilterSSE2.
  destruct (Z.eqb_spec bpp 1); [contradiction|].
  destruct (Z.eqb_spec bpp 2); [contradiction|].
  destruct (Z.eqb_spec bpp 3); [contradiction|].
  destruct (Z.eqb_spec bpp 4); [contradiction|].
  destruct (Z.eqb_spec bpp 6); [contradiction|].
  destruct (Z.eqb_spec bpp 8); [contradiction|].
  split; reflexivity.
Qed.

Lemma dispatch_unsupported_bpp_witness :
  OptDePngFilterOpt [1; 10; 20; 30; 40; 50] 1 5 6 = Some [1; 10; 20; 30; 40; 50] /\
  OptDePngFilterSSE2 0 [1; 10; 20; 30; 40; 50] 1 5 6 = Some [1; 10; 20; 30; 40; 50].
Proof. apply (dispatch_unsupported_bpp 0 [1; 10; 20; 30; 40; 50] 1 5 6); lia. Defined.

(** ** Rows with the filter None *)

Section NoneRows.
Variable row : mem * Z * ptr -> option (mem * Z * ptr).
Variable bpl : Z.
Hypothesis row_none :
  forall m p u, ld m p = Some kPngFilterNone ->
                row (m, p, u) = Some (m, p + 1 + bpl, Some (p + 1 + bpl - bpl)).

Lemma none_rows n : forall (m : mem) p u,
  0 <= bpl -> 0 <= p ->
  p + Z.of_nat n * (bpl + 1) <= len m ->
  (forall k, (k < n)%nat ->
             nth (Z.to_nat (p + Z.of_nat k * (bpl + 1))) m 0 = kPngFilterNone) ->
  exists u', iter n row (m, p, u) = Some (m, p + Z.of_nat n * (bpl + 1), u').
Proof.
  induction n as [|n IH]; intros m p u Hb Hp Hl Hf.
  - exists u. cbn [iter]. rewrite Z.mul_0_l, Z.add_0_r. reflexivity.
  - cbn [iter]. rewrite row_none.
    2:{ rewrite ld_ok by nia. f_equal.
        specialize (Hf O ltac:(lia)). rewrite Z.mul_0_l, Z.add_0_r in Hf. exact Hf. }
    cbn [bind].
    destruct (IH m (p + 1 + bpl) (Some (p + 1 + bpl - bpl))) as [u' E];
      try lia; try nia.
    + intros k Hk. specialize (Hf (S k) ltac:(lia)).
      replace (p + 1 + bpl + Z.of_nat k * (bpl + 1))
        with (p + Z.of_nat (S k) * (bpl + 1)) by nia.
      exact Hf.
    + exists u'. eapply eq_trans; [exact E|]. do 3 f_equal. nia.
Qed.
End NoneRows.

Lemma ref_row_none bpp bpl m p u :
  ld m p = Some kPngFilterNone ->
  ref_row bpp bpl (m, p, u) = Some (m, p + 1 + bpl, Some (p + 1 + bpl - bpl)).
Proof. intros H. unfold ref_row. rewrite H. reflexivity. Qed.

Lemma opt_row_none bpp bpl m p u :
  ld m p = Some kPngFilterNone ->
  opt_row bpp bpl (m, p, u) = Some (m, p + 1 + bpl, Some (p + 1 + bpl - bpl)).
Proof. intros H. unfold opt_row. rewrite H. reflexivity. Qed.

Lemma sse2_row_none bpp base bpl m p u :
  ld m p = Some kPngFilterNone ->
  sse2_row bpp base bpl (m, p, u) = Some (m, p + 1 + bpl, Some (p + 1 + bpl - bpl)).
Proof. intros H. unfold sse2_row. rewrite H. reflexivity. Qed.

Lemma kernel_none_rows (row : mem * Z * ptr -> option (mem * Z * ptr)) m h bpl :
  (forall m p u, ld m p = Some kPngFilterNone ->
     row (m, p, u) = Some (m, p + 1 + (bpl - 1), Some (p + 1 + (bpl - 1) - (bpl - 1)))) ->
  1 <= h < 4294967296 -> 1 <= bpl < 4294967296 -> h * bpl <= len m ->
  (forall y, 0 <= y < h -> nth (Z.to_nat (y * bpl)) m 0 = kPngFilterNone) ->
  ('(m', _, _) <- iter (do_while_count h) row (m, 0, NULL) ;; Some m') = Some m.
Proof.
  intros Hrow Hh Hb Hl Hf.
  rewrite do_while_count_nat by lia.
  assert (A0 : 0 <= bpl - 1) by lia.
  assert (A1 : 0 + Z.of_nat (Z.to_nat h) * (bpl - 1 + 1) <= len m).
  { rewrite Z2Nat.id by lia. replace (bpl - 1 + 1) with bpl by lia. lia. }
  assert (A2 : forall k, (k < Z.to_nat h)%nat ->
             nth (Z.to_nat (0 + Z.of_nat k * (bpl - 1 + 1))) m 0 = kPngFilterNone).
  { intros k Hk. replace (bpl - 1 + 1) with bpl by lia. rewrite Z.add_0_l.
    apply Hf. lia. }
  destruct (none_rows row (bpl - 1) Hrow (Z.to_nat h) m 0 NULL A0 (Z.le_refl 0) A1 A2)
    as [u' E].
  unfold NULL in *. rewrite E. reflexivity.
Qed.

(** C6: when every row has the filter byte None, each of the three
    kernels returns the buffer as it was: every pixel byte keeps its
    value. *)
Theorem filter_none_is_noop :
  forall base (m : mem) h bpp bpl,
    1 <= h < 4294967296 -> 1 <= bpl < 4294967296 ->
    h * bpl <= len m ->
    (forall y, 0 <= y < h -> nth (Z.to_nat (y * bpl)) m 0 = kPngFilterNone) ->
    OptDePngFilterRef m h bpp bpl = Some m /\
    OptDePngFilterOpt m h bpp bpl = Some m /\
    OptDePngFilterSSE2 base m h bpp bpl = Some m.
Proof.
  intros base m h bpp bpl Hh Hb Hl Hf.
  assert (U : u32 (bpl - 1) = bpl - 1) by (apply u32_small; lia).
  split; [|split].
  - unfold OptDePngFilterRef. cbv zeta. rewrite U.
    apply (kernel_none_rows (ref_row bpp (bpl - 1)) m h bpl); try assumption.
    intros; apply ref_row_none; assumption.
  - unfold OptDePngFilterOpt, OptDePngFilterOpt_T. cbv zeta. rewrite U.
    repeat match goal with |- (if ?c then _ else _) = _ => destruct c end;
      try reflexivity;
      match goal with |- context [iter _ ?row _] =>
        apply (kernel_none_rows row m h bpl); try assumption;
        intros; apply opt_row_none; assumption
      end.
  - unfold OptDePngFilterSSE2, OptDePngFilterSSE2_T. cbv zeta. rewrite U.
    repeat match goal with |- (if ?c then _ else _) = _ => destruct c end;
      try reflexivity;
      match goal with |- context [iter _ ?row _] =>
        apply (kernel_none_rows row m h bpl); try assumption;
        intros; apply sse2_row_none; assumption
      end.
Qed.

Lemma filter_none_is_noop_witness :
  OptDePngFilterRef [0; 1; 2; 0; 3; 4] 2 2 3 = Some [0; 1; 2; 0; 3; 4] /\
  OptDePngFilterOpt [0; 1; 2; 0; 3; 4] 2 2 3 = Some [0; 1; 2; 0; 3; 4] /\
  OptDePngFilterSSE2 16 [0; 1; 2; 0; 3; 4] 2 2 3 = Some [0; 1; 2; 0; 3; 4].
Proof.
  apply (filter_none_is_noop 16 [0; 1; 2; 0; 3; 4] 2 2 3); try (unfold len; simpl; lia).
  intros y Hy. assert (y = 0 \/ y = 1) as [-> | ->] by lia; reflexivity.
Defined.


(** * Row 0 and the null previous-row cursor *)

Lemma land_15 a : Z.land a 15 = a mod 16.
Proof. change 15 with (Z.ones 4). rewrite Z.land_ones by lia. reflexivity. Qed.

Lemma OptAlignDiff_16 a : OptAlignDiff a 16 = (- a) mod 16.
Proof.
  unfold OptAlignDiff. cbv zeta.
  change (u32 (16 - 1)) with 15. rewrite !land_15.
  pose proof (Z.mod_pos_bound a 16 ltac:(lia)).
  rewrite (u32_small (a mod 16)) by lia.
  rewrite (u32_small (16 - a mod 16)) by lia.
  Z.div_mod_to_equations. lia.
Qed.

Lemma OptAlignDiff_range a : 0 <= OptAlignDiff a 16 < 16.
Proof. rewrite OptAlignDiff_16. apply Z.mod_pos_bound. lia. Qed.

(** Every loop body that reads [u] faults while [u] is null. *)
Lemma up_step_null m p : up_step (m, p, NULL) = None.
Proof. unfold up_step. destruct (ld m p); reflexivity. Qed.

Lemma avg_head_step_null p s : avg_head_step p NULL s = None.
Proof. destruct s as [m i]. unfold avg_head_step. destruct (ld m (p + i)); reflexivity. Qed.

Lemma paeth_head_step_null p s : paeth_head_step p NULL s = None.
Proof. destruct s as [m i]. unfold paeth_head_step. destruct (ld m (p + i)); reflexivity. Qed.

Lemma sse2_paeth1_step_null p s : sse2_paeth1_step p NULL s = None.
Proof. destruct s as [[[m i] pz] uz]. reflexivity. Qed.

Lemma sse2_up64_null base m p : sse2_up64 base (m, p, NULL) = None.
Proof. reflexivity. Qed.

Lemma sse2_up8_null m p : sse2_up8 (m, p, NULL) = None.
Proof. reflexivity. Qed.

Lemma iter_pos_fault {S : Type} (f : S -> option S) n s :
  1 <= n -> f s = None -> iter (Z.to_nat n) f s = None.
Proof.
  intros Hn Hf. destruct (Z.to_nat n) as [|k] eqn:E; [lia|].
  apply iter_fault. exact Hf.
Qed.

Lemma while_ge_fault {S : Type} k (body : S -> option S) i s :
  1 <= k <= i -> body s = None -> while_ge (Z.to_nat i) k body i s = None.
Proof.
  intros Hk Hb. destruct (Z.to_nat i) as [|fuel] eqn:E; [lia|].
  cbn [while_ge]. destruct (Z.ltb_spec i k); [lia|].
  rewrite Hb. reflexivity.
Qed.

Lemma while_ge_skip {S : Type} fuel k (body : S -> option S) i s :
  i < k -> while_ge fuel k body i s = Some (i, s).
Proof.
  intros H. destruct fuel; cbn [while_ge]; destruct (Z.ltb_spec i k); try lia; reflexivity.
Qed.

Lemma ref_row_null bpp bpl m p f :
  ld m p = Some f ->
  f = kPngFilterUp \/ f = kPngFilterAvg \/ f = kPngFilterPaeth ->
  1 <= bpp -> 1 <= bpl ->
  ref_row bpp bpl (m, p, NULL) = None.
Proof.
  intros L F Hb Hl. unfold ref_row. rewrite L. cbn [bind].
  destruct F as [-> | [-> | ->]].
  - change (kPngFilterUp =? kPngFilterNone) with false.
    change (kPngFilterUp =? kPngFilterSub) with false.
    change (kPngFilterUp =? kPngFilterUp) with true. cbv iota.
    rewrite iter_pos_fault; [reflexivity | lia | apply up_step_null].
  - change (kPngFilterAvg =? kPngFilterNone) with false.
    change (kPngFilterAvg =? kPngFilterSub) with false.
    change (kPngFilterAvg =? kPngFilterUp) with false.
    change (kPngFilterAvg =? kPngFilterAvg) with true. cbv iota.
    rewrite iter_pos_fault; [reflexivity | lia | apply avg_head_step_null].
  - change (kPngFilterPaeth =? kPngFilterNone) with false.
    change (kPngFilterPaeth =? kPngFilterSub) with false.
    change (kPngFilterPaeth =? kPngFilterUp) with false.
    change (kPngFilterPaeth =? kPngFilterAvg) with false.
    change (kPngFilterPaeth =? kPngFilterPaeth) with true. cbv iota.
    rewrite iter_pos_fault; [reflexivity | lia | apply paeth_head_step_null].
Qed.

Lemma opt_row_null bpp bpl m p f :
  ld m p = Some f ->
  f = kPngFilterUp \/ f = kPngFilterAvg \/ f = kPngFilterPaeth ->
  1 <= bpp -> 1 <= bpl ->
  opt_row bpp bpl (m, p, NULL) = None.
Proof.
  intros L F Hb Hl. unfold opt_row. rewrite L. cbn [bind].
  destruct F as [-> | [-> | ->]].
  - change (kPngFilterUp =? kPngFilterNone) with false.
    change (kPngFilterUp =? kPngFilterSub) with false.
    change (kPngFilterUp =? kPngFilterUp) with true. cbv iota.
    rewrite iter_pos_fault; [reflexivity | lia | apply up_step_null].
  - change (kPngFilterAvg =? kPngFilterNone) with false.
    change (kPngFilterAvg =? kPngFilterSub) with false.
    change (kPngFilterAvg =? kPngFilterUp) with false.
    change (kPngFilterAvg =? kPngFilterAvg) with true. cbv iota.
    rewrite iter_pos_fault; [reflexivity | lia | apply avg_head_step_null].
  - change (kPngFilterPaeth =? kPngFilterNone) with false.
    change (kPngFilterPaeth =? kPngFilterSub) with false.
    change (kPngFilterPaeth =? kPngFilterUp) with false.
    change (kPngFilterPaeth =? kPngFilterAvg) with false.
    change (kPngFilterPaeth =? kPngFilterPaeth) with true. cbv iota.
    rewrite iter_pos_fault; [reflexivity | lia | apply paeth_head_step_null].
Qed.

Lemma sse2_up_null base bpl m p :
  1 <= bpl < 4294967296 -> sse2_up base bpl (m, p, NULL) = None.
Proof.
  intros Hl. unfold sse2_up. cbv zeta.
  destruct (Z.leb_spec 24 bpl) as [H24|H24].
  - pose proof (OptAlignDiff_range (base + p)) as R.
    set (j := OptAlignDiff (base + p) 16) in *.
    rewrite (u32_small (bpl - j)) by lia.
    destruct (Z.eq_dec j 0) as [J0|J0].
    + rewrite J0. cbn [Z.to_nat iter bind]. rewrite Z.sub_0_r.
      destruct (Z.lt_ge_cases bpl 64) as [H64|H64].
      * rewrite while_ge_skip by lia. cbn [bind].
        rewrite while_ge_fault; [reflexivity | lia | apply sse2_up8_null].
      * rewrite while_ge_fault; [reflexivity | lia | apply sse2_up64_null].
    + rewrite iter_pos_fault; [reflexivity | lia | apply up_step_null].
  - cbn [bind]. apply iter_pos_fault; [lia | apply up_step_null].
Qed.

Lemma sse2_avg_null bpp base bpl m p :
  1 <= bpp -> sse2_avg bpp base bpl (m, p, NULL) = None.
Proof.
  intros Hb. unfold sse2_avg.
  rewrite iter_pos_fault; [reflexivity | lia | apply avg_head_step_null].
Qed.

Lemma sse2_paeth_null bpp base bpl m p :
  1 <= bpp -> 1 <= bpl -> sse2_paeth bpp base bpl (m, p, NULL) = None.
Proof.
  intros Hb Hl. unfold sse2_paeth.
  destruct (bpp =? 1).
  - rewrite iter_pos_fault; [reflexivity | lia | apply sse2_paeth1_step_null].
  - rewrite iter_pos_fault; [reflexivity | lia | apply paeth_head_step_null].
Qed.

Lemma sse2_row_null bpp base bpl m p f :
  ld m p = Some f ->
  f = kPngFilterUp \/ f = kPngFilterAvg \/ f = kPngFilterPaeth ->
  1 <= bpp -> 1 <= bpl < 4294967296 ->
  sse2_row bpp base bpl (m, p, NULL) = None.
Proof.
  intros L F Hb Hl. unfold sse2_row. rewrite L. cbn [bind].
  destruct F as [-> | [-> | ->]].
  - change (kPngFilterUp =? kPngFilterNone) with false.
    change (kPngFilterUp =? kPngFilterSub) with false.
    change (kPngFilterUp =? kPngFilterUp) with true. cbv iota.
    rewrite sse2_up_null by exact Hl. reflexivity.
  - change (kPngFilterAvg =? kPngFilterNone) with false.
    change (kPngFilterAvg =? kPngFilterSub) with false.
    change (kPngFilterAvg =? kPngFilterUp) with false.
    change (kPngFilterAvg =? kPngFilterAvg) with true. cbv iota.
    rewrite sse2_avg_null by exact Hb. reflexivity.
  - change (kPngFilterPaeth =? kPngFilterNone) with false.
    change (kPngFilterPaeth =? kPngFilterSub) with false.
    change (kPngFilterPaeth =? kPngFilterUp) with false.
    change (kPngFilterPaeth =? kPngFilterAvg) with false.
    change (kPngFilterPaeth =? kPngFilterPaeth) with true. cbv iota.
    rewrite sse2_paeth_null by lia. reflexivity.
Qed.

Lemma kernel_first_row_fault (row : mem * Z * ptr -> option (mem * Z * ptr)) m h :
  0 <= h -> row (m, 0, NULL) = None ->
  ('(m', _, _) <- iter (do_while_count h) row (m, 0, NULL) ;; Some m') = None.
Proof.
  intros Hh Hr. destruct (do_while_count_pos h Hh) as [n ->].
  rewrite iter_fault by exact Hr. reflexivity.
Qed.

(** C3, as the kernels behave: when row 0 carries Up, Avg or Paeth, each
    of the three kernels reads the previous-row cursor while it is still
    the null pointer; the call faults and no row is reconstructed. *)
Theorem first_row_filter_reads_null_cursor :
  forall base f (rest : list Z) h bpp w bpl,
    1 <= h < 4294967296 ->
    bpp = 1 \/ bpp = 2 \/ bpp = 3 \/ bpp = 4 \/ bpp = 6 \/ bpp = 8 ->
    1 <= w -> bpl = w * bpp + 1 -> bpl < 4294967296 ->
    f = kPngFilterUp \/ f = kPngFilterAvg \/ f = kPngFilterPaeth ->
    OptDePngFilterRef (f :: rest) h bpp bpl = None /\
    OptDePngFilterOpt (f :: rest) h bpp bpl = None /\
    OptDePngFilterSSE2 base (f :: rest) h bpp bpl = None.
Proof.
  intros base f rest h bpp w bpl Hh Hbpp Hw -> Hbpl Hf.
  assert (B1 : 1 <= bpp) by lia.
  assert (U : u32 (w * bpp + 1 - 1) = w * bpp) by (rewrite u32_small; nia).
  assert (W : 1 <= w * bpp < 4294967296) by nia.
  assert (L : ld (f :: rest) 0 = Some f).
  { rewrite ld_ok; [reflexivity|]. unfold len. simpl length. lia. }
  split; [|split].
  - unfold OptDePngFilterRef. cbv zeta. rewrite U.
    apply kernel_first_row_fault; [lia|].
    apply (ref_row_null bpp (w * bpp) (f :: rest) 0 f L Hf); lia.
  - unfold OptDePngFilterOpt, OptDePngFilterOpt_T. cbv zeta. rewrite U.
    assert (G : forall k, 1 <= k ->
      ('(m', _, _) <- iter (do_while_count h) (opt_row k (w * bpp)) (f :: rest, 0, NULL) ;;
       Some m') = None).
    { intros k Hk. apply kernel_first_row_fault; [lia|].
      apply (opt_row_null k (w * bpp) (f :: rest) 0 f L Hf); lia. }
    destruct Hbpp as [-> | [-> | [-> | [-> | [-> | ->]]]]]; cbn [Z.eqb Pos.eqb];
      apply G; lia.
  - unfold OptDePngFilterSSE2, OptDePngFilterSSE2_T. cbv zeta. rewrite U.
    assert (G : forall k, 1 <= k ->
      ('(m', _, _) <- iter (do_while_count h) (sse2_row k base (w * bpp)) (f :: rest, 0, NULL) ;;
       Some m') = None).
    { intros k Hk. apply kernel_first_row_fault; [lia|].
      apply (sse2_row_null k base (w * bpp) (f :: rest) 0 f L Hf); lia. }
    destruct Hbpp as [-> | [-> | [-> | [-> | [-> | ->]]]]]; cbn [Z.eqb Pos.eqb];
      apply G; lia.
Qed.

Lemma first_row_filter_reads_null_cursor_witness :
  OptDePngFilterRef [2; 5] 1 1 2 = None /\
  OptDePngFilterOpt [2; 5] 1 1 2 = None /\
  OptDePngFilterSSE2 0 [2; 5] 1 1 2 = None.
Proof.
  apply (first_row_filter_reads_null_cursor 0 2 [5] 1 1 1 2); try lia.
  left. reflexivity.
Defined.

(** C3, as stated, fails: on the one-row image [2; 5] (filter Up, one
    pixel of one byte) a zero row above row 0 would leave the pixel at 5,
    but the reference kernel faults on its first read of [u]. *)
Lemma first_row_zero_row_counterexample :
  ref_with_zero_row [2; 5] 1 1 2 = Some [2; 5] /\
  OptDePngFilterRef [2; 5] 1 1 2 = None /\
  OptDePngFilterRef [2; 5] 1 1 2 <> ref_with_zero_row [2; 5] 1 1 2.
Proof. repeat split. discriminate. Qed.


(** * Accesses inside a window *)

Lemma loadn_win (pre W post : list Z) (k c : nat) :
  (k + c <= length W)%nat ->
  loadn (pre ++ W ++ post) (len pre + Z.of_nat k) c = Some (firstn c (skipn k W)).
Proof.
  intros H.
  rewrite <- (firstn_skipn k W) at 1.
  rewrite <- (firstn_skipn c (skipn k W)) at 1.
  rewrite <- !app_assoc, (app_assoc pre).
  replace (len pre + Z.of_nat k) with (len (pre ++ firstn k W))
    by (rewrite len_app; unfold len; rewrite length_firstn; lia).
  replace c with (length (firstn c (skipn k W))) at 3
    by (rewrite length_firstn, length_skipn; lia).
  apply loadn_at.
Qed.

Lemma storen_win (pre W post : list Z) (k : nat) (l : list Z) :
  (k + length l <= length W)%nat ->
  storen (pre ++ W ++ post) (len pre + Z.of_nat k) l
  = Some (pre ++ (firstn k W ++ l ++ skipn (k + length l) W) ++ post).
Proof.
  intros H.
  rewrite <- (firstn_skipn k W) at 1.
  rewrite <- (firstn_skipn (length l) (skipn k W)) at 1.
  rewrite <- !app_assoc, (app_assoc pre).
  replace (len pre + Z.of_nat k) with (len (pre ++ firstn k W))
    by (rewrite len_app; unfold len; rewrite length_firstn; lia).
  rewrite storen_at by (rewrite length_firstn, length_skipn; lia).
  rewrite skipn_skipn, (Nat.add_comm (length l) k), <- !app_assoc. reflexivity.
Qed.

Lemma ld_loadn m a : ld m a = (l <- loadn m a 1 ;; nth_error l 0).
Proof.
  unfold ld, loadn. change (Z.of_nat 1) with 1.
  destruct (in_bounds m a 1) eqn:E; [|reflexivity].
  cbn [bind]. apply in_bounds_true in E.
  destruct (skipn (Z.to_nat a) m) as [|x t] eqn:S.
  - exfalso. apply (f_equal (@length Z)) in S. rewrite length_skipn in S.
    unfold len in E. simpl in S. lia.
  - simpl. rewrite <- (firstn_skipn (Z.to_nat a) m), S.
    rewrite nth_error_app2 by (rewrite length_firstn; lia).
    rewrite length_firstn.
    replace (Z.to_nat a - Nat.min (Z.to_nat a) (length m))%nat with O
      by (unfold len in E; lia).
    reflexivity.
Qed.

Lemma ld_win (pre W post : list Z) (k : nat) :
  (k < length W)%nat ->
  ld (pre ++ W ++ post) (len pre + Z.of_nat k) = Some (nth k W 0).
Proof.
  intros H. rewrite ld_loadn, loadn_win by lia. cbn [bind].
  destruct (skipn k W) as [|x t] eqn:S.
  - exfalso. apply (f_equal (@length Z)) in S. rewrite length_skipn in S.
    simpl in S. lia.
  - simpl. f_equal.
    rewrite <- (firstn_skipn k W), S.
    rewrite app_nth2 by (rewrite length_firstn; lia).
    rewrite length_firstn. replace (k - Nat.min k (length W))%nat with O by lia.
    reflexivity.
Qed.

Lemma upd_nth_split k : forall (W : list Z) f,
  (k < length W)%nat ->
  upd_nth k W f = firstn k W ++ [f (nth k W 0)] ++ skipn (k + 1) W.
Proof.
  induction k as [|k IH]; intros W f H; destruct W as [|x t]; simpl in H; try lia.
  - reflexivity.
  - simpl. f_equal. apply IH. lia.
Qed.

Lemma st_win (pre W post : list Z) (k : nat) v :
  (k < length W)%nat ->
  st (pre ++ W ++ post) (len pre + Z.of_nat k) v
  = Some (pre ++ upd_nth k W (fun _ => v) ++ post).
Proof.
  intros H. unfold st. rewrite storen_win by (simpl; lia).
  rewrite upd_nth_split by exact H. reflexivity.
Qed.

Lemma length_upd_nth k : forall (W : list Z) f, length (upd_nth k W f) = length W.
Proof.
  induction k as [|k IH]; intros W f; destruct W as [|x t]; simpl; try reflexivity.
  f_equal. apply IH.
Qed.

Lemma upd_nth_ext k : forall (W : list Z) f g,
  f (nth k W 0) = g (nth k W 0) -> upd_nth k W f = upd_nth k W g.
Proof.
  induction k as [|k IH]; intros W f g H; destruct W as [|x t]; simpl in *;
    try reflexivity.
  - rewrite H. reflexivity.
  - f_equal. apply IH. exact H.
Qed.

Lemma Forall_upd_nth (P : Z -> Prop) k : forall (W : list Z) f,
  Forall P W -> (forall x, P (f x)) -> Forall P (upd_nth k W f).
Proof.
  induction k as [|k IH]; intros W f HW Hf; destruct W as [|x t]; simpl;
    try constructor; inversion HW; subst; auto.
Qed.

(** ** The Sub loop on a window *)

Lemma sub_iter bpp n : forall (pre W post : list Z),
  (1 <= bpp)%nat -> length W = (n + bpp)%nat ->
  iter n (sub_step (Z.of_nat bpp)) (pre ++ W ++ post, len pre)
  = Some (pre ++ sub_win bpp n W ++ post, len pre + Z.of_nat n).
Proof.
  induction n as [|n IH]; intros pre W post Hb HW.
  - cbn [iter sub_win]. rewrite Z.add_0_r. reflexivity.
  - destruct W as [|x rest]; [simpl in HW; lia|].
    cbn [iter sub_win]. unfold sub_step at 1.
    rewrite (ld_win pre (x :: rest) post bpp) by (simpl in *; lia).
    cbn [bind].
    pose proof (ld_win pre (x :: rest) post 0) as L0.
    rewrite Z.add_0_r in L0. rewrite L0 by (simpl; lia). clear L0.
    cbn [bind nth].
    rewrite (st_win pre (x :: rest) post bpp) by (simpl in *; lia).
    cbn [bind].
    destruct bpp as [|b]; [lia|]. cbn [upd_nth nth Nat.pred].
    rewrite (upd_nth_ext b rest (fun _ => Sum (nth b rest 0) x) (fun y => Sum y x))
      by reflexivity.
    set (rest' := upd_nth b rest (fun y => Sum y x)).
    change (pre ++ (x :: rest') ++ post) with (pre ++ [x] ++ rest' ++ post).
    rewrite (app_assoc pre [x]).
    replace (len pre + 1) with (len (pre ++ [x])) by (rewrite len_app; reflexivity).
    rewrite IH.
    + rewrite <- app_assoc. rewrite len_app. change (len [x]) with 1.
      do 2 f_equal. lia.
    + lia.
    + unfold rest'. rewrite length_upd_nth. simpl in HW. lia.
Qed.

Lemma Sum_byte a b : byte (Sum a b).
Proof. apply Sum_range. Qed.

Lemma sub_win_length bpp n : forall W, length (sub_win bpp n W) = length W.
Proof.
  induction n as [|n IH]; intros W; destruct W as [|x rest]; simpl; try reflexivity.
  rewrite IH, length_upd_nth. reflexivity.
Qed.

Lemma sub_win_bytes bpp n : forall W, Forall byte W -> Forall byte (sub_win bpp n W).
Proof.
  induction n as [|n IH]; intros W HW; destruct W as [|x rest]; simpl; try assumption.
  inversion HW; subst. constructor; [assumption|].
  apply IH. apply Forall_upd_nth; [assumption|]. intros y. apply Sum_byte.
Qed.


(** * Vector accesses inside a window, and the tactics of the block proofs *)

Lemma loadn_frame (pre W post : list Z) (k : Z) (c : nat) :
  0 <= k -> (Z.to_nat k + c <= length W)%nat ->
  loadn (frame pre W post) (len pre + k) c = Some (firstn c (skipn (Z.to_nat k) W)).
Proof.
  intros H0 H. unfold frame. rewrite <- (Z2Nat.id k) at 1 by exact H0.
  apply loadn_win. exact H.
Qed.

Lemma loadn_frame0 (pre W post : list Z) (c : nat) :
  (c <= length W)%nat ->
  loadn (frame pre W post) (len pre) c = Some (firstn c W).
Proof.
  intros H. pose proof (loadn_frame pre W post 0 c (Z.le_refl 0)) as L.
  rewrite Z.add_0_r in L. apply L. simpl. exact H.
Qed.

Lemma storen_frame (pre W post : list Z) (k : Z) (l : list Z) :
  0 <= k -> (Z.to_nat k + length l <= length W)%nat ->
  storen (frame pre W post) (len pre + k) l
  = Some (frame pre (firstn (Z.to_nat k) W ++ l ++ skipn (Z.to_nat k + length l) W) post).
Proof.
  intros H0 H. unfold frame. rewrite <- (Z2Nat.id k) at 1 by exact H0.
  apply storen_win. exact H.
Qed.

Lemma ld_frame (pre W post : list Z) (k : Z) :
  0 <= k -> (Z.to_nat k < length W)%nat ->
  ld (frame pre W post) (len pre + k) = Some (nth (Z.to_nat k) W 0).
Proof.
  intros H0 H. unfold frame. rewrite <- (Z2Nat.id k) at 1 by exact H0.
  apply ld_win. exact H.
Qed.

Lemma ld_frame0 (pre W post : list Z) :
  (0 < length W)%nat -> ld (frame pre W post) (len pre) = Some (nth 0 W 0).
Proof.
  intros H. pose proof (ld_frame pre W post 0 (Z.le_refl 0)) as L.
  rewrite Z.add_0_r in L. apply L. simpl. exact H.
Qed.

Lemma st_frame (pre W post : list Z) (k : Z) v :
  0 <= k -> (Z.to_nat k < length W)%nat ->
  st (frame pre W post) (len pre + k) v
  = Some (frame pre (upd_nth (Z.to_nat k) W (fun _ => v)) post).
Proof.
  intros H0 H. unfold frame. rewrite <- (Z2Nat.id k) at 1 by exact H0.
  apply st_win. exact H.
Qed.

Lemma len_frame pre W post : len (frame pre W post) = len pre + len W + len post.
Proof. unfold frame. rewrite !len_app. lia. Qed.

(** Every in-bounds range of the buffer is a window. *)
Lemma frame_split (m : mem) a (n : nat) :
  0 <= a -> a + Z.of_nat n <= len m ->
  exists pre W post, m = frame pre W post /\ len pre = a /\ length W = n.
Proof. apply mem_split. Qed.

Lemma aligned16_shift a b :
  aligned16 a = true -> (b - a) mod 16 = 0 -> aligned16 b = true.
Proof.
  unfold aligned16. rewrite !Z.eqb_eq. intros Ha Hb.
  Z.div_mod_to_equations. lia.
Qed.

Lemma load_si128_frame base (pre W post : list Z) (k : Z) :
  aligned16 (base + (len pre + k)) = true ->
  0 <= k -> (Z.to_nat k + 16 <= length W)%nat ->
  _mm_load_si128 base (frame pre W post) (len pre + k)
  = Some (firstn 16 (skipn (Z.to_nat k) W)).
Proof.
  intros A H0 H. unfold _mm_load_si128. rewrite A. apply loadn_frame; assumption.
Qed.

Lemma store_si128_frame base (pre W post : list Z) (k : Z) (v : list Z) :
  aligned16 (base + (len pre + k)) = true ->
  0 <= k -> (Z.to_nat k + length v <= length W)%nat ->
  _mm_store_si128 base (frame pre W post) (len pre + k) v
  = Some (frame pre (firstn (Z.to_nat k) W ++ v ++ skipn (Z.to_nat k + length v) W) post).
Proof.
  intros A H0 H. unfold _mm_store_si128. rewrite A. apply storen_frame; assumption.
Qed.

Lemma load_si128_frame0 base (pre W post : list Z) :
  aligned16 (base + len pre) = true -> (16 <= length W)%nat ->
  _mm_load_si128 base (frame pre W post) (len pre) = Some (firstn 16 W).
Proof.
  intros A H. unfold _mm_load_si128. rewrite A. apply loadn_frame0. exact H.
Qed.

Lemma store_si128_frame0 base (pre W post : list Z) (v : list Z) :
  aligned16 (base + len pre) = true -> (length v <= length W)%nat ->
  _mm_store_si128 base (frame pre W post) (len pre) v
  = Some (frame pre (v ++ skipn (length v) W) post).
Proof.
  intros A H. unfold _mm_store_si128. rewrite A.
  pose proof (storen_frame pre W post 0 v (Z.le_refl 0)) as L.
  rewrite Z.add_0_r in L. apply L. simpl. exact H.
Qed.

(** ** Sums of bytes modulo 256 *)

Lemma strip_add a a' b b' :
  a mod 256 = a' mod 256 -> b mod 256 = b' mod 256 ->
  (a + b) mod 256 = (a' + b') mod 256.
Proof. intros Ha Hb. rewrite Z.add_mod, Ha, Hb, <- Z.add_mod by lia. reflexivity. Qed.

Lemma strip_mod a a' : a mod 256 = a' mod 256 -> (a mod 256) mod 256 = a' mod 256.
Proof. intros H. rewrite Z.mod_mod by lia. exact H. Qed.

(** [strip] removes the inner reductions of a sum reduced modulo 256. *)
Ltac strip :=
  lazymatch goal with
  | |- (?a mod 256) mod 256 = _ => apply strip_mod; strip
  | |- (?a + ?b) mod 256 = _ => apply strip_add; [strip | strip]
  | |- _ => reflexivity
  end.

(** Two nested sums of the same bytes agree modulo 256. *)
Ltac byte_arith :=
  rewrite ?Sum_mod;
  first [ reflexivity
        | eapply eq_trans; [strip|]; symmetry; eapply eq_trans; [strip|];
          apply (f_equal (fun x => x mod 256)); lia ].

Ltac list_eq :=
  repeat match goal with
         | |- (_ :: _) = (_ :: _) => apply (f_equal2 (@cons Z))
         | |- [] = [] => reflexivity
         end.

(** Side conditions of the window lemmas: offsets, lengths, alignment. *)
Ltac sc :=
  first [ lia
        | cbn [length Z.to_nat Pos.to_nat Pos.iter_op Nat.add]; lia
        | match goal with
          | A : aligned16 ?a = true |- aligned16 ?b = true =>
              apply (aligned16_shift a b A);
              match goal with |- ?e mod 16 = 0 => ring_simplify e; reflexivity end
          end ].

(** Evaluation of the byte moves of a block, leaving the lane arithmetic. *)
Ltac vcompute :=
  cbv beta iota zeta delta
    [bind fst snd PNG_SSE_SLL_ADDB_1X PNG_SSE_SLL_ADDB_2X
     _mm_add_epi8 _mm_slli_si128 _mm_srli_si128 _mm_unpackhi_epi8 _mm_unpackhi_epi16
     _mm_unpacklo_epi8 _mm_shuffle_epi32 _mm_shufflelo_epi16 _mm_shufflehi_epi16
     _MM_SHUFFLE shuffle4 chunks interleave zipWith zeros repeat
     firstn skipn app nth length Nat.sub Nat.add
     Z.to_nat Pos.to_nat Pos.iter_op Z.of_nat Pos.of_succ_nat Pos.succ
     sub_win upd_nth Nat.pred up_win].

(** A list of known length, as its elements. *)
Ltac explode W H :=
  repeat (destruct W as [|? W]; [discriminate H|];
          apply (f_equal Nat.pred) in H; cbn [length Nat.pred] in H);
  destruct W; [clear H | discriminate H].

(** The end of a block proof: the window and the carried register, lane
    by lane. *)
Ltac block_eq pre post :=
  apply f_equal; apply f_equal2;
  [ apply f_equal2; [apply (f_equal (fun l => frame pre l post)); list_eq | reflexivity]
  | list_eq ];
  byte_arith.

(** ** Little-endian values *)

Lemma bytes_le_le_val (l : list Z) :
  Forall byte l -> bytes_le (length l) (le_val l) = l.
Proof.
  induction 1 as [|b t Hb Ht IH]; cbn [length bytes_le le_val].
  - reflexivity.
  - unfold byte in Hb.
    replace ((b + 256 * le_val t) mod 256) with b by (Z.div_mod_to_equations; lia).
    replace ((b + 256 * le_val t) / 256) with (le_val t) by (Z.div_mod_to_equations; lia).
    rewrite IH. reflexivity.
Qed.

Lemma le_val_range (l : list Z) :
  Forall byte l -> 0 <= le_val l < 256 ^ Z.of_nat (length l).
Proof.
  induction 1 as [|b t Hb Ht IH]; cbn [length le_val].
  - simpl. lia.
  - rewrite Nat2Z.inj_succ, Z.pow_succ_r by lia. unfold byte in Hb. lia.
Qed.


(** * The vector blocks of the Sub filter

    Each block is run on a window of symbolic bytes; its stores and the
    register it carries are compared, lane by lane, with the scalar loop. *)

Lemma le_val_app (l1 l2 : list Z) :
  le_val (l1 ++ l2) = le_val l1 + 256 ^ Z.of_nat (length l1) * le_val l2.
Proof.
  induction l1 as [|b t IH]; cbn [app le_val length].
  - change (256 ^ Z.of_nat 0) with 1. lia.
  - rewrite IH, Nat2Z.inj_succ, Z.pow_succ_r by lia. ring.
Qed.

(** The three top bytes of the last dword replicated along the register,
    as done through [_mm_mul_epu32] in the 3-bpp block. *)
Lemma bcast3 a b c d :
  byte a -> byte b -> byte c -> byte d ->
  _mm_mul_epu32 (_mm_srli_epi32 [a; b; c; d; a; b; c; d; a; b; c; d; a; b; c; d] 8)
                (_mm_set1_epi32 16777217)
  = [b; c; d; b; c; d; 0; 0; b; c; d; b; c; d; 0; 0].
Proof.
  unfold byte. intros Ha Hb Hc Hd.
  assert (S : Z.shiftr (le_val [a; b; c; d]) 8 = b + 256 * c + 65536 * d).
  { rewrite Z.shiftr_div_pow2 by lia. cbn [le_val]. change (2 ^ 8) with 256.
    Z.div_mod_to_equations. lia. }
  assert (B4 : bytes_le 4 (b + 256 * c + 65536 * d) = [b; c; d; 0]).
  { replace (b + 256 * c + 65536 * d) with (le_val [b; c; d; 0]) by (cbn [le_val]; lia).
    apply (bytes_le_le_val [b; c; d; 0]). repeat constructor; unfold byte; lia. }
  assert (B8 : bytes_le 8 (le_val [b; c; d; b; c; d; 0; 0]) = [b; c; d; b; c; d; 0; 0]).
  { apply (bytes_le_le_val [b; c; d; b; c; d; 0; 0]).
    repeat constructor; unfold byte; lia. }
  unfold _mm_mul_epu32, _mm_srli_epi32, _mm_set1_epi32, lane_map2, lane_map, lanes, of_lanes.
  cbn [Nat.div Nat.divmod fst chunks firstn skipn map flat_map repeat app zipWith].
  rewrite S, B4. cbn [app le_val].
  change (bytes_le 4 16777217) with [1; 0; 0; 1]. cbn [app le_val].
  replace ((b + 256 * (c + 256 * (d + 256 * (0 + 256 * (b + 256 * (c + 256 * (d + 256 * (0 + 256 * 0)))))))) mod 4294967296
           * ((1 + 256 * (0 + 256 * (0 + 256 * (1 + 256 * (1 + 256 * (0 + 256 * (0 + 256 * (1 + 256 * 0)))))))) mod 4294967296))
    with (le_val [b; c; d; b; c; d; 0; 0]).
  - rewrite B8. reflexivity.
  - cbn [le_val].
    replace ((b + 256 * (c + 256 * (d + 256 * (0 + 256 * (b + 256 * (c + 256 * (d + 256 * (0 + 256 * 0)))))))) mod 4294967296)
      with (b + 256 * c + 65536 * d) by (Z.div_mod_to_equations; lia).
    change ((1 + 256 * (0 + 256 * (0 + 256 * (1 + 256 * (1 + 256 * (0 + 256 * (0 + 256 * (1 + 256 * 0)))))))) mod 4294967296)
      with 16777217.
    lia.
Qed.

Lemma mod256_byte x : byte (x mod 256).
Proof. unfold byte. apply Z.mod_pos_bound. lia. Qed.

(** ** bpp = 1 *)

Lemma sse2_sub64_bpp1_ok base : sub_block_spec base 1 64 (sse2_sub64_bpp1 base).
Proof.
  intros pre W post HW A. explode W HW.
  change (Z.of_nat 1) with 1 in A. change (Z.of_nat 64) with 64.
  unfold sse2_sub64_bpp1.
  rewrite (load_si128_frame base pre _ post 1) by sc.
  rewrite (load_si128_frame base pre _ post 17) by sc.
  rewrite (load_si128_frame base pre _ post 33) by sc.
  rewrite (load_si128_frame base pre _ post 49) by sc.
  vcompute.
  rewrite (store_si128_frame base pre _ post 1 _) by sc.
  vcompute.
  rewrite (store_si128_frame base pre _ post 17 _) by sc.
  vcompute.
  rewrite (store_si128_frame base pre _ post 33 _) by sc.
  vcompute.
  rewrite (store_si128_frame base pre _ post 49 _) by sc.
  vcompute.
  block_eq pre post.
Qed.

Lemma sse2_sub16_bpp1_ok base : sub_block_spec base 1 16 (sse2_sub16_bpp1 base).
Proof.
  intros pre W post HW A. explode W HW.
  change (Z.of_nat 1) with 1 in A. change (Z.of_nat 16) with 16.
  unfold sse2_sub16_bpp1.
  rewrite (load_si128_frame base pre _ post 1) by sc.
  vcompute.
  rewrite (store_si128_frame base pre _ post 1 _) by sc.
  vcompute.
  block_eq pre post.
Qed.

(** ** bpp = 2 *)

Lemma sse2_sub64_bpp2_ok base : sub_block_spec base 2 64 (sse2_sub64_bpp2 base).
Proof.
  intros pre W post HW A. explode W HW.
  change (Z.of_nat 2) with 2 in A. change (Z.of_nat 64) with 64.
  unfold sse2_sub64_bpp2.
  rewrite (load_si128_frame base pre _ post 2) by sc.
  rewrite (load_si128_frame base pre _ post 18) by sc.
  rewrite (load_si128_frame base pre _ post 34) by sc.
  rewrite (load_si128_frame base pre _ post 50) by sc.
  vcompute.
  rewrite (store_si128_frame base pre _ post 2 _) by sc.
  vcompute.
  rewrite (store_si128_frame base pre _ post 18 _) by sc.
  vcompute.
  rewrite (store_si128_frame base pre _ post 34 _) by sc.
  vcompute.
  rewrite (store_si128_frame base pre _ post 50 _) by sc.
  vcompute.
  block_eq pre post.
Qed.

Lemma sse2_sub16_bpp2_ok base : sub_block_spec base 2 16 (sse2_sub16_bpp2 base).
Proof.
  intros pre W post HW A. explode W HW.
  change (Z.of_nat 2) with 2 in A. change (Z.of_nat 16) with 16.
  unfold sse2_sub16_bpp2.
  rewrite (load_si128_frame base pre _ post 2) by sc.
  vcompute.
  rewrite (store_si128_frame base pre _ post 2 _) by sc.
  vcompute.
  block_eq pre post.
Qed.

(** ** bpp = 3 *)

Lemma sse2_sub64_bpp3_ok base : sub_block_spec base 3 64 (sse2_sub64_bpp3 base).
Proof.
  intros pre W post HW A. explode W HW.
  change (Z.of_nat 3) with 3 in A. change (Z.of_nat 64) with 64.
  unfold sse2_sub64_bpp3.
  rewrite (load_si128_frame base pre _ post 3) by sc.
  rewrite (load_si128_frame base pre _ post 19) by sc.
  rewrite (load_si128_frame base pre _ post 35) by sc.
  rewrite (load_si128_frame base pre _ post 51) by sc.
  vcompute.
  rewrite bcast3 by apply mod256_byte.
  vcompute.
  rewrite (store_si128_frame base pre _ post 3 _) by sc.
  vcompute.
  rewrite (store_si128_frame base pre _ post 19 _) by sc.
  vcompute.
  rewrite (store_si128_frame base pre _ post 35 _) by sc.
  vcompute.
  rewrite (store_si128_frame base pre _ post 51 _) by sc.
  vcompute.
  block_eq pre post.
Qed.

Lemma sse2_sub16_bpp3_ok base : sub_block_spec base 3 16 (sse2_sub16_bpp3 base).
Proof.
  intros pre W post HW A. explode W HW.
  change (Z.of_nat 3) with 3 in A. change (Z.of_nat 16) with 16.
  unfold sse2_sub16_bpp3.
  rewrite (load_si128_frame base pre _ post 3) by sc.
  vcompute.
  rewrite (store_si128_frame base pre _ post 3 _) by sc.
  vcompute.
  block_eq pre post.
Qed.

(** ** bpp = 4 *)

Lemma sse2_sub64_bpp4_ok base : sub_block_spec base 4 64 (sse2_sub64_bpp4 base).
Proof.
  intros pre W post HW A. explode W HW.
  change (Z.of_nat 4) with 4 in A. change (Z.of_nat 64) with 64.
  unfold sse2_sub64_bpp4.
  rewrite (load_si128_frame base pre _ post 4) by sc.
  rewrite (load_si128_frame base pre _ post 20) by sc.
  rewrite (load_si128_frame base pre _ post 36) by sc.
  rewrite (load_si128_frame base pre _ post 52) by sc.
  vcompute.
  rewrite (store_si128_frame base pre _ post 4 _) by sc.
  vcompute.
  rewrite (store_si128_frame base pre _ post 20 _) by sc.
  vcompute.
  rewrite (store_si128_frame base pre _ post 36 _) by sc.
  vcompute.
  rewrite (store_si128_frame base pre _ post 52 _) by sc.
  vcompute.
  block_eq pre post.
Qed.

Lemma sse2_sub16_bpp4_ok base : sub_block_spec base 4 16 (sse2_sub16_bpp4 base).
Proof.
  intros pre W post HW A. explode W HW.
  change (Z.of_nat 4) with 4 in A. change (Z.of_nat 16) with 16.
  unfold sse2_sub16_bpp4.
  rewrite (load_si128_frame base pre _ post 4) by sc.
  vcompute.
  rewrite (store_si128_frame base pre _ post 4 _) by sc.
  vcompute.
  block_eq pre post.
Qed.

(** ** bpp = 6 *)

Lemma sse2_sub64_bpp6_ok base : sub_block_spec base 6 64 (sse2_sub64_bpp6 base).
Proof.
  intros pre W post HW A. explode W HW.
  change (Z.of_nat 6) with 6 in A. change (Z.of_nat 64) with 64.
  unfold sse2_sub64_bpp6.
  rewrite (load_si128_frame base pre _ post 6) by sc.
  rewrite (load_si128_frame base pre _ post 22) by sc.
  rewrite (load_si128_frame base pre _ post 38) by sc.
  rewrite (load_si128_frame base pre _ post 54) by sc.
  vcompute.
  rewrite (store_si128_frame base pre _ post 6 _) by sc.
  vcompute.
  rewrite (store_si128_frame base pre _ post 22 _) by sc.
  vcompute.
  rewrite (store_si128_frame base pre _ post 38 _) by sc.
  vcompute.
  rewrite (store_si128_frame base pre _ post 54 _) by sc.
  vcompute.
  block_eq pre post.
Qed.

Lemma sse2_sub16_bpp6_ok base : sub_block_spec base 6 16 (sse2_sub16_bpp6 base).
Proof.
  intros pre W post HW A. explode W HW.
  change (Z.of_nat 6) with 6 in A. change (Z.of_nat 16) with 16.
  unfold sse2_sub16_bpp6.
  rewrite (load_si128_frame base pre _ post 6) by sc.
  vcompute.
  rewrite (store_si128_frame base pre _ post 6 _) by sc.
  vcompute.
  block_eq pre post.
Qed.

(** ** bpp = 8 *)

Lemma sse2_sub64_bpp8_ok base : sub_block_spec base 8 64 (sse2_sub64_bpp8 base).
Proof.
  intros pre W post HW A. explode W HW.
  change (Z.of_nat 8) with 8 in A. change (Z.of_nat 64) with 64.
  unfold sse2_sub64_bpp8.
  rewrite (load_si128_frame base pre _ post 8) by sc.
  rewrite (load_si128_frame base pre _ post 24) by sc.
  rewrite (load_si128_frame base pre _ post 40) by sc.
  rewrite (load_si128_frame base pre _ post 56) by sc.
  vcompute.
  rewrite (store_si128_frame base pre _ post 8 _) by sc.
  vcompute.
  rewrite (store_si128_frame base pre _ post 24 _) by sc.
  vcompute.
  rewrite (store_si128_frame base pre _ post 40 _) by sc.
  vcompute.
  rewrite (store_si128_frame base pre _ post 56 _) by sc.
  vcompute.
  block_eq pre post.
Qed.

Lemma sse2_sub16_bpp8_ok base : sub_block_spec base 8 16 (sse2_sub16_bpp8 base).
Proof.
  intros pre W post HW A. explode W HW.
  change (Z.of_nat 8) with 8 in A. change (Z.of_nat 16) with 16.
  unfold sse2_sub16_bpp8.
  rewrite (load_si128_frame base pre _ post 8) by sc.
  vcompute.
  rewrite (store_si128_frame base pre _ post 8 _) by sc.
  vcompute.
  block_eq pre post.
Qed.


(** * Vector loops against scalar loops *)

Lemma while_ge_step {S : Type} fuel k (body : S -> option S) i s :
  k <= i ->
  while_ge (Datatypes.S fuel) k body i s
  = (s' <- body s ;; while_ge fuel k body (u32 (i - k)) s').
Proof.
  intros H. cbn [while_ge]. destruct (Z.ltb_spec i k); [lia | reflexivity].
Qed.

Lemma aligned16_add a k : aligned16 a = true -> k mod 16 = 0 -> aligned16 (a + k) = true.
Proof.
  intros A K. apply (aligned16_shift a (a + k) A).
  replace (a + k - a) with k by lia. exact K.
Qed.

Lemma Forall_frame (P : Z -> Prop) pre W post :
  Forall P (frame pre W post) <-> Forall P pre /\ Forall P W /\ Forall P post.
Proof. unfold frame. rewrite !Forall_app. tauto. Qed.

(** ** The scalar Sub loop on any buffer *)

Lemma sub_iter_mem (B n : nat) (m : mem) p :
  (1 <= B)%nat -> 0 <= p -> p + Z.of_nat n + Z.of_nat B <= len m ->
  exists m',
    iter n (sub_step (Z.of_nat B)) (m, p) = Some (m', p + Z.of_nat n) /\
    len m' = len m /\
    (Forall byte m -> Forall byte m') /\
    (forall pre W post, m = frame pre W post -> len pre = p ->
       length W = (n + B)%nat -> m' = frame pre (sub_win B n W) post).
Proof.
  intros HB Hp Hl.
  destruct (frame_split m p (n + B)) as (pre & W & post & -> & <- & HW); [lia | lia |].
  exists (frame pre (sub_win B n W) post). split; [|split; [|split]].
  - unfold frame. apply sub_iter; assumption.
  - rewrite !len_frame. unfold len. rewrite sub_win_length. reflexivity.
  - rewrite !Forall_frame. intros (H1 & H2 & H3).
    repeat split; try assumption. apply sub_win_bytes. exact H2.
  - intros pre' W' post' E Hp' HW'.
    unfold frame in E.
    assert (pre' = pre).
    { apply (f_equal (firstn (length pre))) in E.
      rewrite firstn_app, Nat.sub_diag, firstn_all in E. simpl in E.
      rewrite app_nil_r in E. rewrite E.
      rewrite firstn_app. unfold len in Hp'.
      replace (length pre - length pre')%nat with O by lia.
      replace (length pre) with (length pre') by lia.
      rewrite firstn_all. simpl. rewrite app_nil_r. reflexivity. }
    subst pre'. apply app_inv_head in E.
    assert (W' = W).
    { apply (f_equal (firstn (length W))) in E.
      rewrite firstn_app, Nat.sub_diag, firstn_all in E. simpl in E.
      rewrite app_nil_r in E. rewrite E.
      rewrite firstn_app. replace (length W - length W')%nat with O by lia.
      replace (length W) with (length W') by lia.
      rewrite firstn_all. simpl. rewrite app_nil_r. reflexivity. }
    subst W'. apply app_inv_head in E. subst post'. reflexivity.
Qed.

(** ** A vector loop of the Sub filter does the scalar iterations *)

Section SubLoop.
Variable base : Z.
Variable B K : nat.
Variable body : vstate -> option vstate.
Hypothesis body_spec : sub_block_spec base B K body.
Hypothesis B_pos : (1 <= B)%nat.
Hypothesis K_pos : (1 <= K)%nat.
Hypothesis K_16 : Z.of_nat K mod 16 = 0.

Lemma sub_block_mem (m : mem) p c :
  0 <= p -> p + Z.of_nat K + Z.of_nat B <= len m ->
  aligned16 (base + (p + Z.of_nat B)) = true ->
  loadn m p B = Some c ->
  exists m' c',
    body (m, p, c ++ zeros (16 - B)) = Some (m', p + Z.of_nat K, c' ++ zeros (16 - B)) /\
    iter K (sub_step (Z.of_nat B)) (m, p) = Some (m', p + Z.of_nat K) /\
    loadn m' (p + Z.of_nat K) B = Some c' /\
    len m' = len m /\
    (Forall byte m -> Forall byte m').
Proof.
  intros Hp Hl A Hc.
  destruct (frame_split m p (K + B)) as (pre & W & post & -> & <- & HW); [lia | lia |].
  rewrite loadn_frame0 in Hc by lia. injection Hc as <-.
  exists (frame pre (sub_win B K W) post), (firstn B (skipn K (sub_win B K W))).
  split; [|split; [|split; [|split]]].
  - apply body_spec; assumption.
  - unfold frame. apply sub_iter; assumption.
  - rewrite loadn_frame; [rewrite Nat2Z.id; reflexivity | lia |].
    rewrite Nat2Z.id, sub_win_length. lia.
  - rewrite !len_frame. unfold len. rewrite sub_win_length. reflexivity.
  - rewrite !Forall_frame. intros (H1 & H2 & H3).
    repeat split; try assumption. apply sub_win_bytes. exact H2.
Qed.

Lemma sub_loop_sim n : forall fuel (m : mem) p c i,
  (n <= fuel)%nat ->
  0 <= i < 4294967296 -> Z.of_nat n = i / Z.of_nat K ->
  0 <= p -> p + i + Z.of_nat B <= len m ->
  aligned16 (base + (p + Z.of_nat B)) = true ->
  loadn m p B = Some c ->
  exists m' c',
    while_ge fuel (Z.of_nat K) body i (m, p, c ++ zeros (16 - B))
    = Some (i mod Z.of_nat K, (m', p + Z.of_nat (K * n), c' ++ zeros (16 - B))) /\
    iter (K * n) (sub_step (Z.of_nat B)) (m, p) = Some (m', p + Z.of_nat (K * n)) /\
    loadn m' (p + Z.of_nat (K * n)) B = Some c' /\
    aligned16 (base + (p + Z.of_nat (K * n) + Z.of_nat B)) = true /\
    len m' = len m /\
    (Forall byte m -> Forall byte m').
Proof.
  induction n as [|n IH]; intros fuel m p c i Hf Hi Hn Hp Hl A Hc.
  - exists m, c.
    assert (i < Z.of_nat K) by (Z.div_mod_to_equations; nia).
    rewrite while_ge_skip by lia.
    rewrite Nat.mul_0_r, Z.add_0_r. cbn [iter].
    rewrite Z.mod_small by lia.
    repeat split; try assumption. auto.
  - assert (HK : Z.of_nat K <= i) by (Z.div_mod_to_equations; nia).
    destruct fuel as [|fuel]; [lia|].
    rewrite while_ge_step by exact HK.
    destruct (sub_block_mem m p c Hp ltac:(lia) A Hc) as (m1 & c1 & E1 & E2 & E3 & E4 & E5).
    rewrite E1. cbn [bind].
    rewrite (u32_small (i - Z.of_nat K)) by lia.
    assert (Hn' : Z.of_nat n = (i - Z.of_nat K) / Z.of_nat K).
    { replace (i - Z.of_nat K) with (i + (-1) * Z.of_nat K) by lia.
      rewrite Z.div_add by lia. lia. }
    assert (A' : aligned16 (base + (p + Z.of_nat K + Z.of_nat B)) = true).
    { apply (aligned16_shift _ _ A).
      replace (base + (p + Z.of_nat K + Z.of_nat B) - (base + (p + Z.of_nat B)))
        with (Z.of_nat K) by lia.
      exact K_16. }
    destruct (IH fuel m1 (p + Z.of_nat K) c1 (i - Z.of_nat K)
                 ltac:(lia) ltac:(lia) Hn' ltac:(lia) ltac:(lia) A' E3)
      as (m2 & c2 & F1 & F2 & F3 & F4 & F5 & F6).
    exists m2, c2.
    replace (p + Z.of_nat (K * Datatypes.S n)) with (p + Z.of_nat K + Z.of_nat (K * n)) by lia.
    split; [|split; [|split; [|split; [|split]]]].
    + rewrite F1. f_equal. f_equal.
      replace (i - Z.of_nat K) with (i + (-1) * Z.of_nat K) by lia.
      apply Z.mod_add. lia.
    + replace (K * Datatypes.S n)%nat with (K + K * n)%nat by lia.
      rewrite iter_add, E2. cbn [bind]. exact F2.
    + exact F3.
    + exact F4.
    + lia.
    + auto.
Qed.
End SubLoop.


(** * The Sub case of the SSE2 kernel *)

Lemma le_val_bytes_le n : forall x, le_val (bytes_le n x) = x mod 256 ^ Z.of_nat n.
Proof.
  induction n as [|n IH]; intros x; cbn [bytes_le le_val].
  - change (256 ^ Z.of_nat 0) with 1. rewrite Z.mod_1_r. reflexivity.
  - rewrite IH, Nat2Z.inj_succ, Z.pow_succ_r by lia.
    rewrite Z.rem_mul_r by lia. reflexivity.
Qed.

Lemma length_bytes_le n : forall x, length (bytes_le n x) = n.
Proof. induction n; intros; cbn [bytes_le length]; [reflexivity | f_equal; auto]. Qed.

Lemma firstn_bytes_le_app n x l : firstn n (bytes_le n x ++ l) = bytes_le n x.
Proof.
  rewrite firstn_app, length_bytes_le, Nat.sub_diag. cbn [firstn]. rewrite app_nil_r.
  apply firstn_all2. rewrite length_bytes_le. lia.
Qed.

Lemma skipn_bytes_le_app n x l : skipn n (bytes_le n x ++ l) = l.
Proof.
  rewrite skipn_app, length_bytes_le, Nat.sub_diag. cbn [skipn].
  rewrite skipn_all2 by (rewrite length_bytes_le; lia). reflexivity.
Qed.

Lemma loadn_bytes m a n l : Forall byte m -> loadn m a n = Some l -> Forall byte l.
Proof.
  intros Hm H. destruct (loadn_inv _ _ _ _ H) as (pre & post & -> & _).
  rewrite !Forall_app in Hm. tauto.
Qed.

Lemma loadn_firstn m a n k l :
  (k <= n)%nat -> loadn m a n = Some l -> loadn m a k = Some (firstn k l).
Proof.
  intros Hk H. pose proof (loadn_length _ _ _ _ H) as L.
  destruct (loadn_inv _ _ _ _ H) as (pre & post & -> & <-).
  apply (loadn_frame0 pre l post k). lia.
Qed.

Ltac all_bytes :=
  repeat (apply Forall_cons; [first [assumption | unfold byte in *; lia]|]);
  apply Forall_nil.

(** ** The register carried into the first vector iteration *)

Lemma sub_init_1 x : byte x -> _mm_cvtsi32_si128 x = [x] ++ zeros 15.
Proof.
  intros Hx. unfold _mm_cvtsi32_si128.
  replace x with (le_val [x; 0; 0; 0]) at 1 by (cbn [le_val]; lia).
  assert (E := bytes_le_le_val [x; 0; 0; 0] ltac:(all_bytes)); cbn [length] in E; rewrite E; clear E.
  reflexivity.
Qed.

Lemma sub_init_2 a b :
  byte a -> byte b -> _mm_cvtsi32_si128 (le_val [a; b]) = [a; b] ++ zeros 14.
Proof.
  intros Ha Hb. unfold _mm_cvtsi32_si128.
  replace (le_val [a; b]) with (le_val [a; b; 0; 0]) by (cbn [le_val]; lia).
  assert (E := bytes_le_le_val [a; b; 0; 0] ltac:(all_bytes)); cbn [length] in E; rewrite E; clear E.
  reflexivity.
Qed.

Lemma land_24 a b c d :
  byte a -> byte b -> byte c -> byte d ->
  Z.land (le_val [a; b; c; d]) 16777215 = le_val [a; b; c; 0].
Proof.
  unfold byte. intros Ha Hb Hc Hd.
  change 16777215 with (Z.ones 24). rewrite Z.land_ones by lia.
  change (2 ^ 24) with 16777216. cbn [le_val].
  Z.div_mod_to_equations. lia.
Qed.

Lemma sub_init_3 a b c d :
  byte a -> byte b -> byte c -> byte d ->
  _mm_cvtsi32_si128 (Z.land (le_val [a; b; c; d]) 16777215) = [a; b; c] ++ zeros 13.
Proof.
  intros Ha Hb Hc Hd. unfold _mm_cvtsi32_si128. rewrite land_24 by assumption.
  assert (E := bytes_le_le_val [a; b; c; 0] ltac:(all_bytes)); cbn [length] in E; rewrite E; clear E.
  reflexivity.
Qed.

Lemma sub_init_4 a b c d :
  byte a -> byte b -> byte c -> byte d ->
  _mm_cvtsi32_si128 (le_val [a; b; c; d]) = [a; b; c; d] ++ zeros 12.
Proof.
  intros Ha Hb Hc Hd. unfold _mm_cvtsi32_si128.
  assert (E := bytes_le_le_val [a; b; c; d] ltac:(all_bytes)); cbn [length] in E; rewrite E; clear E.
  reflexivity.
Qed.

Lemma lane8_map f x y :
  lane_map 8 f (bytes_le 8 x ++ bytes_le 8 y)
  = bytes_le 8 (f (x mod 18446744073709551616))
    ++ bytes_le 8 (f (y mod 18446744073709551616)).
Proof.
  unfold lane_map, lanes. change (16 / 8)%nat with 2%nat. cbn [chunks].
  rewrite firstn_bytes_le_app, skipn_bytes_le_app.
  rewrite (firstn_all2 (n := 8) (bytes_le 8 y)) by (rewrite length_bytes_le; lia).
  cbn [map]. rewrite !le_val_bytes_le.
  change (256 ^ Z.of_nat 8) with 18446744073709551616.
  unfold of_lanes. cbn [flat_map]. rewrite app_nil_r. reflexivity.
Qed.

Lemma sub_init_6 a0 a1 a2 a3 a4 a5 a6 a7 :
  Forall byte [a0; a1; a2; a3; a4; a5; a6; a7] ->
  _mm_srli_epi64 (_mm_slli_epi64 ([a0; a1; a2; a3; a4; a5; a6; a7] ++ zeros 8) 16) 16
  = [a0; a1; a2; a3; a4; a5] ++ zeros 10.
Proof.
  intros H.
  assert (R := le_val_range _ H). cbn [length] in R.
  change (256 ^ Z.of_nat 8) with 18446744073709551616 in R.
  assert (Hb : Forall byte [a0; a1; a2; a3; a4; a5; 0; 0]).
  { repeat match goal with H : Forall _ (_ :: _) |- _ => inversion H; clear H; subst end.
    all_bytes. }
  assert (E := bytes_le_le_val _ H). cbn [length] in E.
  rewrite <- E at 1. clear E.
  change (zeros 8) with (bytes_le 8 0).
  unfold _mm_srli_epi64, _mm_slli_epi64. rewrite !lane8_map.
  set (x := le_val [a0; a1; a2; a3; a4; a5; a6; a7]) in *.
  match goal with |- _ ++ ?t = _ => change t with (zeros 8) end.
  rewrite (Z.mod_small x) by lia.
  rewrite Z.shiftl_mul_pow2, Z.shiftr_div_pow2 by lia.
  change (2 ^ 16) with 65536.
  replace ((x * 65536) mod 18446744073709551616 / 65536)
    with (le_val [a0; a1; a2; a3; a4; a5; 0; 0]).
  - assert (E := bytes_le_le_val _ Hb); cbn [length] in E; rewrite E; clear E.
    reflexivity.
  - unfold x. cbn [le_val].
    repeat match goal with H : Forall _ (_ :: _) |- _ => inversion H; clear H; subst end.
    unfold byte in *. Z.div_mod_to_equations. lia.
Qed.

(** ** The two vector loops of one bpp *)

Lemma sub_loops_ok base (B : nat) b64 b16 (m : mem) p c i :
  sub_block_spec base B 64 b64 -> sub_block_spec base B 16 b16 ->
  (1 <= B)%nat ->
  0 <= i < 4294967296 -> 0 <= p -> p + i + Z.of_nat B <= len m ->
  aligned16 (base + (p + Z.of_nat B)) = true ->
  loadn m p B = Some c ->
  exists m',
    sse2_sub_loops b64 b16 m p i (c ++ zeros (16 - B))
    = Some (m', p + (i - i mod 16), i mod 16) /\
    iter (Z.to_nat (i - i mod 16)) (sub_step (Z.of_nat B)) (m, p)
    = Some (m', p + (i - i mod 16)) /\
    len m' = len m /\
    (Forall byte m -> Forall byte m').
Proof.
  intros S64 S16 HB Hi Hp Hl A Hc. unfold sse2_sub_loops.
  unfold vstate, m128i in *.
  pose proof (Z.mod_pos_bound i 64 ltac:(lia)) as M64.
  pose proof (Z.mod_pos_bound i 16 ltac:(lia)) as M16.
  assert (D64 : 0 <= i / 64 <= i) by (Z.div_mod_to_equations; lia).
  destruct (sub_loop_sim base B 64 b64 S64 HB ltac:(lia) eq_refl
              (Z.to_nat (i / 64)) (Z.to_nat i) m p c i)
    as (m1 & c1 & E1 & E2 & E3 & E4 & E5 & E6); try assumption; try lia.
  unfold vstate, m128i in *. change (Z.of_nat 64) with 64 in E1. rewrite E1. cbn [bind].
  set (p1 := p + Z.of_nat (64 * Z.to_nat (i / 64))) in *.
  assert (P1 : p1 = p + 64 * (i / 64)) by (unfold p1; lia).
  assert (D16 : 0 <= i mod 64 / 16 <= i mod 64) by (Z.div_mod_to_equations; lia).
  destruct (sub_loop_sim base B 16 b16 S16 HB ltac:(lia) eq_refl
              (Z.to_nat (i mod 64 / 16)) (Z.to_nat (i mod 64)) m1 p1 c1 (i mod 64))
    as (m2 & c2 & F1 & F2 & F3 & F4 & F5 & F6); try assumption; try lia.
  { rewrite E5, P1. Z.div_mod_to_equations. lia. }
  unfold vstate, m128i in *. change (Z.of_nat 16) with 16 in F1. rewrite F1. cbn [bind].
  assert (T : i - i mod 16 = 64 * (i / 64) + 16 * (i mod 64 / 16))
    by (Z.div_mod_to_equations; lia).
  assert (R : i mod 64 mod 16 = i mod 16) by (Z.div_mod_to_equations; lia).
  exists m2. split; [|split; [|split]].
  - rewrite R. do 3 f_equal. lia.
  - replace (Z.to_nat (i - i mod 16))
      with (64 * Z.to_nat (i / 64) + 16 * Z.to_nat (i mod 64 / 16))%nat by lia.
    rewrite iter_add, E2. cbn [bind]. rewrite F2. do 2 f_equal. lia.
  - lia.
  - auto.
Qed.

(** ** The vector part of the Sub case *)

Ltac invert_bytes :=
  repeat match goal with
         | H : Forall _ (_ :: _) |- _ => inversion H; clear H; subst
         end.

Ltac if_chain := cbn [Z.of_nat Pos.of_succ_nat Pos.succ Z.eqb Pos.eqb].

Lemma sse2_sub_vec_ok (B : nat) base (m : mem) p i :
  In B [1; 2; 3; 4; 6; 8]%nat ->
  16 <= i < 4294967296 -> 0 <= p -> p + i + Z.of_nat B <= len m ->
  aligned16 (base + (p + Z.of_nat B)) = true ->
  Forall byte m ->
  exists m',
    sse2_sub_vec (Z.of_nat B) base m p i = Some (m', p + (i - i mod 16), i mod 16) /\
    iter (Z.to_nat (i - i mod 16)) (sub_step (Z.of_nat B)) (m, p)
    = Some (m', p + (i - i mod 16)) /\
    len m' = len m /\
    (Forall byte m -> Forall byte m').
Proof.
  intros HB Hi Hp Hl A Hm.
  destruct (frame_split m p 8) as (pre & W & post & E & Hpre & HW);
    [lia | change (Z.of_nat 8) with 8; lia |].
  assert (HWb : Forall byte W) by (subst m; apply Forall_frame in Hm; tauto).
  assert (L : forall k, (k <= 8)%nat -> loadn m p k = Some (firstn k W))
    by (intros; subst m p; apply loadn_frame0; lia).
  assert (L0 : ld m p = Some (nth 0 W 0))
    by (subst m p; apply ld_frame0; lia).
  clear E Hpre. explode W HW. invert_bytes.
  assert (G : forall b64 b16 c,
             sub_block_spec base B 64 b64 -> sub_block_spec base B 16 b16 ->
             (1 <= B)%nat -> loadn m p B = Some c ->
             exists m',
               sse2_sub_loops b64 b16 m p i (c ++ zeros (16 - B))
               = Some (m', p + (i - i mod 16), i mod 16) /\
               iter (Z.to_nat (i - i mod 16)) (sub_step (Z.of_nat B)) (m, p)
               = Some (m', p + (i - i mod 16)) /\
               len m' = len m /\
               (Forall byte m -> Forall byte m')).
  { intros b64 b16 c S64 S16 HB1 Hc.
    apply (sub_loops_ok base B b64 b16 m p c i); try assumption; lia. }
  unfold sse2_sub_vec, load_u16, load_u32, _mm_loadl_epi64.
  destruct HB as [<-|[<-|[<-|[<-|[<-|[<-|[]]]]]]].
  - if_chain. rewrite L0. cbn [bind nth]. rewrite sub_init_1 by assumption.
    apply (G _ _ _ (sse2_sub64_bpp1_ok base) (sse2_sub16_bpp1_ok base)); [lia|].
    apply L. lia.
  - if_chain. rewrite (L 2%nat) by lia. cbn [bind firstn].
    rewrite sub_init_2 by assumption.
    apply (G _ _ _ (sse2_sub64_bpp2_ok base) (sse2_sub16_bpp2_ok base)); [lia|].
    apply L. lia.
  - if_chain. rewrite (L 4%nat) by lia. cbn [bind firstn].
    rewrite sub_init_3 by assumption.
    apply (G _ _ _ (sse2_sub64_bpp3_ok base) (sse2_sub16_bpp3_ok base)); [lia|].
    apply L. lia.
  - if_chain. rewrite (L 4%nat) by lia. cbn [bind firstn].
    rewrite sub_init_4 by assumption.
    apply (G _ _ _ (sse2_sub64_bpp4_ok base) (sse2_sub16_bpp4_ok base)); [lia|].
    apply L. lia.
  - if_chain. rewrite (L 8%nat) by lia. cbn [bind firstn].
    rewrite sub_init_6 by all_bytes.
    apply (G _ _ _ (sse2_sub64_bpp6_ok base) (sse2_sub16_bpp6_ok base)); [lia|].
    apply L. lia.
  - if_chain. rewrite (L 8%nat) by lia. cbn [bind firstn].
    apply (G _ _ _ (sse2_sub64_bpp8_ok base) (sse2_sub16_bpp8_ok base)); [lia|].
    apply L. lia.
Qed.

(** ** The Sub case is the scalar loop *)

Lemma aligned16_head a : aligned16 (a + OptAlignDiff a 16) = true.
Proof.
  rewrite OptAlignDiff_16. unfold aligned16. rewrite Z.eqb_eq.
  Z.div_mod_to_equations. lia.
Qed.

Lemma sse2_sub_ok (B : nat) base bpl (m : mem) p :
  In B [1; 2; 3; 4; 6; 8]%nat ->
  0 <= p -> Z.of_nat B <= bpl < 4294967296 -> p + bpl <= len m ->
  Forall byte m ->
  sse2_sub (Z.of_nat B) base bpl m p
  = ('(m, p) <- iter (Z.to_nat (u32 (bpl - Z.of_nat B))) (sub_step (Z.of_nat B)) (m, p) ;;
     Some (m, p + Z.of_nat B)).
Proof.
  intros HB Hp Hbpl Hl Hm.
  assert (B1 : (1 <= B)%nat) by (simpl in HB; lia).
  unfold sse2_sub. cbv zeta. rewrite (u32_small (bpl - Z.of_nat B)) by lia.
  set (i := bpl - Z.of_nat B) in *.
  destruct (Z.leb_spec 32 i) as [H32|H32]; [|reflexivity].
  set (j := OptAlignDiff (base + (p + Z.of_nat B)) 16).
  pose proof (OptAlignDiff_range (base + (p + Z.of_nat B))) as Hj. fold j in Hj.
  pose proof (aligned16_head (base + (p + Z.of_nat B))) as A. fold j in A.
  rewrite (u32_small (i - j)) by lia.
  destruct (sub_iter_mem B (Z.to_nat j) m p B1 Hp ltac:(lia)) as (m1 & E1 & E2 & E3 & _).
  rewrite Z2Nat.id in E1 by lia.
  destruct (sse2_sub_vec_ok B base m1 (p + j) (i - j) HB ltac:(lia) ltac:(lia) ltac:(lia))
    as (m2 & F1 & F2 & F3 & F4).
  { apply (aligned16_shift _ _ A). replace (_ - _) with 0 by lia. reflexivity. }
  { auto. }
  rewrite E1. cbn [bind]. rewrite F1. cbn [bind].
  pose proof (Z.mod_pos_bound (i - j) 16 ltac:(lia)) as Hr.
  replace (Z.to_nat i)
    with (Z.to_nat j + (Z.to_nat (i - j - (i - j) mod 16) + Z.to_nat ((i - j) mod 16)))%nat
    by lia.
  rewrite iter_add, E1. cbn [bind]. rewrite iter_add, F2. cbn [bind]. reflexivity.
Qed.


(** * Registers of eight 16-bit lanes

    [W16 l] is the register whose lanes are the values [l] truncated to 16
    bits; each intrinsic the Avg and Paeth cases use is given by its effect
    on the lanes. *)

Lemma W16_cons x l : W16 (x :: l) = x mod 256 :: (x / 256) mod 256 :: W16 l.
Proof. reflexivity. Qed.

Lemma W16_app a b : W16 (a ++ b) = W16 a ++ W16 b.
Proof. unfold W16, of_lanes. apply flat_map_app. Qed.

Lemma length_W16 l : length (W16 l) = (2 * length l)%nat.
Proof. induction l as [|x l IH]; [reflexivity|]. rewrite W16_cons. simpl length. lia. Qed.

Lemma bytes_le2_ext x y : x mod 65536 = y mod 65536 -> bytes_le 2 x = bytes_le 2 y.
Proof.
  intros H. cbn [bytes_le]. f_equal; [|f_equal]; Z.div_mod_to_equations; lia.
Qed.

Lemma W16_ext a b :
  Forall2 (fun x y => x mod 65536 = y mod 65536) a b -> W16 a = W16 b.
Proof.
  induction 1 as [|x y a b H _ IH]; [reflexivity|].
  unfold W16, of_lanes in *. cbn [flat_map]. rewrite IH, (bytes_le2_ext x y H). reflexivity.
Qed.

Lemma le_val_2 x : le_val (bytes_le 2 x) = x mod 65536.
Proof. apply (le_val_bytes_le 2). Qed.

Lemma chunks_W16 l : chunks 2 (length l) (W16 l) = map (bytes_le 2) l.
Proof.
  induction l as [|x l IH]; [reflexivity|].
  rewrite W16_cons. cbn [length chunks firstn skipn map]. rewrite IH. reflexivity.
Qed.

Lemma lanes_W16 l : length l = 8%nat -> lanes 2 (W16 l) = map (fun x => x mod 65536) l.
Proof.
  intros H. unfold lanes. change (16 / 2)%nat with 8%nat. rewrite <- H.
  rewrite chunks_W16, map_map. apply map_ext. intros x. apply le_val_2.
Qed.

Lemma zipWith_map {A B C D E : Type} (f : C -> D -> E) (g : A -> C) (h : B -> D) a b :
  zipWith f (map g a) (map h b) = zipWith (fun x y => f (g x) (h y)) a b.
Proof.
  revert b. induction a as [|x a IH]; intros [|y b]; cbn [map zipWith]; try reflexivity.
  rewrite IH. reflexivity.
Qed.

Lemma length_zipWith {A B C : Type} (f : A -> B -> C) a b :
  length a = length b -> length (zipWith f a b) = length a.
Proof.
  revert b. induction a as [|x a IH]; intros [|y b] H; simpl in *; try lia.
  rewrite IH by lia. reflexivity.
Qed.

Lemma lane_map2_W16 f a b :
  length a = 8%nat -> length b = 8%nat ->
  lane_map2 2 f (W16 a) (W16 b)
  = W16 (zipWith (fun x y => f (x mod 65536) (y mod 65536)) a b).
Proof.
  intros Ha Hb. unfold lane_map2. rewrite !lanes_W16 by assumption.
  rewrite zipWith_map. reflexivity.
Qed.

Lemma lane_map_W16 f a :
  length a = 8%nat ->
  lane_map 2 f (W16 a) = W16 (map (fun x => f (x mod 65536)) a).
Proof.
  intros Ha. unfold lane_map. rewrite lanes_W16 by assumption.
  rewrite map_map. reflexivity.
Qed.

Lemma W16_zipWith_ext (f g : Z -> Z -> Z) a b :
  (forall x y, f x y mod 65536 = g x y mod 65536) ->
  W16 (zipWith f a b) = W16 (zipWith g a b).
Proof.
  intros H. apply W16_ext. revert b.
  induction a as [|x a IH]; intros [|y b]; cbn [zipWith]; constructor; auto.
Qed.

Lemma W16_map_ext (f g : Z -> Z) a :
  (forall x, f x mod 65536 = g x mod 65536) -> W16 (map f a) = W16 (map g a).
Proof.
  intros H. apply W16_ext.
  induction a as [|x a IH]; cbn [map]; constructor; auto.
Qed.

(** ** Lane arithmetic *)

Lemma add16_W16 a b :
  length a = 8%nat -> length b = 8%nat ->
  _mm_add_epi16 (W16 a) (W16 b) = W16 (zipWith Z.add a b).
Proof.
  intros Ha Hb. unfold _mm_add_epi16. rewrite lane_map2_W16 by assumption.
  apply W16_zipWith_ext. intros x y. rewrite <- Z.add_mod by lia. reflexivity.
Qed.

Lemma sub16_W16 a b :
  length a = 8%nat -> length b = 8%nat ->
  _mm_sub_epi16 (W16 a) (W16 b) = W16 (zipWith Z.sub a b).
Proof.
  intros Ha Hb. unfold _mm_sub_epi16. rewrite lane_map2_W16 by assumption.
  apply W16_zipWith_ext. intros x y. rewrite <- Zminus_mod. reflexivity.
Qed.

Lemma slli16_1_W16 a :
  length a = 8%nat -> _mm_slli_epi16 (W16 a) 1 = W16 (map (fun x => 2 * x) a).
Proof.
  intros Ha. unfold _mm_slli_epi16. rewrite lane_map_W16 by assumption.
  apply W16_map_ext. intros x. rewrite Z.shiftl_mul_pow2 by lia.
  change (2 ^ 1) with 2. Z.div_mod_to_equations. lia.
Qed.

Lemma srli16_W16 a k :
  length a = 8%nat ->
  _mm_srli_epi16 (W16 a) k = W16 (map (fun x => Z.shiftr (x mod 65536) k) a).
Proof. intros Ha. unfold _mm_srli_epi16. apply lane_map_W16. exact Ha. Qed.

Lemma srai16_W16 a k :
  length a = 8%nat ->
  _mm_srai_epi16 (W16 a) k = W16 (map (fun x => Z.shiftr (signed16 (x mod 65536)) k) a).
Proof. intros Ha. unfold _mm_srai_epi16. apply lane_map_W16. exact Ha. Qed.

Lemma min16_W16 a b :
  length a = 8%nat -> length b = 8%nat ->
  _mm_min_epi16 (W16 a) (W16 b)
  = W16 (zipWith (fun x y => Z.min (signed16 (x mod 65536)) (signed16 (y mod 65536))) a b).
Proof. intros Ha Hb. unfold _mm_min_epi16. apply lane_map2_W16; assumption. Qed.

Lemma max16_W16 a b :
  length a = 8%nat -> length b = 8%nat ->
  _mm_max_epi16 (W16 a) (W16 b)
  = W16 (zipWith (fun x y => Z.max (signed16 (x mod 65536)) (signed16 (y mod 65536))) a b).
Proof. intros Ha Hb. unfold _mm_max_epi16. apply lane_map2_W16; assumption. Qed.

Lemma mulhi16_W16 a b :
  length a = 8%nat -> length b = 8%nat ->
  _mm_mulhi_epu16 (W16 a) (W16 b)
  = W16 (zipWith (fun x y => Z.shiftr ((x mod 65536) * (y mod 65536)) 16) a b).
Proof. intros Ha Hb. unfold _mm_mulhi_epu16. apply lane_map2_W16; assumption. Qed.

(** ** Bitwise operations *)

Lemma mod_pow2_land x n : 0 <= n -> x mod 2 ^ n = Z.land x (Z.ones n).
Proof. intros H. symmetry. apply Z.land_ones. exact H. Qed.

Lemma land_mod256 x y : Z.land x y mod 256 = Z.land (x mod 256) (y mod 256).
Proof.
  change 256 with (2 ^ 8). rewrite !mod_pow2_land by lia.
  apply Z.bits_inj'. intros n Hn. rewrite !Z.land_spec.
  destruct (Z.testbit x n), (Z.testbit y n), (Z.testbit (Z.ones 8) n); reflexivity.
Qed.

Lemma land_div256 x y : Z.land x y / 256 = Z.land (x / 256) (y / 256).
Proof.
  change 256 with (2 ^ 8). rewrite <- !Z.shiftr_div_pow2 by lia.
  apply Z.shiftr_land.
Qed.

Lemma and_W16 a b : _mm_and_si128 (W16 a) (W16 b) = W16 (zipWith Z.land a b).
Proof.
  unfold _mm_and_si128. revert b.
  induction a as [|x a IH]; intros [|y b]; try reflexivity.
  rewrite !W16_cons. cbn [zipWith]. rewrite W16_cons, IH.
  rewrite land_div256, !land_mod256. reflexivity.
Qed.

Lemma lnot_mod256 x : Z.lnot x mod 256 = 255 - x mod 256.
Proof. unfold Z.lnot. Z.div_mod_to_equations. lia. Qed.

Lemma lnot_div256 x : Z.lnot x / 256 = Z.lnot (x / 256).
Proof. unfold Z.lnot. Z.div_mod_to_equations. lia. Qed.


Lemma andnot_W16 a b :
  _mm_andnot_si128 (W16 a) (W16 b) = W16 (zipWith (fun x y => Z.land (Z.lnot x) y) a b).
Proof.
  unfold _mm_andnot_si128. revert b.
  induction a as [|x a IH]; intros [|y b]; try reflexivity.
  rewrite !W16_cons. cbn [zipWith]. rewrite W16_cons, IH.
  rewrite land_div256, !land_mod256, lnot_div256, !lnot_mod256. reflexivity.
Qed.

(** ** Registers of bytes *)

Lemma W16_bytes l : Forall byte l -> W16 l = flat_map (fun b => [b; 0]) l.
Proof.
  induction 1 as [|x l Hx _ IH]; [reflexivity|].
  rewrite W16_cons, IH. cbn [flat_map app]. unfold byte in Hx.
  rewrite (Z.mod_small x) by lia. rewrite (Z.div_small x) by lia. reflexivity.
Qed.

Lemma bytes_firstn n : forall l, Forall byte l -> Forall byte (firstn n l).
Proof.
  induction n as [|n IH]; intros l H; [constructor|].
  destruct H; [constructor|]. cbn [firstn]. constructor; auto.
Qed.

Lemma bytes_skipn n : forall l, Forall byte l -> Forall byte (skipn n l).
Proof.
  induction n as [|n IH]; intros l H; [exact H|].
  destruct H; [constructor|]. cbn [skipn]. auto.
Qed.

Lemma interleave_zeros l : forall n k,
  (n <= length l)%nat -> (n <= k)%nat ->
  interleave 1 l (zeros k) n = flat_map (fun b => [b; 0]) (firstn n l).
Proof.
  induction l as [|x l IH]; intros [|n] k Hn Hk; simpl in Hn; try lia; try reflexivity.
  destruct k as [|k]; [lia|].
  cbn [interleave firstn skipn zeros repeat app flat_map].
  f_equal. f_equal. apply (IH n k); lia.
Qed.

Lemma unpacklo_zero x :
  length x = 16%nat -> Forall byte x ->
  _mm_unpacklo_epi8 x _mm_setzero_si128 = W16 (firstn 8 x).
Proof.
  intros L H. unfold _mm_unpacklo_epi8, _mm_setzero_si128.
  rewrite interleave_zeros by lia.
  rewrite W16_bytes; [reflexivity|]. apply bytes_firstn. exact H.
Qed.

Lemma unpackhi_zero x :
  length x = 16%nat -> Forall byte x ->
  _mm_unpackhi_epi8 x _mm_setzero_si128 = W16 (skipn 8 x).
Proof.
  intros L H. unfold _mm_unpackhi_epi8, _mm_setzero_si128.
  change (skipn 8 (zeros 16)) with (zeros 8).
  rewrite interleave_zeros by (rewrite ?length_skipn; lia).
  rewrite firstn_all2 by (rewrite length_skipn; lia).
  rewrite W16_bytes; [reflexivity|]. apply bytes_skipn. exact H.
Qed.

Lemma add8_W16 a b :
  Forall byte a -> Forall byte b ->
  _mm_add_epi8 (W16 a) (W16 b) = W16 (zipWith (fun x y => (x + y) mod 256) a b).
Proof.
  unfold _mm_add_epi8. intros Ha. revert b.
  induction Ha as [|x a Hx _ IH]; intros b Hb; [reflexivity|].
  destruct Hb as [|y b Hy Hb]; [reflexivity|].
  rewrite !W16_cons. cbn [zipWith]. rewrite W16_cons, IH by exact Hb.
  unfold byte in *. f_equal; [|f_equal]; Z.div_mod_to_equations; lia.
Qed.

Lemma satu8_byte x : byte x -> satu8 (signed16 (x mod 65536)) = x.
Proof.
  unfold byte, satu8, signed16. intros H. rewrite Z.mod_small by lia.
  destruct (Z.ltb_spec x 32768); [|lia].
  destruct (Z.ltb_spec x 0); [lia|].
  destruct (Z.ltb_spec 255 x); [lia|]. reflexivity.
Qed.

Lemma packus_W16 a b :
  length a = 8%nat -> length b = 8%nat -> Forall byte a -> Forall byte b ->
  _mm_packus_epi16 (W16 a) (W16 b) = a ++ b.
Proof.
  intros La Lb Ha Hb. unfold _mm_packus_epi16. rewrite !lanes_W16 by assumption.
  rewrite <- map_app, map_map.
  assert (H : Forall byte (a ++ b)) by (apply Forall_app; split; assumption).
  induction H as [|x l Hx _ IH]; [reflexivity|].
  cbn [map]. rewrite satu8_byte by exact Hx. rewrite IH. reflexivity.
Qed.

(** ** Byte shifts by whole lanes *)

Lemma skipn_W16 n : forall l, skipn (2 * n) (W16 l) = W16 (skipn n l).
Proof.
  induction n as [|n IH]; intros l; [reflexivity|].
  destruct l as [|x l]; [reflexivity|].
  replace (2 * S n)%nat with (S (S (2 * n))) by lia.
  rewrite W16_cons. cbn [skipn]. apply IH.
Qed.

Lemma firstn_W16 n : forall l, firstn (2 * n) (W16 l) = W16 (firstn n l).
Proof.
  induction n as [|n IH]; intros l; [reflexivity|].
  destruct l as [|x l]; [reflexivity|].
  replace (2 * S n)%nat with (S (S (2 * n))) by lia.
  rewrite W16_cons. cbn [firstn]. rewrite W16_cons, IH. reflexivity.
Qed.

Lemma zeros_W16 n : zeros (2 * n) = W16 (repeat 0 n).
Proof.
  induction n as [|n IH]; [reflexivity|].
  replace (2 * S n)%nat with (S (S (2 * n))) by lia.
  cbn [repeat]. rewrite W16_cons. unfold zeros in *. cbn [repeat]. rewrite IH.
  reflexivity.
Qed.

Lemma srli_W16 n l :
  _mm_srli_si128 (W16 l) (2 * n) = W16 (skipn n l ++ repeat 0 n).
Proof. unfold _mm_srli_si128. rewrite skipn_W16, zeros_W16, W16_app. reflexivity. Qed.

Lemma slli_W16 n l :
  (n <= 8)%nat ->
  _mm_slli_si128 (W16 l) (2 * n) = W16 (repeat 0 n ++ firstn (8 - n) l).
Proof.
  intros H. unfold _mm_slli_si128.
  replace (16 - 2 * n)%nat with (2 * (8 - n))%nat by lia.
  rewrite firstn_W16, zeros_W16, W16_app. reflexivity.
Qed.

Lemma srli_W16_4 l : _mm_srli_si128 (W16 l) 4 = W16 (skipn 2 l ++ [0; 0]).
Proof. apply (srli_W16 2). Qed.
Lemma srli_W16_6 l : _mm_srli_si128 (W16 l) 6 = W16 (skipn 3 l ++ [0; 0; 0]).
Proof. apply (srli_W16 3). Qed.
Lemma srli_W16_8 l : _mm_srli_si128 (W16 l) 8 = W16 (skipn 4 l ++ [0; 0; 0; 0]).
Proof. apply (srli_W16 4). Qed.
Lemma srli_W16_10 l : _mm_srli_si128 (W16 l) 10 = W16 (skipn 5 l ++ [0; 0; 0; 0; 0]).
Proof. apply (srli_W16 5). Qed.
Lemma slli_W16_4 l : _mm_slli_si128 (W16 l) 4 = W16 ([0; 0] ++ firstn 6 l).
Proof. apply (slli_W16 2). lia. Qed.
Lemma slli_W16_6 l : _mm_slli_si128 (W16 l) 6 = W16 ([0; 0; 0] ++ firstn 5 l).
Proof. apply (slli_W16 3). lia. Qed.
Lemma slli_W16_8 l : _mm_slli_si128 (W16 l) 8 = W16 ([0; 0; 0; 0] ++ firstn 4 l).
Proof. apply (slli_W16 4). lia. Qed.
Lemma slli_W16_12 l : _mm_slli_si128 (W16 l) 12 = W16 ([0; 0; 0; 0; 0; 0] ++ firstn 2 l).
Proof. apply (slli_W16 6). lia. Qed.

(** ** Shuffles of 32-bit elements *)

Lemma shuffle_1032_W16 x0 x1 x2 x3 x4 x5 x6 x7 :
  _mm_shuffle_epi32 (W16 [x0; x1; x2; x3; x4; x5; x6; x7]) (_MM_SHUFFLE 1 0 3 2)
  = W16 [x4; x5; x6; x7; x0; x1; x2; x3].
Proof. reflexivity. Qed.

Lemma shuffle_1010_W16 x0 x1 x2 x3 x4 x5 x6 x7 :
  _mm_shuffle_epi32 (W16 [x0; x1; x2; x3; x4; x5; x6; x7]) (_MM_SHUFFLE 1 0 1 0)
  = W16 [x0; x1; x2; x3; x0; x1; x2; x3].
Proof. reflexivity. Qed.

Lemma shuffle_3310_W16 x0 x1 x2 x3 x4 x5 x6 x7 :
  _mm_shuffle_epi32 (W16 [x0; x1; x2; x3; x4; x5; x6; x7]) (_MM_SHUFFLE 3 3 1 0)
  = W16 [x0; x1; x2; x3; x6; x7; x6; x7].
Proof. reflexivity. Qed.

Lemma unpackhi32_W16 x0 x1 x2 x3 x4 x5 x6 x7 y0 y1 y2 y3 y4 y5 y6 y7 :
  _mm_unpackhi_epi32 (W16 [x0; x1; x2; x3; x4; x5; x6; x7])
                     (W16 [y0; y1; y2; y3; y4; y5; y6; y7])
  = W16 [x4; x5; y4; y5; x6; x7; y6; y7].
Proof. reflexivity. Qed.

Lemma cvtsi128_W16 x0 x1 l :
  _mm_cvtsi128_si32 (W16 (x0 :: x1 :: l)) = x0 mod 65536 + 65536 * (x1 mod 65536).
Proof.
  unfold _mm_cvtsi128_si32. rewrite !W16_cons. cbn [firstn le_val].
  Z.div_mod_to_equations. lia.
Qed.


(** * The macro PNG_SSE_PAETH, lane by lane *)

Lemma PAETH_W16 a b c :
  length a = 8%nat -> length b = 8%nat -> length c = 8%nat ->
  PNG_SSE_PAETH (_mm_set1_epi16 (Z.shiftl 171 7)) (W16 a) (W16 b) (W16 c)
  = W16 (zipWith3 paeth16 a b c).
Proof.
  intros La Lb Lc. explode a La. explode b Lb. explode c Lc.
  unfold PNG_SSE_PAETH. cbv zeta.
  change (_mm_set1_epi16 (Z.shiftl 171 7)) with (W16 (repeat (Z.shiftl 171 7) 8)).
  rewrite min16_W16, max16_W16 by reflexivity. cbn [zipWith repeat].
  rewrite !sub16_W16 by reflexivity. cbn [zipWith].
  rewrite mulhi16_W16 by reflexivity. cbn [zipWith].
  rewrite !add16_W16, !sub16_W16 by reflexivity. cbn [zipWith].
  rewrite !srai16_W16 by reflexivity. cbn [map].
  rewrite !andnot_W16. cbn [zipWith].
  rewrite !add16_W16 by reflexivity. cbn [zipWith].
  reflexivity.
Qed.

Lemma signed16_small x : 0 <= x < 32768 -> signed16 (x mod 65536) = x.
Proof.
  intros H. unfold signed16. rewrite Z.mod_small by lia.
  destruct (Z.ltb_spec x 32768); lia.
Qed.

Lemma sign16 v :
  -32768 <= v < 32768 ->
  Z.shiftr (signed16 (v mod 65536)) 15 = if v <? 0 then -1 else 0.
Proof.
  intros H. rewrite Z.shiftr_div_pow2 by lia. change (2 ^ 15) with 32768.
  unfold signed16.
  destruct (Z.ltb_spec v 0) as [Hv|Hv].
  - replace (v mod 65536) with (v + 65536) by (Z.div_mod_to_equations; lia).
    destruct (Z.ltb_spec (v + 65536) 32768); [lia|].
    Z.div_mod_to_equations. lia.
  - rewrite Z.mod_small by lia.
    destruct (Z.ltb_spec v 32768); [|lia].
    Z.div_mod_to_equations. lia.
Qed.

Lemma paeth16_cases a b c :
  0 <= a <= 255 -> 0 <= b <= 255 -> 0 <= c <= 255 ->
  paeth16 a b c =
    let lo := Z.min a b in
    let hi := Z.max a b in
    let d := (hi - lo) / 3 in
    if d + (lo - c) <? 0 then (if d - (hi - c) <? 0 then c else lo)
    else (if d - (hi - c) <? 0 then hi else lo + hi - c).
Proof.
  intros Ha Hb Hc. unfold paeth16. cbv zeta.
  rewrite (signed16_small a), (signed16_small b) by lia.
  set (lo := Z.min a b). set (hi := Z.max a b).
  assert (Hlo : 0 <= lo <= 255) by (unfold lo; lia).
  assert (Hhi : lo <= hi <= 255) by (unfold lo, hi; lia).
  change (Z.shiftl 171 7 mod 65536) with 21888.
  rewrite (Z.mod_small (hi - lo)) by lia.
  rewrite (Z.shiftr_div_pow2 _ 16) by lia. change (2 ^ 16) with 65536.
  replace ((hi - lo) * 21888 / 65536) with ((hi - lo) / 3)
    by (Z.div_mod_to_equations; lia).
  set (d := (hi - lo) / 3).
  assert (Hd : 0 <= d <= 85) by (unfold d; Z.div_mod_to_equations; lia).
  rewrite !sign16 by lia.
  destruct (Z.ltb_spec (d + (lo - c)) 0), (Z.ltb_spec (d - (hi - c)) 0);
    change (Z.lnot (-1)) with 0; change (Z.lnot 0) with (-1);
    rewrite ?Z.land_0_l, ?Z.land_m1_l; lia.
Qed.

Lemma paeth16_PaethOpt a b c :
  byte a -> byte b -> byte c -> paeth16 a b c = PaethOpt a b c.
Proof.
  unfold byte. intros Ha Hb Hc.
  rewrite paeth16_cases, PaethOpt_cases by lia. reflexivity.
Qed.

Lemma PaethOpt_byte a b c : byte a -> byte b -> byte c -> byte (PaethOpt a b c).
Proof.
  unfold byte. intros Ha Hb Hc.
  rewrite PaethOpt_sym, PaethOpt_PaethRef by lia.
  pose proof (PaethRef_range a b c ltac:(lia) ltac:(lia) ltac:(lia)). lia.
Qed.

Lemma paeth16_byte a b c : byte a -> byte b -> byte c -> byte (paeth16 a b c).
Proof. intros. rewrite paeth16_PaethOpt by assumption. apply PaethOpt_byte; assumption. Qed.

(** [PaethOpt(a, b, c)] is the predictor of the reference, argument by
    argument. *)
Lemma PaethOpt_Ref a b c : byte a -> byte b -> byte c -> PaethOpt a b c = PaethRef a b c.
Proof.
  unfold byte. intros Ha Hb Hc.
  rewrite PaethOpt_sym by lia. apply PaethOpt_PaethRef; lia.
Qed.


(** * Two windows: the previous row and the current row *)

Lemma frame2_u pre U mid W post :
  frame2 pre U mid W post = frame pre U (mid ++ W ++ post).
Proof. reflexivity. Qed.

Lemma frame2_w pre U mid W post :
  frame2 pre U mid W post = frame (pre ++ U ++ mid) W post.
Proof. unfold frame2, frame. rewrite <- !app_assoc. reflexivity. Qed.

Lemma len_pw (pre U mid : list Z) : len (pre ++ U ++ mid) = len pre + len U + len mid.
Proof. rewrite !len_app. lia. Qed.

Lemma len_frame2 pre U mid W post :
  len (frame2 pre U mid W post) = len pre + len U + len mid + len W + len post.
Proof. unfold frame2. rewrite !len_app. lia. Qed.

Lemma Forall_frame2 (P : Z -> Prop) pre U mid W post :
  Forall P (frame2 pre U mid W post)
  <-> Forall P pre /\ Forall P U /\ Forall P mid /\ Forall P W /\ Forall P post.
Proof. unfold frame2. rewrite !Forall_app. tauto. Qed.

Lemma frame2_split (m : mem) u p (nU nW : nat) :
  0 <= u -> u + Z.of_nat nU <= p -> p + Z.of_nat nW <= len m ->
  exists pre U mid W post,
    m = frame2 pre U mid W post /\ len pre = u /\ length U = nU /\ length W = nW /\
    p = len pre + len U + len mid.
Proof.
  intros Hu Hp Hl.
  destruct (mem_split m u nU) as (pre & U & rest & -> & Hpre & HU); [lia | lia |].
  rewrite !len_app in Hl.
  destruct (mem_split rest (p - u - Z.of_nat nU) nW) as (mid & W & post & -> & Hmid & HW).
  - lia.
  - unfold len in *. lia.
  - exists pre, U, mid, W, post. repeat split; try assumption.
    unfold len in *. lia.
Qed.

(** Moving both windows one byte forward. *)
Lemma frame2_shift pre b U mid x W post :
  frame2 pre (b :: U) mid (x :: W) post = frame2 (pre ++ [b]) U (mid ++ [x]) W post.
Proof. unfold frame2. rewrite <- !app_assoc. reflexivity. Qed.

(** ** Accesses to the current row *)

Section Access.
Variables pre U mid W post : list Z.
Variables p u : Z.
Hypothesis Hp : p = len pre + len U + len mid.
Hypothesis Hu : u = len pre.

Lemma loadn_frame2 (k : Z) (c : nat) :
  0 <= k -> (Z.to_nat k + c <= length W)%nat ->
  loadn (frame2 pre U mid W post) (p + k) c = Some (firstn c (skipn (Z.to_nat k) W)).
Proof.
  intros H0 H. rewrite frame2_w, Hp, <- len_pw. apply loadn_frame; assumption.
Qed.

Lemma loadn_frame2_0 (c : nat) :
  (c <= length W)%nat -> loadn (frame2 pre U mid W post) p c = Some (firstn c W).
Proof.
  intros H. rewrite frame2_w, Hp, <- len_pw. apply loadn_frame0; assumption.
Qed.

Lemma storen_frame2 (k : Z) (l : list Z) :
  0 <= k -> (Z.to_nat k + length l <= length W)%nat ->
  storen (frame2 pre U mid W post) (p + k) l
  = Some (frame2 pre U mid (firstn (Z.to_nat k) W ++ l ++ skipn (Z.to_nat k + length l) W) post).
Proof.
  intros H0 H. rewrite !frame2_w, Hp, <- len_pw. apply storen_frame; assumption.
Qed.

Lemma storen_frame2_0 (l : list Z) :
  (length l <= length W)%nat ->
  storen (frame2 pre U mid W post) p l
  = Some (frame2 pre U mid (l ++ skipn (length l) W) post).
Proof.
  intros H. pose proof (storen_frame2 0 l (Z.le_refl 0)) as L.
  rewrite Z.add_0_r in L. apply L. simpl. exact H.
Qed.

Lemma ld_frame2 (k : Z) :
  0 <= k -> (Z.to_nat k < length W)%nat ->
  ld (frame2 pre U mid W post) (p + k) = Some (nth (Z.to_nat k) W 0).
Proof.
  intros H0 H. rewrite frame2_w, Hp, <- len_pw. apply ld_frame; assumption.
Qed.

Lemma ld_frame2_0 :
  (0 < length W)%nat -> ld (frame2 pre U mid W post) p = Some (nth 0 W 0).
Proof.
  intros H. rewrite frame2_w, Hp, <- len_pw. apply ld_frame0; assumption.
Qed.

Lemma st_frame2 (k : Z) v :
  0 <= k -> (Z.to_nat k < length W)%nat ->
  st (frame2 pre U mid W post) (p + k) v
  = Some (frame2 pre U mid (upd_nth (Z.to_nat k) W (fun _ => v)) post).
Proof.
  intros H0 H. rewrite !frame2_w, Hp, <- len_pw. apply st_frame; assumption.
Qed.

Lemma st_frame2_0 v :
  (0 < length W)%nat ->
  st (frame2 pre U mid W post) p v
  = Some (frame2 pre U mid (upd_nth 0 W (fun _ => v)) post).
Proof.
  intros H. pose proof (st_frame2 0 v (Z.le_refl 0)) as L.
  rewrite Z.add_0_r in L. apply L. simpl. exact H.
Qed.

Lemma load_si128_frame2 base (k : Z) :
  aligned16 (base + (p + k)) = true ->
  0 <= k -> (Z.to_nat k + 16 <= length W)%nat ->
  _mm_load_si128 base (frame2 pre U mid W post) (p + k)
  = Some (firstn 16 (skipn (Z.to_nat k) W)).
Proof.
  intros A H0 H. unfold _mm_load_si128. rewrite A. apply loadn_frame2; assumption.
Qed.

Lemma load_si128_frame2_0 base :
  aligned16 (base + p) = true -> (16 <= length W)%nat ->
  _mm_load_si128 base (frame2 pre U mid W post) p = Some (firstn 16 W).
Proof.
  intros A H. unfold _mm_load_si128. rewrite A. apply loadn_frame2_0; assumption.
Qed.

Lemma store_si128_frame2 base (k : Z) (v : list Z) :
  aligned16 (base + (p + k)) = true ->
  0 <= k -> (Z.to_nat k + length v <= length W)%nat ->
  _mm_store_si128 base (frame2 pre U mid W post) (p + k) v
  = Some (frame2 pre U mid (firstn (Z.to_nat k) W ++ v ++ skipn (Z.to_nat k + length v) W) post).
Proof.
  intros A H0 H. unfold _mm_store_si128. rewrite A. apply storen_frame2; assumption.
Qed.

Lemma store_si128_frame2_0 base (v : list Z) :
  aligned16 (base + p) = true -> (length v <= length W)%nat ->
  _mm_store_si128 base (frame2 pre U mid W post) p v
  = Some (frame2 pre U mid (v ++ skipn (length v) W) post).
Proof.
  intros A H. unfold _mm_store_si128. rewrite A. apply storen_frame2_0; assumption.
Qed.

Lemma loadl_frame2 (k : Z) :
  0 <= k -> (Z.to_nat k + 8 <= length W)%nat ->
  _mm_loadl_epi64 (frame2 pre U mid W post) (p + k)
  = Some (firstn 8 (skipn (Z.to_nat k) W) ++ zeros 8).
Proof.
  intros H0 H. unfold _mm_loadl_epi64. rewrite loadn_frame2 by assumption. reflexivity.
Qed.

Lemma loadl_frame2_0 :
  (8 <= length W)%nat ->
  _mm_loadl_epi64 (frame2 pre U mid W post) p = Some (firstn 8 W ++ zeros 8).
Proof.
  intros H. unfold _mm_loadl_epi64. rewrite loadn_frame2_0 by assumption. reflexivity.
Qed.

(** ** Accesses to the previous row *)

Lemma lduv_frame2 (c : nat) (k : Z) :
  0 <= k -> (Z.to_nat k + c <= length U)%nat ->
  lduv c (frame2 pre U mid W post) (Some u) k = Some (firstn c (skipn (Z.to_nat k) U)).
Proof.
  intros H0 H. unfold lduv. rewrite frame2_u, Hu. apply loadn_frame; assumption.
Qed.

Lemma ldu_frame2 (k : Z) :
  0 <= k -> (Z.to_nat k < length U)%nat ->
  ldu (frame2 pre U mid W post) (Some u) k = Some (nth (Z.to_nat k) U 0).
Proof.
  intros H0 H. unfold ldu. rewrite frame2_u, Hu. apply ld_frame; assumption.
Qed.

Lemma lduv_frame2_at (c : nat) (k : Z) :
  0 <= k -> (Z.to_nat k + c <= length U)%nat ->
  lduv c (frame2 pre U mid W post) (Some (u + k)) 0
  = Some (firstn c (skipn (Z.to_nat k) U)).
Proof.
  intros H0 H. unfold lduv. rewrite Z.add_0_r, frame2_u, Hu. apply loadn_frame; assumption.
Qed.
End Access.


(** * The scalar loops of Up, Avg and Paeth on two windows *)

Ltac len1 := unfold len in *; cbn [length] in *; rewrite ?length_app in *; cbn [length] in *; lia.

Lemma up_iter n : forall pre U mid W post p u,
  p = len pre + len U + len mid -> u = len pre ->
  length U = n -> length W = n ->
  iter n up_step (frame2 pre U mid W post, p, Some u)
  = Some (frame2 pre U mid (up_win U W) post, p + Z.of_nat n, Some (u + Z.of_nat n)).
Proof.
  induction n as [|n IH]; intros pre U mid W post p u Hp Hu HU HW.
  - destruct U, W; try discriminate. cbn [iter up_win zipWith].
    rewrite !Z.add_0_r. reflexivity.
  - destruct U as [|b U]; [discriminate|]. destruct W as [|x W]; [discriminate|].
    cbn [iter]. unfold up_step at 1.
    rewrite (ld_frame2_0 pre (b :: U) mid (x :: W) post p Hp) by (simpl; lia).
    cbn [bind nth].
    rewrite (ldu_frame2 pre (b :: U) mid (x :: W) post u Hu 0) by (simpl; lia).
    cbn [bind nth Z.to_nat].
    rewrite (st_frame2_0 pre (b :: U) mid (x :: W) post p Hp) by (simpl; lia).
    cbn [bind upd_nth padd].
    rewrite frame2_shift.
    assert (E := IH (pre ++ [b]) U (mid ++ [Sum x b]) W post (p + 1) (u + 1) ltac:(len1) ltac:(len1)
                 ltac:(simpl in HU; lia) ltac:(simpl in HW; lia)).
    eapply eq_trans; [exact E|].
    rewrite <- frame2_shift. unfold up_win. cbn [zipWith]. do 3 f_equal; lia.
Qed.

Lemma avg_iter bpp n : forall pre U mid W post p u,
  p = len pre + len U + len mid -> u = len pre ->
  (1 <= bpp)%nat -> length U = n -> length W = (n + bpp)%nat ->
  iter n (avg_step (Z.of_nat bpp)) (frame2 pre U mid W post, p, Some u)
  = Some (frame2 pre U mid (avg_win bpp n U W) post, p + Z.of_nat n, Some (u + Z.of_nat n)).
Proof.
  induction n as [|n IH]; intros pre U mid W post p u Hp Hu Hb HU HW.
  - destruct U; try discriminate. cbn [iter avg_win].
    rewrite !Z.add_0_r. reflexivity.
  - destruct U as [|b U]; [discriminate|]. destruct W as [|x W]; [discriminate|].
    cbn [iter]. unfold avg_step at 1.
    rewrite (ld_frame2 pre (b :: U) mid (x :: W) post p Hp (Z.of_nat bpp))
      by (rewrite ?Nat2Z.id; simpl in *; lia).
    cbn [bind].
    rewrite (ld_frame2_0 pre (b :: U) mid (x :: W) post p Hp) by (simpl; lia).
    cbn [bind nth].
    rewrite (ldu_frame2 pre (b :: U) mid (x :: W) post u Hu 0) by (simpl; lia).
    cbn [bind nth Z.to_nat].
    rewrite (st_frame2 pre (b :: U) mid (x :: W) post p Hp (Z.of_nat bpp))
      by (rewrite ?Nat2Z.id; simpl in *; lia).
    cbn [bind padd]. rewrite Nat2Z.id.
    destruct bpp as [|c]; [lia|]. cbn [upd_nth nth].
    rewrite (upd_nth_ext c W (fun _ => Sum (nth c W 0) (Avg x b)) (fun y => Sum y (Avg x b)))
      by reflexivity.
    rewrite frame2_shift.
    match goal with |- iter _ _ (frame2 _ _ _ ?W' _, _, _) = _ =>
      assert (E := IH (pre ++ [b]) U (mid ++ [x]) W' post (p + 1) (u + 1)
                     ltac:(len1) ltac:(len1) ltac:(lia) ltac:(simpl in HU; lia)
                     ltac:(rewrite length_upd_nth; simpl in HW; lia))
    end.
    eapply eq_trans; [exact E|].
    rewrite <- frame2_shift. cbn [avg_win Nat.pred]. do 3 f_equal; lia.
Qed.

Lemma paeth_iter (Paeth : Z -> Z -> Z -> Z) bpp n : forall pre U mid W post p u,
  p = len pre + len U + len mid -> u = len pre ->
  (1 <= bpp)%nat -> length U = (n + bpp)%nat -> length W = (n + bpp)%nat ->
  iter n (paeth_step Paeth (Z.of_nat bpp)) (frame2 pre U mid W post, p, Some u)
  = Some (frame2 pre U mid (paeth_win Paeth bpp n U W) post,
          p + Z.of_nat n, Some (u + Z.of_nat n)).
Proof.
  induction n as [|n IH]; intros pre U mid W post p u Hp Hu Hb HU HW.
  - cbn [iter paeth_win]. rewrite !Z.add_0_r. reflexivity.
  - destruct U as [|b U]; [discriminate|]. destruct W as [|x W]; [discriminate|].
    cbn [iter]. unfold paeth_step at 1.
    rewrite (ld_frame2 pre (b :: U) mid (x :: W) post p Hp (Z.of_nat bpp))
      by (rewrite ?Nat2Z.id; simpl in *; lia).
    cbn [bind].
    rewrite (ld_frame2_0 pre (b :: U) mid (x :: W) post p Hp) by (simpl; lia).
    cbn [bind nth].
    rewrite (ldu_frame2 pre (b :: U) mid (x :: W) post u Hu (Z.of_nat bpp))
      by (rewrite ?Nat2Z.id; simpl in *; lia).
    cbn [bind].
    rewrite (ldu_frame2 pre (b :: U) mid (x :: W) post u Hu 0) by (simpl; lia).
    cbn [bind nth Z.to_nat].
    rewrite (st_frame2 pre (b :: U) mid (x :: W) post p Hp (Z.of_nat bpp))
      by (rewrite ?Nat2Z.id; simpl in *; lia).
    cbn [bind padd]. rewrite Nat2Z.id.
    destruct bpp as [|c]; [lia|]. cbn [upd_nth nth].
    rewrite (upd_nth_ext c W (fun _ => Sum (nth c W 0) (Paeth x (nth c U 0) b))
               (fun y => Sum y (Paeth x (nth c U 0) b))) by reflexivity.
    rewrite frame2_shift.
    match goal with |- iter _ _ (frame2 _ _ _ ?W' _, _, _) = _ =>
      assert (E := IH (pre ++ [b]) U (mid ++ [x]) W' post (p + 1) (u + 1)
                     ltac:(len1) ltac:(len1) ltac:(lia) ltac:(simpl in HU; lia)
                     ltac:(rewrite length_upd_nth; simpl in HW; lia))
    end.
    eapply eq_trans; [exact E|].
    rewrite <- frame2_shift. cbn [paeth_win Nat.pred]. do 3 f_equal; lia.
Qed.

(** The first [bpp] bytes of an Avg or Paeth row. *)
Lemma avg_head_iter n : forall pre U mid W post p u i,
  p + i = len pre + len U + len mid -> u + i = len pre ->
  length U = n -> length W = n ->
  iter n (avg_head_step p (Some u)) (frame2 pre U mid W post, i)
  = Some (frame2 pre U mid (head_win (fun y => Z.shiftr y 1) U W) post, i + Z.of_nat n).
Proof.
  induction n as [|n IH]; intros pre U mid W post p u i Hp Hu HU HW.
  - destruct U, W; try discriminate. cbn [iter head_win zipWith].
    rewrite !Z.add_0_r. reflexivity.
  - destruct U as [|b U]; [discriminate|]. destruct W as [|x W]; [discriminate|].
    cbn [iter]. unfold avg_head_step at 1.
    rewrite (ld_frame2_0 pre (b :: U) mid (x :: W) post (p + i) Hp) by (simpl; lia).
    cbn [bind nth]. unfold ldu.
    rewrite frame2_u. rewrite Hu. rewrite ld_frame0 by (simpl; lia).
    rewrite <- frame2_u.
    cbn [bind nth].
    rewrite (st_frame2_0 pre (b :: U) mid (x :: W) post (p + i) Hp) by (simpl; lia).
    cbn [bind upd_nth].
    rewrite frame2_shift.
    assert (E := IH (pre ++ [b]) U (mid ++ [Sum x (Z.shiftr b 1)]) W post p u (i + 1) ltac:(len1) ltac:(len1)
                 ltac:(simpl in HU; lia) ltac:(simpl in HW; lia)).
    eapply eq_trans; [exact E|].
    rewrite <- frame2_shift. unfold head_win. cbn [zipWith]. do 2 f_equal; lia.
Qed.

Lemma paeth_head_iter n : forall pre U mid W post p u i,
  p + i = len pre + len U + len mid -> u + i = len pre ->
  length U = n -> length W = n ->
  iter n (paeth_head_step p (Some u)) (frame2 pre U mid W post, i)
  = Some (frame2 pre U mid (head_win (fun y => y) U W) post, i + Z.of_nat n).
Proof.
  induction n as [|n IH]; intros pre U mid W post p u i Hp Hu HU HW.
  - destruct U, W; try discriminate. cbn [iter head_win zipWith].
    rewrite !Z.add_0_r. reflexivity.
  - destruct U as [|b U]; [discriminate|]. destruct W as [|x W]; [discriminate|].
    cbn [iter]. unfold paeth_head_step at 1.
    rewrite (ld_frame2_0 pre (b :: U) mid (x :: W) post (p + i) Hp) by (simpl; lia).
    cbn [bind nth]. unfold ldu.
    rewrite frame2_u. rewrite Hu. rewrite ld_frame0 by (simpl; lia).
    rewrite <- frame2_u.
    cbn [bind nth].
    rewrite (st_frame2_0 pre (b :: U) mid (x :: W) post (p + i) Hp) by (simpl; lia).
    cbn [bind upd_nth].
    rewrite frame2_shift.
    assert (E := IH (pre ++ [b]) U (mid ++ [Sum x b]) W post p u (i + 1) ltac:(len1) ltac:(len1)
                 ltac:(simpl in HU; lia) ltac:(simpl in HW; lia)).
    eapply eq_trans; [exact E|].
    rewrite <- frame2_shift. unfold head_win. cbn [zipWith]. do 2 f_equal; lia.
Qed.


(** * A vector loop that reads the previous row does the scalar iterations

    [body] works on a state [s] that holds the buffer and the two cursors
    ([view s]) and the registers carried from one iteration to the next,
    which [Inv] relates to the buffer.  [Al] is what the loop needs of the
    alignment of [p]. *)

Section VecLoop.
Variable S : Type.
Variable view : S -> mem * Z * ptr.
Variable Inv : S -> Prop.
Variable Al : Z -> Prop.
Variables K RU RP : nat.
Variable step : mem * Z * ptr -> option (mem * Z * ptr).
Variable body : S -> option S.
Hypothesis K_pos : (1 <= K)%nat.
Hypothesis Al_step : forall p, Al p -> Al (p + Z.of_nat K).
Hypothesis block : forall s m p u,
  view s = (m, p, Some u) -> Inv s -> Forall byte m ->
  0 <= u -> u + Z.of_nat K + Z.of_nat RU <= p -> p + Z.of_nat K + Z.of_nat RP <= len m ->
  Al p ->
  exists s' m',
    body s = Some s' /\
    view s' = (m', p + Z.of_nat K, Some (u + Z.of_nat K)) /\
    Inv s' /\
    iter K step (m, p, Some u) = Some (m', p + Z.of_nat K, Some (u + Z.of_nat K)) /\
    len m' = len m /\
    Forall byte m'.

Lemma vec_loop_sim n : forall fuel s m p u i,
  (n <= fuel)%nat ->
  0 <= i < 4294967296 -> Z.of_nat n = i / Z.of_nat K ->
  view s = (m, p, Some u) -> Inv s -> Forall byte m ->
  0 <= u -> u + i + Z.of_nat RU <= p -> p + i + Z.of_nat RP <= len m ->
  Al p ->
  exists s' m',
    while_ge fuel (Z.of_nat K) body i s = Some (i mod Z.of_nat K, s') /\
    view s' = (m', p + Z.of_nat (K * n), Some (u + Z.of_nat (K * n))) /\
    Inv s' /\
    iter (K * n) step (m, p, Some u)
    = Some (m', p + Z.of_nat (K * n), Some (u + Z.of_nat (K * n))) /\
    len m' = len m /\
    Forall byte m' /\
    Al (p + Z.of_nat (K * n)).
Proof.
  induction n as [|n IH]; intros fuel s m p u i Hf Hi Hn Hv HI Hm Hu Hup Hl HA.
  - exists s, m.
    assert (i < Z.of_nat K) by (Z.div_mod_to_equations; nia).
    rewrite while_ge_skip by lia.
    rewrite Nat.mul_0_r, !Z.add_0_r. cbn [iter].
    rewrite Z.mod_small by lia.
    repeat split; assumption.
  - assert (HK : Z.of_nat K <= i) by (Z.div_mod_to_equations; nia).
    destruct fuel as [|fuel]; [lia|].
    rewrite while_ge_step by exact HK.
    destruct (block s m p u Hv HI Hm Hu ltac:(lia) ltac:(lia) HA)
      as (s1 & m1 & E1 & E2 & E3 & E4 & E5 & E6).
    rewrite E1. cbn [bind].
    rewrite (u32_small (i - Z.of_nat K)) by lia.
    assert (Hn' : Z.of_nat n = (i - Z.of_nat K) / Z.of_nat K).
    { replace (i - Z.of_nat K) with (i + (-1) * Z.of_nat K) by lia.
      rewrite Z.div_add by lia. lia. }
    destruct (IH fuel s1 m1 (p + Z.of_nat K) (u + Z.of_nat K) (i - Z.of_nat K)
                 ltac:(lia) ltac:(lia) Hn' E2 E3 E6 ltac:(lia) ltac:(lia) ltac:(lia)
                 (Al_step p HA))
      as (s2 & m2 & F1 & F2 & F3 & F4 & F5 & F6 & F7).
    exists s2, m2.
    replace (p + Z.of_nat (K * Datatypes.S n)) with (p + Z.of_nat K + Z.of_nat (K * n)) by lia.
    replace (u + Z.of_nat (K * Datatypes.S n)) with (u + Z.of_nat K + Z.of_nat (K * n)) by lia.
    split; [|split; [|split; [|split; [|split; [|split]]]]].
    + rewrite F1. f_equal. f_equal.
      replace (i - Z.of_nat K) with (i + (-1) * Z.of_nat K) by lia.
      apply Z.mod_add. lia.
    + exact F2.
    + exact F3.
    + replace (K * Datatypes.S n)%nat with (K + K * n)%nat by lia.
      rewrite iter_add. eapply eq_trans; [apply f_equal2; [exact E4 | reflexivity]|].
      cbn [bind]. exact F4.
    + lia.
    + exact F6.
    + exact F7.
Qed.

(** The whole loop, started with [i] bytes to go. *)
Lemma vec_loop_run : forall s m p u i,
  0 <= i < 4294967296 ->
  view s = (m, p, Some u) -> Inv s -> Forall byte m ->
  0 <= u -> u + i + Z.of_nat RU <= p -> p + i + Z.of_nat RP <= len m ->
  Al p ->
  exists s' m',
    while_ge (Z.to_nat i) (Z.of_nat K) body i s = Some (i mod Z.of_nat K, s') /\
    view s' = (m', p + (i - i mod Z.of_nat K), Some (u + (i - i mod Z.of_nat K))) /\
    Inv s' /\
    iter (Z.to_nat (i - i mod Z.of_nat K)) step (m, p, Some u)
    = Some (m', p + (i - i mod Z.of_nat K), Some (u + (i - i mod Z.of_nat K))) /\
    len m' = len m /\
    Forall byte m' /\
    Al (p + (i - i mod Z.of_nat K)).
Proof.
  intros s m p u i Hi Hv HI Hm Hu Hup Hl HA.
  assert (D : 0 <= i / Z.of_nat K <= i) by (Z.div_mod_to_equations; nia).
  destruct (vec_loop_sim (Z.to_nat (i / Z.of_nat K)) (Z.to_nat i) s m p u i
              ltac:(lia) Hi ltac:(lia) Hv HI Hm Hu Hup Hl HA)
    as (s' & m' & F1 & F2 & F3 & F4 & F5 & F6 & F7).
  assert (E : Z.of_nat (K * Z.to_nat (i / Z.of_nat K)) = i - i mod Z.of_nat K).
  { rewrite Nat2Z.inj_mul, Z2Nat.id by lia. Z.div_mod_to_equations. nia. }
  rewrite E in *.
  replace (K * Z.to_nat (i / Z.of_nat K))%nat with (Z.to_nat (i - i mod Z.of_nat K)) in F4
    by lia.
  exists s', m'. repeat split; assumption.
Qed.
End VecLoop.


(** * The Up case of the SSE2 kernel *)

Lemma up_win_length U W : length U = length W -> length (up_win U W) = length W.
Proof. intros H. unfold up_win. apply length_zipWith. lia. Qed.

Lemma up_win_bytes U W : Forall byte (up_win U W).
Proof.
  unfold up_win. revert U. induction W as [|x W IH]; intros [|b U]; cbn [zipWith];
    constructor; [apply Sum_byte | apply IH].
Qed.

(** The scalar loop on any buffer. *)
Lemma up_iter_mem (n : nat) (m : mem) p u :
  0 <= u -> u + Z.of_nat n <= p -> p + Z.of_nat n <= len m -> Forall byte m ->
  exists m',
    iter n up_step (m, p, Some u) = Some (m', p + Z.of_nat n, Some (u + Z.of_nat n)) /\
    len m' = len m /\ Forall byte m'.
Proof.
  intros Hu Hup Hl Hm.
  destruct (frame2_split m u p n n) as (pre & U & mid & W & post & -> & Hpre & HU & HW & Hp);
    [lia | lia | lia |].
  exists (frame2 pre U mid (up_win U W) post). split; [|split].
  - apply up_iter; auto.
  - rewrite !len_frame2. unfold len. rewrite up_win_length by lia. reflexivity.
  - rewrite Forall_frame2 in *. repeat split; try tauto. apply up_win_bytes.
Qed.

Ltac sc2 :=
  first [ assumption
        | lia
        | unfold len; cbn [length Z.to_nat Pos.to_nat Pos.iter_op Nat.add]; lia
        | match goal with
          | A : aligned16 ?a = true |- aligned16 ?b = true =>
              apply (aligned16_shift a b A);
              match goal with |- ?e mod 16 = 0 => ring_simplify e; reflexivity end
          end ].

Lemma sse2_up64_block base : forall (s : mem * Z * ptr) m p u,
  s = (m, p, Some u) -> True -> Forall byte m ->
  0 <= u -> u + Z.of_nat 64 + Z.of_nat 0 <= p -> p + Z.of_nat 64 + Z.of_nat 0 <= len m ->
  aligned16 (base + p) = true ->
  exists s' m',
    sse2_up64 base s = Some s' /\
    s' = (m', p + Z.of_nat 64, Some (u + Z.of_nat 64)) /\
    True /\
    iter 64 up_step (m, p, Some u) = Some (m', p + Z.of_nat 64, Some (u + Z.of_nat 64)) /\
    len m' = len m /\
    Forall byte m'.
Proof.
  intros s m p u -> _ Hm Hu Hup Hl A.
  destruct (frame2_split m u p 64 64) as (pre & U & mid & W & post & -> & Hpre & HU & HW & Hp);
    [lia | lia | lia |].
  symmetry in Hpre.
  exists (frame2 pre U mid (up_win U W) post, p + Z.of_nat 64, Some (u + Z.of_nat 64)),
         (frame2 pre U mid (up_win U W) post).
  split; [|split; [reflexivity|split; [exact I|split; [|split]]]].
  - explode U HU. explode W HW. change (Z.of_nat 64) with 64.
    unfold sse2_up64.
    rewrite (lduv_frame2 pre _ mid _ post u Hpre 16 0) by sc2.
    rewrite (lduv_frame2 pre _ mid _ post u Hpre 16 16) by sc2.
    rewrite (lduv_frame2 pre _ mid _ post u Hpre 16 32) by sc2.
    rewrite (lduv_frame2 pre _ mid _ post u Hpre 16 48) by sc2.
    rewrite (load_si128_frame2_0 pre _ mid _ post p Hp base) by sc2.
    rewrite (load_si128_frame2 pre _ mid _ post p Hp base 16) by sc2.
    rewrite (load_si128_frame2 pre _ mid _ post p Hp base 32) by sc2.
    rewrite (load_si128_frame2 pre _ mid _ post p Hp base 48) by sc2.
    vcompute.
    rewrite (store_si128_frame2_0 pre _ mid _ post p Hp base) by sc2.
    vcompute.
    rewrite (store_si128_frame2 pre _ mid _ post p Hp base 16) by sc2.
    vcompute.
    rewrite (store_si128_frame2 pre _ mid _ post p Hp base 32) by sc2.
    vcompute.
    rewrite (store_si128_frame2 pre _ mid _ post p Hp base 48) by sc2.
    vcompute.
    apply f_equal. apply f_equal2; [|reflexivity]. apply f_equal2; [|reflexivity].
    apply (f_equal (fun l => frame2 pre _ mid l post)). list_eq; byte_arith.
  - apply up_iter; auto.
  - rewrite !len_frame2. unfold len. rewrite up_win_length by lia. reflexivity.
  - rewrite Forall_frame2 in *. repeat split; try tauto. apply up_win_bytes.
Qed.

Lemma sse2_up8_block : forall (s : mem * Z * ptr) m p u,
  s = (m, p, Some u) -> True -> Forall byte m ->
  0 <= u -> u + Z.of_nat 8 + Z.of_nat 0 <= p -> p + Z.of_nat 8 + Z.of_nat 0 <= len m ->
  True ->
  exists s' m',
    sse2_up8 s = Some s' /\
    s' = (m', p + Z.of_nat 8, Some (u + Z.of_nat 8)) /\
    True /\
    iter 8 up_step (m, p, Some u) = Some (m', p + Z.of_nat 8, Some (u + Z.of_nat 8)) /\
    len m' = len m /\
    Forall byte m'.
Proof.
  intros s m p u -> _ Hm Hu Hup Hl _.
  destruct (frame2_split m u p 8 8) as (pre & U & mid & W & post & -> & Hpre & HU & HW & Hp);
    [lia | lia | lia |].
  symmetry in Hpre.
  exists (frame2 pre U mid (up_win U W) post, p + Z.of_nat 8, Some (u + Z.of_nat 8)),
         (frame2 pre U mid (up_win U W) post).
  split; [|split; [reflexivity|split; [exact I|split; [|split]]]].
  - explode U HU. explode W HW. change (Z.of_nat 8) with 8.
    unfold sse2_up8, _mm_storel_epi64.
    rewrite (lduv_frame2 pre _ mid _ post u Hpre 8 0) by sc2.
    rewrite (loadl_frame2_0 pre _ mid _ post p Hp) by sc2.
    vcompute.
    rewrite (storen_frame2_0 pre _ mid _ post p Hp) by sc2.
    vcompute.
    apply f_equal. apply f_equal2; [|reflexivity]. apply f_equal2; [|reflexivity].
    apply (f_equal (fun l => frame2 pre _ mid l post)). list_eq; byte_arith.
  - apply up_iter; auto.
  - rewrite !len_frame2. unfold len. rewrite up_win_length by lia. reflexivity.
  - rewrite Forall_frame2 in *. repeat split; try tauto. apply up_win_bytes.
Qed.

Lemma aligned16_step base (K : nat) p :
  Z.of_nat K mod 16 = 0 ->
  aligned16 (base + p) = true -> aligned16 (base + (p + Z.of_nat K)) = true.
Proof.
  intros HK A. apply (aligned16_shift _ _ A).
  replace (base + (p + Z.of_nat K) - (base + p)) with (Z.of_nat K) by lia. exact HK.
Qed.

(** The Up case is the scalar loop over the whole row. *)
Lemma sse2_up_ok base bpl (m : mem) p u :
  0 <= bpl < 4294967296 ->
  0 <= u -> u + bpl <= p -> p + bpl <= len m -> Forall byte m ->
  sse2_up base bpl (m, p, Some u) = iter (Z.to_nat bpl) up_step (m, p, Some u).
Proof.
  intros Hb Hu Hup Hl Hm. unfold sse2_up. cbv zeta.
  destruct (Z.leb_spec 24 bpl) as [H24|H24]; [|reflexivity].
  set (j := OptAlignDiff (base + p) 16).
  pose proof (OptAlignDiff_range (base + p)) as Hj. fold j in Hj.
  pose proof (aligned16_head (base + p)) as A. fold j in A.
  rewrite (u32_small (bpl - j)) by lia.
  set (i := bpl - j) in *.
  destruct (up_iter_mem (Z.to_nat j) m p u Hu ltac:(lia) ltac:(lia) Hm) as (m1 & E1 & E2 & E3).
  rewrite Z2Nat.id in E1 by lia.
  assert (A1 : aligned16 (base + (p + j)) = true).
  { apply (aligned16_shift _ _ A). replace (_ - _) with 0 by lia. reflexivity. }
  pose proof (Z.mod_pos_bound i 64 ltac:(lia)) as M64.
  assert (D64 : 0 <= i / 64 <= i) by (Z.div_mod_to_equations; lia).
  destruct (vec_loop_sim (mem * Z * ptr) (fun s => s) (fun _ => True)
              (fun p => aligned16 (base + p) = true) 64 0 0 up_step (sse2_up64 base)
              ltac:(lia)
              (fun p => aligned16_step base 64 p eq_refl)
              (sse2_up64_block base)
              (Z.to_nat (i / 64)) (Z.to_nat i) (m1, p + j, Some (u + j)) m1 (p + j) (u + j) i
              ltac:(lia) ltac:(lia) ltac:(lia) eq_refl I E3
              ltac:(lia) ltac:(lia) ltac:(lia) A1)
    as (s2 & m2 & F1 & F2 & _ & F4 & F5 & F6 & _).
  change (Z.of_nat 64) with 64 in F1.
  subst s2.
  set (n1 := (64 * Z.to_nat (i / 64))%nat) in *.
  assert (N1 : Z.of_nat n1 = 64 * (i / 64)) by (unfold n1; lia).
  assert (D8 : 0 <= i mod 64 / 8 <= i mod 64) by (Z.div_mod_to_equations; lia).
  destruct (vec_loop_sim (mem * Z * ptr) (fun s => s) (fun _ => True)
              (fun _ => True) 8 0 0 up_step sse2_up8
              ltac:(lia) (fun _ _ => I) sse2_up8_block
              (Z.to_nat (i mod 64 / 8)) (Z.to_nat (i mod 64))
              (m2, p + j + Z.of_nat n1, Some (u + j + Z.of_nat n1)) m2
              (p + j + Z.of_nat n1) (u + j + Z.of_nat n1) (i mod 64)
              ltac:(lia) ltac:(lia) ltac:(lia) eq_refl I F6
              ltac:(lia) ltac:(Z.div_mod_to_equations; lia)
              ltac:(Z.div_mod_to_equations; lia) I)
    as (s3 & m3 & G1 & G2 & _ & G4 & G5 & G6 & _).
  change (Z.of_nat 8) with 8 in G1.
  subst s3.
  set (n2 := (8 * Z.to_nat (i mod 64 / 8))%nat) in *.
  assert (N2 : Z.of_nat n2 = 8 * (i mod 64 / 8)) by (unfold n2; lia).
  assert (R : i mod 64 mod 8 = i mod 8) by (Z.div_mod_to_equations; lia).
  pose proof (Z.mod_pos_bound i 8 ltac:(lia)) as M8.
  unfold ptr in *.
  rewrite E1. cbn [bind]. rewrite F1. cbn [bind]. rewrite G1. cbn [bind].
  replace (Z.to_nat bpl)
    with (Z.to_nat j + (n1 + (n2 + Z.to_nat (i mod 64 mod 8))))%nat
    by (Z.div_mod_to_equations; lia).
  rewrite iter_add, E1. cbn [bind]. rewrite iter_add, F4. cbn [bind].
  rewrite iter_add, G4. cbn [bind]. reflexivity.
Qed.


(** * Lanes of the Avg and Paeth blocks *)

Create HintDb bytes.

Lemma byte_0 : byte 0.
Proof. unfold byte. lia. Qed.

Lemma byte_land255 x : byte (Z.land x 255).
Proof.
  change 255 with (Z.ones 8). rewrite Z.land_ones by lia. apply mod256_byte.
Qed.

Lemma byte_avg16 a b : byte a -> byte b -> byte (Z.shiftr ((a + b) mod 65536) 1).
Proof.
  unfold byte. intros Ha Hb. rewrite Z.shiftr_div_pow2 by lia.
  change (2 ^ 1) with 2. Z.div_mod_to_equations. lia.
Qed.

Lemma byte_land_mask x : byte x -> byte (Z.land x 65535).
Proof.
  unfold byte. intros H. change 65535 with (Z.ones 16). rewrite Z.land_ones by lia.
  rewrite Z.mod_small; lia.
Qed.

Lemma byte_land_0 x : byte (Z.land x 0).
Proof. rewrite Z.land_0_r. apply byte_0. Qed.

#[export] Hint Resolve byte_0 mod256_byte Sum_byte byte_land255 byte_avg16 byte_land_mask
  byte_land_0 paeth16_byte PaethOpt_byte : bytes.

Ltac byte_el := solve [auto 12 with bytes].

Ltac wbytes :=
  repeat (apply Forall_cons; [byte_el|]); apply Forall_nil.

Ltac wside := first [reflexivity | wbytes | lia].

(** Evaluation of list operations, the intrinsics kept folded. *)
Ltac wcompute :=
  cbv beta iota zeta delta
    [bind fst snd firstn skipn app nth length Nat.sub Nat.add
     Z.to_nat Pos.to_nat Pos.iter_op Z.of_nat Pos.of_succ_nat Pos.succ
     zipWith zipWith3 map repeat zeros Nat.pred upd_nth
     avg_win paeth_win up_win head_win padd].

Lemma set1_W16 x : _mm_set1_epi16 x = W16 (repeat x 8).
Proof. reflexivity. Qed.

(** One lane of [(u + t) >> 1] added to [p]. *)
Lemma avg_lane w a b :
  byte a -> byte b ->
  (w + Z.shiftr ((b + a) mod 65536) 1) mod 256 = Sum w (Avg a b).
Proof.
  unfold byte. intros Ha Hb. rewrite Sum_mod, Avg_div2 by lia.
  rewrite Z.shiftr_div_pow2 by lia. change (2 ^ 1) with 2.
  rewrite (Z.mod_small (b + a)) by lia. rewrite (Z.add_comm b a). reflexivity.
Qed.

(** Byte shifts and [or] of registers given byte by byte. *)
Lemma srli_bytes b l n : _mm_srli_si128 (b :: l) n = skipn n (b :: l) ++ zeros n.
Proof. reflexivity. Qed.

Lemma slli_bytes b l n : _mm_slli_si128 (b :: l) n = zeros n ++ firstn (16 - n) (b :: l).
Proof. reflexivity. Qed.

Lemma or_bytes a l b l' : _mm_or_si128 (a :: l) (b :: l') = zipWith Z.lor (a :: l) (b :: l').
Proof. reflexivity. Qed.

(** One step of the lane calculus, where it applies. *)
Ltac w16_1 :=
  first
    [ rewrite unpacklo_zero by wside
    | rewrite unpackhi_zero by wside
    | rewrite PAETH_W16 by reflexivity
    | rewrite set1_W16
    | rewrite add16_W16 by reflexivity
    | rewrite sub16_W16 by reflexivity
    | rewrite slli16_1_W16 by reflexivity
    | rewrite srli16_W16 by reflexivity
    | rewrite and_W16
    | rewrite add8_W16 by wbytes
    | rewrite packus_W16 by wside
    | rewrite srli_W16_4 | rewrite srli_W16_6 | rewrite srli_W16_8 | rewrite srli_W16_10
    | rewrite slli_W16_4 | rewrite slli_W16_6 | rewrite slli_W16_8 | rewrite slli_W16_12
    | rewrite shuffle_1032_W16 | rewrite shuffle_1010_W16 | rewrite shuffle_3310_W16
    | rewrite unpackhi32_W16
    | rewrite srli_bytes | rewrite slli_bytes | rewrite or_bytes ].

Ltac w16 := repeat (w16_1; wcompute).

Ltac split_bytes :=
  repeat match goal with
         | H : Forall byte (_ :: _) |- _ =>
             let Hb := fresh "Hb" in
             apply Forall_cons_iff in H; destruct H as [Hb H]
         end.

Ltac frame_bytes Hm :=
  apply Forall_frame2 in Hm;
  let H1 := fresh in let HU := fresh "HUb" in let H3 := fresh in
  let HW := fresh "HWb" in let H5 := fresh in
  destruct Hm as (H1 & HU & H3 & HW & H5).


(** * The vector blocks of the Avg filter *)

Lemma avg_win_length bpp n : forall U W, length (avg_win bpp n U W) = length W.
Proof.
  induction n as [|n IH]; intros U W; destruct U as [|b U], W as [|x W];
    cbn [avg_win length]; try reflexivity.
  rewrite IH, length_upd_nth. reflexivity.
Qed.

Lemma avg_win_bytes bpp n : forall U W, Forall byte W -> Forall byte (avg_win bpp n U W).
Proof.
  induction n as [|n IH]; intros U W HW; destruct U as [|b U], W as [|x W];
    cbn [avg_win]; try assumption.
  inversion HW; subst. constructor; [assumption|].
  apply IH. apply Forall_upd_nth; [assumption|]. intros y. apply Sum_byte.
Qed.

(** The scalar loop on any buffer. *)
Lemma avg_iter_mem (bpp n : nat) (m : mem) p u :
  (1 <= bpp)%nat ->
  0 <= u -> u + Z.of_nat n <= p -> p + Z.of_nat n + Z.of_nat bpp <= len m -> Forall byte m ->
  exists m',
    iter n (avg_step (Z.of_nat bpp)) (m, p, Some u)
    = Some (m', p + Z.of_nat n, Some (u + Z.of_nat n)) /\
    len m' = len m /\ Forall byte m'.
Proof.
  intros Hb Hu Hup Hl Hm.
  destruct (frame2_split m u p n (n + bpp))
    as (pre & U & mid & W & post & -> & Hpre & HU & HW & Hp); [lia | lia | lia |].
  exists (frame2 pre U mid (avg_win bpp n U W) post). split; [|split].
  - apply avg_iter; auto.
  - rewrite !len_frame2. unfold len. rewrite avg_win_length. reflexivity.
  - rewrite Forall_frame2 in *. repeat split; try tauto. apply avg_win_bytes. tauto.
Qed.

Local Opaque W16.

Lemma sse2_avg16_bpp8_block base : forall (s : ustate) m p u,
  (let '(m, p, u, _) := s in (m, p, u)) = (m, p, Some u) ->
  (let '(m, p, _, t1) := s in exists c, loadn m p 8 = Some c /\ t1 = W16 c) ->
  Forall byte m ->
  0 <= u -> u + Z.of_nat 16 + Z.of_nat 0 <= p -> p + Z.of_nat 16 + Z.of_nat 8 <= len m ->
  aligned16 (base + (p + 8)) = true ->
  exists s' m',
    sse2_avg16_bpp8 base s = Some s' /\
    (let '(m, p, u, _) := s' in (m, p, u)) = (m', p + Z.of_nat 16, Some (u + Z.of_nat 16)) /\
    (let '(m, p, _, t1) := s' in exists c, loadn m p 8 = Some c /\ t1 = W16 c) /\
    iter 16 (avg_step 8) (m, p, Some u) = Some (m', p + Z.of_nat 16, Some (u + Z.of_nat 16)) /\
    len m' = len m /\
    Forall byte m'.
Proof.
  intros [[[m0 p0] u0] t1] m p u Hv (c & Hc & ->) Hm Hu Hup Hl A.
  injection Hv as E1 E2 E3. subst m0 p0 u0.
  destruct (frame2_split m u p 16 (16 + 8))
    as (pre & U & mid & W & post & -> & Hpre & HU & HW & Hp); [lia | lia | lia |].
  symmetry in Hpre.
  rewrite (loadn_frame2_0 pre U mid W post p Hp) in Hc by lia. injection Hc as <-.
  pose proof (avg_iter 8 16 pre U mid W post p u Hp Hpre ltac:(lia) HU HW) as IT.
  exists (frame2 pre U mid (avg_win 8 16 U W) post, p + Z.of_nat 16, Some (u + Z.of_nat 16),
          W16 (firstn 8 (skipn 16 (avg_win 8 16 U W)))),
         (frame2 pre U mid (avg_win 8 16 U W) post).
  split; [|split; [reflexivity|split; [|split; [exact IT|split]]]].
  - frame_bytes Hm. explode U HU. explode W HW.
    split_bytes.
    change (Z.of_nat 16) with 16.
    unfold sse2_avg16_bpp8. cbv zeta.
    rewrite (lduv_frame2 pre _ mid _ post u Hpre 16 0) by sc2.
    rewrite (load_si128_frame2 pre _ mid _ post p Hp base 8) by sc2.
    wcompute. w16.
    rewrite (store_si128_frame2 pre _ mid _ post p Hp base 8) by sc2.
    wcompute.
    rewrite ?avg_lane by byte_el.
    reflexivity.
  - cbv beta iota.
    exists (firstn 8 (skipn 16 (avg_win 8 16 U W))). split; [|reflexivity].
    apply (loadn_frame2 pre U mid _ post p Hp 16 8); [lia|].
    rewrite avg_win_length. simpl. lia.
  - rewrite !len_frame2. unfold len. rewrite avg_win_length. reflexivity.
  - rewrite Forall_frame2 in *. repeat split; try tauto. apply avg_win_bytes. tauto.
Qed.

Lemma sse2_avg16_bpp6_block base : forall (s : ustate) m p u,
  (let '(m, p, u, _) := s in (m, p, u)) = (m, p, Some u) ->
  (let '(m, p, _, t1) := s in
   exists c J, loadn m p 6 = Some c /\ t1 = c ++ J /\ length J = 10%nat /\ Forall byte J) ->
  Forall byte m ->
  0 <= u -> u + Z.of_nat 16 + Z.of_nat 0 <= p -> p + Z.of_nat 16 + Z.of_nat 6 <= len m ->
  aligned16 (base + (p + 6)) = true ->
  exists s' m',
    sse2_avg16_bpp6 base s = Some s' /\
    (let '(m, p, u, _) := s' in (m, p, u)) = (m', p + Z.of_nat 16, Some (u + Z.of_nat 16)) /\
    (let '(m, p, _, t1) := s' in
     exists c J, loadn m p 6 = Some c /\ t1 = c ++ J /\ length J = 10%nat /\ Forall byte J) /\
    iter 16 (avg_step 6) (m, p, Some u) = Some (m', p + Z.of_nat 16, Some (u + Z.of_nat 16)) /\
    len m' = len m /\
    Forall byte m'.
Proof.
  intros [[[m0 p0] u0] t1] m p u Hv (c & J & Hc & -> & HJ & HJb) Hm Hu Hup Hl A.
  injection Hv as E1 E2 E3. subst m0 p0 u0.
  destruct (frame2_split m u p 16 (16 + 6))
    as (pre & U & mid & W & post & -> & Hpre & HU & HW & Hp); [lia | lia | lia |].
  symmetry in Hpre.
  rewrite (loadn_frame2_0 pre U mid W post p Hp) in Hc by lia. injection Hc as <-.
  pose proof (avg_iter 6 16 pre U mid W post p u Hp Hpre ltac:(lia) HU HW) as IT.
  exists (frame2 pre U mid (avg_win 6 16 U W) post, p + Z.of_nat 16, Some (u + Z.of_nat 16),
          firstn 6 (skipn 16 (avg_win 6 16 U W)) ++ zeros 10),
         (frame2 pre U mid (avg_win 6 16 U W) post).
  split; [|split; [reflexivity|split; [|split; [exact IT|split]]]].
  - frame_bytes Hm. explode U HU. explode W HW. explode J HJ.
    split_bytes.
    change (Z.of_nat 16) with 16.
    unfold sse2_avg16_bpp6. cbv zeta.
    rewrite (lduv_frame2 pre _ mid _ post u Hpre 16 0) by sc2.
    rewrite (load_si128_frame2 pre _ mid _ post p Hp base 6) by sc2.
    wcompute. w16.
    rewrite ?Z.lor_0_r, ?Z.lor_0_l.
    rewrite (store_si128_frame2 pre _ mid _ post p Hp base 6) by sc2.
    wcompute.
    rewrite ?avg_lane by byte_el.
    reflexivity.
  - cbv beta iota.
    exists (firstn 6 (skipn 16 (avg_win 6 16 U W))), (zeros 10).
    split; [|split; [reflexivity|split; [reflexivity|]]].
    + apply (loadn_frame2 pre U mid _ post p Hp 16 6); [lia|].
      rewrite avg_win_length. simpl. lia.
    + repeat constructor; apply byte_0.
  - rewrite !len_frame2. unfold len. rewrite avg_win_length. reflexivity.
  - rewrite Forall_frame2 in *. repeat split; try tauto. apply avg_win_bytes. tauto.
Qed.

Local Transparent W16.


(** * The 4-bpp block of the Avg filter *)

Lemma land511 x : Z.land x 511 = x mod 512.
Proof. change 511 with (Z.ones 9). rewrite Z.land_ones by lia. reflexivity. Qed.

Lemma land255 x : Z.land x 255 = x mod 256.
Proof. change 255 with (Z.ones 8). rewrite Z.land_ones by lia. reflexivity. Qed.

Lemma shiftr2 x : Z.shiftr x 2 = x / 4.
Proof. rewrite Z.shiftr_div_pow2 by lia. reflexivity. Qed.

Lemma Avg2 t u w u' :
  byte t -> byte u ->
  Avg (Sum w (Avg t u)) u' = ((w + (t + u) / 2) mod 256 + u') / 2 \/ ~ byte u'.
Proof.
  unfold byte. intros Ht Hu.
  destruct (Z_lt_dec u' 0); [right; lia|].
  destruct (Z_lt_dec u' 256); [left|right; lia].
  rewrite (Avg_div2 t u) by lia. rewrite Sum_mod.
  rewrite Avg_div2; [reflexivity|].
  pose proof (Z.mod_pos_bound (w + (t + u) / 2) 256 ltac:(lia)). lia.
Qed.

Ltac avg4_arith :=
  unfold byte in *;
  rewrite ?land511, ?land255, ?shiftr2;
  rewrite ?Sum_mod;
  Z.div_mod_to_equations; lia.

Lemma avg4_a w t u :
  byte w -> byte t -> byte u ->
  Z.land (Z.shiftr ((2 * Z.land (2 * w + t + u) 511 + 0) mod 65536) 2) 255
  = Sum w (Avg t u).
Proof.
  intros Hw Ht Hu. rewrite (Avg_div2 t u) by (unfold byte in *; lia). avg4_arith.
Qed.

Lemma avg4_c w t u :
  byte w -> byte t -> byte u ->
  Z.land (Z.shiftr ((0 + 2 * Z.land (2 * w + u + t) 511) mod 65536) 2) 255
  = Sum w (Avg t u).
Proof.
  intros Hw Ht Hu. rewrite (Avg_div2 t u) by (unfold byte in *; lia). avg4_arith.
Qed.

Lemma avg4_b w t u w' u' :
  byte w -> byte t -> byte u -> byte w' -> byte u' ->
  Z.land (Z.shiftr ((2 * Z.land (2 * w' + 0 + u') 511 + Z.land (2 * w + t + u) 511)
                    mod 65536) 2) 255
  = Sum w' (Avg (Sum w (Avg t u)) u').
Proof.
  intros Hw Ht Hu Hw' Hu'.
  destruct (Avg2 t u w u' Ht Hu) as [E|E]; [|contradiction]. rewrite E.
  avg4_arith.
Qed.

Lemma avg4_d w t u w' u' :
  byte w -> byte t -> byte u -> byte w' -> byte u' ->
  Z.land (Z.shiftr ((Z.land (2 * w + u + t) 511 + 2 * Z.land (2 * w' + u' + 0) 511)
                    mod 65536) 2) 255
  = Sum w' (Avg (Sum w (Avg t u)) u').
Proof.
  intros Hw Ht Hu Hw' Hu'.
  destruct (Avg2 t u w u' Ht Hu) as [E|E]; [|contradiction]. rewrite E.
  avg4_arith.
Qed.

Local Opaque W16.

Lemma sse2_avg16_bpp4_block base : forall (s : ustate) m p u,
  (let '(m, p, u, _) := s in (m, p, u)) = (m, p, Some u) ->
  (let '(m, p, _, t1) := s in
   exists c, loadn m p 4 = Some c /\ t1 = W16 (c ++ [0; 0; 0; 0])) ->
  Forall byte m ->
  0 <= u -> u + Z.of_nat 16 + Z.of_nat 0 <= p -> p + Z.of_nat 16 + Z.of_nat 4 <= len m ->
  aligned16 (base + (p + 4)) = true ->
  exists s' m',
    sse2_avg16_bpp4 base s = Some s' /\
    (let '(m, p, u, _) := s' in (m, p, u)) = (m', p + Z.of_nat 16, Some (u + Z.of_nat 16)) /\
    (let '(m, p, _, t1) := s' in
     exists c, loadn m p 4 = Some c /\ t1 = W16 (c ++ [0; 0; 0; 0])) /\
    iter 16 (avg_step 4) (m, p, Some u) = Some (m', p + Z.of_nat 16, Some (u + Z.of_nat 16)) /\
    len m' = len m /\
    Forall byte m'.
Proof.
  intros [[[m0 p0] u0] t1] m p u Hv (c & Hc & ->) Hm Hu Hup Hl A.
  injection Hv as E1 E2 E3. subst m0 p0 u0.
  destruct (frame2_split m u p 16 (16 + 4))
    as (pre & U & mid & W & post & -> & Hpre & HU & HW & Hp); [lia | lia | lia |].
  symmetry in Hpre.
  rewrite (loadn_frame2_0 pre U mid W post p Hp) in Hc by lia. injection Hc as <-.
  pose proof (avg_iter 4 16 pre U mid W post p u Hp Hpre ltac:(lia) HU HW) as IT.
  exists (frame2 pre U mid (avg_win 4 16 U W) post, p + Z.of_nat 16, Some (u + Z.of_nat 16),
          W16 (firstn 4 (skipn 16 (avg_win 4 16 U W)) ++ [0; 0; 0; 0])),
         (frame2 pre U mid (avg_win 4 16 U W) post).
  split; [|split; [reflexivity|split; [|split; [exact IT|split]]]].
  - frame_bytes Hm. explode U HU. explode W HW.
    split_bytes.
    change (Z.of_nat 16) with 16.
    unfold sse2_avg16_bpp4. cbv zeta.
    rewrite (lduv_frame2 pre _ mid _ post u Hpre 16 0) by sc2.
    rewrite (load_si128_frame2 pre _ mid _ post p Hp base 4) by sc2.
    wcompute. w16.
    rewrite (store_si128_frame2 pre _ mid _ post p Hp base 4) by sc2.
    wcompute.
    rewrite ?avg4_b by byte_el. rewrite ?avg4_a by byte_el.
    rewrite ?avg4_d by byte_el. rewrite ?avg4_c by byte_el.
    reflexivity.
  - cbv beta iota.
    exists (firstn 4 (skipn 16 (avg_win 4 16 U W))). split; [|reflexivity].
    apply (loadn_frame2 pre U mid _ post p Hp 16 4); [lia|].
    rewrite avg_win_length. simpl. lia.
  - rewrite !len_frame2. unfold len. rewrite avg_win_length. reflexivity.
  - rewrite Forall_frame2 in *. repeat split; try tauto. apply avg_win_bytes. tauto.
Qed.

Local Transparent W16.


(** * The 1-bpp block of the Avg filter *)

Lemma byte_avg1_next a b : byte (avg1_next a b).
Proof. unfold avg1_next. apply byte_land255. Qed.

#[export] Hint Resolve byte_avg1_next : bytes.

Lemma u8_Sum a b : u8 (Sum a b) = Sum a b.
Proof. apply u8_small. apply Sum_range. Qed.

Lemma avg1_lo t w u y :
  byte t -> byte w -> byte u ->
  avg1_next t ((2 * w + u) mod 65536 + 65536 * (y mod 65536)) = Sum w (Avg t u).
Proof.
  unfold byte. intros Ht Hw Hu. unfold avg1_next.
  rewrite (Avg_div2 t u), Sum_mod by lia.
  pose proof (Z.mod_pos_bound y 65536 ltac:(lia)) as Hy.
  rewrite (Z.mod_small (2 * w + u)) by lia.
  rewrite u32_small by lia.
  rewrite land255, Z.shiftr_div_pow2 by lia. change (2 ^ 1) with 2.
  Z.div_mod_to_equations. lia.
Qed.

Lemma avg1_hi t w u x :
  byte t -> byte w -> byte u ->
  avg1_next t (Z.shiftr (x mod 65536 + 65536 * ((2 * w + u) mod 65536)) 16)
  = Sum w (Avg t u).
Proof.
  unfold byte. intros Ht Hw Hu. unfold avg1_next.
  rewrite (Avg_div2 t u), Sum_mod by lia.
  pose proof (Z.mod_pos_bound x 65536 ltac:(lia)) as Hx.
  rewrite (Z.mod_small (2 * w + u)) by lia.
  rewrite (Z.shiftr_div_pow2 _ 16) by lia. change (2 ^ 16) with 65536.
  replace ((x mod 65536 + 65536 * (2 * w + u)) / 65536) with (2 * w + u)
    by (Z.div_mod_to_equations; lia).
  rewrite u32_small by lia.
  rewrite land255, Z.shiftr_div_pow2 by lia. change (2 ^ 1) with 2.
  Z.div_mod_to_equations. lia.
Qed.

Local Opaque W16.

Lemma sse2_avg8_bpp1_block : forall (s : mem * Z * ptr * Z) m p u,
  (let '(m, p, u, _) := s in (m, p, u)) = (m, p, Some u) ->
  (let '(m, p, _, t0) := s in ld m p = Some t0) ->
  Forall byte m ->
  0 <= u -> u + Z.of_nat 8 + Z.of_nat 0 <= p -> p + Z.of_nat 8 + Z.of_nat 1 <= len m ->
  True ->
  exists s' m',
    sse2_avg8_bpp1 s = Some s' /\
    (let '(m, p, u, _) := s' in (m, p, u)) = (m', p + Z.of_nat 8, Some (u + Z.of_nat 8)) /\
    (let '(m, p, _, t0) := s' in ld m p = Some t0) /\
    iter 8 (avg_step 1) (m, p, Some u) = Some (m', p + Z.of_nat 8, Some (u + Z.of_nat 8)) /\
    len m' = len m /\
    Forall byte m'.
Proof.
  intros [[[m0 p0] u0] t0] m p u Hv Hc Hm Hu Hup Hl _.
  injection Hv as E1 E2 E3. subst m0 p0 u0.
  destruct (frame2_split m u p 8 (8 + 1))
    as (pre & U & mid & W & post & -> & Hpre & HU & HW & Hp); [lia | lia | lia |].
  symmetry in Hpre.
  rewrite (ld_frame2_0 pre U mid W post p Hp) in Hc by lia. injection Hc as <-.
  pose proof (avg_iter 1 8 pre U mid W post p u Hp Hpre ltac:(lia) HU HW) as IT.
  exists (frame2 pre U mid (avg_win 1 8 U W) post, p + Z.of_nat 8, Some (u + Z.of_nat 8),
          nth 8 (avg_win 1 8 U W) 0),
         (frame2 pre U mid (avg_win 1 8 U W) post).
  split; [|split; [reflexivity|split; [|split; [exact IT|split]]]].
  - frame_bytes Hm. explode U HU. explode W HW.
    split_bytes.
    change (Z.of_nat 8) with 8.
    unfold sse2_avg8_bpp1. cbv zeta.
    rewrite (lduv_frame2 pre _ mid _ post u Hpre 8 0) by sc2.
    rewrite (loadl_frame2 pre _ mid _ post p Hp 1) by sc2.
    wcompute. w16.
    rewrite !cvtsi128_W16.
    rewrite ?avg1_lo by byte_el. rewrite ?avg1_hi by byte_el.
    rewrite ?avg1_lo by byte_el. rewrite ?avg1_hi by byte_el.
    rewrite ?u8_Sum.
    rewrite (st_frame2 pre _ mid _ post p Hp 1) by sc2. wcompute.
    rewrite (st_frame2 pre _ mid _ post p Hp 2) by sc2. wcompute.
    rewrite (st_frame2 pre _ mid _ post p Hp 3) by sc2. wcompute.
    rewrite (st_frame2 pre _ mid _ post p Hp 4) by sc2. wcompute.
    rewrite (st_frame2 pre _ mid _ post p Hp 5) by sc2. wcompute.
    rewrite (st_frame2 pre _ mid _ post p Hp 6) by sc2. wcompute.
    rewrite (st_frame2 pre _ mid _ post p Hp 7) by sc2. wcompute.
    rewrite (st_frame2 pre _ mid _ post p Hp 8) by sc2. wcompute.
    reflexivity.
  - cbv beta iota.
    apply (ld_frame2 pre U mid _ post p Hp 8); [lia|].
    rewrite avg_win_length. simpl. lia.
  - rewrite !len_frame2. unfold len. rewrite avg_win_length. reflexivity.
  - rewrite Forall_frame2 in *. repeat split; try tauto. apply avg_win_bytes. tauto.
Qed.

Local Transparent W16.


(** * The Avg case of the SSE2 kernel *)

Lemma head_win_length g U W : length U = length W -> length (head_win g U W) = length W.
Proof. intros H. unfold head_win. apply length_zipWith. lia. Qed.

Lemma head_win_bytes g U W : Forall byte (head_win g U W).
Proof.
  unfold head_win. revert U. induction W as [|x W IH]; intros [|b U]; cbn [zipWith];
    constructor; [apply Sum_byte | apply IH].
Qed.

Lemma avg_head_mem (B : nat) (m : mem) p u :
  0 <= u -> u + Z.of_nat B <= p -> p + Z.of_nat B <= len m -> Forall byte m ->
  exists m',
    iter B (avg_head_step p (Some u)) (m, 0) = Some (m', Z.of_nat B) /\
    len m' = len m /\ Forall byte m'.
Proof.
  intros Hu Hup Hl Hm.
  destruct (frame2_split m u p B B) as (pre & U & mid & W & post & -> & Hpre & HU & HW & Hp);
    [lia | lia | lia |].
  exists (frame2 pre U mid (head_win (fun y => Z.shiftr y 1) U W) post). split; [|split].
  - apply (avg_head_iter B pre U mid W post p u 0); auto; lia.
  - rewrite !len_frame2. unfold len. rewrite head_win_length by lia. reflexivity.
  - rewrite Forall_frame2 in *. repeat split; try tauto. apply head_win_bytes.
Qed.

Lemma loadn_some (m : mem) a (n : nat) :
  0 <= a -> a + Z.of_nat n <= len m -> Forall byte m ->
  exists c, loadn m a n = Some c /\ length c = n /\ Forall byte c.
Proof.
  intros H1 H2 Hm. exists (firstn n (skipn (Z.to_nat a) m)).
  assert (E := loadn_ok m a n H1 H2). split; [exact E|]. split.
  - apply (loadn_length _ _ _ _ E).
  - apply (loadn_bytes _ _ _ _ Hm E).
Qed.

Lemma ld_some (m : mem) a :
  0 <= a -> a + 1 <= len m -> Forall byte m -> exists x, ld m a = Some x /\ byte x.
Proof.
  intros H1 H2 Hm. rewrite ld_ok by lia. eexists. split; [reflexivity|].
  rewrite Forall_forall in Hm. apply Hm. apply nth_In. unfold len in *. lia.
Qed.


(** ** The vector loops, bpp by bpp *)

Lemma firstn8_app8 (c : list Z) : length c = 8%nat -> firstn 8 (c ++ zeros 8) = c.
Proof.
  intros H. rewrite firstn_app, (firstn_all2 (n := 8) c) by lia.
  rewrite H. change (8 - 8)%nat with 0%nat. cbn [firstn]. apply app_nil_r.
Qed.

Lemma sse2_avg_vec_1 base (m : mem) p u i :
  0 <= i < 4294967296 -> 0 <= u -> u + i <= p -> p + i + 1 <= len m ->
  Forall byte m ->
  vec_result (avg_step 1) m p u i (sse2_avg_vec 1 base m p (Some u) i).
Proof.
  intros Hi Hu Hup Hl Hm. unfold sse2_avg_vec. cbv zeta. if_chain.
  destruct (ld_some m p ltac:(lia) ltac:(lia) Hm) as (t0 & Ht & Hb).
  rewrite Ht. cbn [bind].
  assert (K1 : (1 <= 8)%nat) by lia.
  assert (B1 : u + i + Z.of_nat 0 <= p) by lia.
  assert (B2 : p + i + Z.of_nat 1 <= len m) by lia.
  destruct (vec_loop_run (mem * Z * ptr * Z)
              (fun s => let '(m, p, u, _) := s in (m, p, u))
              (fun s => let '(m, p, _, t0) := s in ld m p = Some t0)
              (fun _ => True) 8 0 1 (avg_step 1) sse2_avg8_bpp1
              K1 (fun _ _ => I) sse2_avg8_bpp1_block
              (m, p, Some u, t0) m p u i Hi eq_refl Ht Hm Hu B1 B2 I)
    as ([[[m2 p2] u2] t2] & m' & F1 & F2 & _ & F4 & F5 & F6 & _).
  injection F2 as -> -> ->.
  change (Z.of_nat 8) with 8 in *.
  unfold ptr in *. rewrite F1. cbn [bind].
  pose proof (Z.mod_pos_bound i 8 ltac:(lia)).
  assert (i mod 8 <= i) by (apply Z.mod_le; lia).
  exists m', (i mod 8). repeat split; try assumption; lia.
Qed.

Lemma vec_result_skip step (m : mem) p u i :
  0 <= i -> Forall byte m -> vec_result step m p u i (Some (i, (m, p, Some u))).
Proof.
  intros Hi Hm. exists m, i.
  replace (i - i) with 0 by lia. rewrite !Z.add_0_r.
  repeat split; try assumption; try lia.
Qed.

Lemma aligned16_step' base (B : Z) p :
  aligned16 (base + (p + B)) = true -> aligned16 (base + (p + Z.of_nat 16 + B)) = true.
Proof.
  intros A. apply (aligned16_shift _ _ A).
  replace (base + (p + Z.of_nat 16 + B) - (base + (p + B))) with 16 by lia. reflexivity.
Qed.

Lemma sse2_avg_vec_4 base (m : mem) p u i :
  16 <= i < 4294967296 -> 0 <= u -> u + i <= p -> p + i + 4 <= len m ->
  aligned16 (base + (p + 4)) = true ->
  Forall byte m ->
  vec_result (avg_step 4) m p u i (sse2_avg_vec 4 base m p (Some u) i).
Proof.
  intros Hi Hu Hup Hl A Hm. unfold sse2_avg_vec, load_u32. cbv zeta. if_chain.
  destruct (loadn_some m p 4 ltac:(lia) ltac:(lia) Hm) as (c & Hc & Lc & Bc).
  rewrite Hc. cbn [bind].
  assert (E : _mm_unpacklo_epi8 (_mm_cvtsi32_si128 (le_val c)) _mm_setzero_si128
              = W16 (c ++ [0; 0; 0; 0])).
  { explode c Lc. split_bytes. rewrite sub_init_4 by assumption.
    rewrite unpacklo_zero by wside. reflexivity. }
  rewrite E.
  assert (K1 : (1 <= 16)%nat) by lia.
  assert (B1 : u + i + Z.of_nat 0 <= p) by lia.
  assert (B2 : p + i + Z.of_nat 4 <= len m) by lia.
  assert (I0 : exists c0, loadn m p 4 = Some c0 /\ W16 (c ++ [0; 0; 0; 0]) = W16 (c0 ++ [0; 0; 0; 0]))
    by (exists c; split; [exact Hc | reflexivity]).
  destruct (vec_loop_run ustate
              (fun s => let '(m, p, u, _) := s in (m, p, u))
              (fun s => let '(m, p, _, t1) := s in
                        exists c, loadn m p 4 = Some c /\ t1 = W16 (c ++ [0; 0; 0; 0]))
              (fun p => aligned16 (base + (p + 4)) = true) 16 0 4 (avg_step 4)
              (sse2_avg16_bpp4 base)
              K1 (fun p => aligned16_step' base 4 p) (sse2_avg16_bpp4_block base)
              (m, p, Some u, W16 (c ++ [0; 0; 0; 0])) m p u i
              ltac:(lia) eq_refl I0 Hm Hu B1 B2 A)
    as ([[[m2 p2] u2] t2] & m' & F1 & F2 & _ & F4 & F5 & F6 & _).
  injection F2 as -> -> ->.
  change (Z.of_nat 16) with 16 in *.
  unfold ustate, ptr, m128i in *. rewrite F1. cbn [bind].
  pose proof (Z.mod_pos_bound i 16 ltac:(lia)).
  assert (i mod 16 <= i) by (apply Z.mod_le; lia).
  exists m', (i mod 16). repeat split; try assumption; lia.
Qed.

Lemma sse2_avg_vec_6 base (m : mem) p u i :
  16 <= i < 4294967296 -> 0 <= u -> u + i <= p -> p + i + 6 <= len m ->
  aligned16 (base + (p + 6)) = true ->
  Forall byte m ->
  vec_result (avg_step 6) m p u i (sse2_avg_vec 6 base m p (Some u) i).
Proof.
  intros Hi Hu Hup Hl A Hm. unfold sse2_avg_vec, _mm_loadl_epi64. cbv zeta. if_chain.
  destruct (loadn_some m p 8 ltac:(lia) ltac:(lia) Hm) as (c & Hc & Lc & Bc).
  rewrite Hc. cbn [bind].
  assert (K1 : (1 <= 16)%nat) by lia.
  assert (B1 : u + i + Z.of_nat 0 <= p) by lia.
  assert (B2 : p + i + Z.of_nat 6 <= len m) by lia.
  assert (I0 : exists c0 J, loadn m p 6 = Some c0 /\ c ++ zeros 8 = c0 ++ J /\
                            length J = 10%nat /\ Forall byte J).
  { exists (firstn 6 c), (skipn 6 c ++ zeros 8). split; [|split; [|split]].
    - apply (loadn_firstn m p 8 6 c); [lia | exact Hc].
    - rewrite app_assoc, firstn_skipn. reflexivity.
    - rewrite length_app, length_skipn, Lc. reflexivity.
    - apply Forall_app. split; [apply bytes_skipn; exact Bc|].
      repeat constructor; apply byte_0. }
  destruct (vec_loop_run ustate
              (fun s => let '(m, p, u, _) := s in (m, p, u))
              (fun s => let '(m, p, _, t1) := s in
                        exists c J, loadn m p 6 = Some c /\ t1 = c ++ J /\
                                    length J = 10%nat /\ Forall byte J)
              (fun p => aligned16 (base + (p + 6)) = true) 16 0 6 (avg_step 6)
              (sse2_avg16_bpp6 base)
              K1 (fun p => aligned16_step' base 6 p) (sse2_avg16_bpp6_block base)
              (m, p, Some u, c ++ zeros 8) m p u i
              ltac:(lia) eq_refl I0 Hm Hu B1 B2 A)
    as ([[[m2 p2] u2] t2] & m' & F1 & F2 & _ & F4 & F5 & F6 & _).
  injection F2 as -> -> ->.
  change (Z.of_nat 16) with 16 in *.
  unfold ustate, ptr, m128i in *. rewrite F1. cbn [bind].
  pose proof (Z.mod_pos_bound i 16 ltac:(lia)).
  assert (i mod 16 <= i) by (apply Z.mod_le; lia).
  exists m', (i mod 16). repeat split; try assumption; lia.
Qed.

Lemma sse2_avg_vec_8 base (m : mem) p u i :
  16 <= i < 4294967296 -> 0 <= u -> u + i <= p -> p + i + 8 <= len m ->
  aligned16 (base + (p + 8)) = true ->
  Forall byte m ->
  vec_result (avg_step 8) m p u i (sse2_avg_vec 8 base m p (Some u) i).
Proof.
  intros Hi Hu Hup Hl A Hm. unfold sse2_avg_vec, _mm_loadl_epi64. cbv zeta. if_chain.
  destruct (loadn_some m p 8 ltac:(lia) ltac:(lia) Hm) as (c & Hc & Lc & Bc).
  rewrite Hc. cbn [bind].
  assert (E : _mm_unpacklo_epi8 (c ++ zeros 8) _mm_setzero_si128 = W16 c).
  { rewrite unpacklo_zero.
    - rewrite firstn8_app8 by exact Lc. reflexivity.
    - rewrite length_app, Lc. reflexivity.
    - apply Forall_app. split; [exact Bc | repeat constructor; apply byte_0]. }
  rewrite E.
  assert (K1 : (1 <= 16)%nat) by lia.
  assert (B1 : u + i + Z.of_nat 0 <= p) by lia.
  assert (B2 : p + i + Z.of_nat 8 <= len m) by lia.
  assert (I0 : exists c0, loadn m p 8 = Some c0 /\ W16 c = W16 c0)
    by (exists c; split; [exact Hc | reflexivity]).
  destruct (vec_loop_run ustate
              (fun s => let '(m, p, u, _) := s in (m, p, u))
              (fun s => let '(m, p, _, t1) := s in
                        exists c, loadn m p 8 = Some c /\ t1 = W16 c)
              (fun p => aligned16 (base + (p + 8)) = true) 16 0 8 (avg_step 8)
              (sse2_avg16_bpp8 base)
              K1 (fun p => aligned16_step' base 8 p) (sse2_avg16_bpp8_block base)
              (m, p, Some u, W16 c) m p u i
              ltac:(lia) eq_refl I0 Hm Hu B1 B2 A)
    as ([[[m2 p2] u2] t2] & m' & F1 & F2 & _ & F4 & F5 & F6 & _).
  injection F2 as -> -> ->.
  change (Z.of_nat 16) with 16 in *.
  unfold ustate, ptr, m128i in *. rewrite F1. cbn [bind].
  pose proof (Z.mod_pos_bound i 16 ltac:(lia)).
  assert (i mod 16 <= i) by (apply Z.mod_le; lia).
  exists m', (i mod 16). repeat split; try assumption; lia.
Qed.

Lemma sse2_avg_vec_ok (B : nat) base (m : mem) p u i :
  In B [1; 2; 3; 4; 6; 8]%nat ->
  16 <= i < 4294967296 -> 0 <= u -> u + i <= p -> p + i + Z.of_nat B <= len m ->
  aligned16 (base + (p + Z.of_nat B)) = true ->
  Forall byte m ->
  vec_result (avg_step (Z.of_nat B)) m p u i (sse2_avg_vec (Z.of_nat B) base m p (Some u) i).
Proof.
  intros HB Hi Hu Hup Hl A Hm.
  destruct HB as [<-|[<-|[<-|[<-|[<-|[<-|[]]]]]]].
  - apply sse2_avg_vec_1; try assumption; lia.
  - apply vec_result_skip; [lia | assumption].
  - apply vec_result_skip; [lia | assumption].
  - apply sse2_avg_vec_4; assumption.
  - apply sse2_avg_vec_6; assumption.
  - apply sse2_avg_vec_8; assumption.
Qed.

(** ** The Avg case is the scalar code of the reference *)

Lemma sse2_avg_ok (B : nat) base bpl (m : mem) p u :
  In B [1; 2; 3; 4; 6; 8]%nat ->
  Z.of_nat B <= bpl < 4294967296 ->
  0 <= u -> u + bpl <= p -> p + bpl <= len m -> Forall byte m ->
  sse2_avg (Z.of_nat B) base bpl (m, p, Some u)
  = ('(m, _) <- iter B (avg_head_step p (Some u)) (m, 0) ;;
     '(m, p, u) <- iter (Z.to_nat (u32 (bpl - Z.of_nat B))) (avg_step (Z.of_nat B))
                     (m, p, padd (Some u) (Z.of_nat B)) ;;
     Some (m, p + Z.of_nat B, u)).
Proof.
  intros HB Hbpl Hu Hup Hl Hm.
  assert (B1 : (1 <= B)%nat) by (simpl in HB; lia).
  unfold sse2_avg. rewrite Nat2Z.id.
  destruct (avg_head_mem B m p u Hu ltac:(lia) ltac:(lia) Hm) as (m1 & E1 & L1 & M1).
  rewrite E1. cbn [bind padd]. cbv zeta.
  rewrite (u32_small (bpl - Z.of_nat B)) by lia.
  set (i := bpl - Z.of_nat B) in *.
  destruct (Z.leb_spec 32 i) as [H32|H32]; [|reflexivity].
  set (j := OptAlignDiff (base + (p + Z.of_nat B)) 16).
  pose proof (OptAlignDiff_range (base + (p + Z.of_nat B))) as Hj. fold j in Hj.
  pose proof (aligned16_head (base + (p + Z.of_nat B))) as A. fold j in A.
  rewrite (u32_small (i - j)) by lia.
  destruct (avg_iter_mem B (Z.to_nat j) m1 p (u + Z.of_nat B) B1
              ltac:(lia) ltac:(lia) ltac:(lia) M1) as (m2 & E2 & L2 & M2).
  rewrite Z2Nat.id in E2 by lia.
  assert (A1 : aligned16 (base + (p + j + Z.of_nat B)) = true).
  { apply (aligned16_shift _ _ A). replace (_ - _) with 0 by lia. reflexivity. }
  destruct (sse2_avg_vec_ok B base m2 (p + j) (u + Z.of_nat B + j) (i - j) HB
              ltac:(lia) ltac:(lia) ltac:(lia) ltac:(lia) A1 M2)
    as (m3 & r & F1 & F2 & F3 & F4 & F5).
  unfold ptr in *.
  rewrite E2. cbn [bind]. rewrite F1. cbn [bind].
  replace (Z.to_nat i) with (Z.to_nat j + (Z.to_nat (i - j - r) + Z.to_nat r))%nat by lia.
  rewrite iter_add, E2. cbn [bind]. rewrite iter_add, F3. cbn [bind]. reflexivity.
Qed.


(** * The vector blocks of the Paeth filter *)

Lemma paeth_win_length P bpp n : forall U W, length (paeth_win P bpp n U W) = length W.
Proof.
  induction n as [|n IH]; intros U W; destruct U as [|b U], W as [|x W];
    cbn [paeth_win length]; try reflexivity.
  rewrite IH, length_upd_nth. reflexivity.
Qed.

Lemma paeth_win_bytes P bpp n : forall U W,
  Forall byte W -> Forall byte (paeth_win P bpp n U W).
Proof.
  induction n as [|n IH]; intros U W HW; destruct U as [|b U], W as [|x W];
    cbn [paeth_win]; try assumption.
  inversion HW; subst. constructor; [assumption|].
  apply IH. apply Forall_upd_nth; [assumption|]. intros y. apply Sum_byte.
Qed.

(** The scalar loop on any buffer. *)
Lemma paeth_iter_mem P (bpp n : nat) (m : mem) p u :
  (1 <= bpp)%nat ->
  0 <= u -> u + Z.of_nat n + Z.of_nat bpp <= p -> p + Z.of_nat n + Z.of_nat bpp <= len m ->
  Forall byte m ->
  exists m',
    iter n (paeth_step P (Z.of_nat bpp)) (m, p, Some u)
    = Some (m', p + Z.of_nat n, Some (u + Z.of_nat n)) /\
    len m' = len m /\ Forall byte m'.
Proof.
  intros Hb Hu Hup Hl Hm.
  destruct (frame2_split m u p (n + bpp) (n + bpp))
    as (pre & U & mid & W & post & -> & Hpre & HU & HW & Hp); [lia | lia | lia |].
  exists (frame2 pre U mid (paeth_win P bpp n U W) post). split; [|split].
  - apply paeth_iter; auto.
  - rewrite !len_frame2. unfold len. rewrite paeth_win_length. reflexivity.
  - rewrite Forall_frame2 in *. repeat split; try tauto. apply paeth_win_bytes. tauto.
Qed.

Lemma paeth_lane w a b c :
  byte a -> byte b -> byte c ->
  (w + paeth16 a b c) mod 256 = Sum w (PaethOpt a b c).
Proof. intros Ha Hb Hc. rewrite paeth16_PaethOpt by assumption. symmetry. apply Sum_mod. Qed.

Lemma paeth_lane' w a b c :
  byte a -> byte b -> byte c ->
  (paeth16 a b c + w) mod 256 = Sum w (PaethOpt a b c).
Proof. intros Ha Hb Hc. rewrite Z.add_comm. apply paeth_lane; assumption. Qed.

Lemma land_65535 x : byte x -> Z.land x 65535 = x.
Proof.
  unfold byte. intros H. change 65535 with (Z.ones 16). rewrite Z.land_ones by lia.
  apply Z.mod_small. lia.
Qed.

Lemma add0_mod w : byte w -> (w + 0) mod 256 = w.
Proof. unfold byte. intros H. rewrite Z.add_0_r. apply Z.mod_small. exact H. Qed.

Lemma setr_mask3 :
  _mm_setr_epi32 4294967295 65535 0 0 = W16 [65535; 65535; 65535; 0; 0; 0; 0; 0].
Proof. reflexivity. Qed.

Lemma setr_mask4 :
  _mm_setr_epi32 4294967295 4294967295 0 0 = W16 [65535; 65535; 65535; 65535; 0; 0; 0; 0].
Proof. reflexivity. Qed.

Ltac paeth_lanes :=
  rewrite ?Z.land_0_r;
  rewrite ?land_65535 by byte_el;
  rewrite ?add0_mod by byte_el;
  rewrite ?paeth_lane by byte_el;
  rewrite ?paeth_lane' by byte_el;
  rewrite ?add0_mod by byte_el;
  rewrite ?paeth_lane by byte_el;
  rewrite ?paeth_lane' by byte_el.

Local Opaque W16.

Lemma sse2_paeth16_bpp8_block base : forall (s : pstate) m p u,
  (let '(m, p, u, _, _) := s in (m, p, u)) = (m, p, Some u) ->
  (let '(m, p, u, pz, uz) := s in
   exists c d, loadn m p 8 = Some c /\ lduv 8 m u 0 = Some d /\ pz = W16 c /\ uz = W16 d) ->
  Forall byte m ->
  0 <= u -> u + Z.of_nat 16 + Z.of_nat 8 <= p -> p + Z.of_nat 16 + Z.of_nat 8 <= len m ->
  aligned16 (base + (p + 8)) = true ->
  exists s' m',
    sse2_paeth16_bpp8 base s = Some s' /\
    (let '(m, p, u, _, _) := s' in (m, p, u)) = (m', p + Z.of_nat 16, Some (u + Z.of_nat 16)) /\
    (let '(m, p, u, pz, uz) := s' in
     exists c d, loadn m p 8 = Some c /\ lduv 8 m u 0 = Some d /\ pz = W16 c /\ uz = W16 d) /\
    iter 16 (paeth_step PaethOpt 8) (m, p, Some u)
    = Some (m', p + Z.of_nat 16, Some (u + Z.of_nat 16)) /\
    len m' = len m /\
    Forall byte m'.
Proof.
  intros [[[[m0 p0] u0] pz] uz] m p u Hv (c & d & Hc & Hd & -> & ->) Hm Hu Hup Hl A.
  injection Hv as E1 E2 E3. subst m0 p0 u0.
  destruct (frame2_split m u p (16 + 8) (16 + 8))
    as (pre & U & mid & W & post & -> & Hpre & HU & HW & Hp); [lia | lia | lia |].
  symmetry in Hpre.
  rewrite (loadn_frame2_0 pre U mid W post p Hp) in Hc by lia. injection Hc as <-.
  rewrite (lduv_frame2 pre U mid W post u Hpre 8 0) in Hd by (simpl; lia).
  injection Hd as <-.
  pose proof (paeth_iter PaethOpt 8 16 pre U mid W post p u Hp Hpre ltac:(lia) HU HW) as IT.
  assert (LW : len (frame2 pre U mid (paeth_win PaethOpt 8 16 U W) post)
               = len (frame2 pre U mid W post))
    by (rewrite !len_frame2; unfold len; rewrite paeth_win_length; reflexivity).
  assert (BW : Forall byte (frame2 pre U mid (paeth_win PaethOpt 8 16 U W) post))
    by (rewrite Forall_frame2 in *; repeat split; try tauto; apply paeth_win_bytes; tauto).
  frame_bytes Hm. explode U HU. explode W HW. split_bytes.
  change (Z.of_nat 16) with 16 in *.
  eexists (_, _, _, _, _), _.
  split; [|split; [reflexivity|split; [|split; [exact IT|split; [exact LW | exact BW]]]]].
  - unfold sse2_paeth16_bpp8. cbv zeta.
    rewrite (load_si128_frame2 pre _ mid _ post p Hp base 8) by sc2.
    rewrite (lduv_frame2 pre _ mid _ post u Hpre 16 8) by sc2.
    wcompute. w16.
    rewrite (store_si128_frame2 pre _ mid _ post p Hp base 8) by sc2.
    wcompute.
    paeth_lanes.
    reflexivity.
  - cbv beta iota.
    eexists. eexists. split; [|split; [|split]].
    + apply (loadn_frame2 pre _ mid _ post p Hp 16 8); [lia|].
      rewrite paeth_win_length. simpl. lia.
    + apply (lduv_frame2_at pre _ mid _ post u Hpre 8 16); sc2.
    + reflexivity.
    + reflexivity.
Qed.

Lemma sse2_paeth16_bpp4_block base : forall (s : pstate) m p u,
  (let '(m, p, u, _, _) := s in (m, p, u)) = (m, p, Some u) ->
  (let '(m, p, u, pz, uz) := s in
   exists c d J, loadn m p 4 = Some c /\ lduv 4 m u 0 = Some d /\
                 pz = W16 (c ++ [0; 0; 0; 0]) /\ uz = W16 (d ++ J) /\
                 length J = 4%nat /\ Forall byte J) ->
  Forall byte m ->
  0 <= u -> u + Z.of_nat 16 + Z.of_nat 4 <= p -> p + Z.of_nat 16 + Z.of_nat 4 <= len m ->
  aligned16 (base + (p + 4)) = true ->
  exists s' m',
    sse2_paeth16_bpp4 base s = Some s' /\
    (let '(m, p, u, _, _) := s' in (m, p, u)) = (m', p + Z.of_nat 16, Some (u + Z.of_nat 16)) /\
    (let '(m, p, u, pz, uz) := s' in
     exists c d J, loadn m p 4 = Some c /\ lduv 4 m u 0 = Some d /\
                   pz = W16 (c ++ [0; 0; 0; 0]) /\ uz = W16 (d ++ J) /\
                   length J = 4%nat /\ Forall byte J) /\
    iter 16 (paeth_step PaethOpt 4) (m, p, Some u)
    = Some (m', p + Z.of_nat 16, Some (u + Z.of_nat 16)) /\
    len m' = len m /\
    Forall byte m'.
Proof.
  intros [[[[m0 p0] u0] pz] uz] m p u Hv (c & d & J & Hc & Hd & -> & -> & HJ & HJb)
    Hm Hu Hup Hl A.
  injection Hv as E1 E2 E3. subst m0 p0 u0.
  destruct (frame2_split m u p (16 + 4) (16 + 4))
    as (pre & U & mid & W & post & -> & Hpre & HU & HW & Hp); [lia | lia | lia |].
  symmetry in Hpre.
  rewrite (loadn_frame2_0 pre U mid W post p Hp) in Hc by lia. injection Hc as <-.
  rewrite (lduv_frame2 pre U mid W post u Hpre 4 0) in Hd by (simpl; lia).
  injection Hd as <-.
  pose proof (paeth_iter PaethOpt 4 16 pre U mid W post p u Hp Hpre ltac:(lia) HU HW) as IT.
  assert (LW : len (frame2 pre U mid (paeth_win PaethOpt 4 16 U W) post)
               = len (frame2 pre U mid W post))
    by (rewrite !len_frame2; unfold len; rewrite paeth_win_length; reflexivity).
  assert (BW : Forall byte (frame2 pre U mid (paeth_win PaethOpt 4 16 U W) post))
    by (rewrite Forall_frame2 in *; repeat split; try tauto; apply paeth_win_bytes; tauto).
  frame_bytes Hm. explode U HU. explode W HW. explode J HJ. split_bytes.
  change (Z.of_nat 16) with 16 in *.
  eexists (_, _, _, _, _), _.
  split; [|split; [reflexivity|split; [|split; [exact IT|split; [exact LW | exact BW]]]]].
  - unfold sse2_paeth16_bpp4. cbv zeta.
    rewrite (load_si128_frame2 pre _ mid _ post p Hp base 4) by sc2.
    rewrite (lduv_frame2 pre _ mid _ post u Hpre 16 4) by sc2.
    rewrite setr_mask4.
    wcompute. w16.
    rewrite (store_si128_frame2 pre _ mid _ post p Hp base 4) by sc2.
    wcompute.
    paeth_lanes.
    reflexivity.
  - cbv beta iota.
    eexists. eexists. eexists. split; [|split; [|split; [|split; [|split]]]].
    + apply (loadn_frame2 pre _ mid _ post p Hp 16 4); [lia|].
      rewrite paeth_win_length. simpl. lia.
    + apply (lduv_frame2_at pre _ mid _ post u Hpre 4 16); sc2.
    + reflexivity.
    + reflexivity.
    + reflexivity.
    + wbytes.
Qed.

Lemma sse2_paeth16_bpp6_block base : forall (s : pstate) m p u,
  (let '(m, p, u, _, _) := s in (m, p, u)) = (m, p, Some u) ->
  (let '(m, p, u, pz, uz) := s in
   exists c d J1 J2, loadn m p 6 = Some c /\ lduv 6 m u 0 = Some d /\
                     pz = W16 (c ++ J1) /\ uz = W16 (d ++ J2) /\
                     length J1 = 2%nat /\ length J2 = 2%nat /\
                     Forall byte J1 /\ Forall byte J2) ->
  Forall byte m ->
  0 <= u -> u + Z.of_nat 16 + Z.of_nat 6 <= p -> p + Z.of_nat 16 + Z.of_nat 6 <= len m ->
  aligned16 (base + (p + 6)) = true ->
  exists s' m',
    sse2_paeth16_bpp6 base s = Some s' /\
    (let '(m, p, u, _, _) := s' in (m, p, u)) = (m', p + Z.of_nat 16, Some (u + Z.of_nat 16)) /\
    (let '(m, p, u, pz, uz) := s' in
     exists c d J1 J2, loadn m p 6 = Some c /\ lduv 6 m u 0 = Some d /\
                       pz = W16 (c ++ J1) /\ uz = W16 (d ++ J2) /\
                       length J1 = 2%nat /\ length J2 = 2%nat /\
                       Forall byte J1 /\ Forall byte J2) /\
    iter 16 (paeth_step PaethOpt 6) (m, p, Some u)
    = Some (m', p + Z.of_nat 16, Some (u + Z.of_nat 16)) /\
    len m' = len m /\
    Forall byte m'.
Proof.
  intros [[[[m0 p0] u0] pz] uz] m p u Hv
    (c & d & J1 & J2 & Hc & Hd & -> & -> & HJ1 & HJ2 & HJ1b & HJ2b) Hm Hu Hup Hl A.
  injection Hv as E1 E2 E3. subst m0 p0 u0.
  destruct (frame2_split m u p (16 + 6) (16 + 6))
    as (pre & U & mid & W & post & -> & Hpre & HU & HW & Hp); [lia | lia | lia |].
  symmetry in Hpre.
  rewrite (loadn_frame2_0 pre U mid W post p Hp) in Hc by lia. injection Hc as <-.
  rewrite (lduv_frame2 pre U mid W post u Hpre 6 0) in Hd by (simpl; lia).
  injection Hd as <-.
  pose proof (paeth_iter PaethOpt 6 16 pre U mid W post p u Hp Hpre ltac:(lia) HU HW) as IT.
  assert (LW : len (frame2 pre U mid (paeth_win PaethOpt 6 16 U W) post)
               = len (frame2 pre U mid W post))
    by (rewrite !len_frame2; unfold len; rewrite paeth_win_length; reflexivity).
  assert (BW : Forall byte (frame2 pre U mid (paeth_win PaethOpt 6 16 U W) post))
    by (rewrite Forall_frame2 in *; repeat split; try tauto; apply paeth_win_bytes; tauto).
  frame_bytes Hm. explode U HU. explode W HW. explode J1 HJ1. explode J2 HJ2. split_bytes.
  change (Z.of_nat 16) with 16 in *.
  eexists (_, _, _, _, _), _.
  split; [|split; [reflexivity|split; [|split; [exact IT|split; [exact LW | exact BW]]]]].
  - unfold sse2_paeth16_bpp6. cbv zeta.
    rewrite (load_si128_frame2 pre _ mid _ post p Hp base 6) by sc2.
    rewrite (lduv_frame2 pre _ mid _ post u Hpre 16 6) by sc2.
    wcompute. w16.
    rewrite ?Z.lor_0_r, ?Z.lor_0_l.
    rewrite (store_si128_frame2 pre _ mid _ post p Hp base 6) by sc2.
    wcompute.
    paeth_lanes.
    reflexivity.
  - cbv beta iota.
    eexists. eexists. eexists. eexists.
    split; [|split; [|split; [|split; [|split; [|split; [|split]]]]]].
    + apply (loadn_frame2 pre _ mid _ post p Hp 16 6); [lia|].
      rewrite paeth_win_length. simpl. lia.
    + apply (lduv_frame2_at pre _ mid _ post u Hpre 6 16); sc2.
    + reflexivity.
    + reflexivity.
    + reflexivity.
    + reflexivity.
    + wbytes.
    + wbytes.
Qed.

Lemma sse2_paeth8_bpp3_block : forall (s : pstate) m p u,
  (let '(m, p, u, _, _) := s in (m, p, u)) = (m, p, Some u) ->
  (let '(m, p, u, pz, uz) := s in
   exists c d, loadn m p 3 = Some c /\ lduv 3 m u 0 = Some d /\
               pz = W16 (c ++ [0; 0; 0; 0; 0]) /\ uz = W16 (d ++ [0; 0; 0; 0; 0])) ->
  Forall byte m ->
  0 <= u -> u + Z.of_nat 8 + Z.of_nat 3 <= p -> p + Z.of_nat 8 + Z.of_nat 3 <= len m ->
  True ->
  exists s' m',
    sse2_paeth8_bpp3 s = Some s' /\
    (let '(m, p, u, _, _) := s' in (m, p, u)) = (m', p + Z.of_nat 8, Some (u + Z.of_nat 8)) /\
    (let '(m, p, u, pz, uz) := s' in
     exists c d, loadn m p 3 = Some c /\ lduv 3 m u 0 = Some d /\
                 pz = W16 (c ++ [0; 0; 0; 0; 0]) /\ uz = W16 (d ++ [0; 0; 0; 0; 0])) /\
    iter 8 (paeth_step PaethOpt 3) (m, p, Some u)
    = Some (m', p + Z.of_nat 8, Some (u + Z.of_nat 8)) /\
    len m' = len m /\
    Forall byte m'.
Proof.
  intros [[[[m0 p0] u0] pz] uz] m p u Hv (c & d & Hc & Hd & -> & ->) Hm Hu Hup Hl _.
  injection Hv as E1 E2 E3. subst m0 p0 u0.
  destruct (frame2_split m u p (8 + 3) (8 + 3))
    as (pre & U & mid & W & post & -> & Hpre & HU & HW & Hp); [lia | lia | lia |].
  symmetry in Hpre.
  rewrite (loadn_frame2_0 pre U mid W post p Hp) in Hc by lia. injection Hc as <-.
  rewrite (lduv_frame2 pre U mid W post u Hpre 3 0) in Hd by (simpl; lia).
  injection Hd as <-.
  pose proof (paeth_iter PaethOpt 3 8 pre U mid W post p u Hp Hpre ltac:(lia) HU HW) as IT.
  assert (LW : len (frame2 pre U mid (paeth_win PaethOpt 3 8 U W) post)
               = len (frame2 pre U mid W post))
    by (rewrite !len_frame2; unfold len; rewrite paeth_win_length; reflexivity).
  assert (BW : Forall byte (frame2 pre U mid (paeth_win PaethOpt 3 8 U W) post))
    by (rewrite Forall_frame2 in *; repeat split; try tauto; apply paeth_win_bytes; tauto).
  frame_bytes Hm. explode U HU. explode W HW. split_bytes.
  change (Z.of_nat 8) with 8 in *.
  eexists (_, _, _, _, _), _.
  split; [|split; [reflexivity|split; [|split; [exact IT|split; [exact LW | exact BW]]]]].
  - unfold sse2_paeth8_bpp3, _mm_storel_epi64. cbv zeta.
    rewrite (lduv_frame2 pre _ mid _ post u Hpre 8 3) by sc2.
    rewrite (loadl_frame2 pre _ mid _ post p Hp 3) by sc2.
    rewrite setr_mask3.
    wcompute. w16.
    rewrite (storen_frame2 pre _ mid _ post p Hp 3) by sc2.
    wcompute.
    paeth_lanes.
    reflexivity.
  - cbv beta iota.
    eexists. eexists. split; [|split; [|split]].
    + apply (loadn_frame2 pre _ mid _ post p Hp 8 3); [lia|].
      rewrite paeth_win_length. simpl. lia.
    + apply (lduv_frame2_at pre _ mid _ post u Hpre 3 8); sc2.
    + reflexivity.
    + reflexivity.
Qed.

Local Transparent W16.


(** * The Paeth case of the SSE2 kernel *)

(** ** The two predictors give the same row *)

Lemma nth_byte (l : list Z) k : Forall byte l -> byte (nth k l 0).
Proof.
  intros H. revert k. induction H as [|x l Hx _ IH]; intros [|k]; cbn [nth];
    auto using byte_0.
Qed.

Lemma upd_nth_ext_all k : forall (W : list Z) f g,
  (forall y, f y = g y) -> upd_nth k W f = upd_nth k W g.
Proof. intros W f g H. apply upd_nth_ext. apply H. Qed.

Lemma paeth_win_Opt_Ref bpp n : forall U W,
  Forall byte U -> Forall byte W ->
  paeth_win PaethOpt bpp n U W = paeth_win PaethRef bpp n U W.
Proof.
  induction n as [|n IH]; intros U W HU HW; [reflexivity|].
  destruct U as [|c U]; [reflexivity|]. destruct W as [|x W]; [reflexivity|].
  cbn [paeth_win]. inversion HU; subst. inversion HW; subst.
  rewrite (upd_nth_ext_all _ W
             (fun y => Sum y (PaethOpt x (nth (Nat.pred bpp) U 0) c))
             (fun y => Sum y (PaethRef x (nth (Nat.pred bpp) U 0) c))).
  - f_equal. apply IH; [assumption|].
    apply Forall_upd_nth; [assumption|]. intros y. apply Sum_byte.
  - intros y. rewrite PaethOpt_Ref; auto using nth_byte.
Qed.

Lemma paeth_iter_Opt_Ref (bpp n : nat) (m : mem) p u :
  (1 <= bpp)%nat ->
  0 <= u -> u + Z.of_nat n + Z.of_nat bpp <= p -> p + Z.of_nat n + Z.of_nat bpp <= len m ->
  Forall byte m ->
  iter n (paeth_step PaethOpt (Z.of_nat bpp)) (m, p, Some u)
  = iter n (paeth_step PaethRef (Z.of_nat bpp)) (m, p, Some u).
Proof.
  intros Hb Hu Hup Hl Hm.
  destruct (frame2_split m u p (n + bpp) (n + bpp))
    as (pre & U & mid & W & post & -> & Hpre & HU & HW & Hp); [lia | lia | lia |].
  symmetry in Hpre.
  eapply eq_trans; [apply (paeth_iter PaethOpt bpp n pre U mid W post p u); auto|].
  symmetry.
  eapply eq_trans; [apply (paeth_iter PaethRef bpp n pre U mid W post p u); auto|].
  rewrite Forall_frame2 in Hm.
  rewrite paeth_win_Opt_Ref by tauto. reflexivity.
Qed.

Lemma paeth_head_mem (B : nat) (m : mem) p u :
  0 <= u -> u + Z.of_nat B <= p -> p + Z.of_nat B <= len m -> Forall byte m ->
  exists m',
    iter B (paeth_head_step p (Some u)) (m, 0) = Some (m', Z.of_nat B) /\
    len m' = len m /\ Forall byte m'.
Proof.
  intros Hu Hup Hl Hm.
  destruct (frame2_split m u p B B) as (pre & U & mid & W & post & -> & Hpre & HU & HW & Hp);
    [lia | lia | lia |].
  exists (frame2 pre U mid (head_win (fun y => y) U W) post). split; [|split].
  - apply (paeth_head_iter B pre U mid W post p u 0); auto; lia.
  - rewrite !len_frame2. unfold len. rewrite head_win_length by lia. reflexivity.
  - rewrite Forall_frame2 in *. repeat split; try tauto. apply head_win_bytes.
Qed.

Lemma lduv_some (m : mem) u (n : nat) :
  0 <= u -> u + Z.of_nat n <= len m -> Forall byte m ->
  exists d, lduv n m (Some u) 0 = Some d /\ length d = n /\ Forall byte d.
Proof.
  intros H1 H2 Hm. unfold lduv. rewrite Z.add_0_r. apply loadn_some; assumption.
Qed.

Lemma lduv_firstn m u n k l :
  (k <= n)%nat -> lduv n m (Some u) 0 = Some l -> lduv k m (Some u) 0 = Some (firstn k l).
Proof. unfold lduv. apply loadn_firstn. Qed.

(** ** The vector loops, bpp by bpp *)

Lemma unpacklo_8 (c : list Z) :
  length c = 8%nat -> Forall byte c ->
  _mm_unpacklo_epi8 (c ++ zeros 8) _mm_setzero_si128 = W16 c.
Proof.
  intros Lc Bc. rewrite unpacklo_zero.
  - rewrite firstn8_app8 by exact Lc. reflexivity.
  - rewrite length_app, Lc. reflexivity.
  - apply Forall_app. split; [exact Bc | repeat constructor; apply byte_0].
Qed.

Lemma sse2_paeth_vec_8 base (m : mem) p u i :
  16 <= i < 4294967296 -> 0 <= u -> u + i + 8 <= p -> p + i + 8 <= len m ->
  aligned16 (base + (p + 8)) = true ->
  Forall byte m ->
  vec_result (paeth_step PaethOpt 8) m p u i (sse2_paeth_vec 8 base m p (Some u) i).
Proof.
  intros Hi Hu Hup Hl A Hm. unfold sse2_paeth_vec, _mm_loadl_epi64. cbv zeta. if_chain.
  destruct (loadn_some m p 8 ltac:(lia) ltac:(lia) Hm) as (c & Hc & Lc & Bc).
  destruct (lduv_some m u 8 ltac:(lia) ltac:(lia) Hm) as (d & Hd & Ld & Bd).
  rewrite Hc. cbn [bind]. rewrite Hd. cbn [bind].
  rewrite !unpacklo_8 by assumption.
  assert (K1 : (1 <= 16)%nat) by lia.
  assert (B1 : u + i + Z.of_nat 8 <= p) by lia.
  assert (B2 : p + i + Z.of_nat 8 <= len m) by lia.
  assert (I0 : exists c0 d0, loadn m p 8 = Some c0 /\ lduv 8 m (Some u) 0 = Some d0 /\
                             W16 c = W16 c0 /\ W16 d = W16 d0)
    by (exists c, d; repeat split; assumption).
  destruct (vec_loop_run pstate
              (fun s => let '(m, p, u, _, _) := s in (m, p, u))
              (fun s => let '(m, p, u, pz, uz) := s in
                        exists c d, loadn m p 8 = Some c /\ lduv 8 m u 0 = Some d /\
                                    pz = W16 c /\ uz = W16 d)
              (fun p => aligned16 (base + (p + 8)) = true) 16 8 8 (paeth_step PaethOpt 8)
              (sse2_paeth16_bpp8 base)
              K1 (fun p => aligned16_step' base 8 p) (sse2_paeth16_bpp8_block base)
              (m, p, Some u, W16 c, W16 d) m p u i
              ltac:(lia) eq_refl I0 Hm Hu B1 B2 A)
    as ([[[[m2 p2] u2] pz2] uz2] & m' & F1 & F2 & _ & F4 & F5 & F6 & _).
  injection F2 as -> -> ->.
  change (Z.of_nat 16) with 16 in *.
  unfold pstate, ptr, m128i in *. rewrite F1. cbn [bind].
  pose proof (Z.mod_pos_bound i 16 ltac:(lia)).
  assert (i mod 16 <= i) by (apply Z.mod_le; lia).
  exists m', (i mod 16). repeat split; try assumption; lia.
Qed.

Lemma sse2_paeth_vec_6 base (m : mem) p u i :
  16 <= i < 4294967296 -> 0 <= u -> u + i + 6 <= p -> p + i + 6 <= len m ->
  aligned16 (base + (p + 6)) = true ->
  Forall byte m ->
  vec_result (paeth_step PaethOpt 6) m p u i (sse2_paeth_vec 6 base m p (Some u) i).
Proof.
  intros Hi Hu Hup Hl A Hm. unfold sse2_paeth_vec, _mm_loadl_epi64. cbv zeta. if_chain.
  destruct (loadn_some m p 8 ltac:(lia) ltac:(lia) Hm) as (c & Hc & Lc & Bc).
  destruct (lduv_some m u 8 ltac:(lia) ltac:(lia) Hm) as (d & Hd & Ld & Bd).
  rewrite Hc. cbn [bind]. rewrite Hd. cbn [bind].
  rewrite !unpacklo_8 by assumption.
  assert (K1 : (1 <= 16)%nat) by lia.
  assert (B1 : u + i + Z.of_nat 6 <= p) by lia.
  assert (B2 : p + i + Z.of_nat 6 <= len m) by lia.
  assert (I0 : exists c0 d0 J1 J2,
             loadn m p 6 = Some c0 /\ lduv 6 m (Some u) 0 = Some d0 /\
             W16 c = W16 (c0 ++ J1) /\ W16 d = W16 (d0 ++ J2) /\
             length J1 = 2%nat /\ length J2 = 2%nat /\ Forall byte J1 /\ Forall byte J2).
  { exists (firstn 6 c), (firstn 6 d), (skipn 6 c), (skipn 6 d).
    rewrite !firstn_skipn, !length_skipn, Lc, Ld.
    repeat split; auto using bytes_skipn.
    - apply (loadn_firstn m p 8 6 c); [lia | exact Hc].
    - apply (lduv_firstn m u 8 6 d); [lia | exact Hd]. }
  destruct (vec_loop_run pstate
              (fun s => let '(m, p, u, _, _) := s in (m, p, u))
              (fun s => let '(m, p, u, pz, uz) := s in
                        exists c d J1 J2,
                          loadn m p 6 = Some c /\ lduv 6 m u 0 = Some d /\
                          pz = W16 (c ++ J1) /\ uz = W16 (d ++ J2) /\
                          length J1 = 2%nat /\ length J2 = 2%nat /\
                          Forall byte J1 /\ Forall byte J2)
              (fun p => aligned16 (base + (p + 6)) = true) 16 6 6 (paeth_step PaethOpt 6)
              (sse2_paeth16_bpp6 base)
              K1 (fun p => aligned16_step' base 6 p) (sse2_paeth16_bpp6_block base)
              (m, p, Some u, W16 c, W16 d) m p u i
              ltac:(lia) eq_refl I0 Hm Hu B1 B2 A)
    as ([[[[m2 p2] u2] pz2] uz2] & m' & F1 & F2 & _ & F4 & F5 & F6 & _).
  injection F2 as -> -> ->.
  change (Z.of_nat 16) with 16 in *.
  unfold pstate, ptr, m128i in *. rewrite F1. cbn [bind].
  pose proof (Z.mod_pos_bound i 16 ltac:(lia)).
  assert (i mod 16 <= i) by (apply Z.mod_le; lia).
  exists m', (i mod 16). repeat split; try assumption; lia.
Qed.

Lemma init_reg4 (c : list Z) :
  length c = 4%nat -> Forall byte c ->
  _mm_unpacklo_epi8 (_mm_cvtsi32_si128 (le_val c)) _mm_setzero_si128
  = W16 (c ++ [0; 0; 0; 0]).
Proof.
  intros Lc Bc. explode c Lc. split_bytes. rewrite sub_init_4 by assumption.
  rewrite unpacklo_zero by wside. reflexivity.
Qed.

Lemma init_reg3 (c : list Z) :
  length c = 4%nat -> Forall byte c ->
  _mm_unpacklo_epi8 (_mm_cvtsi32_si128 (Z.land (le_val c) 16777215)) _mm_setzero_si128
  = W16 (firstn 3 c ++ [0; 0; 0; 0; 0]).
Proof.
  intros Lc Bc. explode c Lc. split_bytes. rewrite sub_init_3 by assumption.
  rewrite unpacklo_zero by wside. reflexivity.
Qed.

Lemma sse2_paeth_vec_4 base (m : mem) p u i :
  16 <= i < 4294967296 -> 0 <= u -> u + i + 4 <= p -> p + i + 4 <= len m ->
  aligned16 (base + (p + 4)) = true ->
  Forall byte m ->
  vec_result (paeth_step PaethOpt 4) m p u i (sse2_paeth_vec 4 base m p (Some u) i).
Proof.
  intros Hi Hu Hup Hl A Hm. unfold sse2_paeth_vec, load_u32, ldu_u32. cbv zeta. if_chain.
  destruct (loadn_some m p 4 ltac:(lia) ltac:(lia) Hm) as (c & Hc & Lc & Bc).
  destruct (lduv_some m u 4 ltac:(lia) ltac:(lia) Hm) as (d & Hd & Ld & Bd).
  rewrite Hc. cbn [bind]. rewrite Hd. cbn [bind].
  rewrite !init_reg4 by assumption.
  assert (K1 : (1 <= 16)%nat) by lia.
  assert (B1 : u + i + Z.of_nat 4 <= p) by lia.
  assert (B2 : p + i + Z.of_nat 4 <= len m) by lia.
  assert (I0 : exists c0 d0 J,
             loadn m p 4 = Some c0 /\ lduv 4 m (Some u) 0 = Some d0 /\
             W16 (c ++ [0; 0; 0; 0]) = W16 (c0 ++ [0; 0; 0; 0]) /\
             W16 (d ++ [0; 0; 0; 0]) = W16 (d0 ++ J) /\
             length J = 4%nat /\ Forall byte J).
  { exists c, d, [0; 0; 0; 0]. repeat split; auto.
    repeat constructor; apply byte_0. }
  destruct (vec_loop_run pstate
              (fun s => let '(m, p, u, _, _) := s in (m, p, u))
              (fun s => let '(m, p, u, pz, uz) := s in
                        exists c d J, loadn m p 4 = Some c /\ lduv 4 m u 0 = Some d /\
                                      pz = W16 (c ++ [0; 0; 0; 0]) /\ uz = W16 (d ++ J) /\
                                      length J = 4%nat /\ Forall byte J)
              (fun p => aligned16 (base + (p + 4)) = true) 16 4 4 (paeth_step PaethOpt 4)
              (sse2_paeth16_bpp4 base)
              K1 (fun p => aligned16_step' base 4 p) (sse2_paeth16_bpp4_block base)
              (m, p, Some u, W16 (c ++ [0; 0; 0; 0]), W16 (d ++ [0; 0; 0; 0])) m p u i
              ltac:(lia) eq_refl I0 Hm Hu B1 B2 A)
    as ([[[[m2 p2] u2] pz2] uz2] & m' & F1 & F2 & _ & F4 & F5 & F6 & _).
  injection F2 as -> -> ->.
  change (Z.of_nat 16) with 16 in *.
  unfold pstate, ptr, m128i in *. rewrite F1. cbn [bind].
  pose proof (Z.mod_pos_bound i 16 ltac:(lia)).
  assert (i mod 16 <= i) by (apply Z.mod_le; lia).
  exists m', (i mod 16). repeat split; try assumption; lia.
Qed.

Lemma sse2_paeth_vec_3 base (m : mem) p u i :
  16 <= i < 4294967296 -> 0 <= u -> u + i + 3 <= p -> p + i + 3 <= len m ->
  Forall byte m ->
  vec_result (paeth_step PaethOpt 3) m p u i (sse2_paeth_vec 3 base m p (Some u) i).
Proof.
  intros Hi Hu Hup Hl Hm. unfold sse2_paeth_vec, load_u32, ldu_u32. cbv zeta. if_chain.
  destruct (loadn_some m p 4 ltac:(lia) ltac:(lia) Hm) as (c & Hc & Lc & Bc).
  destruct (lduv_some m u 4 ltac:(lia) ltac:(lia) Hm) as (d & Hd & Ld & Bd).
  rewrite Hc. cbn [bind]. rewrite Hd. cbn [bind].
  rewrite !init_reg3 by assumption.
  assert (K1 : (1 <= 8)%nat) by lia.
  assert (B1 : u + i + Z.of_nat 3 <= p) by lia.
  assert (B2 : p + i + Z.of_nat 3 <= len m) by lia.
  assert (I0 : exists c0 d0,
             loadn m p 3 = Some c0 /\ lduv 3 m (Some u) 0 = Some d0 /\
             W16 (firstn 3 c ++ [0; 0; 0; 0; 0]) = W16 (c0 ++ [0; 0; 0; 0; 0]) /\
             W16 (firstn 3 d ++ [0; 0; 0; 0; 0]) = W16 (d0 ++ [0; 0; 0; 0; 0])).
  { exists (firstn 3 c), (firstn 3 d). repeat split; auto.
    - apply (loadn_firstn m p 4 3 c); [lia | exact Hc].
    - apply (lduv_firstn m u 4 3 d); [lia | exact Hd]. }
  destruct (vec_loop_run pstate
              (fun s => let '(m, p, u, _, _) := s in (m, p, u))
              (fun s => let '(m, p, u, pz, uz) := s in
                        exists c d, loadn m p 3 = Some c /\ lduv 3 m u 0 = Some d /\
                                    pz = W16 (c ++ [0; 0; 0; 0; 0]) /\
                                    uz = W16 (d ++ [0; 0; 0; 0; 0]))
              (fun _ => True) 8 3 3 (paeth_step PaethOpt 3)
              sse2_paeth8_bpp3
              K1 (fun _ _ => I) sse2_paeth8_bpp3_block
              (m, p, Some u, W16 (firstn 3 c ++ [0; 0; 0; 0; 0]),
               W16 (firstn 3 d ++ [0; 0; 0; 0; 0])) m p u i
              ltac:(lia) eq_refl I0 Hm Hu B1 B2 I)
    as ([[[[m2 p2] u2] pz2] uz2] & m' & F1 & F2 & _ & F4 & F5 & F6 & _).
  injection F2 as -> -> ->.
  change (Z.of_nat 8) with 8 in *.
  unfold pstate, ptr, m128i in *. rewrite F1. cbn [bind].
  pose proof (Z.mod_pos_bound i 8 ltac:(lia)).
  assert (i mod 8 <= i) by (apply Z.mod_le; lia).
  exists m', (i mod 8). repeat split; try assumption; lia.
Qed.

Lemma sse2_paeth_vec_ok (B : nat) base (m : mem) p u i :
  In B [2; 3; 4; 6; 8]%nat ->
  16 <= i < 4294967296 -> 0 <= u -> u + i + Z.of_nat B <= p ->
  p + i + Z.of_nat B <= len m ->
  aligned16 (base + (p + Z.of_nat B)) = true ->
  Forall byte m ->
  vec_result (paeth_step PaethOpt (Z.of_nat B)) m p u i
             (sse2_paeth_vec (Z.of_nat B) base m p (Some u) i).
Proof.
  intros HB Hi Hu Hup Hl A Hm.
  destruct HB as [<-|[<-|[<-|[<-|[<-|[]]]]]].
  - apply vec_result_skip; [lia | assumption].
  - apply sse2_paeth_vec_3; assumption.
  - apply sse2_paeth_vec_4; assumption.
  - apply sse2_paeth_vec_6; assumption.
  - apply sse2_paeth_vec_8; assumption.
Qed.

(** ** The Paeth case for bpp > 1 is the scalar code of the reference *)

Lemma sse2_paeth_ok (B : nat) base bpl (m : mem) p u :
  In B [2; 3; 4; 6; 8]%nat ->
  Z.of_nat B <= bpl < 4294967296 ->
  0 <= u -> u + bpl <= p -> p + bpl <= len m -> Forall byte m ->
  sse2_paeth (Z.of_nat B) base bpl (m, p, Some u)
  = ('(m, _) <- iter B (paeth_head_step p (Some u)) (m, 0) ;;
     '(m, p, u) <- iter (Z.to_nat (u32 (bpl - Z.of_nat B))) (paeth_step PaethRef (Z.of_nat B))
                     (m, p, Some u) ;;
     Some (m, p + Z.of_nat B, u)).
Proof.
  intros HB Hbpl Hu Hup Hl Hm.
  assert (B1 : (2 <= B)%nat) by (simpl in HB; lia).
  unfold sse2_paeth.
  destruct (Z.eqb_spec (Z.of_nat B) 1) as [E|_]; [lia|].
  rewrite Nat2Z.id.
  destruct (paeth_head_mem B m p u Hu ltac:(lia) ltac:(lia) Hm) as (m1 & E1 & L1 & M1).
  rewrite E1. cbn [bind]. cbv zeta.
  rewrite (u32_small (bpl - Z.of_nat B)) by lia.
  set (i := bpl - Z.of_nat B) in *.
  rewrite <- (paeth_iter_Opt_Ref B (Z.to_nat i) m1 p u) by (try assumption; lia).
  destruct (Z.leb_spec 32 i) as [H32|H32]; [|reflexivity].
  set (j := OptAlignDiff (base + (p + Z.of_nat B)) 16).
  pose proof (OptAlignDiff_range (base + (p + Z.of_nat B))) as Hj. fold j in Hj.
  pose proof (aligned16_head (base + (p + Z.of_nat B))) as A. fold j in A.
  rewrite (u32_small (i - j)) by lia.
  destruct (paeth_iter_mem PaethOpt B (Z.to_nat j) m1 p u ltac:(lia)
              ltac:(lia) ltac:(lia) ltac:(lia) M1) as (m2 & E2 & L2 & M2).
  rewrite Z2Nat.id in E2 by lia.
  assert (A1 : aligned16 (base + (p + j + Z.of_nat B)) = true).
  { apply (aligned16_shift _ _ A). replace (_ - _) with 0 by lia. reflexivity. }
  destruct (sse2_paeth_vec_ok B base m2 (p + j) (u + j) (i - j) HB
              ltac:(lia) ltac:(lia) ltac:(lia) ltac:(lia) A1 M2)
    as (m3 & r & F1 & F2 & F3 & F4 & F5).
  unfold ptr in *.
  rewrite E2. cbn [bind]. rewrite F1. cbn [bind].
  replace (Z.to_nat i) with (Z.to_nat j + (Z.to_nat (i - j - r) + Z.to_nat r))%nat by lia.
  rewrite iter_add, E2. cbn [bind]. rewrite iter_add, F3. cbn [bind]. reflexivity.
Qed.


(** * The Paeth case for bpp = 1 *)

Lemma land255_Sum x y : Z.land (u32 (x + y)) 255 = Sum x y.
Proof.
  unfold Sum. symmetry. apply u8_small.
  rewrite land255. apply Z.mod_pos_bound. lia.
Qed.

Lemma paeth1_iter n : forall pre U mid W post P Uaddr i pz uz,
  P + i = len pre + len U + len mid -> Uaddr + i = len pre ->
  length U = n -> length W = n ->
  exists pz' uz',
    iter n (sse2_paeth1_step P (Some Uaddr)) (frame2 pre U mid W post, i, pz, uz)
    = Some (frame2 pre U mid (paeth1_win pz uz U W) post, i + Z.of_nat n, pz', uz').
Proof.
  induction n as [|n IH]; intros pre U mid W post P Uaddr i pz uz Hp Hu HU HW.
  - destruct U, W; try discriminate. cbn [iter paeth1_win].
    rewrite Z.add_0_r. eauto.
  - destruct U as [|c U]; [discriminate|]. destruct W as [|x W]; [discriminate|].
    cbn [iter]. unfold sse2_paeth1_step at 1. unfold ldu.
    rewrite frame2_u, Hu, ld_frame0 by (simpl; lia). rewrite <- frame2_u.
    cbn [bind nth].
    rewrite (ld_frame2_0 pre (c :: U) mid (x :: W) post (P + i) Hp) by (simpl; lia).
    cbn [bind nth]. cbv zeta.
    rewrite land255_Sum, u8_Sum.
    rewrite (st_frame2_0 pre (c :: U) mid (x :: W) post (P + i) Hp) by (simpl; lia).
    cbn [bind upd_nth].
    rewrite frame2_shift.
    destruct (IH (pre ++ [c]) U (mid ++ [Sum x (PaethOpt pz c uz)]) W post P Uaddr (i + 1)
                 (Sum x (PaethOpt pz c uz)) c
                 ltac:(len1) ltac:(len1) ltac:(simpl in HU; lia) ltac:(simpl in HW; lia))
      as (pz' & uz' & E).
    exists pz', uz'. eapply eq_trans; [exact E|].
    rewrite <- frame2_shift. cbn [paeth1_win].
    replace (i + Z.of_nat (S n)) with (i + 1 + Z.of_nat n) by lia. reflexivity.
Qed.

Lemma PaethOpt_0 c : byte c -> PaethOpt 0 c 0 = c.
Proof.
  unfold byte. intros H. rewrite PaethOpt_cases by lia. cbv zeta.
  rewrite Z.min_l, Z.max_r by lia.
  assert (0 <= (c - 0) / 3 <= c) by (Z.div_mod_to_equations; lia).
  destruct (Z.ltb_spec ((c - 0) / 3 + (0 - 0)) 0); [lia|].
  destruct (Z.ltb_spec ((c - 0) / 3 - (c - 0)) 0); [reflexivity|].
  assert (c = 0) by (Z.div_mod_to_equations; lia). lia.
Qed.

(** The rolling loop computes the row of the reference: the first byte by
    the head loop, the others by the Paeth loop. *)
Lemma paeth1_win_roll : forall U W x c,
  length U = length W ->
  x :: paeth1_win x c U W = paeth_win PaethOpt 1 (length W) (c :: U) (x :: W).
Proof.
  induction U as [|b U IH]; intros [|w W] x c H; try discriminate; [reflexivity|].
  cbn [paeth1_win length paeth_win Nat.pred upd_nth nth]. cbv zeta.
  f_equal. apply IH. simpl in H. lia.
Qed.

Lemma paeth1_win_head c U x W :
  byte c -> length U = length W ->
  paeth1_win 0 0 (c :: U) (x :: W)
  = paeth_win PaethOpt 1 (length W) (c :: U) (head_win (fun y => y) [c] [x] ++ W).
Proof.
  intros Hc H. cbn [paeth1_win]. cbv zeta. rewrite PaethOpt_0 by exact Hc.
  unfold head_win. cbn [zipWith app]. apply paeth1_win_roll. exact H.
Qed.

Lemma frame2_heads pre c U mid x W post :
  frame2 pre (c :: U) mid (x :: W) post = frame2 pre [c] (U ++ mid) [x] (W ++ post).
Proof. unfold frame2. cbn [app]. rewrite <- !app_assoc. reflexivity. Qed.

(** For bpp = 1 the rolling loop and the code of the reference leave the
    same buffer and the same cursor [p]. *)
Lemma sse2_paeth1_ok base bpl (m : mem) P u :
  1 <= bpl < 4294967296 ->
  0 <= u -> u + bpl <= P -> P + bpl <= len m -> Forall byte m ->
  exists m' u1 u2,
    sse2_paeth 1 base bpl (m, P, Some u) = Some (m', P + bpl, u1) /\
    ('(m, _) <- iter 1 (paeth_head_step P (Some u)) (m, 0) ;;
     '(m, p, u) <- iter (Z.to_nat (u32 (bpl - 1))) (paeth_step PaethRef 1) (m, P, Some u) ;;
     Some (m, p + 1, u)) = Some (m', P + bpl, u2).
Proof.
  intros Hb Hu Hup Hl Hm.
  destruct (frame2_split m u P (Z.to_nat bpl) (Z.to_nat bpl))
    as (pre & U & mid & W & post & -> & Hpre & HU & HW & Hp); [lia | lia | lia |].
  symmetry in Hpre.
  destruct U as [|c U]; [simpl in HU; lia|]. destruct W as [|x W]; [simpl in HW; lia|].
  assert (Hb' : Forall byte (c :: U) /\ Forall byte (x :: W))
    by (rewrite Forall_frame2 in Hm; tauto).
  destruct Hb' as [BU BW].
  assert (Bc : byte c) by (inversion BU; assumption).
  assert (Bx : byte x) by (inversion BW; assumption).
  assert (LUW : length U = length W) by (simpl in HU, HW; lia).
  exists (frame2 pre (c :: U) mid (paeth1_win 0 0 (c :: U) (x :: W)) post).
  destruct (paeth1_iter (Z.to_nat bpl) pre (c :: U) mid (x :: W) post P u 0 0 0
              ltac:(lia) ltac:(lia) HU HW) as (pz' & uz' & E).
  eexists. eexists. split.
  - unfold sse2_paeth. change (1 =? 1) with true. cbv iota.
    unfold ptr in *. rewrite E. cbn [bind]. reflexivity.
  - rewrite frame2_heads.
    rewrite (paeth_head_iter 1 pre [c] (U ++ mid) [x] (W ++ post) P u 0)
      by (try reflexivity; unfold len in *; rewrite ?length_app in *;
          cbn [length] in *; lia).
    cbn [bind]. unfold head_win. cbn [zipWith]. rewrite <- frame2_heads.
    rewrite u32_small by lia.
    assert (HW1 : length (Sum x c :: W) = (Z.to_nat (bpl - 1) + 1)%nat)
      by (simpl in HW |- *; lia).
    assert (IT := paeth_iter PaethRef 1 (Z.to_nat (bpl - 1)) pre (c :: U) mid
                    (Sum x c :: W) post P u Hp Hpre
                    ltac:(lia) ltac:(simpl in HU |- *; lia) HW1).
    change (Z.of_nat 1) with 1 in IT.
    unfold ptr in *. rewrite IT. cbn [bind].
    rewrite <- paeth_win_Opt_Ref.
    + replace (Z.to_nat (bpl - 1)) with (length W) by (simpl in HW; lia).
      rewrite <- (paeth1_win_roll U W (Sum x c) c LUW).
      cbn [paeth1_win]. cbv zeta. rewrite PaethOpt_0 by exact Bc.
      replace (P + Z.of_nat (length W) + 1) with (P + bpl) by (simpl in HW; lia).
      reflexivity.
    + exact BU.
    + constructor; [apply Sum_byte | inversion BW; assumption].
Qed.


(** * The scalar loops of a row: what they leave in the buffer

    Each loop succeeds on a row that lies inside the buffer, keeps the
    length of the buffer and its bytes in range, and leaves every byte
    after the row as it was. *)

Lemma skipn_more (l l' : list Z) (a b : nat) :
  (a <= b)%nat -> skipn a l = skipn a l' -> skipn b l = skipn b l'.
Proof.
  intros H E. replace b with ((b - a) + a)%nat by lia.
  rewrite <- !skipn_skipn, E. reflexivity.
Qed.

Lemma skipn_frame_tail pre W W' post :
  length W' = length W ->
  skipn (length pre + length W) (frame pre W' post)
  = skipn (length pre + length W) (frame pre W post).
Proof.
  intros H. unfold frame.
  pose proof (skipn_len_app_plus pre W' post (length W) (eq_sym H)) as E1.
  pose proof (skipn_len_app_plus pre W post (length W) eq_refl) as E2.
  unfold len in E1, E2. rewrite Nat2Z.id in E1, E2. rewrite E1, E2. reflexivity.
Qed.

Lemma skipn_frame2_tail pre U mid W W' post p (e : Z) :
  p = len pre + len U + len mid -> length W' = length W -> p + len W <= e ->
  skipn (Z.to_nat e) (frame2 pre U mid W' post) = skipn (Z.to_nat e) (frame2 pre U mid W post).
Proof.
  intros Hp H He. rewrite !frame2_w.
  apply (skipn_more _ _ (length (pre ++ U ++ mid) + length W)).
  - unfold len in *. rewrite !length_app in *. lia.
  - apply skipn_frame_tail. exact H.
Qed.

Lemma sub_run (B n : nat) (m : mem) P e :
  (1 <= B)%nat -> 0 <= P -> P + Z.of_nat n + Z.of_nat B <= len m -> Forall byte m ->
  P + Z.of_nat n + Z.of_nat B <= e ->
  exists m',
    iter n (sub_step (Z.of_nat B)) (m, P) = Some (m', P + Z.of_nat n) /\
    len m' = len m /\ Forall byte m' /\
    skipn (Z.to_nat e) m' = skipn (Z.to_nat e) m.
Proof.
  intros HB HP Hl Hm He.
  destruct (frame_split m P (n + B)) as (pre & W & post & -> & <- & HW); [lia | lia |].
  exists (frame pre (sub_win B n W) post). split; [|split; [|split]].
  - unfold frame. apply sub_iter; assumption.
  - rewrite !len_frame. unfold len. rewrite sub_win_length. reflexivity.
  - rewrite !Forall_frame in *. repeat split; try tauto. apply sub_win_bytes. tauto.
  - apply (skipn_more _ _ (length pre + length W)).
    + unfold len in *. lia.
    + apply skipn_frame_tail. apply sub_win_length.
Qed.

Lemma up_run (n : nat) (m : mem) P u e :
  0 <= u -> u + Z.of_nat n <= P -> P + Z.of_nat n <= len m -> Forall byte m ->
  P + Z.of_nat n <= e ->
  exists m',
    iter n up_step (m, P, Some u) = Some (m', P + Z.of_nat n, Some (u + Z.of_nat n)) /\
    len m' = len m /\ Forall byte m' /\
    skipn (Z.to_nat e) m' = skipn (Z.to_nat e) m.
Proof.
  intros Hu Hup Hl Hm He.
  destruct (frame2_split m u P n n) as (pre & U & mid & W & post & -> & Hpre & HU & HW & Hp);
    [lia | lia | lia |].
  exists (frame2 pre U mid (up_win U W) post). split; [|split; [|split]].
  - apply up_iter; auto.
  - rewrite !len_frame2. unfold len. rewrite up_win_length by lia. reflexivity.
  - rewrite Forall_frame2 in *. repeat split; try tauto. apply up_win_bytes.
  - apply (skipn_frame2_tail pre U mid W _ post P e Hp).
    + apply up_win_length. lia.
    + unfold len. lia.
Qed.

Lemma avg_run (B n : nat) (m : mem) P u e :
  (1 <= B)%nat ->
  0 <= u -> u + Z.of_nat n <= P -> P + Z.of_nat n + Z.of_nat B <= len m -> Forall byte m ->
  P + Z.of_nat n + Z.of_nat B <= e ->
  exists m',
    iter n (avg_step (Z.of_nat B)) (m, P, Some u)
    = Some (m', P + Z.of_nat n, Some (u + Z.of_nat n)) /\
    len m' = len m /\ Forall byte m' /\
    skipn (Z.to_nat e) m' = skipn (Z.to_nat e) m.
Proof.
  intros HB Hu Hup Hl Hm He.
  destruct (frame2_split m u P n (n + B))
    as (pre & U & mid & W & post & -> & Hpre & HU & HW & Hp); [lia | lia | lia |].
  exists (frame2 pre U mid (avg_win B n U W) post). split; [|split; [|split]].
  - apply avg_iter; auto.
  - rewrite !len_frame2. unfold len. rewrite avg_win_length. reflexivity.
  - rewrite Forall_frame2 in *. repeat split; try tauto. apply avg_win_bytes. tauto.
  - apply (skipn_frame2_tail pre U mid W _ post P e Hp).
    + apply avg_win_length.
    + unfold len. lia.
Qed.

Lemma paeth_run Pth (B n : nat) (m : mem) P u e :
  (1 <= B)%nat ->
  0 <= u -> u + Z.of_nat n + Z.of_nat B <= P -> P + Z.of_nat n + Z.of_nat B <= len m ->
  Forall byte m ->
  P + Z.of_nat n + Z.of_nat B <= e ->
  exists m',
    iter n (paeth_step Pth (Z.of_nat B)) (m, P, Some u)
    = Some (m', P + Z.of_nat n, Some (u + Z.of_nat n)) /\
    len m' = len m /\ Forall byte m' /\
    skipn (Z.to_nat e) m' = skipn (Z.to_nat e) m.
Proof.
  intros HB Hu Hup Hl Hm He.
  destruct (frame2_split m u P (n + B) (n + B))
    as (pre & U & mid & W & post & -> & Hpre & HU & HW & Hp); [lia | lia | lia |].
  exists (frame2 pre U mid (paeth_win Pth B n U W) post). split; [|split; [|split]].
  - apply paeth_iter; auto.
  - rewrite !len_frame2. unfold len. rewrite paeth_win_length. reflexivity.
  - rewrite Forall_frame2 in *. repeat split; try tauto. apply paeth_win_bytes. tauto.
  - apply (skipn_frame2_tail pre U mid W _ post P e Hp).
    + apply paeth_win_length.
    + unfold len. lia.
Qed.

Lemma avg_head_run (B : nat) (m : mem) P u e :
  0 <= u -> u + Z.of_nat B <= P -> P + Z.of_nat B <= len m -> Forall byte m ->
  P + Z.of_nat B <= e ->
  exists m',
    iter B (avg_head_step P (Some u)) (m, 0) = Some (m', Z.of_nat B) /\
    len m' = len m /\ Forall byte m' /\
    skipn (Z.to_nat e) m' = skipn (Z.to_nat e) m.
Proof.
  intros Hu Hup Hl Hm He.
  destruct (frame2_split m u P B B) as (pre & U & mid & W & post & -> & Hpre & HU & HW & Hp);
    [lia | lia | lia |].
  exists (frame2 pre U mid (head_win (fun y => Z.shiftr y 1) U W) post).
  split; [|split; [|split]].
  - apply (avg_head_iter B pre U mid W post P u 0); auto; lia.
  - rewrite !len_frame2. unfold len. rewrite head_win_length by lia. reflexivity.
  - rewrite Forall_frame2 in *. repeat split; try tauto. apply head_win_bytes.
  - apply (skipn_frame2_tail pre U mid W _ post P e Hp).
    + apply head_win_length. lia.
    + unfold len. lia.
Qed.

Lemma paeth_head_run (B : nat) (m : mem) P u e :
  0 <= u -> u + Z.of_nat B <= P -> P + Z.of_nat B <= len m -> Forall byte m ->
  P + Z.of_nat B <= e ->
  exists m',
    iter B (paeth_head_step P (Some u)) (m, 0) = Some (m', Z.of_nat B) /\
    len m' = len m /\ Forall byte m' /\
    skipn (Z.to_nat e) m' = skipn (Z.to_nat e) m.
Proof.
  intros Hu Hup Hl Hm He.
  destruct (frame2_split m u P B B) as (pre & U & mid & W & post & -> & Hpre & HU & HW & Hp);
    [lia | lia | lia |].
  exists (frame2 pre U mid (head_win (fun y => y) U W) post).
  split; [|split; [|split]].
  - apply (paeth_head_iter B pre U mid W post P u 0); auto; lia.
  - rewrite !len_frame2. unfold len. rewrite head_win_length by lia. reflexivity.
  - rewrite Forall_frame2 in *. repeat split; try tauto. apply head_win_bytes.
  - apply (skipn_frame2_tail pre U mid W _ post P e Hp).
    + apply head_win_length. lia.
    + unfold len. lia.
Qed.


(** * One row: the three kernels agree *)

(** The specialized kernel runs the code of the reference. *)
Lemma opt_row_eq bpp bpl s : opt_row bpp bpl s = ref_row bpp bpl s.
Proof. reflexivity. Qed.

Lemma bpp_cases (B : nat) :
  In B [1; 2; 3; 4; 6; 8]%nat -> B = 1%nat \/ In B [2; 3; 4; 6; 8]%nat.
Proof. simpl. intuition. Qed.

(** On a row that has a previous row, the SSE2 kernel computes what the
    reference computes. *)
Lemma sse2_row_eq (B : nat) base bpl (m : mem) p :
  In B [1; 2; 3; 4; 6; 8]%nat ->
  Z.of_nat B <= bpl < 4294967296 ->
  bpl <= p -> p + 1 + bpl <= len m -> Forall byte m ->
  sse2_row (Z.of_nat B) base bpl (m, p, Some (p - bpl))
  = ref_row (Z.of_nat B) bpl (m, p, Some (p - bpl)).
Proof.
  intros HB Hbpl Hp Hl Hm.
  assert (B1 : (1 <= B)%nat) by (simpl in HB; lia).
  unfold sse2_row, ref_row.
  destruct (ld m p) as [f|]; [|reflexivity]. cbn [bind].
  destruct (f =? kPngFilterNone); [reflexivity|].
  destruct (f =? kPngFilterSub).
  { rewrite sse2_sub_ok by (try assumption; lia).
    destruct (iter _ _ _) as [[m' p']|]; reflexivity. }
  destruct (f =? kPngFilterUp).
  { rewrite sse2_up_ok by (try assumption; lia). reflexivity. }
  destruct (f =? kPngFilterAvg).
  { rewrite sse2_avg_ok by (try assumption; lia).
    rewrite Nat2Z.id. reflexivity. }
  destruct (f =? kPngFilterPaeth); [|reflexivity].
  destruct (bpp_cases B HB) as [->|HB'].
  - change (Z.of_nat 1) with 1.
    destruct (sse2_paeth1_ok base bpl m (p + 1) (p - bpl)
                ltac:(lia) ltac:(lia) ltac:(lia) ltac:(lia) Hm)
      as (m' & u1 & u2 & E1 & E2).
    change (Z.to_nat 1) with 1%nat.
    unfold ptr in *. rewrite E1, E2. reflexivity.
  - rewrite sse2_paeth_ok by (try assumption; lia).
    rewrite Nat2Z.id. reflexivity.
Qed.

Lemma row_end (m : mem) P bpl p :
  P = p + 1 + bpl ->
  Some (m, P, Some (P - bpl)) = Some (m, p + 1 + bpl, Some (p + 1)).
Proof. intros ->. do 3 f_equal. lia. Qed.

(** The reference on a row that has a previous row and a valid filter. *)
Lemma ref_row_ok (B : nat) bpl (m : mem) p f :
  (1 <= B)%nat ->
  Z.of_nat B <= bpl < 4294967296 ->
  bpl <= p -> p + 1 + bpl <= len m -> Forall byte m ->
  ld m p = Some f -> 0 <= f < 5 ->
  exists m',
    ref_row (Z.of_nat B) bpl (m, p, Some (p - bpl))
    = Some (m', p + 1 + bpl, Some (p + 1)) /\
    len m' = len m /\ Forall byte m' /\
    skipn (Z.to_nat (p + 1 + bpl)) m' = skipn (Z.to_nat (p + 1 + bpl)) m.
Proof.
  intros B1 Hbpl Hp Hl Hm Hf Hr.
  unfold ref_row. rewrite Hf. cbn [bind].
  assert (C : f = 0 \/ f = 1 \/ f = 2 \/ f = 3 \/ f = 4) by lia.
  destruct C as [->|[->|[->|[->| ->]]]].
  - change (0 =? kPngFilterNone) with true. cbv iota. cbn [bind].
    exists m. split; [apply row_end; lia | auto].
  - change (1 =? kPngFilterNone) with false. change (1 =? kPngFilterSub) with true.
    cbv iota.
    rewrite u32_small by lia.
    destruct (sub_run B (Z.to_nat (bpl - Z.of_nat B)) m (p + 1) (p + 1 + bpl) B1
                ltac:(lia) ltac:(lia) Hm ltac:(lia)) as (m' & E & L & M & T).
    rewrite E. cbn [bind].
    exists m'. split; [apply row_end; lia | auto].
  - change (2 =? kPngFilterNone) with false. change (2 =? kPngFilterSub) with false.
    change (2 =? kPngFilterUp) with true. cbv iota.
    destruct (up_run (Z.to_nat bpl) m (p + 1) (p - bpl) (p + 1 + bpl)
                ltac:(lia) ltac:(lia) ltac:(lia) Hm ltac:(lia)) as (m' & E & L & M & T).
    unfold ptr in *. rewrite E. cbn [bind].
    exists m'. split; [apply row_end; lia | auto].
  - change (3 =? kPngFilterNone) with false. change (3 =? kPngFilterSub) with false.
    change (3 =? kPngFilterUp) with false. change (3 =? kPngFilterAvg) with true.
    cbv iota. rewrite Nat2Z.id.
    destruct (avg_head_run B m (p + 1) (p - bpl) (p + 1 + bpl)
                ltac:(lia) ltac:(lia) ltac:(lia) Hm ltac:(lia)) as (m1 & E1 & L1 & M1 & T1).
    rewrite E1. cbn [bind padd]. cbv zeta.
    rewrite u32_small by lia.
    destruct (avg_run B (Z.to_nat (bpl - Z.of_nat B)) m1 (p + 1) (p - bpl + Z.of_nat B)
                (p + 1 + bpl) B1 ltac:(lia) ltac:(lia) ltac:(lia) M1 ltac:(lia))
      as (m' & E & L & M & T).
    unfold ptr in *. rewrite E. cbn [bind].
    exists m'. split; [apply row_end; lia|].
    repeat split; try assumption; congruence.
  - change (4 =? kPngFilterNone) with false. change (4 =? kPngFilterSub) with false.
    change (4 =? kPngFilterUp) with false. change (4 =? kPngFilterAvg) with false.
    change (4 =? kPngFilterPaeth) with true.
    cbv iota. rewrite Nat2Z.id.
    destruct (paeth_head_run B m (p + 1) (p - bpl) (p + 1 + bpl)
                ltac:(lia) ltac:(lia) ltac:(lia) Hm ltac:(lia)) as (m1 & E1 & L1 & M1 & T1).
    rewrite E1. cbn [bind].
    rewrite u32_small by lia.
    destruct (paeth_run PaethRef B (Z.to_nat (bpl - Z.of_nat B)) m1 (p + 1) (p - bpl)
                (p + 1 + bpl) B1 ltac:(lia) ltac:(lia) ltac:(lia) M1 ltac:(lia))
      as (m' & E & L & M & T).
    unfold ptr in *. rewrite E. cbn [bind].
    exists m'. split; [apply row_end; lia|].
    repeat split; try assumption; congruence.
Qed.


(** * The three kernels on a whole image *)

Lemma nth_0_skipn (p : nat) : forall l : list Z, nth p l 0 = nth 0 (skipn p l) 0.
Proof.
  induction p as [|p IH]; intros [|x l]; cbn [skipn nth]; try reflexivity.
  apply IH.
Qed.

Lemma nth_skipn_eq (p : nat) (l l' : list Z) :
  skipn p l' = skipn p l -> nth p l' 0 = nth p l 0.
Proof. intros H. rewrite (nth_0_skipn p l'), (nth_0_skipn p l), H. reflexivity. Qed.

Lemma bind_Some {A B : Type} (x : option A) (k : A -> option B) a r :
  x = Some a -> k a = r -> bind x k = r.
Proof. intros -> <-. reflexivity. Qed.

Local Opaque ref_row sse2_row opt_row.

(** The rows after the first one. *)
Lemma rows_from (B : nat) base bpl (m0 : mem) k : forall (mj : mem) p,
  In B [1; 2; 3; 4; 6; 8]%nat ->
  Z.of_nat B <= bpl < 4294967296 ->
  len mj = len m0 -> Forall byte mj ->
  skipn (Z.to_nat p) mj = skipn (Z.to_nat p) m0 ->
  bpl <= p -> p + Z.of_nat k * (bpl + 1) <= len m0 ->
  (forall i, 0 <= i < Z.of_nat k ->
     0 <= nth (Z.to_nat (p + i * (bpl + 1))) m0 0 < 5) ->
  exists s',
    iter k (ref_row (Z.of_nat B) bpl) (mj, p, Some (p - bpl)) = Some s' /\
    iter k (sse2_row (Z.of_nat B) base bpl) (mj, p, Some (p - bpl)) = Some s'.
Proof.
  induction k as [|k IH]; intros mj p HB Hbpl Hlen Hm Hs Hp Hl Hf.
  - eexists. split; reflexivity.
  - assert (B1 : (1 <= B)%nat) by (simpl in HB; lia).
    assert (HK : Z.of_nat (S k) * (bpl + 1) = (bpl + 1) + Z.of_nat k * (bpl + 1)) by lia.
    assert (HK0 : 0 <= Z.of_nat k * (bpl + 1)) by (apply Z.mul_nonneg_nonneg; lia).
    assert (Hl' : p + 1 + bpl <= len mj) by lia.
    assert (F : ld mj p = Some (nth (Z.to_nat p) m0 0)).
    { rewrite ld_ok by lia. f_equal. apply nth_skipn_eq. exact Hs. }
    pose proof (Hf 0 ltac:(lia)) as F0.
    replace (p + 0 * (bpl + 1)) with p in F0 by lia.
    destruct (ref_row_ok B bpl mj p _ B1 Hbpl Hp Hl' Hm F F0) as (m1 & E & L1 & M1 & T1).
    pose proof (sse2_row_eq B base bpl mj p HB Hbpl Hp Hl' Hm) as S.
    replace (Some (p + 1)) with (Some (p + 1 + bpl - bpl)) in E by (f_equal; lia).
    destruct (IH m1 (p + 1 + bpl) HB Hbpl ltac:(lia) M1) as (s' & R1 & R2).
    + rewrite T1. apply (skipn_more _ _ (Z.to_nat p)); [lia | exact Hs].
    + lia.
    + lia.
    + intros i Hi. specialize (Hf (i + 1) ltac:(lia)).
      replace (p + (i + 1) * (bpl + 1)) with (p + 1 + bpl + i * (bpl + 1)) in Hf by lia.
      exact Hf.
    + exists s'. cbn [iter]. split.
      * exact (bind_Some _ _ _ _ E R1).
      * exact (bind_Some _ _ _ _ (eq_trans S E) R2).
Qed.

Lemma dispatch_opt (B : nat) (m : mem) h bpl :
  In B [1; 2; 3; 4; 6; 8]%nat ->
  OptDePngFilterOpt m h (Z.of_nat B) bpl = OptDePngFilterOpt_T (Z.of_nat B) m h bpl.
Proof.
  intros HB. unfold OptDePngFilterOpt.
  destruct HB as [<-|[<-|[<-|[<-|[<-|[<-|[]]]]]]]; if_chain; reflexivity.
Qed.

Lemma dispatch_sse2 (B : nat) base (m : mem) h bpl :
  In B [1; 2; 3; 4; 6; 8]%nat ->
  OptDePngFilterSSE2 base m h (Z.of_nat B) bpl
  = OptDePngFilterSSE2_T (Z.of_nat B) base m h bpl.
Proof.
  intros HB. unfold OptDePngFilterSSE2.
  destruct HB as [<-|[<-|[<-|[<-|[<-|[<-|[]]]]]]]; if_chain; reflexivity.
Qed.

(** An image whose rows carry valid filters, the first row the filter
    None: the three kernels return the same buffer. *)
Lemma kernels_agree (B : nat) base (m : mem) h bpl :
  In B [1; 2; 3; 4; 6; 8]%nat ->
  1 <= h < 4294967296 -> Z.of_nat B + 1 <= bpl < 4294967296 ->
  h * bpl <= len m -> Forall byte m ->
  nth 0 m 0 = kPngFilterNone ->
  (forall y, 1 <= y < h -> 0 <= nth (Z.to_nat (y * bpl)) m 0 < 5) ->
  exists out,
    OptDePngFilterRef m h (Z.of_nat B) bpl = Some out /\
    OptDePngFilterOpt m h (Z.of_nat B) bpl = Some out /\
    OptDePngFilterSSE2 base m h (Z.of_nat B) bpl = Some out.
Proof.
  intros HB Hh Hbpl Hl Hm H0 Hf.
  assert (U : u32 (bpl - 1) = bpl - 1) by (apply u32_small; lia).
  assert (L0 : ld m 0 = Some kPngFilterNone).
  { rewrite ld_ok by nia. f_equal. exact H0. }
  destruct (rows_from B base (bpl - 1) m (Z.to_nat (h - 1)) m (0 + 1 + (bpl - 1)) HB
              ltac:(lia) eq_refl Hm eq_refl ltac:(lia)) as ([[out p'] u'] & R1 & R2).
  { rewrite Z2Nat.id by lia. nia. }
  { intros i Hi. rewrite Z2Nat.id in Hi by lia.
    specialize (Hf (i + 1) ltac:(lia)).
    replace (0 + 1 + (bpl - 1) + i * (bpl - 1 + 1)) with ((i + 1) * bpl) by lia.
    exact Hf. }
  assert (N : do_while_count h = S (Z.to_nat (h - 1))).
  { rewrite do_while_count_nat by lia. lia. }
  exists out. split; [|split].
  - unfold OptDePngFilterRef. cbv zeta. rewrite U, N. cbn [iter].
    apply (bind_Some _ _ (out, p', u')); [|reflexivity].
    exact (bind_Some _ _ _ _ (ref_row_none _ _ _ _ _ L0) R1).
  - rewrite dispatch_opt by exact HB. unfold OptDePngFilterOpt_T. cbv zeta. rewrite U, N. cbn [iter].
    apply (bind_Some _ _ (out, p', u')); [|reflexivity].
    refine (bind_Some _ _ _ _ (opt_row_none _ _ _ _ _ L0) _).
    rewrite (iter_ext _ _ (ref_row (Z.of_nat B) (bpl - 1))) by (intros; apply opt_row_eq).
    exact R1.
  - rewrite dispatch_sse2 by exact HB. unfold OptDePngFilterSSE2_T. cbv zeta. rewrite U, N. cbn [iter].
    apply (bind_Some _ _ (out, p', u')); [|reflexivity].
    exact (bind_Some _ _ _ _ (sse2_row_none _ _ _ _ _ _ L0) R2).
Qed.

Local Transparent ref_row sse2_row opt_row.


(** * The check of the test program: the kernels agree on generated images *)

Lemma expected_filter_range filter y :
  0 <= filter <= 5 -> 0 <= expected_filter filter y < 5.
Proof.
  intros H. unfold expected_filter, kPngFilterNone, kPngFilterCount.
  destruct (Z.eqb_spec y 0); [lia|].
  destruct (Z.ltb_spec filter 5); [lia|].
  apply Z.mod_pos_bound. lia.
Qed.

Lemma bpp_nat bpp :
  In bpp [1; 2; 3; 4; 6; 8] ->
  exists B : nat, bpp = Z.of_nat B /\ In B [1; 2; 3; 4; 6; 8]%nat.
Proof.
  intros [<-|[<-|[<-|[<-|[<-|[<-|[]]]]]]];
    [exists 1%nat | exists 2%nat | exists 3%nat | exists 4%nat | exists 6%nat | exists 8%nat];
    (split; [reflexivity | simpl; tauto]).
Qed.

(** C1: for every image the test program generates (w in [1,99], h in
    [1,19], bpp in {1,2,3,4,6,8}, filter in [0,5], any seed; row 0 carries
    the filter None), the reference kernel OptDePngFilterRef returns a
    buffer, and the specialized kernel OptDePngFilterOpt and the SIMD
    kernel OptDePngFilterSSE2 return the same buffer, byte for byte.  The two
    buffers the test program allocates hold the same image whatever their
    initial contents, and the SSE2 kernel agrees whatever the address of its
    buffer. *)
Theorem kernels_agree_on_generated_images :
  forall junkA junkB base w h bpp filter seed,
    1 <= w <= 99 -> 1 <= h <= 19 -> In bpp [1; 2; 3; 4; 6; 8] -> 0 <= filter <= 5 ->
    exists img out,
      OptDePngRandomImage junkA w h bpp filter seed = Some img /\
      OptDePngRandomImage junkB w h bpp filter seed = Some img /\
      OptDePngFilterRef img h bpp (w * bpp + 1) = Some out /\
      OptDePngFilterOpt img h bpp (w * bpp + 1) = Some out /\
      OptDePngFilterSSE2 base img h bpp (w * bpp + 1) = Some out.
Proof.
  intros junkA junkB base w h bpp filter seed Hw Hh Hbpp Hf.
  destruct (bpp_nat bpp Hbpp) as (B & -> & HB).
  assert (B8 : 1 <= Z.of_nat B <= 8) by (simpl in HB; lia).
  assert (W1 : 1 <= w * Z.of_nat B <= 792) by nia.
  assert (Sz : (w * Z.of_nat B + 1) * h < 4294967296) by nia.
  pose proof (gen_total junkA w h (Z.of_nat B) filter seed ltac:(lia) ltac:(lia) Sz) as T.
  destruct (OptDePngRandomImage junkA w h (Z.of_nat B) filter seed) as [img|] eqn:G;
    [clear T | contradiction].
  assert (G' : OptDePngRandomImage junkB w h (Z.of_nat B) filter seed = Some img).
  { rewrite gen_char by lia. rewrite gen_char in G by lia. exact G. }
  destruct (gen_image_facts junkA w h (Z.of_nat B) filter seed img
              ltac:(lia) ltac:(lia) ltac:(lia) G) as (_ & _ & L & Bt & F).
  rewrite (u32_small (w * Z.of_nat B)) in L, F by lia.
  destruct (kernels_agree B base img h (w * Z.of_nat B + 1) HB) as (out & R1 & R2 & R3).
  - lia.
  - nia.
  - rewrite L. lia.
  - exact Bt.
  - specialize (F 0 ltac:(lia)). rewrite Z.mul_0_l in F. exact F.
  - intros y Hy. rewrite F by lia. apply expected_filter_range. exact Hf.
  - exists img, out. repeat split; assumption.
Qed.

Lemma kernels_agree_on_generated_images_witness :
  exists img out,
    OptDePngRandomImage (fun _ => 0) 5 3 4 5 11 = Some img /\
    OptDePngRandomImage (fun _ => 255) 5 3 4 5 11 = Some img /\
    OptDePngFilterRef img 3 4 (5 * 4 + 1) = Some out /\
    OptDePngFilterOpt img 3 4 (5 * 4 + 1) = Some out /\
    OptDePngFilterSSE2 7 img 3 4 (5 * 4 + 1) = Some out.
Proof.
  apply (kernels_agree_on_generated_images (fun _ => 0) (fun _ => 255) 7 5 3 4 5 11);
    try lia.
  simpl. tauto.
Defined.


(** * The helpers of the kernels and of the harness *)

(** ** Paeth *)

Lemma PaethRef_sym a b c :
  0 <= a <= 255 -> 0 <= b <= 255 -> 0 <= c <= 255 ->
  PaethRef a b c = PaethRef b a c.
Proof.
  intros Ha Hb Hc.
  rewrite <- (PaethOpt_PaethRef b a c), <- (PaethOpt_PaethRef a b c) by assumption.
  apply PaethOpt_sym; assumption.
Qed.

(** X1: the Paeth predictor does not depend on the order of its first two
    arguments, [Paeth(a, b, c) == Paeth(b, a, c)], as the comment of
    [PaethOpt] says: on bytes this holds of [PaethRef] and of [PaethOpt]. *)
Theorem Paeth_symmetric :
  forall a b c,
    0 <= a <= 255 -> 0 <= b <= 255 -> 0 <= c <= 255 ->
    PaethRef a b c = PaethRef b a c /\ PaethOpt a b c = PaethOpt b a c.
Proof.
  intros a b c Ha Hb Hc. split.
  - apply PaethRef_sym; assumption.
  - apply PaethOpt_sym; assumption.
Qed.

Lemma Paeth_symmetric_witness :
  PaethRef 10 200 90 = PaethRef 200 10 90 /\ PaethOpt 10 200 90 = PaethOpt 200 10 90.
Proof. apply (Paeth_symmetric 10 200 90); lia. Defined.

Lemma Paeth_cases a b c :
  0 <= a <= 255 -> 0 <= b <= 255 -> 0 <= c <= 255 ->
  Paeth a b c =
    let lo := Z.min a b in
    let hi := Z.max a b in
    let d := (hi - lo) / 3 in
    if c <=? lo + d then hi else if c >=? hi - d then lo else c.
Proof.
  intros Ha Hb Hc. unfold Paeth.
  assert (Hmin : Min a b = Z.min a b) by (unfold Min; destruct (Z.ltb_spec a b); lia).
  assert (Hmax : Max a b = Z.max a b)
    by (unfold Max; rewrite Z.gtb_ltb; destruct (Z.ltb_spec b a); lia).
  rewrite Hmin, Hmax. cbv zeta.
  set (lo := Z.min a b). set (hi := Z.max a b).
  assert (Hlo : 0 <= lo <= 255) by (unfold lo; lia).
  assert (Hhi : 0 <= hi <= 255) by (unfold hi; lia).
  assert (Hlh : lo <= hi) by (unfold lo, hi; lia).
  rewrite (u32_small (hi - lo)) by lia.
  rewrite (i32_small (hi - lo)) by lia.
  rewrite UDiv3_div by lia.
  assert (Hd : 0 <= (hi - lo) / 3 <= 85 /\ 3 * ((hi - lo) / 3) <= hi - lo)
    by (Z.div_mod_to_equations; lia).
  rewrite (u32_small ((hi - lo) / 3)) by lia.
  rewrite (u32_small (lo + (hi - lo) / 3)) by lia.
  rewrite (u32_small (hi - (hi - lo) / 3)) by lia.
  reflexivity.
Qed.

(** X2: on bytes, the mask arithmetic of [PaethOpt] returns what the
    comparison-based implementation quoted in its comment returns: the
    larger of [a] and [b] when [c] is at most a third of the way up from the
    smaller, the smaller when [c] is at most a third of the way down from
    the larger, and [c] otherwise. *)
Theorem PaethOpt_is_comparison_form :
  forall a b c,
    0 <= a <= 255 -> 0 <= b <= 255 -> 0 <= c <= 255 ->
    PaethOpt a b c = Paeth a b c.
Proof.
  intros a b c Ha Hb Hc.
  rewrite PaethOpt_cases, Paeth_cases by assumption. cbv zeta.
  set (lo := Z.min a b). set (hi := Z.max a b).
  assert (Hlh : lo <= hi) by (unfold lo, hi; lia).
  assert (Hd : 0 <= (hi - lo) / 3 /\ 3 * ((hi - lo) / 3) <= hi - lo)
    by (Z.div_mod_to_equations; lia).
  destruct (Z.ltb_spec ((hi - lo) / 3 + (lo - c)) 0),
           (Z.ltb_spec ((hi - lo) / 3 - (hi - c)) 0),
           (Z.leb_spec c (lo + (hi - lo) / 3));
    try lia;
    rewrite ?Z.geb_leb;
    destruct (Z.leb_spec (hi - (hi - lo) / 3) c); lia.
Qed.

Lemma PaethOpt_is_comparison_form_witness : PaethOpt 10 200 90 = Paeth 10 200 90.
Proof. apply (PaethOpt_is_comparison_form 10 200 90); lia. Defined.

(** ** Division by 3 in the vector unit *)

Lemma set1_epi16_W16 x : _mm_set1_epi16 x = W16 (repeat x 8).
Proof. reflexivity. Qed.

Lemma mulhi_rcp3_lane x :
  0 <= x < 65536 ->
  Z.shiftr ((x mod 65536) * (Z.shiftl 171 7 mod 65536)) 16 = UDiv3 x.
Proof.
  intros H. unfold UDiv3. rewrite i32_small by lia.
  rewrite Z.mod_small by lia.
  change (Z.shiftl 171 7 mod 65536) with (171 * 128).
  rewrite !Z.shiftr_div_pow2 by lia.
  change (2 ^ 16) with (512 * 128). change (2 ^ 9) with 512.
  replace (x * (171 * 128)) with (x * 171 * 128) by lia.
  rewrite Z.div_mul_cancel_r by lia. reflexivity.
Qed.

Lemma zipWith_repeat_r {A B C : Type} (f : A -> B -> C) (y : B) : forall (l : list A),
  zipWith f l (repeat y (length l)) = map (fun x => f x y) l.
Proof.
  induction l as [|x l IH]; [reflexivity|].
  cbn [length repeat zipWith map]. rewrite IH. reflexivity.
Qed.

(** X3: the multiplication [PMULHUW] by the constant [0xAB << 7] of the
    Paeth blocks is [UDiv3] on each of the eight 16-bit lanes (any lane
    value in [0, 65535]): the vector code divides by 3 exactly as the scalar
    code does. *)
Theorem mulhi_rcp3_is_UDiv3 :
  forall l : list Z,
    length l = 8%nat -> Forall (fun x => 0 <= x < 65536) l ->
    _mm_mulhi_epu16 (W16 l) (_mm_set1_epi16 (Z.shiftl 171 7)) = W16 (map UDiv3 l).
Proof.
  intros l Hl Hr. rewrite set1_epi16_W16.
  rewrite mulhi16_W16 by (rewrite ?repeat_length; auto).
  replace 8%nat with (length l) by exact Hl.
  rewrite zipWith_repeat_r. f_equal.
  apply map_ext_in. intros x Hx.
  rewrite Forall_forall in Hr. apply mulhi_rcp3_lane. apply Hr. exact Hx.
Qed.

Lemma mulhi_rcp3_is_UDiv3_witness :
  _mm_mulhi_epu16 (W16 [0; 1; 2; 3; 255; 256; 510; 65535]) (_mm_set1_epi16 (Z.shiftl 171 7))
  = W16 (map UDiv3 [0; 1; 2; 3; 255; 256; 510; 65535]).
Proof.
  apply (mulhi_rcp3_is_UDiv3 [0; 1; 2; 3; 255; 256; 510; 65535]).
  - reflexivity.
  - repeat constructor; lia.
Defined.

(** ** The Paeth macro *)

Lemma zipWith3_ext_bytes (f g : Z -> Z -> Z -> Z) :
  (forall a b c, byte a -> byte b -> byte c -> f a b c = g a b c) ->
  forall a b c, Forall byte a -> Forall byte b -> Forall byte c ->
  zipWith3 f a b c = zipWith3 g a b c.
Proof.
  intros H. induction a as [|x a IH]; intros [|y b] [|z c] Ha Hb Hc; try reflexivity.
  cbn [zipWith3].
  rewrite Forall_cons_iff in Ha, Hb, Hc.
  rewrite H by tauto. rewrite IH by tauto. reflexivity.
Qed.

(** X4: on three registers of eight 16-bit lanes that hold bytes, the macro
    [PNG_SSE_PAETH] (with the constant [0xAB << 7]) leaves in each lane
    [PaethOpt] of the three lanes. *)
Theorem PNG_SSE_PAETH_is_PaethOpt :
  forall a b c : list Z,
    length a = 8%nat -> length b = 8%nat -> length c = 8%nat ->
    Forall byte a -> Forall byte b -> Forall byte c ->
    PNG_SSE_PAETH (_mm_set1_epi16 (Z.shiftl 171 7)) (W16 a) (W16 b) (W16 c)
    = W16 (zipWith3 PaethOpt a b c).
Proof.
  intros a b c La Lb Lc Ha Hb Hc.
  rewrite PAETH_W16 by assumption. f_equal.
  apply zipWith3_ext_bytes; try assumption.
  apply paeth16_PaethOpt.
Qed.

Lemma PNG_SSE_PAETH_is_PaethOpt_witness :
  PNG_SSE_PAETH (_mm_set1_epi16 (Z.shiftl 171 7))
    (W16 [0; 10; 255; 7; 90; 200; 13; 128])
    (W16 [255; 200; 0; 7; 10; 10; 14; 127])
    (W16 [128; 90; 255; 9; 200; 90; 15; 0])
  = W16 (zipWith3 PaethOpt [0; 10; 255; 7; 90; 200; 13; 128]
                           [255; 200; 0; 7; 10; 10; 14; 127]
                           [128; 90; 255; 9; 200; 90; 15; 0]).
Proof.
  apply (PNG_SSE_PAETH_is_PaethOpt
           [0; 10; 255; 7; 90; 200; 13; 128]
           [255; 200; 0; 7; 10; 10; 14; 127]
           [128; 90; 255; 9; 200; 90; 15; 0]);
    try reflexivity; repeat constructor; unfold byte; lia.
Defined.

(** ** Alignment *)

Lemma pow2_mask k :
  0 <= k <= 31 -> u32 (2 ^ k - 1) = Z.ones k /\ 1 <= 2 ^ k <= 2147483648.
Proof.
  intros Hk.
  assert (P : 1 <= 2 ^ k <= 2 ^ 31).
  { split; [pose proof (Z.pow_pos_nonneg 2 k); lia|].
    apply Z.pow_le_mono_r; lia. }
  change (2 ^ 31) with 2147483648 in P.
  split; [|exact P].
  rewrite u32_small by lia. rewrite Z.ones_equiv. lia.
Qed.

Lemma OptAlignDiff_pow2 addr k :
  0 <= k <= 31 -> OptAlignDiff addr (2 ^ k) = (- addr) mod 2 ^ k.
Proof.
  intros Hk. destruct (pow2_mask k Hk) as [M P].
  unfold OptAlignDiff. cbv zeta. rewrite M, !Z.land_ones by lia.
  pose proof (Z.mod_pos_bound addr (2 ^ k) ltac:(lia)) as R.
  rewrite (u32_small (addr mod 2 ^ k)) by lia.
  rewrite (u32_small (2 ^ k - addr mod 2 ^ k)) by lia.
  clear M. set (n := 2 ^ k) in *. clearbody n.
  pose proof (Z.div_mod addr n ltac:(lia)) as D.
  replace (n - addr mod n) with (- addr + (addr / n + 1) * n) by lia.
  apply Z.mod_add. lia.
Qed.

Lemma OptIsAligned_pow2 addr k :
  0 <= k <= 31 -> OptIsAligned addr (2 ^ k) = (addr mod 2 ^ k =? 0).
Proof.
  intros Hk. destruct (pow2_mask k Hk) as [M P].
  unfold OptIsAligned. cbv zeta. rewrite M, Z.land_ones by lia. reflexivity.
Qed.

(** X5: for an alignment that is a power of two (up to 2^31),
    [OptAlignDiff(p, alignment)] is the distance from [p] to the next
    aligned address: it is below the alignment, [p] advanced by it is
    aligned (as [OptIsAligned] tests it), and no smaller advance is. *)
Theorem OptAlignDiff_next_aligned :
  forall addr k,
    0 <= k <= 31 ->
    let d := OptAlignDiff addr (2 ^ k) in
    0 <= d < 2 ^ k /\
    OptIsAligned (addr + d) (2 ^ k) = true /\
    forall e, 0 <= e -> OptIsAligned (addr + e) (2 ^ k) = true -> d <= e.
Proof.
  intros addr k Hk d. unfold d. clear d.
  destruct (pow2_mask k Hk) as [_ P].
  rewrite OptAlignDiff_pow2 by exact Hk.
  pose proof (Z.mod_pos_bound (- addr) (2 ^ k) ltac:(lia)) as R.
  split; [exact R|]. split.
  - rewrite OptIsAligned_pow2 by exact Hk. apply Z.eqb_eq.
    set (n := 2 ^ k) in *. clearbody n.
    pose proof (Z.div_mod (- addr) n ltac:(lia)) as D.
    replace (addr + (- addr) mod n) with (0 + (- ((- addr) / n)) * n) by lia.
    rewrite Z.mod_add by lia. apply Z.mod_0_l. lia.
  - intros e He A. rewrite OptIsAligned_pow2 in A by exact Hk.
    apply Z.eqb_eq in A.
    set (n := 2 ^ k) in *. clearbody n.
    pose proof (Z.div_mod (- addr) n ltac:(lia)) as D.
    pose proof (Z.div_mod (addr + e) n ltac:(lia)) as D'.
    rewrite A in D'.
    set (q := (- addr) / n) in *. set (q' := (addr + e) / n) in *.
    assert (E : e = n * (q + q') + (- addr) mod n) by lia.
    assert (0 <= q + q') by nia.
    nia.
Qed.

Lemma OptAlignDiff_next_aligned_witness :
  let d := OptAlignDiff 1000003 (2 ^ 4) in
  0 <= d < 2 ^ 4 /\
  OptIsAligned (1000003 + d) (2 ^ 4) = true /\
  forall e, 0 <= e -> OptIsAligned (1000003 + e) (2 ^ 4) = true -> d <= e.
Proof. apply (OptAlignDiff_next_aligned 1000003 4). lia. Defined.

(** X6: for an alignment that is a power of two, [OptIsAligned] holds
    exactly of the addresses that are multiples of the alignment, and
    exactly when [OptAlignDiff] is zero. *)
Theorem OptIsAligned_iff :
  forall addr k,
    0 <= k <= 31 ->
    (OptIsAligned addr (2 ^ k) = true <-> addr mod 2 ^ k = 0) /\
    (OptIsAligned addr (2 ^ k) = true <-> OptAlignDiff addr (2 ^ k) = 0).
Proof.
  intros addr k Hk. destruct (pow2_mask k Hk) as [_ P].
  rewrite OptIsAligned_pow2, OptAlignDiff_pow2 by exact Hk.
  rewrite Z.eqb_eq. split; [tauto|].
  set (n := 2 ^ k) in *. clearbody n.
  split; intros H.
  - apply Z.mod_opp_l_z; [lia | exact H].
  - rewrite <- (Z.opp_involutive addr). apply Z.mod_opp_l_z; [lia | exact H].
Qed.

Lemma OptIsAligned_iff_witness :
  (OptIsAligned 4096 (2 ^ 4) = true <-> 4096 mod 2 ^ 4 = 0) /\
  (OptIsAligned 4096 (2 ^ 4) = true <-> OptAlignDiff 4096 (2 ^ 4) = 0).
Proof. apply (OptIsAligned_iff 4096 4). lia. Defined.

(** ** The index arithmetic of the generator *)

Lemma wrap_mod x advance count :
  0 <= x < count -> 0 <= advance <= count -> x + advance < 4294967296 ->
  OptDePngRandomWrap x advance count = (x + advance) mod count.
Proof.
  intros Hx Ha Ho. unfold OptDePngRandomWrap. cbv zeta.
  rewrite (u32_small (x + advance)) by lia.
  destruct (Z.ltb_spec (x + advance) count) as [L|L].
  - rewrite Z.mod_small by lia. reflexivity.
  - rewrite u32_small by lia.
    apply (Z.mod_unique (x + advance) count 1 (x + advance - count)); lia.
Qed.

(** X7: [OptDePngRandomWrap] advances an index modulo [count]: for an index
    below [count] and an advance of at most [count] (and no 32-bit overflow
    of their sum) the result is [(x + advance) mod count], again below
    [count]. *)
Theorem OptDePngRandomWrap_mod :
  forall x advance count,
    0 <= x < count -> 0 <= advance <= count -> x + advance < 4294967296 ->
    OptDePngRandomWrap x advance count = (x + advance) mod count /\
    0 <= OptDePngRandomWrap x advance count < count.
Proof.
  intros x a n Hx Ha Ho. rewrite wrap_mod by assumption.
  split; [reflexivity|]. apply Z.mod_pos_bound. lia.
Qed.

Lemma OptDePngRandomWrap_mod_witness :
  OptDePngRandomWrap 298 2 299 = (298 + 2) mod 299 /\
  0 <= OptDePngRandomWrap 298 2 299 < 299.
Proof. apply (OptDePngRandomWrap_mod 298 2 299); lia. Defined.

(** ** The shift-and-add scan of the Sub filter *)

(** X8: the four shift-and-add steps (by 1, 2, 4 and 8 bytes) of the Sub
    loop leave in byte [k] of the register the sum, modulo 256, of the
    bytes [0 .. k] it held: the running sum the comment of the Sub filter
    describes. *)
Theorem sll_addb_scan_running_sum :
  forall (P0 : list Z) (k : nat),
    length P0 = 16%nat -> (k < 16)%nat ->
    nth k (sll_addb_scan P0) 0 = fold_right Z.add 0 (firstn (S k) P0) mod 256.
Proof.
  intros P0 k HP Hk.
  explode P0 HP.
  unfold sll_addb_scan. vcompute.
  do 16 (destruct k as [|k];
         [cbn [nth firstn fold_right]; rewrite ?Z.add_0_r; byte_arith|]).
  lia.
Qed.

Lemma sll_addb_scan_running_sum_witness :
  nth 5 (sll_addb_scan [1; 2; 3; 4; 5; 6; 7; 8; 9; 10; 11; 12; 13; 14; 15; 255]) 0
  = fold_right Z.add 0
      (firstn 6 [1; 2; 3; 4; 5; 6; 7; 8; 9; 10; 11; 12; 13; 14; 15; 255]) mod 256.
Proof.
  apply (sll_addb_scan_running_sum
           [1; 2; 3; 4; 5; 6; 7; 8; 9; 10; 11; 12; 13; 14; 15; 255] 5).
  - reflexivity.
  - lia.
Defined.


(** * The bytes of a window after the scalar loops *)

Lemma nth_upd_nth k : forall (W : list Z) f j,
  (k < length W)%nat ->
  nth j (upd_nth k W f) 0 = if (j =? k)%nat then f (nth k W 0) else nth j W 0.
Proof.
  induction k as [|k IH]; intros [|w W] f j H; cbn [length] in H; try lia.
  - destruct j; reflexivity.
  - destruct j as [|j]; [reflexivity|].
    cbn [upd_nth nth]. rewrite IH by lia. reflexivity.
Qed.

Lemma sub_win_nth B n : forall (W : list Z) x,
  (1 <= B)%nat -> length W = (n + B)%nat -> (x < n + B)%nat ->
  nth x (sub_win B n W) 0
  = if (x <? B)%nat then nth x W 0
    else Sum (nth x W 0) (nth (x - B) (sub_win B n W) 0).
Proof.
  induction n as [|n IH]; intros W x HB HW Hx.
  - cbn [sub_win]. destruct (Nat.ltb_spec x B); [reflexivity | lia].
  - destruct W as [|w rest]; [discriminate|]. cbn [length] in HW.
    cbn [sub_win].
    set (rest' := upd_nth (Nat.pred B) rest (fun y => Sum y w)).
    assert (HR : length rest' = (n + B)%nat) by (unfold rest'; rewrite length_upd_nth; lia).
    destruct x as [|x].
    + destruct (Nat.ltb_spec 0 B); [reflexivity | lia].
    + cbn [nth]. rewrite (IH rest' x HB HR ltac:(lia)).
      unfold rest' at 1 2. rewrite !nth_upd_nth by lia.
      destruct (Nat.ltb_spec x B) as [L|L], (Nat.ltb_spec (S x) B) as [L'|L']; try lia.
      * destruct (Nat.eqb_spec x (Nat.pred B)); [lia | reflexivity].
      * destruct (Nat.eqb_spec x (Nat.pred B)) as [E|E]; [|lia].
        replace (S x - B)%nat with O by lia. cbn [nth]. rewrite E. reflexivity.
      * destruct (Nat.eqb_spec x (Nat.pred B)); [lia|].
        replace (S x - B)%nat with (S (x - B)) by lia. reflexivity.
Qed.

Lemma zipWith_nth (f : Z -> Z -> Z) : forall (a b : list Z) x,
  (x < length a)%nat -> (x < length b)%nat ->
  nth x (zipWith f a b) 0 = f (nth x a 0) (nth x b 0).
Proof.
  induction a as [|u a IH]; intros [|v b] x Ha Hb; cbn [length] in *; try lia.
  destruct x as [|x]; [reflexivity|]. cbn [zipWith nth]. apply IH; lia.
Qed.

Lemma avg_win_nth B n : forall (U W : list Z) x,
  (1 <= B)%nat -> length U = n -> length W = (n + B)%nat -> (x < n + B)%nat ->
  nth x (avg_win B n U W) 0
  = if (x <? B)%nat then nth x W 0
    else Sum (nth x W 0) (Avg (nth (x - B) (avg_win B n U W) 0) (nth (x - B) U 0)).
Proof.
  induction n as [|n IH]; intros U W x HB HU HW Hx.
  - cbn [avg_win]. destruct (Nat.ltb_spec x B); [reflexivity | lia].
  - destruct U as [|b U]; [discriminate|]. destruct W as [|w rest]; [discriminate|].
    cbn [length] in HU, HW. cbn [avg_win].
    set (rest' := upd_nth (Nat.pred B) rest (fun y => Sum y (Avg w b))).
    assert (HR : length rest' = (n + B)%nat) by (unfold rest'; rewrite length_upd_nth; lia).
    destruct x as [|x].
    + destruct (Nat.ltb_spec 0 B); [reflexivity | lia].
    + cbn [nth]. rewrite (IH U rest' x HB ltac:(lia) HR ltac:(lia)).
      unfold rest' at 1 2. rewrite !nth_upd_nth by lia.
      destruct (Nat.ltb_spec x B) as [L|L], (Nat.ltb_spec (S x) B) as [L'|L']; try lia.
      * destruct (Nat.eqb_spec x (Nat.pred B)); [lia | reflexivity].
      * destruct (Nat.eqb_spec x (Nat.pred B)) as [E|E]; [|lia].
        replace (S x - B)%nat with O by lia. cbn [nth]. rewrite E. reflexivity.
      * destruct (Nat.eqb_spec x (Nat.pred B)); [lia|].
        replace (S x - B)%nat with (S (x - B)) by lia. reflexivity.
Qed.

Lemma paeth_win_nth Pth B n : forall (U W : list Z) x,
  (1 <= B)%nat -> length U = (n + B)%nat -> length W = (n + B)%nat -> (x < n + B)%nat ->
  nth x (paeth_win Pth B n U W) 0
  = if (x <? B)%nat then nth x W 0
    else Sum (nth x W 0)
             (Pth (nth (x - B) (paeth_win Pth B n U W) 0) (nth x U 0) (nth (x - B) U 0)).
Proof.
  induction n as [|n IH]; intros U W x HB HU HW Hx.
  - cbn [paeth_win]. destruct (Nat.ltb_spec x B); [reflexivity | lia].
  - destruct U as [|c U]; [discriminate|]. destruct W as [|w rest]; [discriminate|].
    cbn [length] in HU, HW. cbn [paeth_win].
    set (rest' := upd_nth (Nat.pred B) rest
                          (fun y => Sum y (Pth w (nth (Nat.pred B) U 0) c))).
    assert (HR : length rest' = (n + B)%nat) by (unfold rest'; rewrite length_upd_nth; lia).
    destruct x as [|x].
    + destruct (Nat.ltb_spec 0 B); [reflexivity | lia].
    + cbn [nth]. rewrite (IH U rest' x HB ltac:(lia) HR ltac:(lia)).
      unfold rest' at 1 2. rewrite !nth_upd_nth by lia.
      destruct (Nat.ltb_spec x B) as [L|L], (Nat.ltb_spec (S x) B) as [L'|L']; try lia.
      * destruct (Nat.eqb_spec x (Nat.pred B)); [lia | reflexivity].
      * destruct (Nat.eqb_spec x (Nat.pred B)) as [E|E]; [|lia].
        replace (S x - B)%nat with O by lia. cbn [nth]. rewrite E. reflexivity.
      * destruct (Nat.eqb_spec x (Nat.pred B)); [lia|].
        replace (S x - B)%nat with (S (x - B)) by lia. reflexivity.
Qed.


(** * The scalar loops, byte by byte *)

Lemma byte_at_frame_in pre W post x :
  0 <= x < len W -> byte_at (frame pre W post) (len pre + x) = nth (Z.to_nat x) W 0.
Proof.
  intros H. unfold byte_at, frame, len in *.
  rewrite app_nth2 by lia.
  replace (Z.to_nat (Z.of_nat (length pre) + x) - length pre)%nat with (Z.to_nat x) by lia.
  apply app_nth1. lia.
Qed.

Lemma byte_at_frame_out pre W W' post a :
  length W' = length W -> 0 <= a -> a < len pre \/ len pre + len W <= a ->
  byte_at (frame pre W' post) a = byte_at (frame pre W post) a.
Proof.
  intros HW Ha H. unfold byte_at, frame, len in *.
  destruct H as [H|H].
  - rewrite !app_nth1 by lia. reflexivity.
  - rewrite !(app_nth2 pre) by lia. rewrite !(app_nth2 _ post) by lia.
    rewrite HW. reflexivity.
Qed.

Section Frame2Bytes.
Variables pre U mid W post : list Z.
Variables p u : Z.
Hypothesis Hp : p = len pre + len U + len mid.
Hypothesis Hu : u = len pre.

Lemma byte_at_frame2_w x :
  0 <= x < len W -> byte_at (frame2 pre U mid W post) (p + x) = nth (Z.to_nat x) W 0.
Proof.
  intros H. rewrite frame2_w, Hp, <- len_pw. apply byte_at_frame_in. exact H.
Qed.

Lemma byte_at_frame2_u x :
  0 <= x < len U -> byte_at (frame2 pre U mid W post) (u + x) = nth (Z.to_nat x) U 0.
Proof.
  intros H. rewrite frame2_u, Hu. apply byte_at_frame_in. exact H.
Qed.

Lemma byte_at_frame2_out W' a :
  length W' = length W -> 0 <= a -> a < p \/ p + len W <= a ->
  byte_at (frame2 pre U mid W' post) a = byte_at (frame2 pre U mid W post) a.
Proof.
  intros HW Ha H. rewrite !frame2_w. apply byte_at_frame_out; try assumption.
  rewrite len_pw, <- Hp. exact H.
Qed.
End Frame2Bytes.

(** [Sub]: the pixels after the first one. *)
Lemma sub_run_nth (B n : nat) (m : mem) P :
  (1 <= B)%nat -> 0 <= P -> P + Z.of_nat n + Z.of_nat B <= len m -> Forall byte m ->
  exists m',
    iter n (sub_step (Z.of_nat B)) (m, P) = Some (m', P + Z.of_nat n) /\
    len m' = len m /\ Forall byte m' /\
    (forall a, 0 <= a -> a < P \/ P + Z.of_nat n + Z.of_nat B <= a ->
               byte_at m' a = byte_at m a) /\
    (forall x, 0 <= x < Z.of_nat n + Z.of_nat B ->
       byte_at m' (P + x)
       = if x <? Z.of_nat B then byte_at m (P + x)
         else Sum (byte_at m (P + x)) (byte_at m' (P + x - Z.of_nat B))).
Proof.
  intros HB HP Hl Hm.
  destruct (frame_split m P (n + B)) as (pre & W & post & -> & <- & HW); [lia | lia |].
  exists (frame pre (sub_win B n W) post).
  assert (LW : length (sub_win B n W) = length W) by apply sub_win_length.
  split; [|split; [|split; [|split]]].
  - unfold frame. apply sub_iter; assumption.
  - rewrite !len_frame. unfold len. rewrite LW. reflexivity.
  - rewrite !Forall_frame in *. repeat split; try tauto. apply sub_win_bytes. tauto.
  - intros a Ha H. apply byte_at_frame_out; [exact LW | exact Ha |].
    unfold len in *. lia.
  - intros x Hx.
    rewrite !byte_at_frame_in by (unfold len; lia).
    rewrite (sub_win_nth B n W (Z.to_nat x) HB HW ltac:(lia)).
    destruct (Nat.ltb_spec (Z.to_nat x) B), (Z.ltb_spec x (Z.of_nat B)); try lia.
    replace (len pre + x - Z.of_nat B) with (len pre + (x - Z.of_nat B)) by lia.
    rewrite byte_at_frame_in by (unfold len; lia).
    replace (Z.to_nat (x - Z.of_nat B)) with (Z.to_nat x - B)%nat by lia.
    reflexivity.
Qed.

(** [Up]: the whole row. *)
Lemma up_run_nth (n : nat) (m : mem) P u :
  0 <= u -> u + Z.of_nat n <= P -> P + Z.of_nat n <= len m -> Forall byte m ->
  exists m',
    iter n up_step (m, P, Some u) = Some (m', P + Z.of_nat n, Some (u + Z.of_nat n)) /\
    len m' = len m /\ Forall byte m' /\
    (forall a, 0 <= a -> a < P \/ P + Z.of_nat n <= a -> byte_at m' a = byte_at m a) /\
    (forall x, 0 <= x < Z.of_nat n ->
       byte_at m' (P + x) = Sum (byte_at m (P + x)) (byte_at m (u + x))).
Proof.
  intros Hu Hup Hl Hm.
  destruct (frame2_split m u P n n) as (pre & U & mid & W & post & -> & Hpre & HU & HW & Hp);
    [lia | lia | lia |].
  exists (frame2 pre U mid (up_win U W) post).
  assert (LW : length (up_win U W) = length W) by (apply up_win_length; lia).
  split; [|split; [|split; [|split]]].
  - apply up_iter; auto.
  - rewrite !len_frame2. unfold len. rewrite LW. reflexivity.
  - rewrite Forall_frame2 in *. repeat split; try tauto. apply up_win_bytes.
  - intros a Ha H. apply (byte_at_frame2_out pre U mid W post P Hp); [exact LW | exact Ha |].
    unfold len. lia.
  - intros x Hx.
    rewrite (byte_at_frame2_w pre U mid _ post P Hp) by (unfold len; lia).
    rewrite (byte_at_frame2_w pre U mid W post P Hp) by (unfold len; lia).
    rewrite (byte_at_frame2_u pre U mid W post u (eq_sym Hpre)) by (unfold len; lia).
    unfold up_win. apply zipWith_nth; lia.
Qed.

(** [Avg] and [Paeth]: the first pixel of the row. *)
Lemma head_run_nth (g : Z -> Z) (step : Z -> ptr -> mem * Z -> option (mem * Z))
    (B : nat) (m : mem) P u :
  (forall pre U mid W post,
     P = len pre + len U + len mid -> u = len pre -> length U = B -> length W = B ->
     iter B (step P (Some u)) (frame2 pre U mid W post, 0)
     = Some (frame2 pre U mid (head_win g U W) post, 0 + Z.of_nat B)) ->
  0 <= u -> u + Z.of_nat B <= P -> P + Z.of_nat B <= len m -> Forall byte m ->
  exists m',
    iter B (step P (Some u)) (m, 0) = Some (m', Z.of_nat B) /\
    len m' = len m /\ Forall byte m' /\
    (forall a, 0 <= a -> a < P \/ P + Z.of_nat B <= a -> byte_at m' a = byte_at m a) /\
    (forall x, 0 <= x < Z.of_nat B ->
       byte_at m' (P + x) = Sum (byte_at m (P + x)) (g (byte_at m (u + x)))).
Proof.
  intros Hstep Hu Hup Hl Hm.
  destruct (frame2_split m u P B B) as (pre & U & mid & W & post & -> & Hpre & HU & HW & Hp);
    [lia | lia | lia |].
  exists (frame2 pre U mid (head_win g U W) post).
  assert (LW : length (head_win g U W) = length W) by (apply head_win_length; lia).
  split; [|split; [|split; [|split]]].
  - apply Hstep; auto.
  - rewrite !len_frame2. unfold len. rewrite LW. reflexivity.
  - rewrite Forall_frame2 in *. repeat split; try tauto. apply head_win_bytes.
  - intros a Ha H. apply (byte_at_frame2_out pre U mid W post P Hp); [exact LW | exact Ha |].
    unfold len. lia.
  - intros x Hx.
    rewrite (byte_at_frame2_w pre U mid _ post P Hp) by (unfold len; lia).
    rewrite (byte_at_frame2_w pre U mid W post P Hp) by (unfold len; lia).
    rewrite (byte_at_frame2_u pre U mid W post u (eq_sym Hpre)) by (unfold len; lia).
    unfold head_win. apply (zipWith_nth (fun a b => Sum a (g b))); lia.
Qed.

Lemma avg_head_run_nth (B : nat) (m : mem) P u :
  0 <= u -> u + Z.of_nat B <= P -> P + Z.of_nat B <= len m -> Forall byte m ->
  exists m',
    iter B (avg_head_step P (Some u)) (m, 0) = Some (m', Z.of_nat B) /\
    len m' = len m /\ Forall byte m' /\
    (forall a, 0 <= a -> a < P \/ P + Z.of_nat B <= a -> byte_at m' a = byte_at m a) /\
    (forall x, 0 <= x < Z.of_nat B ->
       byte_at m' (P + x) = Sum (byte_at m (P + x)) (Z.shiftr (byte_at m (u + x)) 1)).
Proof.
  apply (head_run_nth (fun y => Z.shiftr y 1) avg_head_step).
  intros pre U mid W post Hp Hu HU HW.
  apply (avg_head_iter B pre U mid W post P u 0); auto; lia.
Qed.

Lemma paeth_head_run_nth (B : nat) (m : mem) P u :
  0 <= u -> u + Z.of_nat B <= P -> P + Z.of_nat B <= len m -> Forall byte m ->
  exists m',
    iter B (paeth_head_step P (Some u)) (m, 0) = Some (m', Z.of_nat B) /\
    len m' = len m /\ Forall byte m' /\
    (forall a, 0 <= a -> a < P \/ P + Z.of_nat B <= a -> byte_at m' a = byte_at m a) /\
    (forall x, 0 <= x < Z.of_nat B ->
       byte_at m' (P + x) = Sum (byte_at m (P + x)) (byte_at m (u + x))).
Proof.
  apply (head_run_nth (fun y => y) paeth_head_step).
  intros pre U mid W post Hp Hu HU HW.
  apply (paeth_head_iter B pre U mid W post P u 0); auto; lia.
Qed.

(** [Avg]: the pixels after the first one; [u] is above [p[bpp]]. *)
Lemma avg_run_nth (B n : nat) (m : mem) P u :
  (1 <= B)%nat ->
  0 <= u -> u + Z.of_nat n <= P -> P + Z.of_nat n + Z.of_nat B <= len m -> Forall byte m ->
  exists m',
    iter n (avg_step (Z.of_nat B)) (m, P, Some u)
    = Some (m', P + Z.of_nat n, Some (u + Z.of_nat n)) /\
    len m' = len m /\ Forall byte m' /\
    (forall a, 0 <= a -> a < P \/ P + Z.of_nat n + Z.of_nat B <= a ->
               byte_at m' a = byte_at m a) /\
    (forall x, 0 <= x < Z.of_nat n + Z.of_nat B ->
       byte_at m' (P + x)
       = if x <? Z.of_nat B then byte_at m (P + x)
         else Sum (byte_at m (P + x))
                  (Avg (byte_at m' (P + x - Z.of_nat B)) (byte_at m (u + x - Z.of_nat B)))).
Proof.
  intros HB Hu Hup Hl Hm.
  destruct (frame2_split m u P n (n + B))
    as (pre & U & mid & W & post & -> & Hpre & HU & HW & Hp); [lia | lia | lia |].
  exists (frame2 pre U mid (avg_win B n U W) post).
  assert (LW : length (avg_win B n U W) = length W) by apply avg_win_length.
  split; [|split; [|split; [|split]]].
  - apply avg_iter; auto.
  - rewrite !len_frame2. unfold len. rewrite LW. reflexivity.
  - rewrite Forall_frame2 in *. repeat split; try tauto. apply avg_win_bytes. tauto.
  - intros a Ha H. apply (byte_at_frame2_out pre U mid W post P Hp); [exact LW | exact Ha |].
    unfold len. lia.
  - intros x Hx.
    rewrite (byte_at_frame2_w pre U mid _ post P Hp) by (unfold len; lia).
    rewrite (byte_at_frame2_w pre U mid W post P Hp) by (unfold len; lia).
    rewrite (avg_win_nth B n U W (Z.to_nat x) HB HU HW ltac:(lia)).
    destruct (Nat.ltb_spec (Z.to_nat x) B), (Z.ltb_spec x (Z.of_nat B)); try lia.
    replace (P + x - Z.of_nat B) with (P + (x - Z.of_nat B)) by lia.
    replace (u + x - Z.of_nat B) with (u + (x - Z.of_nat B)) by lia.
    rewrite (byte_at_frame2_w pre U mid _ post P Hp) by (unfold len; lia).
    rewrite (byte_at_frame2_u pre U mid W post u (eq_sym Hpre)) by (unfold len; lia).
    replace (Z.to_nat (x - Z.of_nat B)) with (Z.to_nat x - B)%nat by lia.
    reflexivity.
Qed.

(** [Paeth]: the pixels after the first one; [u] is above [p[0]]. *)
Lemma paeth_run_nth Pth (B n : nat) (m : mem) P u :
  (1 <= B)%nat ->
  0 <= u -> u + Z.of_nat n + Z.of_nat B <= P -> P + Z.of_nat n + Z.of_nat B <= len m ->
  Forall byte m ->
  exists m',
    iter n (paeth_step Pth (Z.of_nat B)) (m, P, Some u)
    = Some (m', P + Z.of_nat n, Some (u + Z.of_nat n)) /\
    len m' = len m /\ Forall byte m' /\
    (forall a, 0 <= a -> a < P \/ P + Z.of_nat n + Z.of_nat B <= a ->
               byte_at m' a = byte_at m a) /\
    (forall x, 0 <= x < Z.of_nat n + Z.of_nat B ->
       byte_at m' (P + x)
       = if x <? Z.of_nat B then byte_at m (P + x)
         else Sum (byte_at m (P + x))
                  (Pth (byte_at m' (P + x - Z.of_nat B)) (byte_at m (u + x))
                       (byte_at m (u + x - Z.of_nat B)))).
Proof.
  intros HB Hu Hup Hl Hm.
  destruct (frame2_split m u P (n + B) (n + B))
    as (pre & U & mid & W & post & -> & Hpre & HU & HW & Hp); [lia | lia | lia |].
  exists (frame2 pre U mid (paeth_win Pth B n U W) post).
  assert (LW : length (paeth_win Pth B n U W) = length W) by apply paeth_win_length.
  split; [|split; [|split; [|split]]].
  - apply paeth_iter; auto.
  - rewrite !len_frame2. unfold len. rewrite LW. reflexivity.
  - rewrite Forall_frame2 in *. repeat split; try tauto. apply paeth_win_bytes. tauto.
  - intros a Ha H. apply (byte_at_frame2_out pre U mid W post P Hp); [exact LW | exact Ha |].
    unfold len. lia.
  - intros x Hx.
    rewrite (byte_at_frame2_w pre U mid _ post P Hp) by (unfold len; lia).
    rewrite (byte_at_frame2_w pre U mid W post P Hp) by (unfold len; lia).
    rewrite (paeth_win_nth Pth B n U W (Z.to_nat x) HB HU HW ltac:(lia)).
    destruct (Nat.ltb_spec (Z.to_nat x) B), (Z.ltb_spec x (Z.of_nat B)); try lia.
    replace (P + x - Z.of_nat B) with (P + (x - Z.of_nat B)) by lia.
    replace (u + x - Z.of_nat B) with (u + (x - Z.of_nat B)) by lia.
    rewrite (byte_at_frame2_w pre U mid _ post P Hp) by (unfold len; lia).
    rewrite !(byte_at_frame2_u pre U mid W post u (eq_sym Hpre)) by (unfold len; lia).
    replace (Z.to_nat (x - Z.of_nat B)) with (Z.to_nat x - B)%nat by lia.
    reflexivity.
Qed.


(** * One row of the reference kernel, byte by byte *)

Lemma ld_byte_at (m : mem) a : 0 <= a < len m -> ld m a = Some (byte_at m a).
Proof. apply ld_ok. Qed.

Ltac filter_cases :=
  unfold kPngFilterNone, kPngFilterSub, kPngFilterUp, kPngFilterAvg, kPngFilterPaeth;
  repeat split; (let H := fresh "F" in intros H; try lia; clear H).

(** The reference on a row that has a previous row and a valid filter:
    only the bytes of the row change, and they are the bytes the filter
    reconstructs. *)
Lemma ref_row_spec (B : nat) bpl (m : mem) p :
  (1 <= B)%nat ->
  Z.of_nat B <= bpl < 4294967296 ->
  bpl <= p -> p + 1 + bpl <= len m -> Forall byte m ->
  0 <= byte_at m p < 5 ->
  exists m',
    ref_row (Z.of_nat B) bpl (m, p, Some (p - bpl))
    = Some (m', p + 1 + bpl, Some (p + 1)) /\
    len m' = len m /\ Forall byte m' /\
    (forall a, 0 <= a -> a < p + 1 \/ p + 1 + bpl <= a -> byte_at m' a = byte_at m a) /\
    row_done (Z.of_nat B) bpl m m' p.
Proof.
  intros B1 Hbpl Hp Hl Hm Hr.
  unfold ref_row. rewrite ld_byte_at by lia. cbn [bind].
  unfold row_done.
  remember (byte_at m p) as f eqn:Hf.
  assert (C : f = 0 \/ f = 1 \/ f = 2 \/ f = 3 \/ f = 4) by lia.
  clear Hr. destruct C as [->|[->|[->|[->| ->]]]].
  - change (0 =? kPngFilterNone) with true. cbv iota. cbn [bind].
    exists m. split; [apply row_end; lia|].
    repeat split; auto; intros E; unfold kPngFilterSub, kPngFilterUp, kPngFilterAvg,
      kPngFilterPaeth in E; lia.
  - change (1 =? kPngFilterNone) with false. change (1 =? kPngFilterSub) with true.
    cbv iota.
    rewrite u32_small by lia.
    destruct (sub_run_nth B (Z.to_nat (bpl - Z.of_nat B)) m (p + 1) B1
                ltac:(lia) ltac:(lia) Hm) as (m' & E & L & M & K1 & K2).
    rewrite E. cbn [bind].
    exists m'. split; [apply row_end; lia|].
    split; [exact L|]. split; [exact M|]. split.
    + intros a Ha H. apply K1; lia.
    + intros x Hx. cbv zeta. filter_cases.
      rewrite (K2 x) by lia. reflexivity.
  - change (2 =? kPngFilterNone) with false. change (2 =? kPngFilterSub) with false.
    change (2 =? kPngFilterUp) with true. cbv iota.
    destruct (up_run_nth (Z.to_nat bpl) m (p + 1) (p - bpl)
                ltac:(lia) ltac:(lia) ltac:(lia) Hm) as (m' & E & L & M & K1 & K2).
    unfold ptr in *. rewrite E. cbn [bind].
    exists m'. split; [apply row_end; lia|].
    split; [exact L|]. split; [exact M|]. split.
    + intros a Ha H. apply K1; lia.
    + intros x Hx. cbv zeta. filter_cases.
      rewrite (K2 x) by lia. rewrite (K1 (p - bpl + x)) by lia. reflexivity.
  - change (3 =? kPngFilterNone) with false. change (3 =? kPngFilterSub) with false.
    change (3 =? kPngFilterUp) with false. change (3 =? kPngFilterAvg) with true.
    cbv iota. rewrite Nat2Z.id.
    destruct (avg_head_run_nth B m (p + 1) (p - bpl)
                ltac:(lia) ltac:(lia) ltac:(lia) Hm) as (m1 & E1 & L1 & M1 & H1 & H2).
    rewrite E1. cbn [bind padd]. cbv zeta.
    rewrite u32_small by lia.
    destruct (avg_run_nth B (Z.to_nat (bpl - Z.of_nat B)) m1 (p + 1) (p - bpl + Z.of_nat B)
                B1 ltac:(lia) ltac:(lia) ltac:(lia) M1)
      as (m' & E & L & M & K1 & K2).
    unfold ptr in *. rewrite E. cbn [bind].
    exists m'. split; [apply row_end; lia|].
    split; [congruence|]. split; [exact M|]. split.
    + intros a Ha H. rewrite K1 by lia. apply H1; lia.
    + intros x Hx. cbv zeta. filter_cases.
      rewrite (K2 x) by lia.
      rewrite (K1 (p - bpl + x)) by lia. rewrite (H1 (p - bpl + x)) by lia.
      destruct (Z.ltb_spec x (Z.of_nat B)).
      * rewrite (H2 x) by lia. reflexivity.
      * rewrite (H1 (p + 1 + x)) by lia.
        replace (p - bpl + Z.of_nat B + x - Z.of_nat B) with (p - bpl + x) by lia.
        rewrite (H1 (p - bpl + x)) by lia. reflexivity.
  - change (4 =? kPngFilterNone) with false. change (4 =? kPngFilterSub) with false.
    change (4 =? kPngFilterUp) with false. change (4 =? kPngFilterAvg) with false.
    change (4 =? kPngFilterPaeth) with true.
    cbv iota. rewrite Nat2Z.id.
    destruct (paeth_head_run_nth B m (p + 1) (p - bpl)
                ltac:(lia) ltac:(lia) ltac:(lia) Hm) as (m1 & E1 & L1 & M1 & H1 & H2).
    rewrite E1. cbn [bind].
    rewrite u32_small by lia.
    destruct (paeth_run_nth PaethRef B (Z.to_nat (bpl - Z.of_nat B)) m1 (p + 1) (p - bpl)
                B1 ltac:(lia) ltac:(lia) ltac:(lia) M1)
      as (m' & E & L & M & K1 & K2).
    unfold ptr in *. rewrite E. cbn [bind].
    exists m'. split; [apply row_end; lia|].
    split; [congruence|]. split; [exact M|]. split.
    + intros a Ha H. rewrite K1 by lia. apply H1; lia.
    + intros x Hx. cbv zeta. filter_cases.
      rewrite (K2 x) by lia.
      rewrite (K1 (p - bpl + x)) by lia. rewrite (H1 (p - bpl + x)) by lia.
      destruct (Z.ltb_spec x (Z.of_nat B)).
      * rewrite (H2 x) by lia. reflexivity.
      * rewrite (H1 (p + 1 + x)) by lia.
        rewrite (K1 (p - bpl + x - Z.of_nat B)) by lia.
        rewrite !(H1 (p - bpl + x - Z.of_nat B)) by lia.
        reflexivity.
Qed.


(** * The kernels on any well-formed image *)

(** A row whose filter is None or Sub does not read the previous row. *)
Lemma row_spec_first (B : nat) base bpl (m : mem) p u :
  In B [1; 2; 3; 4; 6; 8]%nat ->
  Z.of_nat B <= bpl < 4294967296 ->
  0 <= p -> p + 1 + bpl <= len m -> Forall byte m ->
  byte_at m p = kPngFilterNone \/ byte_at m p = kPngFilterSub ->
  exists m',
    ref_row (Z.of_nat B) bpl (m, p, u) = Some (m', p + 1 + bpl, Some (p + 1)) /\
    sse2_row (Z.of_nat B) base bpl (m, p, u) = Some (m', p + 1 + bpl, Some (p + 1)) /\
    len m' = len m /\ Forall byte m' /\
    (forall a, 0 <= a -> a < p + 1 \/ p + 1 + bpl <= a -> byte_at m' a = byte_at m a) /\
    row_done (Z.of_nat B) bpl m m' p.
Proof.
  intros HB Hbpl Hp Hl Hm Hf.
  assert (B1 : (1 <= B)%nat) by (simpl in HB; lia).
  unfold ref_row, sse2_row, row_done. rewrite ld_byte_at by lia. cbn [bind].
  destruct Hf as [Hf|Hf]; rewrite Hf.
  - change (kPngFilterNone =? kPngFilterNone) with true. cbv iota. cbn [bind].
    exists m. split; [apply row_end; lia|]. split; [apply row_end; lia|].
    repeat split; auto; intros E; unfold kPngFilterNone, kPngFilterSub, kPngFilterUp,
      kPngFilterAvg, kPngFilterPaeth in E; lia.
  - change (kPngFilterSub =? kPngFilterNone) with false.
    change (kPngFilterSub =? kPngFilterSub) with true. cbv iota.
    rewrite sse2_sub_ok by (try assumption; lia).
    rewrite u32_small by lia.
    destruct (sub_run_nth B (Z.to_nat (bpl - Z.of_nat B)) m (p + 1) B1
                ltac:(lia) ltac:(lia) Hm) as (m' & E & L & M & K1 & K2).
    rewrite E. cbn [bind].
    exists m'. split; [apply row_end; lia|]. split; [apply row_end; lia|].
    split; [exact L|]. split; [exact M|]. split.
    + intros a Ha H. apply K1; lia.
    + intros x Hx. cbv zeta. filter_cases.
      rewrite (K2 x) by lia. reflexivity.
Qed.

(** A row that has a previous row. *)
Lemma row_spec (B : nat) base bpl (m : mem) p :
  In B [1; 2; 3; 4; 6; 8]%nat ->
  Z.of_nat B <= bpl < 4294967296 ->
  bpl <= p -> p + 1 + bpl <= len m -> Forall byte m ->
  0 <= byte_at m p < 5 ->
  exists m',
    ref_row (Z.of_nat B) bpl (m, p, Some (p - bpl)) = Some (m', p + 1 + bpl, Some (p + 1)) /\
    sse2_row (Z.of_nat B) base bpl (m, p, Some (p - bpl))
    = Some (m', p + 1 + bpl, Some (p + 1)) /\
    len m' = len m /\ Forall byte m' /\
    (forall a, 0 <= a -> a < p + 1 \/ p + 1 + bpl <= a -> byte_at m' a = byte_at m a) /\
    row_done (Z.of_nat B) bpl m m' p.
Proof.
  intros HB Hbpl Hp Hl Hm Hf.
  assert (B1 : (1 <= B)%nat) by (simpl in HB; lia).
  destruct (ref_row_spec B bpl m p B1 Hbpl Hp Hl Hm Hf) as (m' & E & R).
  exists m'. split; [exact E|]. split; [|exact R].
  rewrite sse2_row_eq by assumption. exact E.
Qed.

(** [row_done] only looks at the row, at the row above and at the filter
    byte. *)
Lemma row_done_ext bpp bpl (m m2 out out2 : mem) q :
  0 <= bpp ->
  byte_at m2 q = byte_at m q ->
  (forall a, q + 1 <= a < q + 1 + bpl -> byte_at m2 a = byte_at m a) ->
  (forall a, q - bpl <= a < q + 1 + bpl -> byte_at out2 a = byte_at out a) ->
  row_done bpp bpl m out q -> row_done bpp bpl m2 out2 q.
Proof.
  intros Hb Hf Hm Ho R x Hx. specialize (R x Hx). cbv zeta in *.
  rewrite Hf, (Hm (q + 1 + x)), (Ho (q + 1 + x)), (Ho (q - bpl + x)) by lia.
  destruct R as (R0 & R1 & R2 & R3 & R4).
  repeat split; intros F;
    [ apply (R0 F) | pose proof (R1 F) as R | apply (R2 F)
    | pose proof (R3 F) as R | pose proof (R4 F) as R ];
    destruct (Z.ltb_spec x bpp); try exact R;
    rewrite ?(Ho (q + 1 + x - bpp)), ?(Ho (q - bpl + x - bpp)) by lia; exact R.
Qed.

Local Opaque ref_row sse2_row.

(** The rows after the first one, to the end of the image. *)
Lemma rows_spec (B : nat) base bpl k : forall (m : mem) p,
  In B [1; 2; 3; 4; 6; 8]%nat ->
  Z.of_nat B <= bpl < 4294967296 ->
  Forall byte m ->
  bpl <= p -> p + Z.of_nat k * (bpl + 1) <= len m ->
  (forall i, 0 <= i < Z.of_nat k -> 0 <= byte_at m (p + i * (bpl + 1)) < 5) ->
  exists out p' u',
    iter k (ref_row (Z.of_nat B) bpl) (m, p, Some (p - bpl)) = Some (out, p', u') /\
    iter k (sse2_row (Z.of_nat B) base bpl) (m, p, Some (p - bpl)) = Some (out, p', u') /\
    len out = len m /\ Forall byte out /\
    (forall a, 0 <= a -> a < p \/ p + Z.of_nat k * (bpl + 1) <= a ->
               byte_at out a = byte_at m a) /\
    (forall i, 0 <= i < Z.of_nat k ->
               byte_at out (p + i * (bpl + 1)) = byte_at m (p + i * (bpl + 1))) /\
    (forall i, 0 <= i < Z.of_nat k -> row_done (Z.of_nat B) bpl m out (p + i * (bpl + 1))).
Proof.
  induction k as [|k IH]; intros m p HB Hbpl Hm Hp Hl Hf.
  - exists m, p, (Some (p - bpl)). cbn [iter].
    repeat split; auto; intros; lia.
  - assert (B1 : (1 <= B)%nat) by (simpl in HB; lia).
    assert (HK : Z.of_nat (S k) * (bpl + 1) = (bpl + 1) + Z.of_nat k * (bpl + 1)) by lia.
    assert (HK0 : 0 <= Z.of_nat k * (bpl + 1)) by (apply Z.mul_nonneg_nonneg; lia).
    pose proof (Hf 0 ltac:(lia)) as F0.
    replace (p + 0 * (bpl + 1)) with p in F0 by lia.
    destruct (row_spec B base bpl m p HB Hbpl Hp ltac:(lia) Hm F0)
      as (m1 & E1 & S1 & L1 & M1 & O1 & D1).
    assert (Hi : forall i, 0 <= i ->
              p + 1 + bpl + i * (bpl + 1) = p + (i + 1) * (bpl + 1)) by (intros; lia).
    assert (Hge : forall i, 0 <= i -> p + 1 + bpl <= p + (i + 1) * (bpl + 1)) by (intros; nia).
    destruct (IH m1 (p + 1 + bpl) HB Hbpl M1 ltac:(lia) ltac:(lia))
      as (out & p' & u' & R1 & R2 & L & M & O & Fl & D).
    { intros i Hi'. rewrite Hi by lia. rewrite O1 by (specialize (Hge i); lia).
      apply Hf. lia. }
    replace (Some (p + 1 + bpl - bpl)) with (Some (p + 1)) in R1, R2 by (f_equal; lia).
    exists out, p', u'. cbn [iter].
    split; [exact (bind_Some _ _ _ _ E1 R1)|].
    split; [exact (bind_Some _ _ _ _ S1 R2)|].
    split; [congruence|]. split; [exact M|]. split; [|split].
    + intros a Ha H. rewrite O by lia. apply O1; lia.
    + intros i Hi'. destruct (Z.eq_dec i 0) as [->|Hn].
      * replace (p + 0 * (bpl + 1)) with p by lia.
        rewrite O by lia. apply O1; lia.
      * specialize (Fl (i - 1) ltac:(lia)). rewrite Hi in Fl by lia.
        replace (i - 1 + 1) with i in Fl by lia.
        rewrite Fl. apply O1; [nia|]. specialize (Hge (i - 1) ltac:(lia)).
        replace (i - 1 + 1) with i in Hge by lia. lia.
    + intros i Hi'. destruct (Z.eq_dec i 0) as [->|Hn].
      * replace (p + 0 * (bpl + 1)) with p by lia.
        apply (row_done_ext (Z.of_nat B) bpl m m m1 out p); try lia; auto.
        intros a Ha. apply O; lia.
      * specialize (D (i - 1) ltac:(lia)). rewrite Hi in D by lia.
        replace (i - 1 + 1) with i in D by lia.
        specialize (Hge (i - 1) ltac:(lia)).
        replace (i - 1 + 1) with i in Hge by lia.
        apply (row_done_ext (Z.of_nat B) bpl m1 m out out); try lia; auto.
        -- symmetry. apply O1; lia.
        -- intros a Ha. symmetry. apply O1; lia.
Qed.

Lemma byte_at_neg (m : mem) a : a <= 0 -> byte_at m a = byte_at m 0.
Proof. intros H. unfold byte_at. replace (Z.to_nat a) with (Z.to_nat 0) by lia. reflexivity. Qed.

(** An image whose rows carry valid filters, the first row None or Sub:
    the three kernels return the same buffer; only the pixel bytes of the
    image may differ from the input, and every row holds what its filter
    reconstructs. *)
Lemma kernel_spec (B : nat) base (m : mem) h bpl :
  In B [1; 2; 3; 4; 6; 8]%nat ->
  1 <= h < 4294967296 -> Z.of_nat B + 1 <= bpl < 4294967296 ->
  h * bpl <= len m -> Forall byte m ->
  byte_at m 0 = kPngFilterNone \/ byte_at m 0 = kPngFilterSub ->
  (forall y, 1 <= y < h -> 0 <= byte_at m (y * bpl) < 5) ->
  exists out,
    OptDePngFilterRef m h (Z.of_nat B) bpl = Some out /\
    OptDePngFilterOpt m h (Z.of_nat B) bpl = Some out /\
    OptDePngFilterSSE2 base m h (Z.of_nat B) bpl = Some out /\
    len out = len m /\ Forall byte out /\
    (forall a, h * bpl <= a -> byte_at out a = byte_at m a) /\
    (forall y, 0 <= y < h -> byte_at out (y * bpl) = byte_at m (y * bpl)) /\
    (forall y, 0 <= y < h -> row_done (Z.of_nat B) (bpl - 1) m out (y * bpl)).
Proof.
  intros HB Hh Hbpl Hl Hm H0 Hf.
  assert (U : u32 (bpl - 1) = bpl - 1) by (apply u32_small; lia).
  assert (N : do_while_count h = S (Z.to_nat (h - 1))).
  { rewrite do_while_count_nat by lia. lia. }
  assert (Hl1 : 1 * bpl <= h * bpl) by (apply Z.mul_le_mono_nonneg_r; lia).
  destruct (row_spec_first B base (bpl - 1) m 0 NULL HB ltac:(lia) ltac:(lia) ltac:(lia) Hm H0)
    as (m1 & E1 & S1 & L1 & M1 & O1 & D1).
  replace (0 + 1 + (bpl - 1)) with bpl in * by lia.
  assert (Hi : forall i, bpl + i * (bpl - 1 + 1) = (i + 1) * bpl) by (intros; lia).
  assert (Hge : forall i, 0 <= i -> bpl <= (i + 1) * bpl) by (intros; nia).
  destruct (rows_spec B base (bpl - 1) (Z.to_nat (h - 1)) m1 bpl HB ltac:(lia) M1 ltac:(lia))
    as (out & p' & u' & R1 & R2 & L & M & O & Fl & D).
  { rewrite Z2Nat.id by lia. rewrite L1. nia. }
  { intros i Hi'. rewrite Z2Nat.id in Hi' by lia. rewrite Hi.
    rewrite O1 by (specialize (Hge i); lia). apply Hf. lia. }
  rewrite Z2Nat.id in O, Fl, D by lia.
  replace (Some (bpl - (bpl - 1))) with (Some (0 + 1)) in R1, R2 by (f_equal; lia).
  exists out. split; [|split; [|split; [|split; [|split; [|split; [|split]]]]]].
  - unfold OptDePngFilterRef. cbv zeta. rewrite U, N. cbn [iter].
    apply (bind_Some _ _ (out, p', u')); [|reflexivity].
    exact (bind_Some _ _ _ _ E1 R1).
  - rewrite dispatch_opt by exact HB. unfold OptDePngFilterOpt_T. cbv zeta. rewrite U, N.
    rewrite (iter_ext _ _ (ref_row (Z.of_nat B) (bpl - 1))) by (intros; apply opt_row_eq).
    cbn [iter].
    apply (bind_Some _ _ (out, p', u')); [|reflexivity].
    exact (bind_Some _ _ _ _ E1 R1).
  - rewrite dispatch_sse2 by exact HB. unfold OptDePngFilterSSE2_T. cbv zeta. rewrite U, N.
    cbn [iter].
    apply (bind_Some _ _ (out, p', u')); [|reflexivity].
    exact (bind_Some _ _ _ _ S1 R2).
  - congruence.
  - exact M.
  - intros a Ha. rewrite O by nia. apply O1; nia.
  - intros y Hy. destruct (Z.eq_dec y 0) as [->|Hn].
    + rewrite Z.mul_0_l. rewrite O by lia. apply O1; lia.
    + specialize (Fl (y - 1) ltac:(lia)). rewrite Hi in Fl.
      replace (y - 1 + 1) with y in Fl by lia.
      rewrite Fl. specialize (Hge (y - 1) ltac:(lia)).
      replace (y - 1 + 1) with y in Hge by lia.
      apply O1; lia.
  - intros y Hy. destruct (Z.eq_dec y 0) as [->|Hn].
    + rewrite Z.mul_0_l.
      apply (row_done_ext (Z.of_nat B) (bpl - 1) m m m1 out 0); try lia; auto.
      intros a Ha. destruct (Z.le_gt_cases a 0) as [Hneg|Hpos].
      * rewrite !(byte_at_neg _ a) by exact Hneg. apply O; lia.
      * apply O; lia.
    + specialize (D (y - 1) ltac:(lia)). rewrite Hi in D.
      replace (y - 1 + 1) with y in D by lia.
      specialize (Hge (y - 1) ltac:(lia)).
      replace (y - 1 + 1) with y in Hge by lia.
      apply (row_done_ext (Z.of_nat B) (bpl - 1) m1 m out out); try lia; auto.
      * symmetry. apply O1; lia.
      * intros a Ha. symmetry. apply O1; lia.
Qed.

Local Transparent ref_row sse2_row.


(** * What the three kernels compute on a well-formed image

    A well-formed image: [h] rows of [bpl] bytes inside a buffer of bytes,
    one of the supported pixel sizes, a first row with the filter None or
    Sub, and a valid filter on every other row. *)

Section WellFormed.
Variables (base : Z) (m : mem) (h bpp bpl : Z).
Hypothesis Hbpp : In bpp [1; 2; 3; 4; 6; 8].
Hypothesis Hh : 1 <= h < 4294967296.
Hypothesis Hbpl : bpp + 1 <= bpl < 4294967296.
Hypothesis Hlen : h * bpl <= len m.
Hypothesis Hbytes : Forall byte m.
Hypothesis Hrow0 : byte_at m 0 = kPngFilterNone \/ byte_at m 0 = kPngFilterSub.
Hypothesis Hrows : forall y, 1 <= y < h -> 0 <= byte_at m (y * bpl) < kPngFilterCount.

Lemma kernel_spec_Z :
  exists out,
    OptDePngFilterRef m h bpp bpl = Some out /\
    OptDePngFilterOpt m h bpp bpl = Some out /\
    OptDePngFilterSSE2 base m h bpp bpl = Some out /\
    len out = len m /\ Forall byte out /\
    (forall a, h * bpl <= a -> byte_at out a = byte_at m a) /\
    (forall y, 0 <= y < h -> byte_at out (y * bpl) = byte_at m (y * bpl)) /\
    (forall y, 0 <= y < h -> row_done bpp (bpl - 1) m out (y * bpl)).
Proof.
  destruct (bpp_nat bpp Hbpp) as (B & E & HB). subst bpp.
  apply (kernel_spec B base m h bpl); assumption.
Qed.

Lemma above_index y x : y * bpl - (bpl - 1) + x = (y - 1) * bpl + 1 + x.
Proof. lia. Qed.
End WellFormed.

(** X9: on every well-formed image (not only the generated ones; any
    row length of at least one pixel, the first row None or Sub), the
    reference kernel returns a buffer and the specialized and the SSE2
    kernels return the same buffer, whatever the address of the buffer. *)
Theorem kernels_agree_on_well_formed_images :
  forall base (m : mem) h bpp bpl,
    In bpp [1; 2; 3; 4; 6; 8] ->
    1 <= h < 4294967296 -> bpp + 1 <= bpl < 4294967296 ->
    h * bpl <= len m -> Forall byte m ->
    byte_at m 0 = kPngFilterNone \/ byte_at m 0 = kPngFilterSub ->
    (forall y, 1 <= y < h -> 0 <= byte_at m (y * bpl) < kPngFilterCount) ->
    exists out,
      OptDePngFilterRef m h bpp bpl = Some out /\
      OptDePngFilterOpt m h bpp bpl = Some out /\
      OptDePngFilterSSE2 base m h bpp bpl = Some out.
Proof.
  intros base m h bpp bpl H1 H2 H3 H4 H5 H6 H7.
  destruct (kernel_spec_Z base m h bpp bpl H1 H2 H3 H4 H5 H6 H7)
    as (out & R1 & R2 & R3 & _).
  exists out. auto.
Qed.

Lemma kernels_agree_on_well_formed_images_witness :
  let img := [0; 10; 20; 30; 40; 1; 5; 6; 7; 8; 2; 250; 251; 252; 253;
              3; 9; 8; 7; 6; 4; 100; 150; 200; 255] in
  exists out,
    OptDePngFilterRef img 5 2 5 = Some out /\
    OptDePngFilterOpt img 5 2 5 = Some out /\
    OptDePngFilterSSE2 7 img 5 2 5 = Some out.
Proof.
  intros img. apply (kernels_agree_on_well_formed_images 7 img 5 2 5); subst img.
  - simpl. tauto.
  - lia.
  - lia.
  - unfold len. simpl. lia.
  - repeat (apply Forall_cons; [unfold byte; lia|]). apply Forall_nil.
  - left. reflexivity.
  - intros y Hy.
    assert (C : y = 1 \/ y = 2 \/ y = 3 \/ y = 4) by lia.
    destruct C as [->|[->|[->| ->]]]; cbv; (split; [discriminate | reflexivity]).
Defined.

(** X10: on a well-formed image the kernels change pixel bytes only: the
    buffer keeps its length, every filter byte and every byte after the
    image keep their values, the rows whose filter is None keep their
    pixels, and every byte of the result is a byte. *)
Theorem kernels_change_pixel_bytes_only :
  forall base (m : mem) h bpp bpl,
    In bpp [1; 2; 3; 4; 6; 8] ->
    1 <= h < 4294967296 -> bpp + 1 <= bpl < 4294967296 ->
    h * bpl <= len m -> Forall byte m ->
    byte_at m 0 = kPngFilterNone \/ byte_at m 0 = kPngFilterSub ->
    (forall y, 1 <= y < h -> 0 <= byte_at m (y * bpl) < kPngFilterCount) ->
    exists out,
      OptDePngFilterRef m h bpp bpl = Some out /\
      OptDePngFilterOpt m h bpp bpl = Some out /\
      OptDePngFilterSSE2 base m h bpp bpl = Some out /\
      len out = len m /\ Forall byte out /\
      (forall y, 0 <= y < h -> byte_at out (y * bpl) = byte_at m (y * bpl)) /\
      (forall a, h * bpl <= a -> byte_at out a = byte_at m a) /\
      (forall y x, 0 <= y < h -> byte_at m (y * bpl) = kPngFilterNone ->
                   0 <= x < bpl - 1 ->
                   byte_at out (y * bpl + 1 + x) = byte_at m (y * bpl + 1 + x)).
Proof.
  intros base m h bpp bpl H1 H2 H3 H4 H5 H6 H7.
  destruct (kernel_spec_Z base m h bpp bpl H1 H2 H3 H4 H5 H6 H7)
    as (out & R1 & R2 & R3 & L & M & T & F & D).
  exists out. repeat split; try assumption; try (apply F; assumption).
  intros y x Hy Hf Hx. apply (D y Hy x Hx). exact Hf.
Qed.

Lemma kernels_change_pixel_bytes_only_witness :
  let img := [0; 10; 20; 30; 40; 1; 5; 6; 7; 8; 2; 250; 251; 252; 253;
              3; 9; 8; 7; 6; 4; 100; 150; 200; 255] in
  exists out,
    OptDePngFilterRef img 5 2 5 = Some out /\
    OptDePngFilterOpt img 5 2 5 = Some out /\
    OptDePngFilterSSE2 7 img 5 2 5 = Some out /\
    len out = len img /\ Forall byte out /\
    (forall y, 0 <= y < 5 -> byte_at out (y * 5) = byte_at img (y * 5)) /\
    (forall a, 5 * 5 <= a -> byte_at out a = byte_at img a) /\
    (forall y x, 0 <= y < 5 -> byte_at img (y * 5) = kPngFilterNone ->
                 0 <= x < 5 - 1 ->
                 byte_at out (y * 5 + 1 + x) = byte_at img (y * 5 + 1 + x)).
Proof.
  intros img. apply (kernels_change_pixel_bytes_only 7 img 5 2 5); subst img.
  - simpl. tauto.
  - lia.
  - lia.
  - unfold len. simpl. lia.
  - repeat (apply Forall_cons; [unfold byte; lia|]). apply Forall_nil.
  - left. reflexivity.
  - intros y Hy.
    assert (C : y = 1 \/ y = 2 \/ y = 3 \/ y = 4) by lia.
    destruct C as [->|[->|[->| ->]]]; cbv; (split; [discriminate | reflexivity]).
Defined.

(** X11: on a well-formed image, in every row whose filter is Sub, the
    first pixel keeps its bytes and every later byte is the sum modulo 256
    of its input value and of the reconstructed byte one pixel to the left,
    in each of the three kernels. *)
Theorem sub_rows_reconstructed :
  forall base (m : mem) h bpp bpl,
    In bpp [1; 2; 3; 4; 6; 8] ->
    1 <= h < 4294967296 -> bpp + 1 <= bpl < 4294967296 ->
    h * bpl <= len m -> Forall byte m ->
    byte_at m 0 = kPngFilterNone \/ byte_at m 0 = kPngFilterSub ->
    (forall y, 1 <= y < h -> 0 <= byte_at m (y * bpl) < kPngFilterCount) ->
    exists out,
      OptDePngFilterRef m h bpp bpl = Some out /\
      OptDePngFilterOpt m h bpp bpl = Some out /\
      OptDePngFilterSSE2 base m h bpp bpl = Some out /\
      forall y x, 0 <= y < h -> byte_at m (y * bpl) = kPngFilterSub ->
                  0 <= x < bpl - 1 ->
        byte_at out (y * bpl + 1 + x)
        = if x <? bpp then byte_at m (y * bpl + 1 + x)
          else Sum (byte_at m (y * bpl + 1 + x)) (byte_at out (y * bpl + 1 + x - bpp)).
Proof.
  intros base m h bpp bpl H1 H2 H3 H4 H5 H6 H7.
  destruct (kernel_spec_Z base m h bpp bpl H1 H2 H3 H4 H5 H6 H7)
    as (out & R1 & R2 & R3 & L & M & T & F & D).
  exists out. repeat split; try assumption.
  intros y x Hy Hf Hx. apply (D y Hy x Hx). exact Hf.
Qed.

Lemma sub_rows_reconstructed_witness :
  let img := [0; 10; 20; 30; 40; 1; 5; 6; 7; 8; 2; 250; 251; 252; 253;
              3; 9; 8; 7; 6; 4; 100; 150; 200; 255] in
  exists out,
    OptDePngFilterRef img 5 2 5 = Some out /\
    OptDePngFilterOpt img 5 2 5 = Some out /\
    OptDePngFilterSSE2 7 img 5 2 5 = Some out /\
    forall y x, 0 <= y < 5 -> byte_at img (y * 5) = kPngFilterSub ->
                0 <= x < 5 - 1 ->
      byte_at out (y * 5 + 1 + x)
      = if x <? 2 then byte_at img (y * 5 + 1 + x)
        else Sum (byte_at img (y * 5 + 1 + x)) (byte_at out (y * 5 + 1 + x - 2)).
Proof.
  intros img. apply (sub_rows_reconstructed 7 img 5 2 5); subst img.
  - simpl. tauto.
  - lia.
  - lia.
  - unfold len. simpl. lia.
  - repeat (apply Forall_cons; [unfold byte; lia|]). apply Forall_nil.
  - left. reflexivity.
  - intros y Hy.
    assert (C : y = 1 \/ y = 2 \/ y = 3 \/ y = 4) by lia.
    destruct C as [->|[->|[->| ->]]]; cbv; (split; [discriminate | reflexivity]).
Defined.

(** X12: on a well-formed image, in every row whose filter is Up, every
    byte is the sum modulo 256 of its input value and of the reconstructed
    byte above it, in each of the three kernels. *)
Theorem up_rows_reconstructed :
  forall base (m : mem) h bpp bpl,
    In bpp [1; 2; 3; 4; 6; 8] ->
    1 <= h < 4294967296 -> bpp + 1 <= bpl < 4294967296 ->
    h * bpl <= len m -> Forall byte m ->
    byte_at m 0 = kPngFilterNone \/ byte_at m 0 = kPngFilterSub ->
    (forall y, 1 <= y < h -> 0 <= byte_at m (y * bpl) < kPngFilterCount) ->
    exists out,
      OptDePngFilterRef m h bpp bpl = Some out /\
      OptDePngFilterOpt m h bpp bpl = Some out /\
      OptDePngFilterSSE2 base m h bpp bpl = Some out /\
      forall y x, 0 <= y < h -> byte_at m (y * bpl) = kPngFilterUp ->
                  0 <= x < bpl - 1 ->
        byte_at out (y * bpl + 1 + x)
        = Sum (byte_at m (y * bpl + 1 + x)) (byte_at out ((y - 1) * bpl + 1 + x)).
Proof.
  intros base m h bpp bpl H1 H2 H3 H4 H5 H6 H7.
  destruct (kernel_spec_Z base m h bpp bpl H1 H2 H3 H4 H5 H6 H7)
    as (out & R1 & R2 & R3 & L & M & T & F & D).
  exists out. repeat split; try assumption.
  intros y x Hy Hf Hx. rewrite <- above_index. apply (D y Hy x Hx). exact Hf.
Qed.

Lemma up_rows_reconstructed_witness :
  let img := [0; 10; 20; 30; 40; 1; 5; 6; 7; 8; 2; 250; 251; 252; 253;
              3; 9; 8; 7; 6; 4; 100; 150; 200; 255] in
  exists out,
    OptDePngFilterRef img 5 2 5 = Some out /\
    OptDePngFilterOpt img 5 2 5 = Some out /\
    OptDePngFilterSSE2 7 img 5 2 5 = Some out /\
    forall y x, 0 <= y < 5 -> byte_at img (y * 5) = kPngFilterUp ->
                0 <= x < 5 - 1 ->
      byte_at out (y * 5 + 1 + x)
      = Sum (byte_at img (y * 5 + 1 + x)) (byte_at out ((y - 1) * 5 + 1 + x)).
Proof.
  intros img. apply (up_rows_reconstructed 7 img 5 2 5); subst img.
  - simpl. tauto.
  - lia.
  - lia.
  - unfold len. simpl. lia.
  - repeat (apply Forall_cons; [unfold byte; lia|]). apply Forall_nil.
  - left. reflexivity.
  - intros y Hy.
    assert (C : y = 1 \/ y = 2 \/ y = 3 \/ y = 4) by lia.
    destruct C as [->|[->|[->| ->]]]; cbv; (split; [discriminate | reflexivity]).
Defined.

(** X13: on a well-formed image, in every row whose filter is Avg, every
    byte of the first pixel is the sum modulo 256 of its input value and of
    half the reconstructed byte above it, and every later byte the sum of
    its input value and of the floor average of the reconstructed bytes to
    the left and above, in each of the three kernels. *)
Theorem avg_rows_reconstructed :
  forall base (m : mem) h bpp bpl,
    In bpp [1; 2; 3; 4; 6; 8] ->
    1 <= h < 4294967296 -> bpp + 1 <= bpl < 4294967296 ->
    h * bpl <= len m -> Forall byte m ->
    byte_at m 0 = kPngFilterNone \/ byte_at m 0 = kPngFilterSub ->
    (forall y, 1 <= y < h -> 0 <= byte_at m (y * bpl) < kPngFilterCount) ->
    exists out,
      OptDePngFilterRef m h bpp bpl = Some out /\
      OptDePngFilterOpt m h bpp bpl = Some out /\
      OptDePngFilterSSE2 base m h bpp bpl = Some out /\
      forall y x, 0 <= y < h -> byte_at m (y * bpl) = kPngFilterAvg ->
                  0 <= x < bpl - 1 ->
        byte_at out (y * bpl + 1 + x)
        = if x <? bpp
          then Sum (byte_at m (y * bpl + 1 + x))
                   (Z.shiftr (byte_at out ((y - 1) * bpl + 1 + x)) 1)
          else Sum (byte_at m (y * bpl + 1 + x))
                   (Avg (byte_at out (y * bpl + 1 + x - bpp))
                        (byte_at out ((y - 1) * bpl + 1 + x))).
Proof.
  intros base m h bpp bpl H1 H2 H3 H4 H5 H6 H7.
  destruct (kernel_spec_Z base m h bpp bpl H1 H2 H3 H4 H5 H6 H7)
    as (out & R1 & R2 & R3 & L & M & T & F & D).
  exists out. repeat split; try assumption.
  intros y x Hy Hf Hx. rewrite <- above_index. apply (D y Hy x Hx). exact Hf.
Qed.

Lemma avg_rows_reconstructed_witness :
  let img := [0; 10; 20; 30; 40; 1; 5; 6; 7; 8; 2; 250; 251; 252; 253;
              3; 9; 8; 7; 6; 4; 100; 150; 200; 255] in
  exists out,
    OptDePngFilterRef img 5 2 5 = Some out /\
    OptDePngFilterOpt img 5 2 5 = Some out /\
    OptDePngFilterSSE2 7 img 5 2 5 = Some out /\
    forall y x, 0 <= y < 5 -> byte_at img (y * 5) = kPngFilterAvg ->
                0 <= x < 5 - 1 ->
      byte_at out (y * 5 + 1 + x)
      = if x <? 2
        then Sum (byte_at img (y * 5 + 1 + x)) (Z.shiftr (byte_at out ((y - 1) * 5 + 1 + x)) 1)
        else Sum (byte_at img (y * 5 + 1 + x)) (Avg (byte_at out (y * 5 + 1 + x - 2)) (byte_at out ((y - 1) * 5 + 1 + x))).
Proof.
  intros img. apply (avg_rows_reconstructed 7 img 5 2 5); subst img.
  - simpl. tauto.
  - lia.
  - lia.
  - unfold len. simpl. lia.
  - repeat (apply Forall_cons; [unfold byte; lia|]). apply Forall_nil.
  - left. reflexivity.
  - intros y Hy.
    assert (C : y = 1 \/ y = 2 \/ y = 3 \/ y = 4) by lia.
    destruct C as [->|[->|[->| ->]]]; cbv; (split; [discriminate | reflexivity]).
Defined.

(** X14: on a well-formed image, in every row whose filter is Paeth,
    every byte of the first pixel is the sum modulo 256 of its input value
    and of the reconstructed byte above it, and every later byte the sum of
    its input value and of the Paeth predictor [PaethRef] of the
    reconstructed bytes to the left, above and above-left, in each of the
    three kernels. *)
Theorem paeth_rows_reconstructed :
  forall base (m : mem) h bpp bpl,
    In bpp [1; 2; 3; 4; 6; 8] ->
    1 <= h < 4294967296 -> bpp + 1 <= bpl < 4294967296 ->
    h * bpl <= len m -> Forall byte m ->
    byte_at m 0 = kPngFilterNone \/ byte_at m 0 = kPngFilterSub ->
    (forall y, 1 <= y < h -> 0 <= byte_at m (y * bpl) < kPngFilterCount) ->
    exists out,
      OptDePngFilterRef m h bpp bpl = Some out /\
      OptDePngFilterOpt m h bpp bpl = Some out /\
      OptDePngFilterSSE2 base m h bpp bpl = Some out /\
      forall y x, 0 <= y < h -> byte_at m (y * bpl) = kPngFilterPaeth ->
                  0 <= x < bpl - 1 ->
        byte_at out (y * bpl + 1 + x)
        = if x <? bpp
          then Sum (byte_at m (y * bpl + 1 + x)) (byte_at out ((y - 1) * bpl + 1 + x))
          else Sum (byte_at m (y * bpl + 1 + x))
                   (PaethRef (byte_at out (y * bpl + 1 + x - bpp))
                             (byte_at out ((y - 1) * bpl + 1 + x))
                             (byte_at out ((y - 1) * bpl + 1 + x - bpp))).
Proof.
  intros base m h bpp bpl H1 H2 H3 H4 H5 H6 H7.
  destruct (kernel_spec_Z base m h bpp bpl H1 H2 H3 H4 H5 H6 H7)
    as (out & R1 & R2 & R3 & L & M & T & F & D).
  exists out. repeat split; try assumption.
  intros y x Hy Hf Hx. rewrite <- !above_index. apply (D y Hy x Hx). exact Hf.
Qed.

Lemma paeth_rows_reconstructed_witness :
  let img := [0; 10; 20; 30; 40; 1; 5; 6; 7; 8; 2; 250; 251; 252; 253;
              3; 9; 8; 7; 6; 4; 100; 150; 200; 255] in
  exists out,
    OptDePngFilterRef img 5 2 5 = Some out /\
    OptDePngFilterOpt img 5 2 5 = Some out /\
    OptDePngFilterSSE2 7 img 5 2 5 = Some out /\
    forall y x, 0 <= y < 5 -> byte_at img (y * 5) = kPngFilterPaeth ->
                0 <= x < 5 - 1 ->
      byte_at out (y * 5 + 1 + x)
      = if x <? 2
        then Sum (byte_at img (y * 5 + 1 + x)) (byte_at out ((y - 1) * 5 + 1 + x))
        else Sum (byte_at img (y * 5 + 1 + x))
                 (PaethRef (byte_at out (y * 5 + 1 + x - 2)) (byte_at out ((y - 1) * 5 + 1 + x))
                           (byte_at out ((y - 1) * 5 + 1 + x - 2))).
Proof.
  intros img. apply (paeth_rows_reconstructed 7 img 5 2 5); subst img.
  - simpl. tauto.
  - lia.
  - lia.
  - unfold len. simpl. lia.
  - repeat (apply Forall_cons; [unfold byte; lia|]). apply Forall_nil.
  - left. reflexivity.
  - intros y Hy.
    assert (C : y = 1 \/ y = 2 \/ y = 3 \/ y = 4) by lia.
    destruct C as [->|[->|[->| ->]]]; cbv; (split; [discriminate | reflexivity]).
Defined.



(** * [OptDePngCompare] on any two buffers *)

Lemma ld_at (m : mem) a : 0 <= a < len m -> ld m a = Some (byte_at m a).
Proof. apply ld_ok. Qed.

Lemma compare_bytes_spec n : forall (A B : mem) pA pB i,
  0 <= pA + i -> 0 <= pB + i ->
  pA + i + Z.of_nat n <= len A -> pB + i + Z.of_nat n <= len B ->
  exists b,
    compare_bytes n A B pA pB i = Some b /\
    (b = true <->
     forall j, 0 <= j < Z.of_nat n -> byte_at A (pA + i + j) = byte_at B (pB + i + j)).
Proof.
  induction n as [|n IH]; intros A B pA pB i H1 H2 H3 H4; cbn [compare_bytes].
  - exists true. split; [reflexivity|]. split; [intros _ j Hj; lia | reflexivity].
  - rewrite !ld_at by lia. cbn [bind].
    destruct (Z.eqb_spec (byte_at A (pA + i)) (byte_at B (pB + i))) as [E|E]; cbn [negb].
    + destruct (IH A B pA pB (i + 1)) as (b & Eb & Hb); try lia.
      exists b. split; [exact Eb|]. rewrite Hb. split; intros H j Hj.
      * destruct (Z.eq_dec j 0) as [->|Hn]; [rewrite !Z.add_0_r; exact E|].
        specialize (H (j - 1) ltac:(lia)).
        replace (pA + (i + 1) + (j - 1)) with (pA + i + j) in H by lia.
        replace (pB + (i + 1) + (j - 1)) with (pB + i + j) in H by lia.
        exact H.
      * specialize (H (j + 1) ltac:(lia)).
        replace (pA + i + (j + 1)) with (pA + (i + 1) + j) in H by lia.
        replace (pB + i + (j + 1)) with (pB + (i + 1) + j) in H by lia.
        exact H.
    + exists false. split; [reflexivity|]. split; [discriminate|].
      intros H. exfalso. apply E. specialize (H 0 ltac:(lia)).
      rewrite !Z.add_0_r in H. exact H.
Qed.

Lemma compare_pixels_spec n : forall (A B : mem) bpp pA pB,
  0 <= bpp -> 0 <= pA -> 0 <= pB ->
  pA + Z.of_nat n * bpp <= len A -> pB + Z.of_nat n * bpp <= len B ->
  exists r,
    compare_pixels n A B bpp pA pB = Some r /\
    ((r = Some (pA + Z.of_nat n * bpp, pB + Z.of_nat n * bpp) /\
      forall j, 0 <= j < Z.of_nat n * bpp -> byte_at A (pA + j) = byte_at B (pB + j))
     \/
     (r = None /\
      ~ forall j, 0 <= j < Z.of_nat n * bpp -> byte_at A (pA + j) = byte_at B (pB + j))).
Proof.
  induction n as [|n IH]; intros A B bpp pA pB Hb HA HB LA LB; cbn [compare_pixels].
  - eexists. split; [reflexivity|]. left.
    rewrite Z.mul_0_l, !Z.add_0_r. split; [reflexivity | intros j Hj; lia].
  - assert (HS : Z.of_nat (S n) * bpp = bpp + Z.of_nat n * bpp) by lia.
    assert (H0 : 0 <= Z.of_nat n * bpp) by (apply Z.mul_nonneg_nonneg; lia).
    destruct (compare_bytes_spec (Z.to_nat bpp) A B pA pB 0) as (b & Eb & Hb');
      try (rewrite ?Z2Nat.id by lia; lia).
    rewrite Z2Nat.id in Hb' by lia.
    rewrite Eb. cbn [bind]. destruct b.
    + destruct (IH A B bpp (pA + bpp) (pB + bpp)) as (r & Er & Hr); try lia.
      exists r. split; [exact Er|].
      destruct Hb' as [Hb' _]. specialize (Hb' eq_refl).
      destruct Hr as [[-> Hr]|[-> Hr]]; [left | right].
      * split; [f_equal; f_equal; lia|].
        intros j Hj. destruct (Z.lt_ge_cases j bpp) as [L|L].
        -- specialize (Hb' j ltac:(lia)). rewrite !Z.add_0_r in Hb'. exact Hb'.
        -- specialize (Hr (j - bpp) ltac:(lia)).
           replace (pA + bpp + (j - bpp)) with (pA + j) in Hr by lia.
           replace (pB + bpp + (j - bpp)) with (pB + j) in Hr by lia.
           exact Hr.
      * split; [reflexivity|]. intros H. apply Hr. intros j Hj.
        specialize (H (bpp + j) ltac:(lia)).
        replace (pA + (bpp + j)) with (pA + bpp + j) in H by lia.
        replace (pB + (bpp + j)) with (pB + bpp + j) in H by lia.
        exact H.
    + exists None. split; [reflexivity|]. right. split; [reflexivity|].
      intros H. destruct Hb' as [_ Hb']. discriminate Hb'.
      intros j Hj. rewrite !Z.add_0_r. apply H. lia.
Qed.

Lemma compare_rows_spec n : forall (A B : mem) w bpp pA pB,
  0 <= w -> 0 <= bpp -> 0 <= pA -> 0 <= pB ->
  pA + Z.of_nat n * (w * bpp + 1) <= len A ->
  pB + Z.of_nat n * (w * bpp + 1) <= len B ->
  exists b,
    compare_rows n A B w bpp pA pB = Some b /\
    (b = true <->
     (forall j, 0 <= j < Z.of_nat n * (w * bpp + 1) ->
                byte_at A (pA + j) = byte_at B (pB + j)) /\
     (forall y, 0 <= y < Z.of_nat n ->
                byte_at A (pA + y * (w * bpp + 1)) < kPngFilterCount)).
Proof.
  induction n as [|n IH]; intros A B w bpp pA pB Hw Hb HA HB LA LB; cbn [compare_rows].
  - exists true. split; [reflexivity|].
    split; [intros _; split; intros; lia | reflexivity].
  - assert (Hwb : 0 <= w * bpp) by (apply Z.mul_nonneg_nonneg; lia).
    assert (HS : Z.of_nat (S n) * (w * bpp + 1) = (w * bpp + 1) + Z.of_nat n * (w * bpp + 1))
      by lia.
    assert (H0 : 0 <= Z.of_nat n * (w * bpp + 1)) by (apply Z.mul_nonneg_nonneg; lia).
    rewrite !ld_at by lia. cbn [bind].
    destruct (Z.eqb_spec (byte_at A pA) (byte_at B pB)) as [E|E]; cbn [negb].
    2:{ exists false. split; [reflexivity|]. split; [discriminate|].
        intros [H _]. exfalso. apply E. specialize (H 0 ltac:(lia)).
        rewrite !Z.add_0_r in H. exact H. }
    rewrite Z.geb_leb.
    destruct (Z.leb_spec kPngFilterCount (byte_at A pA)) as [F|F].
    { exists false. split; [reflexivity|]. split; [discriminate|].
      intros [_ H]. exfalso. specialize (H 0 ltac:(lia)).
      rewrite Z.mul_0_l, Z.add_0_r in H. lia. }
    destruct (compare_pixels_spec (Z.to_nat w) A B bpp (pA + 1) (pB + 1)) as (r & Er & Hr);
      try (rewrite ?Z2Nat.id by lia; lia).
    rewrite Z2Nat.id in Hr by lia.
    rewrite Er. cbn [bind].
    destruct Hr as [[-> Hr]|[-> Hr]].
    + destruct (IH A B w bpp (pA + 1 + w * bpp) (pB + 1 + w * bpp)) as (b & Eb & Hb');
        try lia.
      exists b. split; [exact Eb|]. rewrite Hb'. split; intros [H1 H2]; split.
      * intros j Hj. destruct (Z.eq_dec j 0) as [->|Hn]; [rewrite !Z.add_0_r; exact E|].
        destruct (Z.lt_ge_cases j (w * bpp + 1)) as [L|L].
        -- specialize (Hr (j - 1) ltac:(lia)).
           replace (pA + 1 + (j - 1)) with (pA + j) in Hr by lia.
           replace (pB + 1 + (j - 1)) with (pB + j) in Hr by lia.
           exact Hr.
        -- specialize (H1 (j - (w * bpp + 1)) ltac:(lia)).
           replace (pA + 1 + w * bpp + (j - (w * bpp + 1))) with (pA + j) in H1 by lia.
           replace (pB + 1 + w * bpp + (j - (w * bpp + 1))) with (pB + j) in H1 by lia.
           exact H1.
      * intros y Hy. destruct (Z.eq_dec y 0) as [->|Hn].
        -- rewrite Z.mul_0_l, Z.add_0_r. exact F.
        -- specialize (H2 (y - 1) ltac:(lia)).
           replace (pA + 1 + w * bpp + (y - 1) * (w * bpp + 1))
             with (pA + y * (w * bpp + 1)) in H2 by lia.
           exact H2.
      * intros j Hj. specialize (H1 (w * bpp + 1 + j) ltac:(lia)).
        replace (pA + (w * bpp + 1 + j)) with (pA + 1 + w * bpp + j) in H1 by lia.
        replace (pB + (w * bpp + 1 + j)) with (pB + 1 + w * bpp + j) in H1 by lia.
        exact H1.
      * intros y Hy. specialize (H2 (y + 1) ltac:(lia)).
        replace (pA + (y + 1) * (w * bpp + 1))
          with (pA + 1 + w * bpp + y * (w * bpp + 1)) in H2 by lia.
        exact H2.
    + exists false. split; [reflexivity|]. split; [discriminate|].
      intros [H _]. exfalso. apply Hr. intros j Hj.
      specialize (H (1 + j) ltac:(lia)).
      replace (pA + (1 + j)) with (pA + 1 + j) in H by lia.
      replace (pB + (1 + j)) with (pB + 1 + j) in H by lia.
      exact H.
Qed.

Lemma compare_spec (A B : mem) w h bpp bpl :
  0 <= w -> 0 <= bpp -> 0 <= h ->
  bpl = w * bpp + 1 -> bpl < 4294967296 ->
  h * bpl <= len A -> h * bpl <= len B ->
  exists r,
    OptDePngCompare A B w h bpp bpl = Some r /\
    (r = true <->
     (forall a, 0 <= a < h * bpl -> byte_at A a = byte_at B a) /\
     (forall y, 0 <= y < h -> byte_at A (y * bpl) < kPngFilterCount)).
Proof.
  intros Hw Hb Hh -> Hbpl LA LB.
  assert (Hwb : 0 <= w * bpp) by (apply Z.mul_nonneg_nonneg; lia).
  unfold OptDePngCompare.
  rewrite (u32_small (w * bpp)) by lia.
  rewrite (u32_small (w * bpp + 1)) by lia.
  rewrite Z.eqb_refl. cbn [negb].
  destruct (compare_rows_spec (Z.to_nat h) A B w bpp 0 0) as (b & Eb & Hb');
    try (rewrite ?Z2Nat.id by lia; lia).
  rewrite Z2Nat.id in Hb' by lia.
  exists b. split; [exact Eb|]. exact Hb'.
Qed.

(** X15: for two buffers that hold [h] rows of [bpl = w * bpp + 1] bytes,
    [OptDePngCompare] returns, and it returns true exactly when the two
    images are equal byte for byte (filter bytes and pixel bytes) and every
    filter byte is below [kPngFilterCount]. *)
Theorem OptDePngCompare_true_iff :
  forall (A B : mem) w h bpp bpl,
    0 <= w -> 0 <= bpp -> 0 <= h ->
    bpl = w * bpp + 1 -> bpl < 4294967296 ->
    h * bpl <= len A -> h * bpl <= len B ->
    exists r,
      OptDePngCompare A B w h bpp bpl = Some r /\
      (r = true <->
       (forall a, 0 <= a < h * bpl -> byte_at A a = byte_at B a) /\
       (forall y, 0 <= y < h -> byte_at A (y * bpl) < kPngFilterCount)).
Proof. exact compare_spec. Qed.

Lemma OptDePngCompare_true_iff_witness :
  exists r,
    OptDePngCompare [0; 1; 2; 4; 3; 4] [0; 1; 2; 4; 3; 5] 2 2 1 3 = Some r /\
    (r = true <->
     (forall a, 0 <= a < 2 * 3 ->
                byte_at [0; 1; 2; 4; 3; 4] a = byte_at [0; 1; 2; 4; 3; 5] a) /\
     (forall y, 0 <= y < 2 -> byte_at [0; 1; 2; 4; 3; 4] (y * 3) < kPngFilterCount)).
Proof.
  apply (OptDePngCompare_true_iff [0; 1; 2; 4; 3; 4] [0; 1; 2; 4; 3; 5] 2 2 1 3);
    try lia; unfold len; simpl; lia.
Defined.


(** * The test program *)

Lemma for_loop_total {S : Type} (cond : Z -> bool) (body : Z -> S -> option (option S)) hi :
  forall fuel lo s,
    0 <= lo <= hi -> hi < 4294967296 -> Z.of_nat fuel = hi - lo ->
    (forall i, lo <= i < hi -> cond i = true) -> cond hi = false ->
    (forall i s, lo <= i < hi -> exists s', body i s = Some (Some s')) ->
    exists s', for_loop fuel cond lo body s = Some (Some s').
Proof.
  induction fuel as [|fuel IH]; intros lo s Hlo Hhi Hf Hc Hend Hb.
  - assert (lo = hi) by lia. subst lo. cbn [for_loop]. rewrite Hend. eauto.
  - cbn [for_loop]. rewrite Hc by lia.
    destruct (Hb lo s ltac:(lia)) as (s1 & E1). rewrite E1. cbn [bind].
    rewrite u32_small by lia.
    apply IH; try lia.
    + intros i Hi. apply Hc. lia.
    + exact Hend.
    + intros i s0 Hi. apply Hb. lia.
Qed.

Lemma bpp_data i :
  0 <= i < 6 -> In (nth (Z.to_nat i) OptDePngBppData 0) [1; 2; 3; 4; 6; 8].
Proof.
  intros H.
  assert (C : i = 0 \/ i = 1 \/ i = 2 \/ i = 3 \/ i = 4 \/ i = 5) by lia.
  destruct C as [->|[->|[->|[->|[->| ->]]]]]; simpl; tauto.
Qed.

(** A generated image is a well-formed image, and the three kernels leave
    a well-formed image with the same filter bytes. *)
Lemma generated_image_ok junk w h bpp filter seed :
  1 <= w -> 1 <= h -> In bpp [1; 2; 3; 4; 6; 8] -> 0 <= filter <= 5 ->
  (w * bpp + 1) * h < 4294967296 ->
  exists img,
    OptDePngRandomImage junk w h bpp filter seed = Some img /\
    len img = h * (w * bpp + 1) /\ Forall byte img /\
    byte_at img 0 = kPngFilterNone /\
    (forall y, 0 <= y < h -> 0 <= byte_at img (y * (w * bpp + 1)) < kPngFilterCount).
Proof.
  intros Hw Hh Hbpp Hf Sz.
  assert (B8 : 1 <= bpp <= 8) by (simpl in Hbpp; lia).
  assert (W1 : 1 <= w * bpp) by nia.
  assert (Hh' : h < 4294967296) by nia.
  assert (W2 : w * bpp < 4294967296) by nia.
  pose proof (gen_total junk w h bpp filter seed ltac:(lia) ltac:(lia) Sz) as T.
  destruct (OptDePngRandomImage junk w h bpp filter seed) as [img|] eqn:G;
    [clear T | contradiction].
  destruct (gen_image_facts junk w h bpp filter seed img
              ltac:(lia) ltac:(lia) ltac:(lia) G) as (_ & _ & L & Bt & F).
  rewrite (u32_small (w * bpp)) in L, F by lia.
  exists img. split; [reflexivity|]. split; [lia|]. split; [exact Bt|]. split.
  - specialize (F 0 ltac:(lia)). rewrite Z.mul_0_l in F. exact F.
  - intros y Hy. unfold byte_at. rewrite F by lia. apply expected_filter_range. exact Hf.
Qed.

Lemma generated_image_same junk1 junk2 w h bpp filter seed :
  0 <= h < 4294967296 ->
  OptDePngRandomImage junk1 w h bpp filter seed
  = OptDePngRandomImage junk2 w h bpp filter seed.
Proof. intros H. rewrite !gen_char by lia. reflexivity. Qed.

Section CheckImage.
Variable heap : Z -> Z * (Z -> Z).
Variable opt : OptDePngFilterFunc.
Hypothesis opt_kernel :
  forall base m h bpp bpl,
    opt base m h bpp bpl = OptDePngFilterOpt m h bpp bpl \/
    opt base m h bpp bpl = OptDePngFilterSSE2 base m h bpp bpl.

Lemma check_image_ok filter h w bppIndex seed :
  0 <= filter <= 5 -> 1 <= h < 20 -> 1 <= w < 100 -> 0 <= bppIndex < 6 ->
  exists s', check_image heap FilterRef opt filter h w bppIndex seed = Some (Some s').
Proof.
  intros Hf Hh Hw Hi. unfold check_image. cbv zeta.
  pose proof (bpp_data bppIndex Hi) as Hbpp.
  set (bpp := nth (Z.to_nat bppIndex) OptDePngBppData 0) in *. clearbody bpp.
  assert (B8 : 1 <= bpp <= 8) by (simpl in Hbpp; lia).
  assert (W1 : 1 <= w * bpp <= 792) by nia.
  assert (Sz : (w * bpp + 1) * h < 4294967296) by nia.
  rewrite (u32_small (w * bpp + 1)) by lia.
  destruct (generated_image_ok (snd (heap (2 * seed))) w h bpp filter seed)
    as (img & G & L & Bt & F0 & F); try lia; try assumption.
  rewrite (generated_image_same (snd (heap (2 * seed + 1))) (snd (heap (2 * seed)))) by lia.
  rewrite G. cbn [bind].
  destruct (kernel_spec_Z (fst (heap (2 * seed + 1))) img h bpp (w * bpp + 1))
    as (out & R1 & R2 & R3 & Lo & Mo & To & Fo & Do); try lia; try assumption; auto.
  { nia. }
  { intros y Hy. apply F. lia. }
  unfold FilterRef. rewrite R1. cbn [bind].
  assert (E : opt (fst (heap (2 * seed + 1))) img h bpp (w * bpp + 1) = Some out).
  { destruct (opt_kernel (fst (heap (2 * seed + 1))) img h bpp (w * bpp + 1)) as [->| ->];
      assumption. }
  rewrite E. cbn [bind].
  destruct (compare_spec out out w h bpp (w * bpp + 1)) as (r & Er & Hr); try lia.
  rewrite Er. cbn [bind].
  assert (r = true).
  { apply Hr. split; [reflexivity|]. intros y Hy. rewrite Fo by exact Hy. apply F. exact Hy. }
  subst r. cbn [negb]. eauto.
Qed.

Lemma check_ok : OptDePngCheck heap FilterRef opt = Some true.
Proof.
  unfold OptDePngCheck.
  destruct (for_loop_total (fun filter => filter <=? kPngFilterCount)
              (fun filter =>
                 for_loop 19 (fun h => h <? 20) 1
                   (fun h =>
                      for_loop 99 (fun w => w <? 100) 1
                        (fun w =>
                           for_loop 6 (fun bppIndex => bppIndex <? 6) 0
                             (check_image heap FilterRef opt filter h w))))
              6 6%nat 0 0) as (s' & E); try lia.
  - intros i Hi. apply Z.leb_le. unfold kPngFilterCount. lia.
  - reflexivity.
  - intros filter s Hf.
    apply (for_loop_total _ _ 20); try lia.
    intros h s0 Hh.
    apply (for_loop_total _ _ 100); try lia.
    intros w s1 Hw.
    apply (for_loop_total _ _ 6); try lia.
    intros bppIndex seed Hb. apply check_image_ok; lia.
  - rewrite E. reflexivity.
Qed.
End CheckImage.

(** X16: the self-check of the test program succeeds: [OptDePngCheck]
    returns true for the specialized kernel and for the SSE2 kernel checked
    against the reference, over all its 6 * 19 * 99 * 6 images, whatever the
    addresses and the initial contents of the blocks [malloc] returns. *)
Theorem OptDePngCheck_succeeds :
  forall heap : Z -> Z * (Z -> Z),
    OptDePngCheck heap FilterRef FilterOpt = Some true /\
    OptDePngCheck heap FilterRef FilterSSE2 = Some true.
Proof.
  intros heap. split; apply check_ok; intros base m h bpp bpl; [left | right]; reflexivity.
Qed.

(** The kernels can be applied again to what they return: the result of a
    kernel on a well-formed image is a well-formed image. *)
Lemma kernel_iter (func : OptDePngFilterFunc) base h bpp bpl n :
  (forall m, func base m h bpp bpl = OptDePngFilterRef m h bpp bpl \/
             func base m h bpp bpl = OptDePngFilterOpt m h bpp bpl \/
             func base m h bpp bpl = OptDePngFilterSSE2 base m h bpp bpl) ->
  In bpp [1; 2; 3; 4; 6; 8] ->
  1 <= h < 4294967296 -> bpp + 1 <= bpl < 4294967296 ->
  forall m : mem,
    h * bpl <= len m -> Forall byte m ->
    byte_at m 0 = kPngFilterNone \/ byte_at m 0 = kPngFilterSub ->
    (forall y, 1 <= y < h -> 0 <= byte_at m (y * bpl) < kPngFilterCount) ->
    exists out,
      iter n (fun m => func base m h bpp bpl) m = Some out /\
      len out = len m /\ Forall byte out /\
      (forall y, 0 <= y < h -> byte_at out (y * bpl) = byte_at m (y * bpl)).
Proof.
  intros Hfunc Hbpp Hh Hbpl.
  induction n as [|n IH]; intros m Hl Hm H0 Hf.
  - exists m. cbn [iter]. auto.
  - destruct (kernel_spec_Z base m h bpp bpl Hbpp Hh Hbpl Hl Hm H0 Hf)
      as (m1 & R1 & R2 & R3 & L1 & M1 & _ & F1 & _).
    assert (E : func base m h bpp bpl = Some m1)
      by (destruct (Hfunc m) as [->|[->| ->]]; assumption).
    destruct (IH m1) as (out & Eo & Lo & Mo & Fo).
    + lia.
    + exact M1.
    + rewrite <- (Z.mul_0_l bpl), F1 by lia. rewrite Z.mul_0_l. exact H0.
    + intros y Hy. rewrite F1 by lia. apply Hf. exact Hy.
    + exists out. cbn [iter]. rewrite E. cbn [bind].
      split; [exact Eo|]. split; [lia|]. split; [exact Mo|].
      intros y Hy. rewrite Fo, F1 by exact Hy. reflexivity.
Qed.

Section Bench.
Variable heap : Z -> Z * (Z -> Z).
Variable func : OptDePngFilterFunc.
Hypothesis func_kernel :
  forall base m h bpp bpl,
    func base m h bpp bpl = OptDePngFilterRef m h bpp bpl \/
    func base m h bpp bpl = OptDePngFilterOpt m h bpp bpl \/
    func base m h bpp bpl = OptDePngFilterSSE2 base m h bpp bpl.

Lemma bench_image_ok filter bppIndex s :
  1 <= filter <= 5 -> 0 <= bppIndex < 6 ->
  exists s', bench_image heap func 256 256 1000 filter bppIndex s = Some (Some s').
Proof.
  intros Hf Hi. unfold bench_image. cbv zeta.
  pose proof (bpp_data bppIndex Hi) as Hbpp.
  set (bpp := nth (Z.to_nat bppIndex) OptDePngBppData 0) in *. clearbody bpp.
  set (block := heap ((filter - 1) * 6 + bppIndex)). clearbody block.
  assert (B8 : 1 <= bpp <= 8) by (simpl in Hbpp; lia).
  rewrite (u32_small (256 * bpp + 1)) by lia.
  destruct (generated_image_ok (snd block) 256 256 bpp filter 0)
    as (img & G & L & Bt & F0 & F); try lia; try assumption.
  rewrite G. cbn [bind].
  destruct (kernel_iter func (fst block) 256 bpp (256 * bpp + 1) (Z.to_nat 1000)
              (fun m => func_kernel (fst block) m 256 bpp (256 * bpp + 1))
              Hbpp ltac:(lia) ltac:(lia) img) as (out & E & _); try lia; auto.
  { intros y Hy. apply F. lia. }
  rewrite E. cbn [bind]. eauto.
Qed.

Lemma bench_ok : OptDePngBench heap func = Some tt.
Proof.
  unfold OptDePngBench. cbv zeta.
  destruct (for_loop_total (fun filter => filter <=? kPngFilterCount)
              (fun filter =>
                 for_loop 6 (fun bppIndex => bppIndex <? 6) 0
                   (bench_image heap func 256 256 1000 filter))
              6 5%nat 1 tt) as (s' & E); try lia.
  - intros i Hi. apply Z.leb_le. unfold kPngFilterCount. lia.
  - reflexivity.
  - intros filter s Hf.
    apply (for_loop_total _ _ 6); try lia.
    intros bppIndex s0 Hb. apply bench_image_ok; lia.
  - rewrite E. reflexivity.
Qed.
End Bench.

(** X17: [OptDePngBench] runs to its end without a fault for each of the
    three kernels: each of its 30 images (256 x 256 pixels) is filtered in
    place 1000 times, every call on the result of the call before, and every
    call returns. *)
Theorem OptDePngBench_completes :
  forall heap : Z -> Z * (Z -> Z),
    OptDePngBench heap FilterRef = Some tt /\
    OptDePngBench heap FilterOpt = Some tt /\
    OptDePngBench heap FilterSSE2 = Some tt.
Proof.
  intros heap. split; [|split]; apply bench_ok; intros base m h bpp bpl;
    unfold FilterRef, FilterOpt, FilterSSE2; tauto.
Qed.

Lemma main_status (c1 c2 : option bool) (b1 b2 b3 : option unit) :
  c1 = Some true -> c2 = Some true ->
  b1 = Some tt -> b2 = Some tt -> b3 = Some tt ->
  (ok <- c1 ;;
   if negb ok then Some 1
   else
     ok <- c2 ;;
     if negb ok then Some 1
     else _ <- b1 ;; _ <- b2 ;; _ <- b3 ;; Some 0) = Some 0.
Proof. intros -> -> -> -> ->. reflexivity. Qed.

(** X18: the test program exits with status 0: both checks succeed and the
    three benchmarks run to their end, whatever [malloc] returns. *)
Theorem main_returns_0 :
  forall heap : Z -> Z -> Z * (Z -> Z), main heap = Some 0.
Proof.
  intros heap. unfold main.
  apply main_status.
  - apply check_ok. intros; left; reflexivity.
  - apply check_ok. intros; right; reflexivity.
  - apply bench_ok. intros; unfold FilterRef; tauto.
  - apply bench_ok. intros; unfold FilterOpt; tauto.
  - apply bench_ok. intros; unfold FilterSSE2; tauto.
Qed.


(** * Edge cases of the kernels and of the generator *)

(** ** The specialized kernel is the reference *)

Lemma opt_T_is_ref bpp (m : mem) h bpl :
  OptDePngFilterOpt_T bpp m h bpl = OptDePngFilterRef m h bpp bpl.
Proof.
  unfold OptDePngFilterOpt_T, OptDePngFilterRef. cbv zeta.
  rewrite (iter_ext _ (opt_row bpp (u32 (bpl - 1))) (ref_row bpp (u32 (bpl - 1))))
    by (intros; apply opt_row_eq).
  reflexivity.
Qed.

Lemma opt_T_is_ref_dispatch (m : mem) h bpp bpl :
  In bpp [1; 2; 3; 4; 6; 8] ->
  OptDePngFilterOpt m h bpp bpl = OptDePngFilterRef m h bpp bpl.
Proof.
  intros H. unfold OptDePngFilterOpt.
  destruct H as [<-|[<-|[<-|[<-|[<-|[<-|[]]]]]]]; cbn [Z.eqb Pos.eqb];
    apply opt_T_is_ref.
Qed.

(** X19: for the six supported pixel sizes the specialized kernel
    [OptDePngFilterOpt] does on every buffer, of any height and row length,
    what the reference kernel does, faults included. *)
Theorem OptDePngFilterOpt_is_Ref :
  forall (m : mem) h bpp bpl,
    In bpp [1; 2; 3; 4; 6; 8] ->
    OptDePngFilterOpt m h bpp bpl = OptDePngFilterRef m h bpp bpl.
Proof.
  intros m h bpp bpl H. apply opt_T_is_ref_dispatch. exact H.
Qed.

Lemma OptDePngFilterOpt_is_Ref_witness :
  OptDePngFilterOpt [0; 10; 20; 30; 2; 1; 2; 3; 7; 5] 3 3 4
  = OptDePngFilterRef [0; 10; 20; 30; 2; 1; 2; 3; 7; 5] 3 3 4.
Proof.
  apply (OptDePngFilterOpt_is_Ref [0; 10; 20; 30; 2; 1; 2; 3; 7; 5] 3 3 4).
  simpl. tauto.
Defined.

(** ** A filter byte that is no filter *)

Lemma ref_row_invalid bpp bpl (m : mem) p u f :
  ld m p = Some f -> ~ 0 <= f < 5 ->
  ref_row bpp bpl (m, p, u) = Some (m, p + 1, Some (p + 1 - bpl)).
Proof.
  intros L H. unfold ref_row. rewrite L. cbn [bind].
  unfold kPngFilterNone, kPngFilterSub, kPngFilterUp, kPngFilterAvg, kPngFilterPaeth.
  destruct (Z.eqb_spec f 0); [lia|]. destruct (Z.eqb_spec f 1); [lia|].
  destruct (Z.eqb_spec f 2); [lia|]. destruct (Z.eqb_spec f 3); [lia|].
  destruct (Z.eqb_spec f 4); [lia|]. reflexivity.
Qed.

Lemma sse2_row_invalid bpp base bpl (m : mem) p u f :
  ld m p = Some f -> ~ 0 <= f < 5 ->
  sse2_row bpp base bpl (m, p, u) = Some (m, p + 1, Some (p + 1 - bpl)).
Proof.
  intros L H. unfold sse2_row. rewrite L. cbn [bind].
  unfold kPngFilterNone, kPngFilterSub, kPngFilterUp, kPngFilterAvg, kPngFilterPaeth.
  destruct (Z.eqb_spec f 0); [lia|]. destruct (Z.eqb_spec f 1); [lia|].
  destruct (Z.eqb_spec f 2); [lia|]. destruct (Z.eqb_spec f 3); [lia|].
  destruct (Z.eqb_spec f 4); [lia|]. reflexivity.
Qed.

(** X20: the row [switch] of the kernels has no [default] case: a one-row
    image whose filter byte is not one of the five filters is returned
    unchanged by each of the three kernels, whatever [bpp] and [bpl], and
    no error is reported. *)
Theorem invalid_filter_row_is_skipped :
  forall base f (rest : list Z) bpp bpl,
    ~ 0 <= f < kPngFilterCount ->
    OptDePngFilterRef (f :: rest) 1 bpp bpl = Some (f :: rest) /\
    OptDePngFilterOpt (f :: rest) 1 bpp bpl = Some (f :: rest) /\
    OptDePngFilterSSE2 base (f :: rest) 1 bpp bpl = Some (f :: rest).
Proof.
  intros base f rest bpp bpl H. unfold kPngFilterCount in H.
  assert (L : ld (f :: rest) 0 = Some f).
  { rewrite ld_ok; [reflexivity|]. unfold len. simpl length. lia. }
  assert (R : forall b, OptDePngFilterRef (f :: rest) 1 b bpl = Some (f :: rest)).
  { intros b. unfold OptDePngFilterRef. cbv zeta.
    change (do_while_count 1) with 1%nat. cbn [iter].
    rewrite (ref_row_invalid _ _ _ _ _ _ L H). reflexivity. }
  assert (S2 : forall b, OptDePngFilterSSE2_T b base (f :: rest) 1 bpl = Some (f :: rest)).
  { intros b. unfold OptDePngFilterSSE2_T. cbv zeta.
    change (do_while_count 1) with 1%nat. cbn [iter].
    rewrite (sse2_row_invalid _ _ _ _ _ _ _ L H). reflexivity. }
  split; [apply R|]. split.
  - unfold OptDePngFilterOpt.
    destruct (Z.eqb_spec bpp 1); [rewrite opt_T_is_ref; apply R|].
    destruct (Z.eqb_spec bpp 2); [rewrite opt_T_is_ref; apply R|].
    destruct (Z.eqb_spec bpp 3); [rewrite opt_T_is_ref; apply R|].
    destruct (Z.eqb_spec bpp 4); [rewrite opt_T_is_ref; apply R|].
    destruct (Z.eqb_spec bpp 6); [rewrite opt_T_is_ref; apply R|].
    destruct (Z.eqb_spec bpp 8); [rewrite opt_T_is_ref; apply R|].
    reflexivity.
  - unfold OptDePngFilterSSE2.
    destruct (Z.eqb_spec bpp 1); [apply S2|].
    destruct (Z.eqb_spec bpp 2); [apply S2|].
    destruct (Z.eqb_spec bpp 3); [apply S2|].
    destruct (Z.eqb_spec bpp 4); [apply S2|].
    destruct (Z.eqb_spec bpp 6); [apply S2|].
    destruct (Z.eqb_spec bpp 8); [apply S2|].
    reflexivity.
Qed.

Lemma invalid_filter_row_is_skipped_witness :
  OptDePngFilterRef [9; 1; 2; 3; 4] 1 2 5 = Some [9; 1; 2; 3; 4] /\
  OptDePngFilterOpt [9; 1; 2; 3; 4] 1 2 5 = Some [9; 1; 2; 3; 4] /\
  OptDePngFilterSSE2 3 [9; 1; 2; 3; 4] 1 2 5 = Some [9; 1; 2; 3; 4].
Proof.
  apply (invalid_filter_row_is_skipped 3 9 [1; 2; 3; 4] 2 5).
  unfold kPngFilterCount. lia.
Defined.

(** ** A height of zero *)

Lemma iter_measure {S : Type} (f : S -> option S) (mu ln : S -> Z) :
  (forall s s', f s = Some s' -> mu s' = mu s + 1 /\ ln s' = ln s) ->
  forall n s s', iter n f s = Some s' -> mu s' = mu s + Z.of_nat n /\ ln s' = ln s.
Proof.
  intros Hf. induction n as [|n IH]; intros s s' H.
  - cbn [iter] in H. injection H as <-. split; [simpl; lia | reflexivity].
  - cbn [iter] in H. destruct (f s) as [s1|] eqn:E; [|discriminate].
    cbn [bind] in H. destruct (Hf s s1 E) as [M1 L1].
    destruct (IH s1 s' H) as [M2 L2]. split; [lia | congruence].
Qed.

Ltac step_inv H :=
  repeat match type of H with
         | bind ?x _ = Some _ =>
             let E := fresh "E" in destruct x eqn:E; [cbn [bind] in H | discriminate H]
         end.

Lemma sub_step_measure bpp s s' :
  sub_step bpp s = Some s' -> snd s' = snd s + 1 /\ len (fst s') = len (fst s).
Proof.
  destruct s as [m p]. unfold sub_step. intros H. step_inv H.
  injection H as <-. cbn [fst snd]. split; [reflexivity|]. eapply st_len; eassumption.
Qed.

Lemma up_step_measure s s' :
  up_step s = Some s' ->
  snd (fst s') = snd (fst s) + 1 /\ len (fst (fst s')) = len (fst (fst s)).
Proof.
  destruct s as [[m p] u]. unfold up_step. intros H. step_inv H.
  injection H as <-. cbn [fst snd]. split; [reflexivity|]. eapply st_len; eassumption.
Qed.

Lemma avg_step_measure bpp s s' :
  avg_step bpp s = Some s' ->
  snd (fst s') = snd (fst s) + 1 /\ len (fst (fst s')) = len (fst (fst s)).
Proof.
  destruct s as [[m p] u]. unfold avg_step. intros H. step_inv H.
  injection H as <-. cbn [fst snd]. split; [reflexivity|]. eapply st_len; eassumption.
Qed.

Lemma paeth_step_measure Pth bpp s s' :
  paeth_step Pth bpp s = Some s' ->
  snd (fst s') = snd (fst s) + 1 /\ len (fst (fst s')) = len (fst (fst s)).
Proof.
  destruct s as [[m p] u]. unfold paeth_step. intros H. step_inv H.
  injection H as <-. cbn [fst snd]. split; [reflexivity|]. eapply st_len; eassumption.
Qed.

Lemma avg_head_step_measure p u s s' :
  avg_head_step p u s = Some s' -> snd s' = snd s + 1 /\ len (fst s') = len (fst s).
Proof.
  destruct s as [m i]. unfold avg_head_step. intros H. step_inv H.
  injection H as <-. cbn [fst snd]. split; [reflexivity|]. eapply st_len; eassumption.
Qed.

Lemma paeth_head_step_measure p u s s' :
  paeth_head_step p u s = Some s' -> snd s' = snd s + 1 /\ len (fst s') = len (fst s).
Proof.
  destruct s as [m i]. unfold paeth_head_step. intros H. step_inv H.
  injection H as <-. cbn [fst snd]. split; [reflexivity|]. eapply st_len; eassumption.
Qed.

(** Every row of the reference kernel that returns has moved [p] forward
    and kept the length of the buffer. *)
Lemma ref_row_advance bpp bpl (m : mem) p u m' p' u' :
  0 <= bpp -> 0 <= bpl ->
  ref_row bpp bpl (m, p, u) = Some (m', p', u') ->
  0 <= p < len m /\ p + 1 <= p' /\ len m' = len m.
Proof.
  intros Hb Hl H. unfold ref_row in H.
  destruct (ld m p) as [f|] eqn:L; [cbn [bind] in H | discriminate H].
  apply ld_inv in L. destruct L as [L _].
  split; [exact L|].
  destruct (f =? kPngFilterNone).
  { cbn [bind] in H. injection H as <- <- _. split; [lia | reflexivity]. }
  destruct (f =? kPngFilterSub).
  { destruct (iter _ (sub_step bpp) _) as [[m1 p1]|] eqn:E; [|discriminate H].
    cbn [bind] in H. injection H as <- <- _.
    destruct (iter_measure (sub_step bpp) snd (fun s => len (fst s))
                (sub_step_measure bpp) _ _ _ E) as [M Ln].
    cbn [fst snd] in M, Ln. split; [lia | exact Ln]. }
  destruct (f =? kPngFilterUp).
  { destruct (iter _ up_step _) as [[[m1 p1] u1]|] eqn:E; [|discriminate H].
    cbn [bind] in H. injection H as <- <- _.
    destruct (iter_measure up_step (fun s => snd (fst s)) (fun s => len (fst (fst s)))
                up_step_measure _ _ _ E) as [M Ln].
    cbn [fst snd] in M, Ln. split; [lia | exact Ln]. }
  destruct (f =? kPngFilterAvg).
  { destruct (iter _ (avg_head_step (p + 1) u) _) as [[m0 i0]|] eqn:E0; [|discriminate H].
    cbn [bind] in H.
    destruct (iter_measure (avg_head_step (p + 1) u) snd (fun s => len (fst s))
                (avg_head_step_measure (p + 1) u) _ _ _ E0) as [_ Ln0].
    cbn [fst] in Ln0.
    destruct (iter _ (avg_step bpp) _) as [[[m1 p1] u1]|] eqn:E; [|discriminate H].
    cbn [bind] in H. injection H as <- <- _.
    destruct (iter_measure (avg_step bpp) (fun s => snd (fst s))
                (fun s => len (fst (fst s))) (avg_step_measure bpp) _ _ _ E) as [M Ln].
    cbn [fst snd] in M, Ln. split; [lia | congruence]. }
  destruct (f =? kPngFilterPaeth).
  { destruct (iter _ (paeth_head_step (p + 1) u) _) as [[m0 i0]|] eqn:E0; [|discriminate H].
    cbn [bind] in H.
    destruct (iter_measure (paeth_head_step (p + 1) u) snd (fun s => len (fst s))
                (paeth_head_step_measure (p + 1) u) _ _ _ E0) as [_ Ln0].
    cbn [fst] in Ln0.
    destruct (iter _ (paeth_step PaethRef bpp) _) as [[[m1 p1] u1]|] eqn:E; [|discriminate H].
    cbn [bind] in H. injection H as <- <- _.
    destruct (iter_measure (paeth_step PaethRef bpp) (fun s => snd (fst s))
                (fun s => len (fst (fst s))) (paeth_step_measure PaethRef bpp) _ _ _ E)
      as [M Ln].
    cbn [fst snd] in M, Ln. split; [lia | congruence]. }
  cbn [bind] in H. injection H as <- <- _. split; [lia | reflexivity].
Qed.

(** More rows than the buffer has bytes: the reference kernel faults. *)
Lemma ref_rows_overrun bpp bpl n : forall (m : mem) p u,
  0 <= bpp -> 0 <= bpl -> 0 <= p ->
  (1 <= n)%nat -> len m - p < Z.of_nat n ->
  iter n (ref_row bpp bpl) (m, p, u) = None.
Proof.
  induction n as [|n IH]; intros m p u Hb Hl Hp Hn Hlen; [lia|].
  cbn [iter].
  destruct (ref_row bpp bpl (m, p, u)) as [[[m' p'] u']|] eqn:E; [|reflexivity].
  cbn [bind].
  destruct (ref_row_advance bpp bpl m p u m' p' u' Hb Hl E) as (R & A & Ln).
  apply IH; lia.
Qed.

(** X21: a height of zero is not an empty image: the row loop is a
    [do ... while (--y != 0)], so with [h = 0] the reference kernel (and the
    specialized kernel, for the supported pixel sizes) goes on for 2^32
    rows and reads past the end of every buffer shorter than 2^32 bytes. *)
Theorem zero_height_overruns :
  forall (m : mem) bpp bpl,
    len m < 4294967296 -> 0 <= bpp ->
    OptDePngFilterRef m 0 bpp bpl = None /\
    (In bpp [1; 2; 3; 4; 6; 8] -> OptDePngFilterOpt m 0 bpp bpl = None).
Proof.
  intros m bpp bpl Hm Hb.
  assert (R : OptDePngFilterRef m 0 bpp bpl = None).
  { unfold OptDePngFilterRef. cbv zeta.
    rewrite ref_rows_overrun; [reflexivity | exact Hb | | lia | |].
    - pose proof (u32_range (bpl - 1)). lia.
    - unfold do_while_count. simpl Z.eqb. cbv iota. lia.
    - unfold do_while_count. simpl Z.eqb. cbv iota.
      pose proof (len_nonneg m). lia. }
  split; [exact R|].
  intros H. rewrite (opt_T_is_ref_dispatch m 0 bpp bpl H). exact R.
Qed.

Lemma zero_height_overruns_witness :
  OptDePngFilterRef [0; 1; 2; 0; 3; 4] 0 2 3 = None /\
  (In 2 [1; 2; 3; 4; 6; 8] -> OptDePngFilterOpt [0; 1; 2; 0; 3; 4] 0 2 3 = None).
Proof.
  apply (zero_height_overruns [0; 1; 2; 0; 3; 4] 2 3).
  - unfold len. simpl. lia.
  - lia.
Defined.

(** ** An image without pixels *)

Lemma fill_count_pred x :
  0 <= x < 4294967296 -> u32 (x - 1) <> 0 -> fill_count (u32 (x - 1)) = fill_count x - 1.
Proof.
  intros Hx Hn. unfold fill_count, u32 in *.
  destruct (Z.eqb_spec x 0) as [->|Hx0].
  - reflexivity.
  - rewrite Z.mod_small in * by lia.
    destruct (Z.eqb_spec (x - 1) 0); lia.
Qed.

(** The inner loop of the generator cannot return when it has more bytes
    to write than the block has left. *)
Lemma random_fill_overrun fuel rCount : forall (m : mem) p r0 r1 x,
  0 <= p -> 0 <= x < 4294967296 -> len m - p < fill_count x ->
  random_fill fuel rCount m p r0 r1 x = None.
Proof.
  induction fuel as [|fuel IH]; intros m p r0 r1 x Hp Hx Hl; [reflexivity|].
  cbn [random_fill].
  destruct (nth_error OptDePngRandomData (Z.to_nat r0)) as [d0|]; [|reflexivity].
  cbn [bind].
  destruct (st m p d0) as [m1|] eqn:S1; [|reflexivity]. cbn [bind].
  pose proof (st_len _ _ _ _ S1) as L1.
  apply storen_inv in S1. destruct S1 as (_ & B1 & _).
  change (len [d0]) with 1 in B1.
  destruct (Z.eqb_spec (u32 (x - 1)) 0) as [Z1|Z1].
  { exfalso. unfold fill_count, u32 in *.
    destruct (Z.eqb_spec x 0) as [->|Hx0]; [discriminate Z1|].
    rewrite Z.mod_small in Z1 by lia. lia. }
  pose proof (fill_count_pred x Hx Z1) as F1.
  pose proof (u32_range (x - 1)) as R1.
  destruct (nth_error OptDePngRandomData (Z.to_nat r1)) as [d1|]; [|reflexivity].
  cbn [bind].
  destruct (st m1 (p + 1) d1) as [m2|] eqn:S2; [|reflexivity]. cbn [bind].
  pose proof (st_len _ _ _ _ S2) as L2.
  apply storen_inv in S2. destruct S2 as (_ & B2 & _).
  change (len [d1]) with 1 in B2.
  destruct (Z.eqb_spec (u32 (u32 (x - 1) - 1)) 0) as [Z2|Z2].
  { exfalso. rewrite (u32_small (u32 (x - 1) - 1)) in Z2 by lia.
    replace (u32 (x - 1)) with 1 in F1 by lia.
    change (fill_count 1) with 1 in F1. lia. }
  pose proof (fill_count_pred (u32 (x - 1)) R1 Z2) as F2.
  apply IH; [lia | apply u32_range | lia].
Qed.

(** X22: [OptDePngRandomImage] cannot make an image without pixels: when
    [w * bpp] is zero (as a 32-bit product) and [h] is at least 1, the inner
    loop starts with a count of zero, wraps around and writes past the end of
    the block it allocated. *)
Theorem OptDePngRandomImage_zero_width_overruns :
  forall junk w h bpp filter seed,
    u32 (w * bpp) = 0 -> 1 <= h < 4294967296 ->
    OptDePngRandomImage junk w h bpp filter seed = None.
Proof.
  intros junk w h bpp filter seed Hw Hh.
  unfold OptDePngRandomImage. cbv zeta. rewrite Hw.
  change (u32 (0 + 1)) with 1. rewrite Z.mul_1_l, (u32_small h) by lia.
  destruct (Z.to_nat h) as [|n] eqn:Hn; [lia|].
  rewrite iter_fault; [reflexivity|].
  unfold random_row.
  assert (L : len (malloc junk h) = h) by (apply len_malloc; lia).
  assert (F : forall m1, len m1 = h ->
            random_fill (Z.to_nat (fill_count 0)) (Z.of_nat (length OptDePngRandomData))
              m1 (0 + 1) (seed mod Z.of_nat (length OptDePngRandomData))
              (u32 (seed * 33) mod Z.of_nat (length OptDePngRandomData)) 0 = None).
  { intros m1 L1. apply random_fill_overrun; [lia | lia |].
    rewrite L1. change (fill_count 0) with 4294967296. lia. }
  change (0 =? 0) with true. cbv iota.
  destruct (st (malloc junk h) 0 kPngFilterNone) as [m1|] eqn:S1; [|reflexivity].
  cbn [bind]. rewrite F; [reflexivity|].
  rewrite (st_len _ _ _ _ S1). exact L.
Qed.

Lemma OptDePngRandomImage_zero_width_overruns_witness :
  OptDePngRandomImage (fun _ => 0) 0 3 4 2 7 = None.
Proof.
  apply (OptDePngRandomImage_zero_width_overruns (fun _ => 0) 0 3 4 2 7).
  - reflexivity.
  - lia.
Defined.

(** ** A row shorter than a pixel *)

Lemma sub_steps_overrun bpp n : forall (m : mem) p,
  0 <= p -> 0 <= bpp -> (1 <= n)%nat -> len m - p - bpp < Z.of_nat n ->
  iter n (sub_step bpp) (m, p) = None.
Proof.
  induction n as [|n IH]; intros m p Hp Hb Hn Hl; [lia|].
  cbn [iter].
  destruct (sub_step bpp (m, p)) as [[m' p']|] eqn:E; [|reflexivity].
  cbn [bind].
  destruct (sub_step_measure bpp _ _ E) as [M L]. cbn [fst snd] in M, L. subst p'.
  unfold sub_step in E.
  destruct (ld m (p + bpp)) as [x|] eqn:Lx; [|discriminate E].
  apply ld_inv in Lx. destruct Lx as [Lx _].
  apply IH; lia.
Qed.

(** X23: a row must hold at least one pixel: when [bpl - 1 < bpp] (as for
    an image of width 0, where [bpl = 1]) and the first row has the filter
    Sub, the loop count [bpl - bpp] of the Sub loop
    wraps around and the reference kernel (and the specialized kernel, for
    the supported pixel sizes) writes past the end of every buffer shorter
    than 2^32 bytes. *)
Theorem short_row_sub_overruns :
  forall (rest : list Z) h bpp bpl,
    1 <= bpl <= bpp -> bpp < 4294967296 -> 0 <= h ->
    len (kPngFilterSub :: rest) < 4294967296 ->
    OptDePngFilterRef (kPngFilterSub :: rest) h bpp bpl = None /\
    (In bpp [1; 2; 3; 4; 6; 8] ->
     OptDePngFilterOpt (kPngFilterSub :: rest) h bpp bpl = None).
Proof.
  intros rest h bpp bpl Hbpl Hbpp Hh Hlen.
  assert (R : OptDePngFilterRef (kPngFilterSub :: rest) h bpp bpl = None).
  { unfold OptDePngFilterRef. cbv zeta.
    destruct (do_while_count_pos h Hh) as [n ->].
    rewrite iter_fault; [reflexivity|].
    unfold ref_row.
    rewrite ld_ok by (pose proof (len_nonneg rest); unfold len in *; simpl length; lia).
    change (nth (Z.to_nat 0) (kPngFilterSub :: rest) 0) with kPngFilterSub.
    cbn [bind].
    change (kPngFilterSub =? kPngFilterNone) with false.
    change (kPngFilterSub =? kPngFilterSub) with true. cbv iota.
    rewrite (u32_small (bpl - 1)) by lia.
    assert (U : u32 (bpl - 1 - bpp) = 4294967296 + (bpl - 1 - bpp)).
    { unfold u32. symmetry.
      apply (Z.mod_unique (bpl - 1 - bpp) 4294967296 (-1)); lia. }
    rewrite U, sub_steps_overrun; [reflexivity | lia | lia | lia | lia]. }
  split; [exact R|].
  intros H. rewrite (opt_T_is_ref_dispatch _ h bpp bpl H). exact R.
Qed.

Lemma short_row_sub_overruns_witness :
  OptDePngFilterRef (kPngFilterSub :: [1; 2; 3]) 1 4 1 = None /\
  (In 4 [1; 2; 3; 4; 6; 8] ->
   OptDePngFilterOpt (kPngFilterSub :: [1; 2; 3]) 1 4 1 = None).
Proof.
  apply (short_row_sub_overruns [1; 2; 3] 1 4 1); try lia.
  unfold len. simpl. lia.
Defined.


(** * The pixel bytes of a generated image *)

Lemma wrap_step R k :
  0 <= R -> 1 <= k <= 2 ->
  OptDePngRandomWrap (R mod 299) k 299 = (R + k) mod 299.
Proof.
  intros HR Hk. pose proof (Z.mod_pos_bound R 299 ltac:(lia)) as B.
  rewrite wrap_mod by lia. apply Z.add_mod_idemp_l. lia.
Qed.

Lemma even_sub2 j : Z.even (j - 2) = Z.even j.
Proof. rewrite Z.even_sub. destruct (Z.even j); reflexivity. Qed.

Lemma stream_byte_shift R0 R1 j :
  2 <= j -> stream_byte (R0 + 1) (R1 + 2) (j - 2) = stream_byte R0 R1 j.
Proof.
  intros Hj. unfold stream_byte. rewrite even_sub2.
  replace ((j - 2) / 2) with (j / 2 - 1) by (Z.div_mod_to_equations; lia).
  replace (R0 + 1 + (j / 2 - 1)) with (R0 + j / 2) by lia.
  replace (R1 + 2 + 2 * (j / 2 - 1)) with (R1 + 2 * (j / 2)) by lia.
  reflexivity.
Qed.

(** The bytes of one pass of the inner loop, and the indices it leaves. *)
Lemma fill_bytes_nth fuel : forall R0 R1 x l a b,
  0 <= R0 -> 0 <= R1 -> 1 <= x < 4294967296 ->
  fill_bytes fuel 299 (R0 mod 299) (R1 mod 299) x = Some (l, a, b) ->
  len l = x /\
  a = (R0 + (x + 1) / 2) mod 299 /\ b = (R1 + 2 * (x / 2)) mod 299 /\
  forall j, 0 <= j < x -> nth (Z.to_nat j) l 0 = stream_byte R0 R1 j.
Proof.
  induction fuel as [|fuel IH]; intros R0 R1 x l a b H0 H1 Hx; cbn [fill_bytes].
  - discriminate.
  - rewrite (wrap_step R0 1), (wrap_step R1 2) by lia.
    rewrite (u32_small (x - 1)) by lia.
    destruct (Z.eqb_spec (x - 1) 0) as [E1|E1].
    { intros [= <- <- <-]. assert (x = 1) by lia. subst x.
      split; [reflexivity|]. split; [reflexivity|]. split.
      - change (2 * (1 / 2)) with 0. rewrite Z.add_0_r. reflexivity.
      - intros j Hj. assert (j = 0) by lia. subst j.
        unfold stream_byte. simpl Z.even. cbv iota.
        change (0 / 2) with 0. rewrite Z.add_0_r. reflexivity. }
    rewrite (u32_small (x - 1 - 1)) by lia.
    destruct (Z.eqb_spec (x - 1 - 1) 0) as [E2|E2].
    { intros [= <- <- <-]. assert (x = 2) by lia. subst x.
      split; [reflexivity|]. split; [reflexivity|]. split; [reflexivity|].
      intros j Hj. assert (C : j = 0 \/ j = 1) by lia.
      destruct C as [->| ->]; unfold stream_byte; simpl Z.even; cbv iota.
      - change (0 / 2) with 0. rewrite Z.add_0_r. reflexivity.
      - change (2 * (1 / 2)) with 0. rewrite Z.add_0_r. reflexivity. }
    destruct (fill_bytes fuel 299 _ _ _) as [[[l' a'] b']|] eqn:F; cbn [bind];
      [|discriminate].
    intros [= <- <- <-].
    destruct (IH (R0 + 1) (R1 + 2) (x - 1 - 1) l' a' b' ltac:(lia) ltac:(lia) ltac:(lia) F)
      as (L & A & B & N).
    split; [|split; [|split]].
    + unfold len in *. cbn [length]. lia.
    + rewrite A. f_equal.
      replace ((x - 1 - 1 + 1) / 2) with ((x + 1) / 2 - 1)
        by (Z.div_mod_to_equations; lia).
      lia.
    + rewrite B. f_equal.
      replace ((x - 1 - 1) / 2) with (x / 2 - 1) by (Z.div_mod_to_equations; lia).
      lia.
    + intros j Hj.
      destruct (Z.eq_dec j 0) as [->|J0].
      { unfold stream_byte. simpl Z.even. cbv iota.
        change (0 / 2) with 0. rewrite Z.add_0_r. reflexivity. }
      destruct (Z.eq_dec j 1) as [->|J1].
      { unfold stream_byte. simpl Z.even. cbv iota.
        change (2 * (1 / 2)) with 0. rewrite Z.add_0_r. reflexivity. }
      replace (Z.to_nat j) with (S (S (Z.to_nat (j - 2)))) by lia.
      cbn [nth]. rewrite N by lia. apply stream_byte_shift. lia.
Qed.

(** The pixel bytes of [n] generated rows. *)
Lemma image_bytes_nth n : forall w filter f R0 R1 y l s',
  0 <= R0 -> 0 <= R1 -> 1 <= w < 4294967296 ->
  image_bytes n 299 w filter (f, R0 mod 299, R1 mod 299, y) = Some (l, s') ->
  forall i x, 0 <= i < Z.of_nat n -> 0 <= x < w ->
    nth (Z.to_nat (i * (w + 1) + 1 + x)) l 0
    = stream_byte (R0 + i * ((w + 1) / 2)) (R1 + 2 * (i * (w / 2))) x.
Proof.
  induction n as [|n IH]; intros w filter f R0 R1 y l s' H0 H1 Hw;
    cbn [image_bytes]; intros H i x Hi Hx.
  - lia.
  - unfold row_bytes in H.
    destruct (row_filter filter f y) as [b f'].
    destruct (fill_bytes _ 299 (R0 mod 299) (R1 mod 299) w) as [[[lr a] b']|] eqn:F;
      cbn [bind] in H; [|discriminate].
    destruct (fill_bytes_nth _ R0 R1 w lr a b' H0 H1 Hw F) as (L & A & B & N).
    subst a b'.
    destruct (image_bytes n 299 w filter _) as [[l1 s2]|] eqn:I; cbn [bind] in H;
      [|discriminate].
    injection H as <- <-.
    assert (C0 : 0 <= (w + 1) / 2) by (apply Z.div_pos; lia).
    assert (C1 : 0 <= w / 2) by (apply Z.div_pos; lia).
    assert (Lr : length (b :: lr) = Z.to_nat (w + 1)) by (unfold len in L; cbn [length]; lia).
    change (b :: lr ++ l1) with ((b :: lr) ++ l1).
    destruct (Z.eq_dec i 0) as [->|Hn].
    + rewrite !Z.mul_0_l, Z.mul_0_r, !Z.add_0_r, Z.add_0_l.
      rewrite app_nth1 by (rewrite Lr; lia).
      replace (Z.to_nat (1 + x)) with (S (Z.to_nat x)) by lia.
      cbn [nth]. apply N. exact Hx.
    + assert (Hge : w + 1 <= i * (w + 1)) by nia.
      rewrite app_nth2 by (rewrite Lr; lia).
      rewrite Lr.
      replace (Z.to_nat (i * (w + 1) + 1 + x) - Z.to_nat (w + 1))%nat
        with (Z.to_nat ((i - 1) * (w + 1) + 1 + x)) by lia.
      rewrite (IH w filter f' (R0 + (w + 1) / 2) (R1 + 2 * (w / 2)) (u32 (y + 1)) l1 s2)
        by (try exact I; lia).
      f_equal; lia.
Qed.

(** X24: the pixel bytes of a generated image, in closed form: byte [x] of
    row [y] is the entry of [OptDePngRandomData] at index
    [(seed + y * ceil(w'/2) + x/2) mod 299] when [x] is even and at index
    [(seed * 33 + 2 * (y * floor(w'/2) + x/2)) mod 299] when [x] is odd, where
    [w' = w * bpp] is the number of pixel bytes of a row and [seed * 33] is
    the 32-bit product. *)
Theorem OptDePngRandomImage_pixel_bytes :
  forall junk w h bpp filter seed img,
    0 <= seed -> 1 <= h < 4294967296 -> 0 <= filter < 4294967296 ->
    OptDePngRandomImage junk w h bpp filter seed = Some img ->
    let w' := u32 (w * bpp) in
    forall y x, 0 <= y < h -> 0 <= x < w' ->
      byte_at img (y * (w' + 1) + 1 + x)
      = nth (Z.to_nat
               (if Z.even x
                then (seed + y * ((w' + 1) / 2) + x / 2) mod 299
                else (u32 (seed * 33) + 2 * (y * (w' / 2) + x / 2)) mod 299))
            OptDePngRandomData 0.
Proof.
  intros junk w h bpp filter seed img Hs Hh Hf G w' y x Hy Hx.
  destruct (gen_image_facts junk w h bpp filter seed img ltac:(lia) Hf ltac:(lia) G)
    as (W1 & _).
  fold w' in W1.
  rewrite gen_char in G by lia. fold w' in G.
  destruct (image_bytes _ 299 w' filter _) as [[l s']|] eqn:I; [|discriminate].
  destruct (len l =? _); [|discriminate]. injection G as <-.
  pose proof (u32_range (w * bpp)) as Rw. fold w' in Rw.
  pose proof (u32_range (seed * 33)) as Rs.
  unfold byte_at.
  rewrite (image_bytes_nth _ w' filter filter seed (u32 (seed * 33)) 0 l s'
             Hs ltac:(lia) ltac:(lia) I y x) by (rewrite ?Z2Nat.id by lia; lia).
  unfold stream_byte.
  replace (u32 (seed * 33) + 2 * (y * (w' / 2)) + 2 * (x / 2))
    with (u32 (seed * 33) + 2 * (y * (w' / 2) + x / 2)) by lia.
  reflexivity.
Qed.

Lemma OptDePngRandomImage_pixel_bytes_witness :
  exists img,
    OptDePngRandomImage (fun _ => 0) 3 3 1 5 7 = Some img /\
    let w' := u32 (3 * 1) in
    forall y x, 0 <= y < 3 -> 0 <= x < w' ->
      byte_at img (y * (w' + 1) + 1 + x)
      = nth (Z.to_nat
               (if Z.even x
                then (7 + y * ((w' + 1) / 2) + x / 2) mod 299
                else (u32 (7 * 33) + 2 * (y * (w' / 2) + x / 2)) mod 299))
            OptDePngRandomData 0.
Proof.
  eexists. split; [vm_compute; reflexivity|].
  apply (OptDePngRandomImage_pixel_bytes (fun _ => 0) 3 3 1 5 7); try lia.
  vm_compute. reflexivity.
Defined.


(** * What a successful check certifies, for any two kernels *)

(** ** [OptDePngCompare] answers true only on equal bytes it could read *)

Lemma compare_bytes_true n : forall (A B : mem) pA pB i,
  compare_bytes n A B pA pB i = Some true ->
  forall j, 0 <= j < Z.of_nat n ->
    exists v, ld A (pA + i + j) = Some v /\ ld B (pB + i + j) = Some v.
Proof.
  induction n as [|n IH]; intros A B pA pB i H j Hj; [lia|].
  cbn [compare_bytes] in H.
  destruct (ld A (pA + i)) as [a|] eqn:LA; [cbn [bind] in H | discriminate H].
  destruct (ld B (pB + i)) as [b|] eqn:LB; [cbn [bind] in H | discriminate H].
  destruct (Z.eqb_spec a b) as [->|Ne]; cbn [negb] in H; [|discriminate H].
  destruct (Z.eq_dec j 0) as [->|Hn].
  - rewrite !Z.add_0_r. eauto.
  - destruct (IH A B pA pB (i + 1) H (j - 1) ltac:(lia)) as (v & V1 & V2).
    replace (pA + (i + 1) + (j - 1)) with (pA + i + j) in V1 by lia.
    replace (pB + (i + 1) + (j - 1)) with (pB + i + j) in V2 by lia.
    eauto.
Qed.

Lemma compare_pixels_some n : forall (A B : mem) bpp pA pB r,
  0 <= bpp ->
  compare_pixels n A B bpp pA pB = Some (Some r) ->
  r = (pA + Z.of_nat n * bpp, pB + Z.of_nat n * bpp) /\
  forall j, 0 <= j < Z.of_nat n * bpp ->
    exists v, ld A (pA + j) = Some v /\ ld B (pB + j) = Some v.
Proof.
  induction n as [|n IH]; intros A B bpp pA pB r Hb H; cbn [compare_pixels] in H.
  - injection H as <-. split; [f_equal; lia | intros j Hj; lia].
  - destruct (compare_bytes (Z.to_nat bpp) A B pA pB 0) as [ok|] eqn:C;
      [cbn [bind] in H | discriminate H].
    destruct ok; [|discriminate H].
    destruct (IH A B bpp (pA + bpp) (pB + bpp) r Hb H) as [-> N].
    split; [f_equal; lia|].
    intros j Hj. destruct (Z.lt_ge_cases j bpp) as [L|L].
    + destruct (compare_bytes_true _ _ _ _ _ _ C j ltac:(lia)) as (v & V1 & V2).
      rewrite !Z.add_0_r in V1, V2. eauto.
    + destruct (N (j - bpp) ltac:(lia)) as (v & V1 & V2).
      replace (pA + bpp + (j - bpp)) with (pA + j) in V1 by lia.
      replace (pB + bpp + (j - bpp)) with (pB + j) in V2 by lia.
      eauto.
Qed.

Lemma compare_rows_true n : forall (A B : mem) w bpp pA pB,
  0 <= w -> 0 <= bpp ->
  compare_rows n A B w bpp pA pB = Some true ->
  forall j, 0 <= j < Z.of_nat n * (w * bpp + 1) ->
    exists v, ld A (pA + j) = Some v /\ ld B (pB + j) = Some v.
Proof.
  induction n as [|n IH]; intros A B w bpp pA pB Hw Hb H j Hj; [lia|].
  assert (Hwb : 0 <= w * bpp) by (apply Z.mul_nonneg_nonneg; lia).
  cbn [compare_rows] in H.
  destruct (ld A pA) as [a|] eqn:LA; [cbn [bind] in H | discriminate H].
  destruct (ld B pB) as [b|] eqn:LB; [cbn [bind] in H | discriminate H].
  destruct (Z.eqb_spec a b) as [->|Ne]; cbn [negb] in H; [|discriminate H].
  destruct (b >=? kPngFilterCount); [discriminate H|].
  destruct (compare_pixels (Z.to_nat w) A B bpp (pA + 1) (pB + 1)) as [r|] eqn:C;
    [cbn [bind] in H | discriminate H].
  destruct r as [[qA qB]|]; [|discriminate H].
  destruct (compare_pixels_some _ _ _ _ _ _ _ Hb C) as [E N].
  rewrite Z2Nat.id in E, N by lia. injection E as -> ->.
  destruct (Z.eq_dec j 0) as [->|Hn]; [rewrite !Z.add_0_r; eauto|].
  destruct (Z.lt_ge_cases j (w * bpp + 1)) as [L|L].
  - destruct (N (j - 1) ltac:(lia)) as (v & V1 & V2).
    replace (pA + 1 + (j - 1)) with (pA + j) in V1 by lia.
    replace (pB + 1 + (j - 1)) with (pB + j) in V2 by lia.
    eauto.
  - destruct (IH A B w bpp _ _ Hw Hb H (j - (w * bpp + 1)) ltac:(lia)) as (v & V1 & V2).
    replace (pA + 1 + w * bpp + (j - (w * bpp + 1))) with (pA + j) in V1 by lia.
    replace (pB + 1 + w * bpp + (j - (w * bpp + 1))) with (pB + j) in V2 by lia.
    eauto.
Qed.

Lemma compare_true (A B : mem) w h bpp bpl :
  0 <= w -> 0 <= bpp -> 0 <= h -> bpl = w * bpp + 1 ->
  OptDePngCompare A B w h bpp bpl = Some true ->
  forall a, 0 <= a < h * bpl -> exists v, ld A a = Some v /\ ld B a = Some v.
Proof.
  intros Hw Hb Hh -> H a Ha. unfold OptDePngCompare in H.
  destruct (negb _); [discriminate H|].
  destruct (compare_rows_true _ _ _ _ _ _ _ Hw Hb H a) as (v & V1 & V2).
  - rewrite Z2Nat.id by lia. exact Ha.
  - rewrite Z.add_0_l in V1, V2. eauto.
Qed.

(** ** The loops of [OptDePngCheck] *)

(** A loop over [seed] whose body adds [K] to it and establishes [G]. *)
Lemma for_loop_all (cond : Z -> bool) (body : Z -> Z -> option (option Z))
    (G : Z -> Z -> Prop) K lo0 hi :
  0 <= K -> cond hi = false ->
  (forall i s s1, lo0 <= i < hi -> 0 <= s -> s + K < 4294967296 ->
     body i s = Some (Some s1) -> s1 = s + K /\ G i s) ->
  forall fuel lo s s',
    lo0 <= lo -> 0 <= lo <= hi -> hi < 4294967296 ->
    (forall i, lo <= i < hi -> cond i = true) ->
    0 <= s -> s + (hi - lo) * K < 4294967296 ->
    for_loop fuel cond lo body s = Some (Some s') ->
    s' = s + (hi - lo) * K /\
    forall i, lo <= i < hi -> G i (s + (i - lo) * K).
Proof.
  intros HK Hend Hbody.
  induction fuel as [|fuel IH]; intros lo s s' Hlo0 Hlo Hhi Hc Hs Hb H.
  - cbn [for_loop] in H. destruct (Z.eq_dec lo hi) as [->|Hne].
    + rewrite Hend in H. injection H as <-.
      split; [lia | intros i Hi; lia].
    + rewrite Hc in H by lia. discriminate H.
  - cbn [for_loop] in H. destruct (Z.eq_dec lo hi) as [->|Hne].
    + rewrite Hend in H. injection H as <-.
      split; [lia | intros i Hi; lia].
    + rewrite Hc in H by lia.
      destruct (body lo s) as [[s1|]|] eqn:B; cbn [bind] in H; try discriminate H.
      assert (HK1 : K <= (hi - lo) * K) by nia.
      destruct (Hbody lo s s1 ltac:(lia) Hs ltac:(lia) B) as [-> G0].
      rewrite u32_small in H by lia.
      destruct (IH (lo + 1) (s + K) s' ltac:(lia) ltac:(lia) Hhi) as [E N];
        try lia; try exact H.
      * intros i Hi. apply Hc. lia.
      * split; [lia|]. intros i Hi. destruct (Z.eq_dec i lo) as [->|Hn'].
        -- replace (s + (lo - lo) * K) with s by lia. exact G0.
        -- specialize (N i ltac:(lia)).
           replace (s + K + (i - (lo + 1)) * K) with (s + (i - lo) * K) in N by lia.
           exact N.
Qed.

Lemma bpp_data_range i : 0 <= i < 6 -> 1 <= nth (Z.to_nat i) OptDePngBppData 0 <= 8.
Proof.
  intros H.
  assert (C : i = 0 \/ i = 1 \/ i = 2 \/ i = 3 \/ i = 4 \/ i = 5) by lia.
  destruct C as [->|[->|[->|[->|[->| ->]]]]]; simpl; lia.
Qed.

Section CheckSound.
Variable heap : Z -> Z * (Z -> Z).
Variables ref opt : OptDePngFilterFunc.

(** One image of the check: [seed] is its number. *)
Lemma check_image_inv filter h w bppIndex seed s1 :
  1 <= h < 20 -> 1 <= w < 100 -> 0 <= bppIndex < 6 ->
  0 <= seed -> seed + 1 < 4294967296 ->
  check_image heap ref opt filter h w bppIndex seed = Some (Some s1) ->
  s1 = seed + 1 /\ check_agrees heap ref opt filter h w bppIndex seed.
Proof.
  intros Hh Hw Hi Hs Hs1 H. unfold check_image in H. cbv zeta in H.
  unfold check_agrees. cbv zeta.
  pose proof (bpp_data_range bppIndex Hi) as B8.
  set (bpp := nth (Z.to_nat bppIndex) OptDePngBppData 0) in *. clearbody bpp.
  assert (W1 : 1 <= w * bpp <= 792) by nia.
  rewrite (u32_small (w * bpp + 1)) in H by lia.
  rewrite (generated_image_same (snd (heap (2 * seed + 1))) (snd (heap (2 * seed)))) in H
    by lia.
  destruct (OptDePngRandomImage _ w h bpp filter seed) as [img|] eqn:G; [|discriminate H].
  cbn [bind] in H.
  destruct (ref _ img h bpp (w * bpp + 1)) as [outRef|] eqn:R; [|discriminate H].
  cbn [bind] in H.
  destruct (opt _ img h bpp (w * bpp + 1)) as [outOpt|] eqn:O; [|discriminate H].
  cbn [bind] in H.
  destruct (OptDePngCompare outRef outOpt w h bpp (w * bpp + 1)) as [ok|] eqn:C;
    [|discriminate H].
  cbn [bind] in H. destruct ok; cbn [negb] in H; [|discriminate H].
  rewrite u32_small in H by lia. injection H as <-.
  split; [reflexivity|].
  exists img, outRef, outOpt.
  split; [reflexivity|]. split; [exact R|]. split; [exact O|].
  apply (compare_true outRef outOpt w h bpp (w * bpp + 1)); try lia. exact C.
Qed.

Lemma check_level_bpp filter h w s s' :
  1 <= h < 20 -> 1 <= w < 100 -> 0 <= s -> s + 6 < 4294967296 ->
  for_loop 6 (fun bppIndex => bppIndex <? 6) 0 (check_image heap ref opt filter h w) s
  = Some (Some s') ->
  s' = s + 6 /\
  forall b, 0 <= b < 6 -> check_agrees heap ref opt filter h w b (s + b).
Proof.
  intros Hh Hw Hs Hs' L.
  destruct (for_loop_all (fun bppIndex => bppIndex <? 6)
              (check_image heap ref opt filter h w)
              (fun b s => check_agrees heap ref opt filter h w b s)
              1 0 6 ltac:(lia) eq_refl) with (fuel := 6%nat) (lo := 0) (s := s) (s' := s')
    as [E N]; try lia; try exact L.
  - intros b s5 s6 Hb5 Hs5 Hs6 Lc.
    apply (check_image_inv filter h w b s5 s6); try lia. exact Lc.
  - split; [lia|]. intros b Hb. specialize (N b Hb).
    replace (s + (b - 0) * 1) with (s + b) in N by lia. exact N.
Qed.

Lemma check_level_w filter h s s' :
  1 <= h < 20 -> 0 <= s -> s + 99 * 6 < 4294967296 ->
  for_loop 99 (fun w => w <? 100) 1
    (fun w => for_loop 6 (fun bppIndex => bppIndex <? 6) 0
                (check_image heap ref opt filter h w)) s
  = Some (Some s') ->
  s' = s + 99 * 6 /\
  forall w b, 1 <= w < 100 -> 0 <= b < 6 ->
    check_agrees heap ref opt filter h w b (s + (w - 1) * 6 + b).
Proof.
  intros Hh Hs Hs' L.
  destruct (for_loop_all (fun w => w <? 100)
              (fun w => for_loop 6 (fun bppIndex => bppIndex <? 6) 0
                          (check_image heap ref opt filter h w))
              (fun w s => forall b, 0 <= b < 6 ->
                 check_agrees heap ref opt filter h w b (s + b))
              6 1 100 ltac:(lia) eq_refl) with (fuel := 99%nat) (lo := 1) (s := s) (s' := s')
    as [E N]; try lia; try exact L.
  - intros w s3 s4 Hw Hs3 Hs4 Lb.
    apply (check_level_bpp filter h w s3 s4); try lia. exact Lb.
  - split; [lia|]. intros w b Hw Hb. exact (N w Hw b Hb).
Qed.

Lemma check_level_h filter s s' :
  0 <= s -> s + 19 * 99 * 6 < 4294967296 ->
  for_loop 19 (fun h => h <? 20) 1
    (fun h => for_loop 99 (fun w => w <? 100) 1
                (fun w => for_loop 6 (fun bppIndex => bppIndex <? 6) 0
                            (check_image heap ref opt filter h w))) s
  = Some (Some s') ->
  s' = s + 19 * 99 * 6 /\
  forall h w b, 1 <= h < 20 -> 1 <= w < 100 -> 0 <= b < 6 ->
    check_agrees heap ref opt filter h w b (s + ((h - 1) * 99 + (w - 1)) * 6 + b).
Proof.
  intros Hs Hs' L.
  destruct (for_loop_all (fun h => h <? 20)
              (fun h => for_loop 99 (fun w => w <? 100) 1
                          (fun w => for_loop 6 (fun bppIndex => bppIndex <? 6) 0
                                      (check_image heap ref opt filter h w)))
              (fun h s => forall w b, 1 <= w < 100 -> 0 <= b < 6 ->
                 check_agrees heap ref opt filter h w b (s + (w - 1) * 6 + b))
              (99 * 6) 1 20 ltac:(lia) eq_refl)
    with (fuel := 19%nat) (lo := 1) (s := s) (s' := s')
    as [E N]; try lia; try exact L.
  - intros h s3 s4 Hh Hs3 Hs4 Lw.
    apply (check_level_w filter h s3 s4); try lia. exact Lw.
  - split; [lia|]. intros h w b Hh Hw Hb. specialize (N h Hh w b Hw Hb).
    replace (s + ((h - 1) * 99 + (w - 1)) * 6 + b)
      with (s + (h - 1) * (99 * 6) + (w - 1) * 6 + b) by lia.
    exact N.
Qed.

Lemma check_inv :
  OptDePngCheck heap ref opt = Some true ->
  forall filter h w bppIndex,
    0 <= filter <= 5 -> 1 <= h < 20 -> 1 <= w < 100 -> 0 <= bppIndex < 6 ->
    check_agrees heap ref opt filter h w bppIndex
      (((filter * 19 + (h - 1)) * 99 + (w - 1)) * 6 + bppIndex).
Proof.
  intros H. unfold OptDePngCheck in H.
  destruct (for_loop 6 _ 0 _ 0) as [[s'|]|] eqn:L; try discriminate H. clear H.
  destruct (for_loop_all (fun filter => filter <=? kPngFilterCount)
              (fun filter =>
                 for_loop 19 (fun h => h <? 20) 1
                   (fun h => for_loop 99 (fun w => w <? 100) 1
                      (fun w => for_loop 6 (fun bppIndex => bppIndex <? 6) 0
                                  (check_image heap ref opt filter h w))))
              (fun filter s => forall h w b, 1 <= h < 20 -> 1 <= w < 100 -> 0 <= b < 6 ->
                 check_agrees heap ref opt filter h w b
                   (s + ((h - 1) * 99 + (w - 1)) * 6 + b))
              (19 * 99 * 6) 0 6 ltac:(lia) eq_refl)
    with (fuel := 6%nat) (lo := 0) (s := 0) (s' := s')
    as [E N]; try lia; try exact L.
  - intros f s3 s4 Hf Hs3 Hs4 Lh.
    apply (check_level_h f s3 s4); try lia. exact Lh.
  - intros i Hi. apply Z.leb_le. unfold kPngFilterCount. lia.
  - intros filter h w b Hf Hh Hw Hb.
    specialize (N filter ltac:(lia) h w b Hh Hw Hb).
    replace (((filter * 19 + (h - 1)) * 99 + (w - 1)) * 6 + b)
      with (0 + (filter - 0) * (19 * 99 * 6) + ((h - 1) * 99 + (w - 1)) * 6 + b) by lia.
    exact N.
Qed.
End CheckSound.

(** X25: what a successful check certifies, for any two kernels: when
    [OptDePngCheck] returns true, then for every filter in [0, 5], height in
    [1, 19], width in [1, 99] and pixel size of [OptDePngBppData], the image
    generated with the seed [((filter * 19 + (h - 1)) * 99 + (w - 1)) * 6 +
    bppIndex] was filtered by both kernels without a fault, and the two
    results hold the same [h * bpl] bytes. *)
Theorem OptDePngCheck_true_certifies :
  forall (heap : Z -> Z * (Z -> Z)) (ref opt : OptDePngFilterFunc),
    OptDePngCheck heap ref opt = Some true ->
    forall filter h w bppIndex,
      0 <= filter <= 5 -> 1 <= h < 20 -> 1 <= w < 100 -> 0 <= bppIndex < 6 ->
      let bpp := nth (Z.to_nat bppIndex) OptDePngBppData 0 in
      let bpl := w * bpp + 1 in
      let seed := ((filter * 19 + (h - 1)) * 99 + (w - 1)) * 6 + bppIndex in
      exists img outRef outOpt,
        OptDePngRandomImage (snd (heap (2 * seed))) w h bpp filter seed = Some img /\
        ref (fst (heap (2 * seed))) img h bpp bpl = Some outRef /\
        opt (fst (heap (2 * seed + 1))) img h bpp bpl = Some outOpt /\
        forall a, 0 <= a < h * bpl ->
          exists v, ld outRef a = Some v /\ ld outOpt a = Some v.
Proof.
  intros heap ref opt H filter h w bppIndex Hf Hh Hw Hb.
  exact (check_inv heap ref opt H filter h w bppIndex Hf Hh Hw Hb).
Qed.

Lemma OptDePngCheck_true_certifies_witness :
  let heap := fun k : Z => (16 * k, fun _ : Z => 0) in
  let bpp := nth (Z.to_nat 3) OptDePngBppData 0 in
  let bpl := 5 * bpp + 1 in
  let seed := ((4 * 19 + (3 - 1)) * 99 + (5 - 1)) * 6 + 3 in
  exists img outRef outOpt,
    OptDePngRandomImage (snd (heap (2 * seed))) 5 3 bpp 4 seed = Some img /\
    FilterRef (fst (heap (2 * seed))) img 3 bpp bpl = Some outRef /\
    FilterSSE2 (fst (heap (2 * seed + 1))) img 3 bpp bpl = Some outOpt /\
    forall a, 0 <= a < 3 * bpl ->
      exists v, ld outRef a = Some v /\ ld outOpt a = Some v.
Proof.
  intros heap.
  apply (OptDePngCheck_true_certifies heap FilterRef FilterSSE2); try lia.
  apply check_ok. intros base m h bpp bpl. right. reflexivity.
Defined.

